(** * The reactivity core of vuejs-core, embedded in Rocq

    The development follows [packages/reactivity]: [effect.ts] (the
    dependency graph, [ReactiveEffect], [track] and [trigger]),
    [baseHandlers.ts] (the proxy traps of plain objects and arrays),
    [ref.ts] ([RefImpl]) and [computed.ts] ([ComputedRefImpl]).

    JavaScript objects live in a heap indexed by addresses; effects and
    dependency sets ([Dep]) live in stores of their own, indexed by
    identifiers, so that a [Dep] shared between the graph store and the
    [deps] array of an effect is one cell, as in the source.  User code (the
    function wrapped by an effect, a scheduler, an [onStop] hook, the
    setter of a computed) is a program over the public operations of the
    library; the library interprets it through a handler, and the nesting of
    runs inside runs is bounded by fuel.

    The production build is modelled ([__DEV__] is false): the debugger
    hooks [onTrack] and [onTrigger] and the console diagnostics are
    compiled out. *)

From Stdlib Require Import ZArith.
From stdpp Require Import gmap strings list fin_maps pretty.

Local Open Scope Z_scope.

(** ** Property keys and values *)

Abbreviation addr := nat.
Abbreviation eid := nat.
Abbreviation did := nat.

(** Symbols used as keys.  [ITERATE_KEY] and [MAP_KEY_ITERATE_KEY] are
    the two symbols of [effect.ts]; [BuiltInSymbol] stands for the members
    of [builtInSymbols] (the well-known symbols such as [Symbol.iterator]);
    [UserSymbol] for any other symbol. *)
Inductive symbol :=
| ITERATE_KEY
| MAP_KEY_ITERATE_KEY
| BuiltInSymbol (i : nat)
| UserSymbol (i : nat).

(** A property key.  [KIdx i] is the canonical decimal string of the
    array index [i] (the keys for which [isIntegerKey] holds); [KStr s] is
    any other string. *)
Inductive pkey :=
| KStr (s : string)
| KIdx (i : N)
| KSym (y : symbol).

#[global] Instance symbol_eq_dec : EqDecision symbol.
Proof. solve_decision. Defined.

#[global] Instance pkey_eq_dec : EqDecision pkey.
Proof. solve_decision. Defined.

Definition symbol_encode (y : symbol) : nat + nat + bool :=
  match y with
  | ITERATE_KEY => inr true
  | MAP_KEY_ITERATE_KEY => inr false
  | BuiltInSymbol i => inl (inl i)
  | UserSymbol i => inl (inr i)
  end.

Definition symbol_decode (x : nat + nat + bool) : symbol :=
  match x with
  | inr true => ITERATE_KEY
  | inr false => MAP_KEY_ITERATE_KEY
  | inl (inl i) => BuiltInSymbol i
  | inl (inr i) => UserSymbol i
  end.

#[global] Instance symbol_countable : Countable symbol.
Proof.
  apply (inj_countable' symbol_encode symbol_decode).
  intros []; reflexivity.
Defined.

Definition pkey_encode (k : pkey) : string + N + symbol :=
  match k with
  | KStr s => inl (inl s)
  | KIdx i => inl (inr i)
  | KSym y => inr y
  end.

Definition pkey_decode (x : string + N + symbol) : pkey :=
  match x with
  | inl (inl s) => KStr s
  | inl (inr i) => KIdx i
  | inr y => KSym y
  end.

#[global] Instance pkey_countable : Countable pkey.
Proof.
  apply (inj_countable' pkey_encode pkey_decode).
  intros []; reflexivity.
Defined.

(** The four wrappers of [reactive.ts]: [reactive], [shallowReactive],
    [readonly] and [shallowReadonly]. *)
Inductive proxy_kind := Reactive | ShallowReactive | Readonly | ShallowReadonly.

#[global] Instance proxy_kind_eq_dec : EqDecision proxy_kind.
Proof. solve_decision. Defined.

(** JavaScript values.  Numbers are the integers, the negative zero and
    [NaN]; an object is its address; a proxy is the pair of its kind and of
    the address of its raw target, which is its identity because the proxy
    maps of [reactive.ts] keep one wrapper per kind and raw object.
    [VFn name] is a built-in or instrumented function. *)
Inductive value :=
| VUndefined
| VNull
| VBool (b : bool)
| VNum (z : Z)
| VNegZero
| VNaN
| VStr (s : string)
| VFn (name : string)
| VObj (a : addr)
| VProxy (k : proxy_kind) (a : addr).

#[global] Instance value_eq_dec : EqDecision value.
Proof. solve_decision. Defined.

Definition TypeError : value := VStr "TypeError".
Definition RangeError : value := VStr "RangeError".

(** ** Objects *)

(** [RefImpl] of [ref.ts]. *)
Record RefImpl := mkRef {
  r_value : value;          (* _value *)
  r_rawValue : value;       (* _rawValue *)
  r_dep : option did;       (* dep *)
  r_isShallow : bool        (* __v_isShallow *)
}.

(** [ComputedRefImpl] of [computed.ts]. *)
Record ComputedRefImpl := mkComputed {
  c_value : value;          (* _value *)
  c_dirty : bool;           (* _dirty *)
  c_cacheable : bool;       (* _cacheable *)
  c_dep : option did;       (* dep *)
  c_effect : eid;           (* effect *)
  c_isReadonly : bool       (* [ReactiveFlags.IS_READONLY] *)
}.

(** A heap object: a plain object with its own data properties, an array
    with its length and its own properties, a keyed collection (only its
    kind matters to [trigger]), a ref or a computed ref.  The properties are
    ordinary data properties, writable and configurable: no object is frozen
    or sealed and none has accessors; the [length] of an array is the one
    property that is not configurable. *)
Inductive obj :=
| OPlain (props : gmap pkey value)
| OArray (len : N) (props : gmap pkey value)
| OCollection (is_map : bool)
| ORef (r : RefImpl)
| OComputed (c : ComputedRefImpl).

(** ** Effects and dependency sets *)

(** The mutable fields of a [ReactiveEffect]. *)
Record ReactiveEffect := mkEffect {
  active : bool;
  deps : list did;
  parent : option eid;
  computed : option addr;
  allowRecurse : bool
}.

(** The state of an effect right after [new ReactiveEffect(fn)]. *)
Definition newReactiveEffect : ReactiveEffect :=
  {| active := true; deps := []; parent := None; computed := None;
     allowRecurse := false |}.

(** A [Dep]: a [Set] of effects, kept in insertion order, with the two
    marker bit-fields [w] and [n]. *)
Record Dep := mkDep {
  dep_set : list eid;
  dep_w : Z;
  dep_n : Z
}.

Inductive TrackOpTypes := GET | HAS | ITERATE.
Inductive TriggerOpTypes := SET | ADD | DELETE | CLEAR.

#[global] Instance TriggerOpTypes_eq_dec : EqDecision TriggerOpTypes.
Proof. solve_decision. Defined.

(** ** Call trace

    A ghost record of the calls the claims speak about: [EvTrigger] at
    every entry of [trigger], [EvRun] at every entry of
    [ReactiveEffect.run], [EvFn] when [run] invokes the wrapped function,
    [EvScheduler] when [triggerEffects] invokes a scheduler. *)
Inductive event :=
| EvTrigger (target : addr) (type : TriggerOpTypes) (key : option pkey)
| EvRun (e : eid)
| EvFn (e : eid)
| EvScheduler (e : eid).

#[global] Instance event_eq_dec : EqDecision event.
Proof. solve_decision. Defined.

(** ** The state of the module *)

Record state := mkState {
  heap : gmap addr obj;
  nextObj : addr;
  effects : gmap eid ReactiveEffect;
  depStore : gmap did Dep;
  nextDep : did;
  targetMap : gmap addr (list (pkey * did));
  activeEffect : option eid;
  shouldTrack : bool;
  trackStack : list bool;
  effectTrackDepth : Z;
  trackOpBit : Z;
  trace : list event
}.

Definition upd_heap (f : gmap addr obj → gmap addr obj) (st : state) : state :=
  mkState (f (heap st)) (nextObj st) (effects st) (depStore st) (nextDep st)
    (targetMap st) (activeEffect st) (shouldTrack st) (trackStack st)
    (effectTrackDepth st) (trackOpBit st) (trace st).

Definition set_nextObj (x : addr) (st : state) : state :=
  mkState (heap st) x (effects st) (depStore st) (nextDep st)
    (targetMap st) (activeEffect st) (shouldTrack st) (trackStack st)
    (effectTrackDepth st) (trackOpBit st) (trace st).

Definition upd_effects (f : gmap eid ReactiveEffect → gmap eid ReactiveEffect)
    (st : state) : state :=
  mkState (heap st) (nextObj st) (f (effects st)) (depStore st) (nextDep st)
    (targetMap st) (activeEffect st) (shouldTrack st) (trackStack st)
    (effectTrackDepth st) (trackOpBit st) (trace st).

Definition upd_depStore (f : gmap did Dep → gmap did Dep) (st : state) : state :=
  mkState (heap st) (nextObj st) (effects st) (f (depStore st)) (nextDep st)
    (targetMap st) (activeEffect st) (shouldTrack st) (trackStack st)
    (effectTrackDepth st) (trackOpBit st) (trace st).

Definition set_nextDep (x : did) (st : state) : state :=
  mkState (heap st) (nextObj st) (effects st) (depStore st) x
    (targetMap st) (activeEffect st) (shouldTrack st) (trackStack st)
    (effectTrackDepth st) (trackOpBit st) (trace st).

Definition upd_targetMap
    (f : gmap addr (list (pkey * did)) → gmap addr (list (pkey * did)))
    (st : state) : state :=
  mkState (heap st) (nextObj st) (effects st) (depStore st) (nextDep st)
    (f (targetMap st)) (activeEffect st) (shouldTrack st) (trackStack st)
    (effectTrackDepth st) (trackOpBit st) (trace st).

Definition set_activeEffect (x : option eid) (st : state) : state :=
  mkState (heap st) (nextObj st) (effects st) (depStore st) (nextDep st)
    (targetMap st) x (shouldTrack st) (trackStack st)
    (effectTrackDepth st) (trackOpBit st) (trace st).

Definition set_shouldTrack (x : bool) (st : state) : state :=
  mkState (heap st) (nextObj st) (effects st) (depStore st) (nextDep st)
    (targetMap st) (activeEffect st) x (trackStack st)
    (effectTrackDepth st) (trackOpBit st) (trace st).

Definition set_trackStack (x : list bool) (st : state) : state :=
  mkState (heap st) (nextObj st) (effects st) (depStore st) (nextDep st)
    (targetMap st) (activeEffect st) (shouldTrack st) x
    (effectTrackDepth st) (trackOpBit st) (trace st).

Definition set_effectTrackDepth (x : Z) (st : state) : state :=
  mkState (heap st) (nextObj st) (effects st) (depStore st) (nextDep st)
    (targetMap st) (activeEffect st) (shouldTrack st) (trackStack st)
    x (trackOpBit st) (trace st).

Definition set_trackOpBit (x : Z) (st : state) : state :=
  mkState (heap st) (nextObj st) (effects st) (depStore st) (nextDep st)
    (targetMap st) (activeEffect st) (shouldTrack st) (trackStack st)
    (effectTrackDepth st) x (trace st).

Definition record (ev : event) (st : state) : state :=
  mkState (heap st) (nextObj st) (effects st) (depStore st) (nextDep st)
    (targetMap st) (activeEffect st) (shouldTrack st) (trackStack st)
    (effectTrackDepth st) (trackOpBit st) (trace st ++ [ev]).

(** An effect that was never written to is in the state its constructor
    left it in; a dependency set that was never written to is empty. *)
Definition eff (st : state) (e : eid) : ReactiveEffect :=
  default newReactiveEffect (effects st !! e).

Definition emptyDep : Dep := {| dep_set := []; dep_w := 0; dep_n := 0 |}.

Definition dep (st : state) (d : did) : Dep :=
  default emptyDep (depStore st !! d).

Definition upd_eff (e : eid) (f : ReactiveEffect → ReactiveEffect) (st : state) : state :=
  upd_effects (<[e := f (eff st e)]>) st.

Definition upd_dep (d : did) (f : Dep → Dep) (st : state) : state :=
  upd_depStore (<[d := f (dep st d)]>) st.

Definition set_active (b : bool) (x : ReactiveEffect) : ReactiveEffect :=
  mkEffect b (deps x) (parent x) (computed x) (allowRecurse x).

Definition set_deps (l : list did) (x : ReactiveEffect) : ReactiveEffect :=
  mkEffect (active x) l (parent x) (computed x) (allowRecurse x).

Definition set_parent (p : option eid) (x : ReactiveEffect) : ReactiveEffect :=
  mkEffect (active x) (deps x) p (computed x) (allowRecurse x).

Definition set_dep_set (l : list eid) (x : Dep) : Dep :=
  mkDep l (dep_w x) (dep_n x).

Definition set_dep_w (z : Z) (x : Dep) : Dep :=
  mkDep (dep_set x) z (dep_n x).

Definition set_dep_n (z : Z) (x : Dep) : Dep :=
  mkDep (dep_set x) (dep_w x) z.

(** ** Outcomes and user programs *)

(** The result of a call: a value and the state it leaves, an exception
    and the state it leaves, or no result (the call does not return within
    the fuel, or leaves the modelled fragment of JavaScript). *)
Inductive outcome (A : Type) :=
| Done (a : A) (st : state)
| Raised (x : value) (st : state)
| NoResult.

Arguments Done {A} a st.
Arguments Raised {A} x st.
Arguments NoResult {A}.

Definition bind {A B : Type} (m : outcome A) (k : A → state → outcome B) : outcome B :=
  match m with
  | Done a st => k a st
  | Raised x st => Raised x st
  | NoResult => NoResult
  end.

Notation "'call' x 'at' s ':=' m 'in' k" := (bind m (fun x s => k))
  (at level 10, x name, s name, m at level 100, k at level 200, only parsing).

(** The result of a step that leaves the state alone: a value, an
    exception, or no result (the step leaves the modelled fragment of
    JavaScript). *)
Inductive completion (A : Type) :=
| Normal (a : A)
| Abrupt (x : value)
| Unmodelled.

Arguments Normal {A} a.
Arguments Abrupt {A} x.
Arguments Unmodelled {A}.

Definition lift {A : Type} (c : completion A) (st : state) : outcome A :=
  match c with
  | Normal a => Done a st
  | Abrupt x => Raised x st
  | Unmodelled => NoResult
  end.

(** [try { m } finally { f }]: [f] runs on the state of both exits. *)
Definition finally {A : Type} (m : outcome A) (f : state → state) : outcome A :=
  match m with
  | Done a st => Done a (f st)
  | Raised x st => Raised x (f st)
  | NoResult => NoResult
  end.

(** The operations user code performs on the library.  [OpOwnKeys] gives
    the keys as a set: the order in which [Reflect.ownKeys] lists them
    depends on the order in which the properties were created, which the
    heap does not keep. *)
Inductive operation : Type → Type :=
| OpGet (o : value) (k : pkey) : operation value               (* o[k] *)
| OpSet (o : value) (k : pkey) (v : value) : operation bool    (* Reflect.set(o, k, v) *)
| OpDelete (o : value) (k : pkey) : operation bool             (* delete o[k] *)
| OpHas (o : value) (k : pkey) : operation bool                (* k in o *)
| OpOwnKeys (o : value) : operation (gset pkey)                (* Reflect.ownKeys(o) *)
| OpCallMethod (o : value) (m : string) (args : list value) : operation value
| OpRun (e : eid) : operation value                            (* effect.run() *)
| OpStop (e : eid) : operation unit                            (* effect.stop() *)
| OpPauseTracking : operation unit
| OpEnableTracking : operation unit
| OpResetTracking : operation unit
| OpCreateRef (v : value) (shallow : bool) : operation value   (* ref(v), shallowRef(v) *)
| OpComputedScheduler (c : addr) : operation unit.
  (* the scheduler closure built by the constructor of ComputedRefImpl *)

(** A user program: it returns, throws, performs an operation and goes on
    with its result, or runs a block under [try] and goes on with the value
    of the block, or with the value of the [catch] clause when the block
    threw: [try { v = body } catch (x) { v = handler(x) }; k(v)]. *)
Inductive prog (R : Type) : Type :=
| Ret (r : R)
| Throw (x : value)
| Vis {X : Type} (op : operation X) (k : X → prog R)
| Try (body : prog value) (handler : value → prog value) (k : value → prog R).

Arguments Ret {R} r.
Arguments Throw {R} x.
Arguments Vis {R X} op k.
Arguments Try {R} body handler k.

Fixpoint pbind {A B : Type} (p : prog A) (f : A → prog B) : prog B :=
  match p with
  | Ret a => f a
  | Throw x => Throw x
  | Vis op k => Vis op (fun x => pbind (k x) f)
  | Try body handler k => Try body handler (fun x => pbind (k x) f)
  end.

Definition perform {X : Type} (op : operation X) : prog X := Vis op Ret.

Definition handler := ∀ X : Type, operation X → state → outcome X.

Fixpoint interp {R : Type} (h : handler) (p : prog R) (st : state) : outcome R :=
  match p with
  | Ret r => Done r st
  | Throw x => Raised x st
  | Vis op k => call x at st' := h _ op st in interp h (k x) st'
  | Try body handler k =>
      match interp h body st with
      | Done v st' => interp h (k v) st'
      | Raised x st' => call v at st'' := interp h (handler x) st' in interp h (k v) st''
      | NoResult => NoResult
      end
  end.

(** The code of the application: what each effect wraps, its scheduler
    and [onStop] hook when it has them, the setter of each computed ref,
    and the built-in array methods. *)
Record program := mkProgram {
  fn : eid → prog value;
  scheduler : eid → option (prog unit);
  onStop : eid → option (prog unit);
  setter : addr → value → prog unit;
  native : string → value → list value → prog value
}.

(** ** Helpers of [@vue/shared] and of JavaScript *)

(** 32-bit two's complement wrap-around of the bit operators. *)
Definition to_int32 (z : Z) : Z := (z + 2 ^ 31) mod 2 ^ 32 - 2 ^ 31.

(** [a << b]: the shift count is taken modulo 32, the result is an int32. *)
Definition js_shl (a b : Z) : Z := to_int32 (Z.shiftl a (b mod 32)).

(** Strict equality [===]: [NaN] differs from itself, the two zeros are equal. *)
Definition strict_equals (a b : value) : bool :=
  match a, b with
  | VNaN, _ | _, VNaN => false
  | VNum 0, VNegZero | VNegZero, VNum 0 => true
  | _, _ => bool_decide (a = b)
  end.

(** [Object.is]: the same-value comparison; [NaN] is the same value as [NaN]. *)
Definition Object_is (a b : value) : bool := bool_decide (a = b).

(** Modelled from the spec: [hasChanged] of [@vue/shared], which is not
    among the sources: the "did the underlying raw value actually change"
    comparison, a same-value comparison under which [NaN] equals [NaN]. *)
Definition hasChanged (value oldValue : value) : bool := negb (Object_is value oldValue).

(** Modelled from the spec: [isIntegerKey] of [@vue/shared]: the key is
    the decimal string of an array index. *)
Definition isIntegerKey (key : pkey) : bool :=
  match key with KIdx _ => true | _ => false end.

(** Modelled from the spec: [isSymbol] of [@vue/shared]. *)
Definition isSymbol (key : pkey) : bool :=
  match key with KSym _ => true | _ => false end.

(** Modelled from the spec: [isObject] of [@vue/shared]: the value is an
    object (a raw object or a proxy), not a primitive nor a function. *)
Definition isObject (v : value) : bool :=
  match v with VObj _ | VProxy _ _ => true | _ => false end.

(** Truthiness, for [!!x]. *)
Definition truthy (v : value) : bool :=
  match v with
  | VUndefined | VNull | VBool false | VNum 0 | VNegZero | VNaN | VStr "" => false
  | _ => true
  end.

(** Modelled from the spec: [isArray] of [@vue/shared], [Array.isArray]. *)
Definition isArray (st : state) (target : addr) : bool :=
  match heap st !! target with Some (OArray _ _) => true | _ => false end.

(** Modelled from the spec: [isMap] of [@vue/shared]: the object is a [Map]. *)
Definition isMap (st : state) (target : addr) : bool :=
  match heap st !! target with Some (OCollection true) => true | _ => false end.

(** The own data properties of an object; the length of an array is an own
    property of it. *)
Definition own_props (o : obj) : gmap pkey value :=
  match o with
  | OPlain props => props
  | OArray len props => <[KStr "length" := VNum (Z.of_N len)]> props
  | _ => ∅
  end.

(** Modelled from the spec: [hasOwn] of [@vue/shared]:
    [Object.prototype.hasOwnProperty]. *)
Definition hasOwn (st : state) (target : addr) (key : pkey) : bool :=
  match heap st !! target with
  | Some o => bool_decide (is_Some (own_props o !! key))
  | None => false
  end.

(** [target[key]] on a raw plain object or array, for the properties the
    object owns.  The functions of the built-in prototypes are not values of
    the heap: a property the object only inherits reads as [undefined]
    here. *)
Definition raw_get (st : state) (target : addr) (key : pkey) : value :=
  match heap st !! target with
  | Some o => default VUndefined (own_props o !! key)
  | None => VUndefined
  end.

(** *** Strings as numbers

    [StringToNumber] of ECMAScript.  A character of a string of the model
    is a code unit below 256; the value of a numeric string is kept exact,
    as [± m · 10^e], and is compared with integers before any rounding. *)
Definition code_units (s : string) : list N :=
  map Ascii.N_of_ascii (String.list_ascii_of_string s).

(** [StrWhiteSpaceChar]: TAB, LF, VT, FF, CR, SP and NBSP. *)
Definition is_StrWhiteSpaceChar (c : N) : bool :=
  bool_decide (c ∈ [9; 10; 11; 12; 13; 32; 160]%N).

Fixpoint skip_whitespace (l : list N) : list N :=
  match l with
  | c :: l' => if is_StrWhiteSpaceChar c then skip_whitespace l' else l
  | [] => []
  end.

Definition trim (l : list N) : list N :=
  rev (skip_whitespace (rev (skip_whitespace l))).

(** The value of the digit [c] in the radix, if it is one. *)
Definition digit_value (radix c : N) : option N :=
  let d :=
    if (48 <=? c)%N && (c <=? 57)%N then Some (c - 48)%N
    else if (97 <=? c)%N && (c <=? 102)%N then Some (c - 87)%N
    else if (65 <=? c)%N && (c <=? 70)%N then Some (c - 55)%N
    else None in
  match d with
  | Some x => if (x <? radix)%N then Some x else None
  | None => None
  end.

(** The longest prefix of digits of [l]: its value on top of [acc], the
    number of its digits on top of [count], and what follows it. *)
Fixpoint read_digits (radix : N) (l : list N) (acc : N) (count : nat) : N * nat * list N :=
  match l with
  | c :: l' =>
      match digit_value radix c with
      | Some d => read_digits radix l' (radix * acc + d)%N (S count)
      | None => (acc, count, l)
      end
  | [] => (acc, count, [])
  end.

Inductive StringNumber :=
| SNaN
| SInfinity (negative : bool)
| SDecimal (negative : bool) (m : N) (e : Z).   (* [± m · 10^e] *)

(** [ExponentPart], optional, up to the end of the string. *)
Definition ExponentPart (l : list N) : option Z :=
  match l with
  | [] => Some 0
  | c :: l1 =>
      if bool_decide (c ∈ [101; 69]%N) then
        let '(negative, l2) :=
          match l1 with
          | 43%N :: r => (false, r)
          | 45%N :: r => (true, r)
          | _ => (false, l1)
          end in
        let '(v, n, rest) := read_digits 10 l2 0 0 in
        if bool_decide (n ≠ 0%nat) && bool_decide (rest = [])
        then Some (if negative then - Z.of_N v else Z.of_N v)
        else None
      else None
  end.

(** [StrUnsignedDecimalLiteral]: [Infinity], or digits with an optional
    fraction and exponent; one digit at least before or after the point. *)
Definition StrUnsignedDecimalLiteral (negative : bool) (l : list N) : StringNumber :=
  if bool_decide (l = code_units "Infinity") then SInfinity negative
  else
    let '(ip, ni, r1) := read_digits 10 l 0 0 in
    let '(m, nf, r2) :=
      match r1 with
      | 46%N :: r => read_digits 10 r ip 0
      | _ => (ip, 0%nat, r1)
      end in
    if bool_decide (ni = 0%nat) && bool_decide (nf = 0%nat) then SNaN
    else
      match ExponentPart r2 with
      | Some e => SDecimal negative m (e - Z.of_nat nf)
      | None => SNaN
      end.

(** [0x], [0o] and [0b] literals, which take no sign. *)
Definition NonDecimalIntegerLiteral (radix : N) (l : list N) : StringNumber :=
  let '(v, n, rest) := read_digits radix l 0 0 in
  if bool_decide (n ≠ 0%nat) && bool_decide (rest = []) then SDecimal false v 0 else SNaN.

Definition StringToNumber (s : string) : StringNumber :=
  match trim (code_units s) with
  | [] => SDecimal false 0 0
  | 43%N :: l => StrUnsignedDecimalLiteral false l
  | 45%N :: l => StrUnsignedDecimalLiteral true l
  | 48%N :: c :: l =>
      if bool_decide (c ∈ [120; 88]%N) then NonDecimalIntegerLiteral 16 l
      else if bool_decide (c ∈ [111; 79]%N) then NonDecimalIntegerLiteral 8 l
      else if bool_decide (c ∈ [98; 66]%N) then NonDecimalIntegerLiteral 2 l
      else StrUnsignedDecimalLiteral false (48%N :: c :: l)
  | l => StrUnsignedDecimalLiteral false l
  end.

(** [num / den ≤ ± m · 10^e] and [± m · 10^e ≤ num / den], for [0 < den]. *)
Definition decimal_ge (negative : bool) (m : N) (e : Z) (num den : Z) : bool :=
  let x := if negative then - Z.of_N m else Z.of_N m in
  if 0 <=? e then num <=? den * x * 10 ^ e else num * 10 ^ (- e) <=? den * x.

Definition decimal_le (negative : bool) (m : N) (e : Z) (num den : Z) : bool :=
  let x := if negative then - Z.of_N m else Z.of_N m in
  if 0 <=? e then den * x * 10 ^ e <=? num else den * x <=? num * 10 ^ (- e).

(** [ToNumber(s) >= n] for an integer [n].  The Number value of a string
    is its exact value rounded to a double, and an integer of magnitude
    below [2^32] is a double: an exact value of [n] or more gives [true],
    one of [n - 2^-20] or less gives [false]; in between the answer depends
    on the rounding, which is not modelled. *)
Definition string_ge_number (s : string) (n : Z) : completion bool :=
  match StringToNumber s with
  | SNaN => Normal false
  | SInfinity negative => Normal (negb negative)
  | SDecimal negative m e =>
      if decimal_ge negative m e n 1 then Normal true
      else if (Z.abs n <? 2 ^ 32) && decimal_le negative m e (2 ^ 20 * n - 1) (2 ^ 20)
      then Normal false
      else Unmodelled
  end.

(** The length [ArraySetLength] gives an array for the value [v]:
    [ToUint32(v)] when it is the same number as [ToNumber(v)], a
    [RangeError] otherwise.  An object or a function is converted by its own
    methods, which is outside the model, and so is a numeric string whose
    value is within [2^-20] of a valid length without being one. *)
Definition array_length_of_string (s : string) : completion N :=
  match StringToNumber s with
  | SNaN | SInfinity _ => Abrupt RangeError
  | SDecimal negative m e =>
      if bool_decide (m = 0%N) then Normal 0%N
      else if negative then
        if decimal_le true m e (-1) (2 ^ 20) then Abrupt RangeError else Unmodelled
      else if decimal_ge false m e (2 ^ 32) 1 then Abrupt RangeError
      else if 0 <=? e then Normal (m * Z.to_N (10 ^ e))%N
      else
        let D := Z.to_N (10 ^ (- e)) in
        let r := (m mod D)%N in
        if bool_decide (r = 0%N) then Normal (m / D)%N
        else if (D <=? 2 ^ 20 * r)%N && (D <=? 2 ^ 20 * (D - r))%N then Abrupt RangeError
        else Unmodelled
  end.

Definition array_length_of (v : value) : completion N :=
  match v with
  | VNum z => if (0 <=? z) && (z <? 2 ^ 32) then Normal (Z.to_N z) else Abrupt RangeError
  | VNegZero | VNull => Normal 0%N
  | VBool b => Normal (if b then 1 else 0)%N
  | VUndefined | VNaN => Abrupt RangeError
  | VStr s => array_length_of_string s
  | VFn _ | VObj _ | VProxy _ _ => Unmodelled
  end.

(** The ordinary [[Set]] of a data property on a raw plain object or
    array.  On an array, an array index (an integer key below [2^32 - 1]) at
    or beyond the length extends the array, and a write to [length] converts
    the value as [ArraySetLength] does and drops the indices at or beyond the
    new length.  The properties of the other objects of the heap are their
    fields: a write to one of them is outside the model. *)
Definition raw_set (a : addr) (key : pkey) (v : value) (st : state) : completion state :=
  match heap st !! a with
  | Some (OPlain props) => Normal (upd_heap (<[a := OPlain (<[key := v]> props)]>) st)
  | Some (OArray len props) =>
      match key with
      | KIdx i =>
          let len' := if (i <? 2 ^ 32 - 1)%N then N.max len (i + 1) else len in
          Normal (upd_heap (<[a := OArray len' (<[key := v]> props)]>) st)
      | KStr "length" =>
          match array_length_of v with
          | Normal n =>
              let keep (kv : pkey * value) :=
                match kv.1 with
                | KIdx i => negb (i <? 2 ^ 32 - 1)%N || (i <? n)%N
                | _ => true
                end in
              Normal (upd_heap (<[a := OArray n (filter (fun kv => keep kv = true) props)]>) st)
          | Abrupt x => Abrupt x
          | Unmodelled => Unmodelled
          end
      | _ => Normal (upd_heap (<[a := OArray len (<[key := v]> props)]>) st)
      end
  | _ => Unmodelled
  end.

(** [Reflect.deleteProperty] on a raw object; the [length] of an array is
    not configurable, and deleting an index leaves a hole. *)
Definition raw_delete (a : addr) (key : pkey) (st : state) : bool * state :=
  match heap st !! a with
  | Some (OPlain props) => (true, upd_heap (<[a := OPlain (delete key props)]>) st)
  | Some (OArray len props) =>
      if bool_decide (key = KStr "length") then (false, st)
      else (true, upd_heap (<[a := OArray len (delete key props)]>) st)
  | _ => (true, st)
  end.

(** ** [reactive.ts] *)

(** Modelled from the spec: [toRaw] of [reactive.ts], which is not among
    the sources: it returns the underlying raw object of a wrapper and is a
    no-op on a value that is not wrapped. *)
Definition toRaw (v : value) : value :=
  match v with VProxy _ a => VObj a | _ => v end.

(** Modelled from the spec: [reactive] of [reactive.ts]: the mutable deep
    wrapper of a raw object, the same wrapper instance for the same raw
    object; a value that is already wrapped, or is not an object, is
    returned as it is. *)
Definition reactive (v : value) : value :=
  match v with VObj a => VProxy Reactive a | _ => v end.

(** Modelled from the spec: [readonly] of [reactive.ts]: the readonly deep
    wrapper of a raw object; a readonly wrapper, or a value that is not an
    object, is returned as it is.  The readonly view of a mutable wrapper is
    a proxy whose target is that wrapper, which the values of the model do
    not represent: [None]. *)
Definition readonly (v : value) : option value :=
  match v with
  | VObj a => Some (VProxy Readonly a)
  | VProxy Reactive _ | VProxy ShallowReactive _ => None
  | _ => Some v
  end.

(** Modelled from the spec: [toReactive] of [reactive.ts]: an object value
    is wrapped on demand, another value is stored as it is. *)
Definition toReactive (v : value) : value :=
  if isObject v then reactive v else v.

Definition kind_isReadonly (k : proxy_kind) : bool :=
  match k with Readonly | ShallowReadonly => true | _ => false end.

Definition kind_isShallow (k : proxy_kind) : bool :=
  match k with ShallowReactive | ShallowReadonly => true | _ => false end.

(** Modelled from the spec: [isReadonly] of [reactive.ts]:
    [!!(value && value.__v_isReadonly)].  Through a proxy the flag is
    answered by [createGetter]; a computed ref carries it as a field. *)
Definition isReadonly (st : state) (v : value) : bool :=
  match v with
  | VProxy k _ => kind_isReadonly k
  | VObj a =>
      match heap st !! a with
      | Some (OComputed c) => c_isReadonly c
      | Some (ORef _) => false
      | Some o => truthy (default VUndefined (own_props o !! KStr "__v_isReadonly"))
      | None => false
      end
  | _ => false
  end.

(** Modelled from the spec: [isShallow] of [reactive.ts]:
    [!!(value && value.__v_isShallow)].  A [RefImpl] carries the flag as a
    field. *)
Definition isShallow (st : state) (v : value) : bool :=
  match v with
  | VProxy k _ => kind_isShallow k
  | VObj a =>
      match heap st !! a with
      | Some (ORef r) => r_isShallow r
      | Some (OComputed _) => false
      | Some o => truthy (default VUndefined (own_props o !! KStr "__v_isShallow"))
      | None => false
      end
  | _ => false
  end.

(** [isRef] of [ref.ts]: [!!(r && r.__v_isRef === true)].  The key
    [__v_isRef] is not trackable, so the test has no effect through a
    proxy either. *)
Definition isRef (st : state) (r : value) : bool :=
  match r with
  | VObj a | VProxy _ a =>
      match heap st !! a with
      | Some (ORef _) | Some (OComputed _) => true
      | Some o => bool_decide (own_props o !! KStr "__v_isRef" = Some (VBool true))
      | None => false
      end
  | _ => false
  end.

(** ** [Set] of effects, in insertion order *)

Definition set_has (e : eid) (s : list eid) : bool := bool_decide (e ∈ s).

Definition set_add (e : eid) (s : list eid) : list eid :=
  if set_has e s then s else s ++ [e].

Definition set_delete (e : eid) (s : list eid) : list eid :=
  filter (fun x => x ≠ e) s.

(** [new Set(effects)]. *)
Definition set_of_list (effects : list eid) : list eid :=
  foldl (fun s e => set_add e s) [] effects.

(** ** [dep.ts] *)

Definition maxMarkerBits : Z := 30.

(** Modelled from the spec: [createDep] of [dep.ts], which is not among
    the sources: a new cell, a set of subscribers with its two bit-fields
    cleared. *)
Definition createDep (effects : list eid) : Dep :=
  {| dep_set := set_of_list effects; dep_w := 0; dep_n := 0 |}.

(** Modelled from the spec: [wasTracked] of [dep.ts]: the cell was tracked
    in a previous generation at the current depth,
    [(dep.w & trackOpBit) > 0]. *)
Definition wasTracked (st : state) (d : did) : bool :=
  0 <? Z.land (dep_w (dep st d)) (trackOpBit st).

(** Modelled from the spec: [newTracked] of [dep.ts]: the cell is newly
    tracked in this generation, [(dep.n & trackOpBit) > 0]. *)
Definition newTracked (st : state) (d : did) : bool :=
  0 <? Z.land (dep_n (dep st d)) (trackOpBit st).

(** Modelled from the spec: [initDepMarkers] of [dep.ts]: at the start of
    a run every cell of the effect is marked as tracked previously,
    [deps[i].w |= trackOpBit]. *)
Definition initDepMarkers (e : eid) (st : state) : state :=
  foldl (fun s d => upd_dep d (fun x => set_dep_w (Z.lor (dep_w x) (trackOpBit s)) x) s)
    st (deps (eff st e)).

Definition clear_markers (bit : Z) (x : Dep) : Dep :=
  mkDep (dep_set x) (Z.land (dep_w x) (Z.lnot bit)) (Z.land (dep_n x) (Z.lnot bit)).

(** The loop of [finalizeDepMarkers]: [kept] is the prefix [deps[0..ptr)]. *)
Fixpoint finalize_loop (e : eid) (ds kept : list did) (st : state) : list did * state :=
  match ds with
  | [] => (kept, st)
  | d :: ds' =>
      let prune := wasTracked st d && negb (newTracked st d) in
      let st1 :=
        if prune then upd_dep d (fun x => set_dep_set (set_delete e (dep_set x)) x) st
        else st in
      let st2 := upd_dep d (clear_markers (trackOpBit st1)) st1 in
      finalize_loop e ds' (if prune then kept else kept ++ [d]) st2
  end.

(** Modelled from the spec: [finalizeDepMarkers] of [dep.ts]: at the end
    of a run a cell that was tracked in a previous generation and not in
    this one is pruned (the subscriber is removed from it and it leaves
    [deps]); the two bits of the generation are cleared. *)
Definition finalizeDepMarkers (e : eid) (st : state) : state :=
  match deps (eff st e) with
  | [] => st
  | ds =>
      let '(kept, st') := finalize_loop e ds [] st in
      upd_eff e (set_deps kept) st'
  end.

(** ** [effect.ts], [ref.ts], [computed.ts], [baseHandlers.ts]

    The library, over the code of the application and a handler [h] for
    the operations of the user code it calls back. *)

Fixpoint map_get (m : list (pkey * did)) (key : pkey) : option did :=
  match m with
  | [] => None
  | (k, d) :: m' => if bool_decide (k = key) then Some d else map_get m' key
  end.

(** [ToNumber] on a primitive value that is not a string; [None] is
    [NaN]. *)
Definition to_number (v : value) : option Z :=
  match v with
  | VNum z => Some z
  | VNegZero | VNull => Some 0
  | VBool b => Some (if b then 1 else 0)
  | _ => None
  end.

(** [key >= newValue] in the [forEach] of [trigger], where [key] is a
    string or a symbol.  Against a string the key is compared as a string,
    code unit by code unit; against another primitive value it is converted
    to a number, which a symbol refuses with a [TypeError]; an object or a
    function is first converted by its own methods, which is outside the
    model. *)
Definition key_ge (key : pkey) (newValue : value) : completion bool :=
  match newValue with
  | VObj _ | VProxy _ _ | VFn _ => Unmodelled
  | VStr t =>
      match key with
      | KSym _ => Abrupt TypeError
      | KStr s => Normal (negb (String.ltb s t))
      | KIdx i => Normal (negb (String.ltb (pretty i) t))
      end
  | _ =>
      match key with
      | KSym _ => Abrupt TypeError
      | KIdx i =>
          Normal (match to_number newValue with Some z => z <=? Z.of_N i | None => false end)
      | KStr s =>
          match to_number newValue with
          | Some z => string_ge_number s z
          | None => Normal false
          end
      end
  end.

(** The walk of [run] up the [parent] chain: [Some true] when [e] is met,
    [Some false] when the chain ends, [None] when it does not end within
    [n] steps. *)
Fixpoint chain_has (n : nat) (st : state) (p : option eid) (e : eid) : option bool :=
  match p with
  | None => Some false
  | Some x =>
      if bool_decide (x = e) then Some true
      else match n with
           | O => None
           | S n' => chain_has n' st (parent (eff st x)) e
           end
  end.

Definition lengthAltering : list string := ["push"; "pop"; "shift"; "unshift"; "splice"].
Definition identitySensitive : list string := ["includes"; "indexOf"; "lastIndexOf"].

Definition ReactiveFlags_IS_REACTIVE : pkey := KStr "__v_isReactive".
Definition ReactiveFlags_IS_READONLY : pkey := KStr "__v_isReadonly".
Definition ReactiveFlags_IS_SHALLOW : pkey := KStr "__v_isShallow".
Definition ReactiveFlags_RAW : pkey := KStr "__v_raw".

(** [makeMap(`__proto__,__v_isRef,__isVue`)] *)
Definition isNonTrackableKeys (key : pkey) : bool :=
  match key with
  | KStr s => bool_decide (s ∈ ["__proto__"; "__v_isRef"; "__isVue"])
  | _ => false
  end.

Definition builtInSymbols_has (key : pkey) : bool :=
  match key with KSym (BuiltInSymbol _) => true | _ => false end.

Definition proxy_kind_of (isReadonly shallow : bool) : proxy_kind :=
  match isReadonly, shallow with
  | false, false => Reactive
  | false, true => ShallowReactive
  | true, false => Readonly
  | true, true => ShallowReadonly
  end.

Definition upd_ref (a : addr) (f : RefImpl → RefImpl) (st : state) : state :=
  match heap st !! a with
  | Some (ORef r) => upd_heap (<[a := ORef (f r)]>) st
  | _ => st
  end.

Definition upd_computed (a : addr) (f : ComputedRefImpl → ComputedRefImpl)
    (st : state) : state :=
  match heap st !! a with
  | Some (OComputed c) => upd_heap (<[a := OComputed (f c)]>) st
  | _ => st
  end.

Definition set_c_dirty (b : bool) (c : ComputedRefImpl) : ComputedRefImpl :=
  mkComputed (c_value c) b (c_cacheable c) (c_dep c) (c_effect c) (c_isReadonly c).

Definition set_c_value (v : value) (c : ComputedRefImpl) : ComputedRefImpl :=
  mkComputed v (c_dirty c) (c_cacheable c) (c_dep c) (c_effect c) (c_isReadonly c).

Definition set_c_dep (d : option did) (c : ComputedRefImpl) : ComputedRefImpl :=
  mkComputed (c_value c) (c_dirty c) (c_cacheable c) d (c_effect c) (c_isReadonly c).

Definition set_r_dep (d : option did) (r : RefImpl) : RefImpl :=
  mkRef (r_value r) (r_rawValue r) d (r_isShallow r).

(** The [dep] field of a ref or of a computed ref. *)
Definition ref_dep (st : state) (a : addr) : option did :=
  match heap st !! a with
  | Some (ORef r) => r_dep r
  | Some (OComputed c) => c_dep c
  | _ => None
  end.

Definition set_ref_dep (a : addr) (d : did) (st : state) : state :=
  upd_computed a (set_c_dep (Some d)) (upd_ref a (set_r_dep (Some d)) st).

(** *** Tracking context *)

Definition pauseTracking (st : state) : state :=
  set_shouldTrack false (set_trackStack (shouldTrack st :: trackStack st) st).

Definition enableTracking (st : state) : state :=
  set_shouldTrack true (set_trackStack (shouldTrack st :: trackStack st) st).

Definition resetTracking (st : state) : state :=
  match trackStack st with
  | [] => set_shouldTrack true st
  | last :: rest => set_shouldTrack last (set_trackStack rest st)
  end.

(** *** Graph edges *)

Definition cleanupEffect (effect : eid) (st : state) : state :=
  match deps (eff st effect) with
  | [] => st
  | ds =>
      upd_eff effect (set_deps [])
        (foldl (fun s d => upd_dep d (fun x => set_dep_set (set_delete effect (dep_set x)) x) s)
           st ds)
  end.

(** [trackEffects(dep)]; [e] is [activeEffect!], which both callers have
    tested. *)
Definition trackEffects (e : eid) (d : did) (st : state) : state :=
  let '(shouldTrack_, st1) :=
    if effectTrackDepth st <=? maxMarkerBits then
      if negb (newTracked st d) then
        (negb (wasTracked st d),
         upd_dep d (fun x => set_dep_n (Z.lor (dep_n x) (trackOpBit st)) x) st)
      else (false, st)
    else (negb (set_has e (dep_set (dep st d))), st) in
  if shouldTrack_ then
    upd_eff e (fun x => set_deps (deps x ++ [d]) x)
      (upd_dep d (fun x => set_dep_set (set_add e (dep_set x)) x) st1)
  else st1.

(** [createDep()] for a cell that is stored in the graph: the new cell
    gets the next identifier of the store of dependency sets. *)
Definition alloc_dep (st : state) : did * state :=
  let d := nextDep st in
  (d, set_nextDep (S d) (upd_depStore (<[d := createDep []]>) st)).

Definition track (target : addr) (type : TrackOpTypes) (key : pkey) (st : state) : state :=
  match activeEffect st with
  | Some e =>
      if shouldTrack st then
        let depsMap := default [] (targetMap st !! target) in
        match map_get depsMap key with
        | Some d => trackEffects e d st
        | None =>
            let '(d, st1) := alloc_dep st in
            trackEffects e d (upd_targetMap (<[target := depsMap ++ [(key, d)]]>) st1)
        end
      else st
  | None => st
  end.

Definition trackRefValue (ref : addr) (st : state) : state :=
  match activeEffect st with
  | Some e =>
      if shouldTrack st then
        match heap st !! ref with
        | Some (ORef _) | Some (OComputed _) =>
            match ref_dep st ref with
            | Some d => trackEffects e d st
            | None =>
                let '(d, st1) := alloc_dep st in
                trackEffects e d (set_ref_dep ref d st1)
            end
        | _ => st
        end
      else st
  | None => st
  end.

(** The cells [trigger] collects, in order; [None] stands for
    [undefined], the result of [depsMap.get] on a key never tracked.  In the
    [forEach] over the keys of an array whose [length] is written, the first
    comparison that throws, or that is outside the model, ends the loop. *)
Definition affected (st : state) (target : addr) (type : TriggerOpTypes)
    (key : option pkey) (newValue : value) (depsMap : list (pkey * did))
    : completion (list (option did)) :=
  if bool_decide (type = CLEAR) then Normal (map (fun kd => Some kd.2) depsMap)
  else if bool_decide (key = Some (KStr "length")) && isArray st target then
    foldr (fun kd acc =>
             match (if bool_decide (kd.1 = KStr "length") then Normal true
                    else key_ge kd.1 newValue) with
             | Normal true =>
                 match acc with
                 | Normal l => Normal (Some kd.2 :: l)
                 | _ => acc
                 end
             | Normal false => acc
             | Abrupt x => Abrupt x
             | Unmodelled => Unmodelled
             end) (Normal []) depsMap
  else
    Normal
      ((match key with Some k => [map_get depsMap k] | None => [] end) ++
       match type with
       | ADD =>
           if negb (isArray st target) then
             map_get depsMap (KSym ITERATE_KEY) ::
             (if isMap st target then [map_get depsMap (KSym MAP_KEY_ITERATE_KEY)] else [])
           else if match key with Some k => isIntegerKey k | None => false end then
             [map_get depsMap (KStr "length")]
           else []
       | DELETE =>
           if negb (isArray st target) then
             map_get depsMap (KSym ITERATE_KEY) ::
             (if isMap st target then [map_get depsMap (KSym MAP_KEY_ITERATE_KEY)] else [])
           else []
       | SET =>
           if isMap st target then [map_get depsMap (KSym ITERATE_KEY)] else []
       | CLEAR => []
       end).

(** The effects of the cells that are defined, cell after cell:
    [effects.push(...dep)]. *)
Definition effects_of (st : state) (ds : list (option did)) : list eid :=
  concat (map (fun od => match od with Some d => dep_set (dep st d) | None => [] end) ds).

Section library.

Context (code : program) (h : handler).

(** *** [ReactiveEffect] *)

(** [this.fn()] *)
Definition call_fn (e : eid) (st : state) : outcome value :=
  interp h (fn code e) (record (EvFn e) st).

(** The statements of the [try] block of [run] before the call of [fn]. *)
Definition run_enter (e : eid) (st : state) : state :=
  let st1 := upd_eff e (set_parent (activeEffect st)) st in
  let st2 := set_shouldTrack true (set_activeEffect (Some e) st1) in
  let depth := effectTrackDepth st2 + 1 in
  let st3 := set_trackOpBit (js_shl 1 depth) (set_effectTrackDepth depth st2) in
  if effectTrackDepth st3 <=? maxMarkerBits then initDepMarkers e st3
  else cleanupEffect e st3.

(** The [finally] block of [run]. *)
Definition run_exit (e : eid) (lastShouldTrack : bool) (st : state) : state :=
  let st1 :=
    if effectTrackDepth st <=? maxMarkerBits then finalizeDepMarkers e st else st in
  let depth := effectTrackDepth st1 - 1 in
  let st2 := set_trackOpBit (js_shl 1 depth) (set_effectTrackDepth depth st1) in
  let st3 := set_activeEffect (parent (eff st2 e)) st2 in
  let st4 := set_shouldTrack lastShouldTrack st3 in
  upd_eff e (set_parent None) st4.

Definition run (e : eid) (st0 : state) : outcome value :=
  let st := record (EvRun e) st0 in
  if negb (active (eff st e)) then call_fn e st
  else
    let lastShouldTrack := shouldTrack st in
    match chain_has (S (size (effects st))) st (activeEffect st) e with
    | None => NoResult
    | Some true => Done VUndefined st
    | Some false => finally (call_fn e (run_enter e st)) (run_exit e lastShouldTrack)
    end.

Definition stop (e : eid) (st : state) : outcome unit :=
  if active (eff st e) then
    let st1 := cleanupEffect e st in
    call _u at st2 :=
      match onStop code e with
      | Some hook => interp h hook st1
      | None => Done tt st1
      end in
    Done tt (upd_eff e (set_active false) st2)
  else Done tt st.

(** *** [trigger] *)

(** [effect.scheduler()], when the effect has a scheduler: the closure of
    its computed ref, or the scheduler the application gave. *)
Definition call_scheduler (e : eid) (st : state) : option (outcome unit) :=
  match computed (eff st e) with
  | Some c => Some (h _ (OpComputedScheduler c) (record (EvScheduler e) st))
  | None =>
      match scheduler code e with
      | Some p => Some (interp h p (record (EvScheduler e) st))
      | None => None
      end
  end.

(** [triggerEffects], on the array the collection is spread into. *)
Fixpoint triggerEffects (l : list eid) (st : state) : outcome unit :=
  match l with
  | [] => Done tt st
  | effect :: l' =>
      if negb (bool_decide (Some effect = activeEffect st)) || allowRecurse (eff st effect) then
        match call_scheduler effect st with
        | Some r => call _u at st' := r in triggerEffects l' st'
        | None => call _v at st' := run effect st in triggerEffects l' st'
        end
      else triggerEffects l' st
  end.

Definition trigger (target : addr) (type : TriggerOpTypes) (key : option pkey)
    (newValue : value) (st0 : state) : outcome unit :=
  let st := record (EvTrigger target type key) st0 in
  match targetMap st !! target with
  | None => Done tt st
  | Some depsMap =>
      match affected st target type key newValue depsMap with
      | Unmodelled => NoResult
      | Abrupt x => Raised x st
      | Normal [Some d] => triggerEffects (dep_set (dep st d)) st
      | Normal [None] => Done tt st
      | Normal ds => triggerEffects (dep_set (createDep (effects_of st ds))) st
      end
  end.

(** *** [ref.ts] *)

Definition triggerRefValue (ref : addr) (st : state) : outcome unit :=
  match ref_dep st ref with
  | Some d => triggerEffects (dep_set (dep st d)) st
  | None => Done tt st
  end.

(** The constructor of [RefImpl]. *)
Definition new_RefImpl (v : value) (isShallow_ : bool) : RefImpl :=
  {| r_rawValue := if isShallow_ then v else toRaw v;
     r_value := if isShallow_ then v else toReactive v;
     r_dep := None;
     r_isShallow := isShallow_ |}.

Definition createRef (rawValue : value) (shallow : bool) (st : state) : value * state :=
  if isRef st rawValue then (rawValue, st)
  else
    let a := nextObj st in
    (VObj a, set_nextObj (S a) (upd_heap (<[a := ORef (new_RefImpl rawValue shallow)]>) st)).

Definition ref (v : value) (st : state) : value * state := createRef v false st.
Definition shallowRef (v : value) (st : state) : value * state := createRef v true st.

(** [get value()] of [RefImpl] *)
Definition RefImpl_get_value (this : addr) (r : RefImpl) (st : state) : outcome value :=
  Done (r_value r) (trackRefValue this st).

(** [set value(newVal)] of [RefImpl] *)
Definition RefImpl_set_value (this : addr) (r : RefImpl) (newVal : value) (st : state)
    : outcome unit :=
  let newVal := if r_isShallow r then newVal else toRaw newVal in
  if hasChanged newVal (r_rawValue r) then
    let r' :=
      mkRef (if r_isShallow r then newVal else toReactive newVal) newVal
        (r_dep r) (r_isShallow r) in
    triggerRefValue this (upd_heap (<[this := ORef r']>) st)
  else Done tt st.

(** *** [computed.ts] *)

(** The scheduler the constructor of [ComputedRefImpl] gives its effect. *)
Definition computed_scheduler (this : addr) (st : state) : outcome unit :=
  match heap st !! this with
  | Some (OComputed c) =>
      if negb (c_dirty c) then
        triggerRefValue this (upd_computed this (set_c_dirty true) st)
      else Done tt st
  | _ => NoResult
  end.

(** [get value()] of [ComputedRefImpl]; [self] is [toRaw(this)]. *)
Definition ComputedRefImpl_get_value (self : addr) (st : state) : outcome value :=
  let st1 := trackRefValue self st in
  match heap st1 !! self with
  | Some (OComputed c) =>
      if c_dirty c || negb (c_cacheable c) then
        let st2 := upd_computed self (set_c_dirty false) st1 in
        call v at st3 := run (c_effect c) st2 in
        Done v (upd_computed self (set_c_value v) st3)
      else Done (c_value c) st1
  | _ => NoResult
  end.

(** [set value(newValue)] of [ComputedRefImpl] *)
Definition ComputedRefImpl_set_value (this : addr) (newValue : value) (st : state)
    : outcome unit :=
  interp h (setter code this newValue) st.

(** *** [baseHandlers.ts] *)

(** [Reflect.get(target, key, receiver)] on a raw plain object or array:
    an own data property, else one of the methods of [Array.prototype] that
    the handlers instrument; another property the object only inherits reads
    as [undefined] here. *)
Definition Reflect_get (st : state) (target : addr) (key : pkey) : value :=
  match heap st !! target with
  | Some o =>
      match own_props o !! key, o, key with
      | Some v, _, _ => v
      | None, OArray _ _, KStr m =>
          if bool_decide (m ∈ lengthAltering ++ identitySensitive)
          then VFn ("Array.prototype." +:+ m) else VUndefined
      | None, _, _ => VUndefined
      end
  | None => VUndefined
  end.

(** The ordinary [[Set]] as an operation: it answers [true], or throws
    the [RangeError] of an invalid array length. *)
Definition OrdinarySet (a : addr) (key : pkey) (v : value) (st : state) : outcome bool :=
  match raw_set a key v st with
  | Normal st' => Done true st'
  | Abrupt x => Raised x st
  | Unmodelled => NoResult
  end.

(** [Reflect.set(target, key, value, receiver)] for a data property: the
    ordinary [[Set]] defines the property on the receiver, and a proxy
    without a [defineProperty] trap passes the definition to its target; a
    receiver that is not an object is refused. *)
Definition Reflect_set (target : addr) (key : pkey) (v : value) (receiver : value)
    (st : state) : outcome bool :=
  match toRaw receiver with
  | VObj b => OrdinarySet b key v st
  | _ => Done false st
  end.

(** The properties a plain object and an array inherit, in an environment
    whose prototypes the application has not changed: the members of
    [Object.prototype] and of [Array.prototype] of ECMAScript 2016, the
    edition of [Array.prototype.includes].  The methods later editions added
    to [Array.prototype] are there or not with the engine. *)
Definition Object_prototype_keys : list string :=
  ["constructor"; "hasOwnProperty"; "isPrototypeOf"; "propertyIsEnumerable";
   "toLocaleString"; "toString"; "valueOf"; "__proto__"; "__defineGetter__";
   "__defineSetter__"; "__lookupGetter__"; "__lookupSetter__"].

Definition Array_prototype_keys : list string :=
  ["length"; "concat"; "copyWithin"; "entries"; "every"; "fill"; "filter"; "find";
   "findIndex"; "forEach"; "includes"; "indexOf"; "join"; "keys"; "lastIndexOf"; "map";
   "pop"; "push"; "reduce"; "reduceRight"; "reverse"; "shift"; "slice"; "some"; "sort";
   "splice"; "unshift"; "values"].

Definition Array_prototype_later_keys : list string :=
  ["flat"; "flatMap"; "at"; "findLast"; "findLastIndex"; "toReversed"; "toSorted";
   "toSpliced"; "with"].

(** Whether the object inherits the key; [None] when that depends on the
    engine, or on which well-known symbol a built-in symbol is. *)
Definition inherits (o : obj) (key : pkey) : option bool :=
  match o, key with
  | OPlain _, KStr s => Some (bool_decide (s ∈ Object_prototype_keys))
  | OArray _ _, KStr s =>
      if bool_decide (s ∈ Object_prototype_keys ++ Array_prototype_keys) then Some true
      else if bool_decide (s ∈ Array_prototype_later_keys) then None
      else Some false
  | OArray _ _, KSym (BuiltInSymbol _) => None
  | (OPlain _ | OArray _ _), _ => Some false
  | _, _ => None
  end.

(** [Reflect.has(target, key)]: an own property or an inherited one. *)
Definition Reflect_has (st : state) (target : addr) (key : pkey) : option bool :=
  match heap st !! target with
  | Some o => if bool_decide (is_Some (own_props o !! key)) then Some true else inherits o key
  | None => None
  end.

(** The function [get] returned by [createGetter(isReadonly, shallow)]. *)
Definition createGetter (isReadonly_ shallow : bool)
    (target : addr) (key : pkey) (receiver : value) (st : state) : outcome value :=
  if bool_decide (key = ReactiveFlags_IS_REACTIVE) then Done (VBool (negb isReadonly_)) st
  else if bool_decide (key = ReactiveFlags_IS_READONLY) then Done (VBool isReadonly_) st
  else if bool_decide (key = ReactiveFlags_IS_SHALLOW) then Done (VBool shallow) st
  else if bool_decide (key = ReactiveFlags_RAW)
          && bool_decide (receiver = VProxy (proxy_kind_of isReadonly_ shallow) target)
  then Done (VObj target) st
  else
    let targetIsArray := isArray st target in
    let instrumented :=
      match key with
      | KStr m =>
          if negb isReadonly_ && targetIsArray
             && bool_decide (m ∈ identitySensitive ++ lengthAltering)
          then Some (VFn ("arrayInstrumentations." +:+ m)) else None
      | _ => None
      end in
    match instrumented with
    | Some f => Done f st
    | None =>
        let res := Reflect_get st target key in
        if (if isSymbol key then builtInSymbols_has key else isNonTrackableKeys key)
        then Done res st
        else
          let st1 := if negb isReadonly_ then track target GET key st else st in
          if shallow then Done res st1
          else if isRef st1 res then
            if negb targetIsArray || negb (isIntegerKey key)
            then h _ (OpGet res (KStr "value")) st1
            else Done res st1
          else if isObject res then
            if isReadonly_ then
              match readonly res with
              | Some wrapped => Done wrapped st1
              | None => NoResult
              end
            else Done (reactive res) st1
          else Done res st1
    end.

(** [hadKey] of the setter. *)
Definition hadKey (st : state) (target : addr) (key : pkey) : bool :=
  match heap st !! target, key with
  | Some (OArray len _), KIdx i => (i <? len)%N
  | _, _ => hasOwn st target key
  end.

(** The function [set] returned by [createSetter(shallow)]. *)
Definition createSetter (shallow : bool)
    (target : addr) (key : pkey) (v : value) (receiver : value) (st : state)
    : outcome bool :=
  let oldValue := raw_get st target key in
  if isReadonly st oldValue && isRef st oldValue && negb (isRef st v) then Done false st
  else
    let deep := negb shallow && negb (isReadonly st v) in
    let unwrap := deep && negb (isShallow st v) in
    let v' := if unwrap then toRaw v else v in
    let oldValue' := if unwrap then toRaw oldValue else oldValue in
    if deep && negb (isArray st target) && isRef st oldValue' && negb (isRef st v') then
      (* oldValue.value = value; return true *)
      call _b at st1 := h _ (OpSet oldValue' (KStr "value") v') st in
      Done true st1
    else
      let hadKey_ := hadKey st target key in
      call result at st1 := Reflect_set target key v' receiver st in
      if bool_decide (VObj target = toRaw receiver) then
        if negb hadKey_ then
          call _u at st2 := trigger target ADD (Some key) v' st1 in Done result st2
        else if hasChanged v' oldValue' then
          call _u at st2 := trigger target SET (Some key) v' st1 in Done result st2
        else Done result st1
      else Done result st1.

Definition deleteProperty (target : addr) (key : pkey) (st : state) : outcome bool :=
  let hadKey_ := hasOwn st target key in
  let '(result, st1) := raw_delete target key st in
  if result && hadKey_ then
    call _u at st2 := trigger target DELETE (Some key) VUndefined st1 in Done result st2
  else Done result st1.

Definition has_ (target : addr) (key : pkey) (st : state) : outcome bool :=
  match Reflect_has st target key with
  | Some result =>
      if negb (isSymbol key) || negb (builtInSymbols_has key)
      then Done result (track target HAS key st)
      else Done result st
  | None => NoResult
  end.

(** [Reflect.ownKeys(target)], as a set. *)
Definition Reflect_ownKeys (st : state) (target : addr) : gset pkey :=
  match heap st !! target with
  | Some o => dom (own_props o)
  | None => ∅
  end.

Definition ownKeys (target : addr) (st : state) : outcome (gset pkey) :=
  let st1 :=
    track target ITERATE (if isArray st target then KStr "length" else KSym ITERATE_KEY) st in
  Done (Reflect_ownKeys st target) st1.

(** The invariant of [[Delete]] on a proxy: when the trap answers [true]
    for a property that the target owns and that is not configurable, the
    operation throws a [TypeError].  The [length] of an array is the one
    property of the heap that is not configurable. *)
Definition proxy_delete (trap : outcome bool) (target : addr) (key : pkey) : outcome bool :=
  call result at st1 := trap in
  if result && isArray st1 target && bool_decide (key = KStr "length")
  then Raised TypeError st1
  else Done result st1.

(** [readonlyHandlers.set] and [readonlyHandlers.deleteProperty] *)
Definition readonlyHandlers_set (target : addr) (key : pkey) (st : state) : outcome bool :=
  Done true st.

Definition readonlyHandlers_deleteProperty (target : addr) (key : pkey) (st : state)
    : outcome bool :=
  Done true st.

(** The instrumentation of the methods that alter the length:
    [pauseTracking(); const res = toRaw(this)[key].apply(this, args);
     resetTracking(); return res]. *)
Definition lengthAlteringInstrumentation (key : string) (this : value) (args : list value)
    : prog value :=
  Vis OpPauseTracking (fun _ =>
  pbind (native code key this args) (fun res =>
  Vis OpResetTracking (fun _ =>
  Ret res))).

(** *** The operations of the user code *)

Definition is_base_target (st : state) (a : addr) : bool :=
  match heap st !! a with
  | Some (OPlain _) | Some (OArray _ _) => true
  | _ => false
  end.

(** [o[k]] *)
Definition op_get (o : value) (k : pkey) (st : state) : outcome value :=
  match o with
  | VProxy kind a =>
      if is_base_target st a
      then createGetter (kind_isReadonly kind) (kind_isShallow kind) a k o st
      else NoResult
  | VObj a =>
      match heap st !! a with
      | Some (ORef r) =>
          if bool_decide (k = KStr "value") then RefImpl_get_value a r st
          else if bool_decide (k = KStr "__v_isRef") then Done (VBool true) st
          else NoResult
      | Some (OComputed _) =>
          if bool_decide (k = KStr "value") then ComputedRefImpl_get_value a st
          else if bool_decide (k = KStr "__v_isRef") then Done (VBool true) st
          else NoResult
      | Some (OPlain _) | Some (OArray _ _) => Done (Reflect_get st a k) st
      | _ => NoResult
      end
  | VUndefined | VNull => Raised TypeError st
  | _ => NoResult
  end.

(** [Reflect.set(o, k, v, o)] *)
Definition op_set (o : value) (k : pkey) (v : value) (st : state) : outcome bool :=
  match o with
  | VProxy kind a =>
      if is_base_target st a then
        if kind_isReadonly kind then readonlyHandlers_set a k st
        else createSetter (kind_isShallow kind) a k v o st
      else NoResult
  | VObj a =>
      match heap st !! a with
      | Some (ORef r) =>
          if bool_decide (k = KStr "value")
          then call _u at st' := RefImpl_set_value a r v st in Done true st'
          else NoResult
      | Some (OComputed _) =>
          if bool_decide (k = KStr "value")
          then call _u at st' := ComputedRefImpl_set_value a v st in Done true st'
          else NoResult
      | Some (OPlain _) | Some (OArray _ _) => OrdinarySet a k v st
      | _ => NoResult
      end
  | _ => NoResult
  end.

(** [Reflect.deleteProperty(o, k)] *)
Definition op_delete (o : value) (k : pkey) (st : state) : outcome bool :=
  match o with
  | VProxy kind a =>
      if is_base_target st a then
        proxy_delete
          (if kind_isReadonly kind then readonlyHandlers_deleteProperty a k st
           else deleteProperty a k st) a k
      else NoResult
  | VObj a =>
      if is_base_target st a then
        let '(result, st') := raw_delete a k st in Done result st'
      else NoResult
  | _ => NoResult
  end.

(** [k in o]; the readonly handlers have no [has] trap. *)
Definition op_has (o : value) (k : pkey) (st : state) : outcome bool :=
  match o with
  | VProxy kind a =>
      if is_base_target st a then
        if kind_isReadonly kind
        then match Reflect_has st a k with Some b => Done b st | None => NoResult end
        else has_ a k st
      else NoResult
  | VObj a =>
      if is_base_target st a
      then match Reflect_has st a k with Some b => Done b st | None => NoResult end
      else NoResult
  | _ => NoResult
  end.

(** [Reflect.ownKeys(o)]; the readonly handlers have no [ownKeys] trap. *)
Definition op_ownKeys (o : value) (st : state) : outcome (gset pkey) :=
  match o with
  | VProxy kind a =>
      if is_base_target st a then
        if kind_isReadonly kind then Done (Reflect_ownKeys st a) st else ownKeys a st
      else NoResult
  | _ => NoResult
  end.

(** [o[m](...args)], for the array methods; the identity-sensitive search
    methods are not modelled. *)
Definition op_callMethod (o : value) (m : string) (args : list value) (st : state)
    : outcome value :=
  call f at st1 := op_get o (KStr m) st in
  if bool_decide (f = VFn ("arrayInstrumentations." +:+ m)) && bool_decide (m ∈ lengthAltering)
  then interp h (lengthAlteringInstrumentation m o args) st1
  else if bool_decide (f = VFn ("Array.prototype." +:+ m))
  then interp h (native code m o args) st1
  else match f with
       | VFn _ => NoResult
       | _ => Raised TypeError st1
       end.

(** One operation, with [h] for the operations it nests. *)
Definition step : handler :=
  fun X op =>
    match op in operation X return state → outcome X with
    | OpGet o k => op_get o k
    | OpSet o k v => op_set o k v
    | OpDelete o k => op_delete o k
    | OpHas o k => op_has o k
    | OpOwnKeys o => op_ownKeys o
    | OpCallMethod o m args => op_callMethod o m args
    | OpRun e => run e
    | OpStop e => stop e
    | OpPauseTracking => fun st => Done tt (pauseTracking st)
    | OpEnableTracking => fun st => Done tt (enableTracking st)
    | OpResetTracking => fun st => Done tt (resetTracking st)
    | OpCreateRef v shallow => fun st => let '(r, st') := createRef v shallow st in Done r st'
    | OpComputedScheduler c => computed_scheduler c
    end.

End library.

(** The operations of the library, for user code that nests at most
    [fuel] calls. *)
Fixpoint sem (code : program) (fuel : nat) : handler :=
  fun X op st =>
    match fuel with
    | O => NoResult
    | S fuel' => step code (sem code fuel') X op st
    end.

(** A call of the library made from outside any user code. *)
Definition exec {R : Type} (code : program) (fuel : nat) (p : prog R) (st : state)
    : outcome R :=
  interp (sem code fuel) p st.

(** The state of a freshly loaded module. *)
Definition initial : state :=
  {| heap := ∅; nextObj := 0%nat; effects := ∅; depStore := ∅; nextDep := 0%nat;
     targetMap := ∅; activeEffect := None; shouldTrack := true; trackStack := [];
     effectTrackDepth := 0; trackOpBit := 1; trace := [] |}.

(** ** The turns of [triggerEffects], in the words of the specification

    A subscriber is skipped when it is the currently active effect and
    its [allowRecurse] flag is false. *)
Definition skipped (st : state) (e : eid) : Prop :=
  activeEffect st = Some e ∧ allowRecurse (eff st e) = false.

(** A subscriber that has a scheduler is executed through it, another
    one through its [run] method. *)
Definition execute (code : program) (h : handler) (e : eid) (st : state) : outcome unit :=
  match call_scheduler code h e st with
  | Some r => r
  | None => call _v at st' := run code h e st in Done tt st'
  end.

(** Every subscriber of the collection has its turn, in order: it is
    skipped, or it is executed and the next turn starts in the state it
    leaves; an exception leaves the loop. *)
Inductive turns (code : program) (h : handler) : list eid → state → outcome unit → Prop :=
| turns_end st :
    turns code h [] st (Done tt st)
| turns_skip e l st r :
    skipped st e →
    turns code h l st r →
    turns code h (e :: l) st r
| turns_execute e l st st' r :
    ¬ skipped st e →
    execute code h e st = Done tt st' →
    turns code h l st' r →
    turns code h (e :: l) st r
| turns_raise e l st x st' :
    ¬ skipped st e →
    execute code h e st = Raised x st' →
    turns code h (e :: l) st (Raised x st')
| turns_no_result e l st :
    ¬ skipped st e →
    execute code h e st = NoResult →
    turns code h (e :: l) st NoResult.

(** ** The write of the setter reaches the raw target

    The setter of [createSetter(shallow)] gets to its [Reflect.set] on the
    target: it does not return early on a readonly ref, the old value is not
    a ref the new value is assigned through, and the target is the raw
    object of the receiver (not an object of its prototype chain). *)
Definition reaches_raw_target (shallow : bool) (target : addr) (key : pkey) (v : value)
    (receiver : value) (st : state) : Prop :=
  let oldValue := raw_get st target key in
  let deep := negb shallow && negb (isReadonly st v) in
  let unwrap := deep && negb (isShallow st v) in
  let v' := if unwrap then toRaw v else v in
  let oldValue' := if unwrap then toRaw oldValue else oldValue in
  isReadonly st oldValue && isRef st oldValue && negb (isRef st v) = false ∧
  deep && negb (isArray st target) && isRef st oldValue' && negb (isRef st v') = false ∧
  toRaw receiver = VObj target.

(** ** Relations between states *)

(** [quiet st st']: the step from [st] to [st'] touched neither the
    tracking context nor the call trace, nor, of any effect, anything but
    its [deps]. *)
Definition quiet (st st' : state) : Prop :=
  activeEffect st' = activeEffect st ∧
  shouldTrack st' = shouldTrack st ∧
  trackStack st' = trackStack st ∧
  effectTrackDepth st' = effectTrackDepth st ∧
  trackOpBit st' = trackOpBit st ∧
  trace st' = trace st ∧
  (size (effects st) ≤ size (effects st'))%nat ∧
  ∀ x, parent (eff st' x) = parent (eff st x) ∧
       active (eff st' x) = active (eff st x) ∧
       computed (eff st' x) = computed (eff st x) ∧
       allowRecurse (eff st' x) = allowRecurse (eff st x).

(** [on_chain st p x]: the effect [x] is met on the [parent] chain that
    starts at [p]. *)
Inductive on_chain (st : state) : option eid → eid → Prop :=
| on_chain_here x : on_chain st (Some x) x
| on_chain_next y x : on_chain st (parent (eff st y)) x → on_chain st (Some y) x.

(** [frame st st']: the active effect is the same, and so is the parent
    of every effect on the chain of the active effect of [st]. *)
Definition frame (st st' : state) : Prop :=
  activeEffect st' = activeEffect st ∧
  ∀ x, on_chain st (activeEffect st) x → parent (eff st' x) = parent (eff st x).

(** A property of the state an outcome leaves, when it leaves one. *)
Definition post {A : Type} (P : state → Prop) (m : outcome A) : Prop :=
  match m with
  | Done _ st' => P st'
  | Raised _ st' => P st'
  | NoResult => True
  end.

Definition framed (h : handler) : Prop :=
  ∀ (X : Type) (op : operation X) (st : state), post (frame st) (h X op st).

(** The two sides of the dependency graph agree: a cell is in the [deps]
    of an effect exactly when the effect is a subscriber of the cell. *)
Definition graph_consistent (st : state) : Prop :=
  ∀ (e : eid) (d : did), d ∈ deps (eff st e) ↔ e ∈ dep_set (dep st d).

(** ** Scenarios *)

(** A stopped effect whose function pauses tracking and then throws. *)
Definition code_pause_throw : program :=
  {| fn := fun _ => Vis OpPauseTracking (fun _ => Throw (VStr "boom"));
     scheduler := fun _ => None;
     onStop := fun _ => None;
     setter := fun _ _ => Ret tt;
     native := fun _ _ _ => Ret VUndefined |}.

Definition st_stopped : state := upd_eff 0%nat (set_active false) initial.

(** A computed ref whose getter is the constant [1], created for
    server-side rendering ([isSSR] is true: it is not cacheable and its
    effect is not active), and the same computed ref created as usual. *)
Definition code_const : program :=
  {| fn := fun _ => Ret (VNum 1);
     scheduler := fun _ => None;
     onStop := fun _ => None;
     setter := fun _ _ => Ret tt;
     native := fun _ _ _ => Ret VUndefined |}.

Definition new_ComputedRefImpl (effect : eid) (isReadonly_ isSSR : bool) : ComputedRefImpl :=
  {| c_value := VUndefined; c_dirty := true; c_cacheable := negb isSSR;
     c_dep := None; c_effect := effect; c_isReadonly := isReadonly_ |}.

Definition st_computed (isSSR : bool) : state :=
  set_nextObj 1%nat
    (upd_heap (<[0%nat := OComputed (new_ComputedRefImpl 0%nat true isSSR)]>)
       (upd_eff 0%nat (fun x => mkEffect (negb isSSR) (deps x) (parent x) (Some 0%nat)
                                  (allowRecurse x))
          initial)).

(** ** The tracking flag under application code *)

(** The operations that move the tracking flag directly. *)
Definition is_tracking_op {X : Type} (op : operation X) : bool :=
  match op with
  | OpPauseTracking | OpEnableTracking | OpResetTracking => true
  | _ => false
  end.

(** A program that calls none of [pauseTracking], [enableTracking] and
    [resetTracking] itself and has no [try] block: it catches no
    exception.  The built-in array methods are such programs. *)
Inductive quiet_prog {R : Type} : prog R → Prop :=
| quiet_ret r : quiet_prog (Ret r)
| quiet_throw x : quiet_prog (Throw x)
| quiet_vis X (op : operation X) k :
    is_tracking_op op = false →
    (∀ x, quiet_prog (k x)) →
    quiet_prog (Vis op k).

(** [same_tracking st st']: the tracking flag and its stack are the same. *)
Definition same_tracking (st st' : state) : Prop :=
  shouldTrack st' = shouldTrack st ∧ trackStack st' = trackStack st.

(** A property of the state a call leaves when it returns normally. *)
Definition returns {A : Type} (P : state → Prop) (m : outcome A) : Prop :=
  match m with
  | Done _ st' => P st'
  | _ => True
  end.

(** [neutral h]: every operation other than the three that move the
    tracking flag leaves the flag and its stack as it found them, when it
    returns normally. *)
Definition neutral (h : handler) : Prop :=
  ∀ (X : Type) (op : operation X) (st : state),
    is_tracking_op op = false → returns (same_tracking st) (h X op st).

(** [library_tracking h]: [h] is neutral, and it answers the three
    operations that move the tracking flag as the library does, where it
    answers them. *)
Definition library_tracking (h : handler) : Prop :=
  neutral h ∧
  (∀ st, h _ OpPauseTracking st = Done tt (pauseTracking st)
         ∨ h _ OpPauseTracking st = NoResult) ∧
  (∀ st, h _ OpEnableTracking st = Done tt (enableTracking st)
         ∨ h _ OpEnableTracking st = NoResult) ∧
  (∀ st, h _ OpResetTracking st = Done tt (resetTracking st)
         ∨ h _ OpResetTracking st = NoResult).

(** A balanced program: whenever it returns, it has left the tracking
    flag and its stack as it found them, provided the operations it calls
    that are not tracking calls do the same when they return.  A program
    that neither calls [pauseTracking], [enableTracking] or [resetTracking]
    nor catches an exception is balanced, and so is one that closes its
    [pauseTracking] by a [resetTracking]. *)
Definition balanced {R : Type} (p : prog R) : Prop :=
  ∀ (h : handler) (st : state),
    library_tracking h → returns (same_tracking st) (interp h p st).

(** An application all of whose functions are balanced, with built-in
    methods that are quiet. *)
Definition tracking_balanced (code : program) : Prop :=
  (∀ e, balanced (fn code e)) ∧
  (∀ e p, scheduler code e = Some p → balanced p) ∧
  (∀ e p, onStop code e = Some p → balanced p) ∧
  (∀ c v, balanced (setter code c v)) ∧
  (∀ m this args, quiet_prog (native code m this args)).

(** [holds_throughout h P p st]: [P] holds of every state in which the
    program [p], started in [st], performs an operation or ends. *)
Fixpoint holds_throughout {R : Type} (h : handler) (P : state → Prop)
    (p : prog R) (st : state) : Prop :=
  P st ∧
  match p with
  | Vis op k =>
      match h _ op st with
      | Done x st' => holds_throughout h P (k x) st'
      | _ => True
      end
  | Try body handler k =>
      holds_throughout h P body st ∧
      match interp h body st with
      | Done v st' => holds_throughout h P (k v) st'
      | Raised x st' =>
          holds_throughout h P (handler x) st' ∧
          match interp h (handler x) st' with
          | Done v st'' => holds_throughout h P (k v) st''
          | _ => True
          end
      | NoResult => True
      end
  | _ => True
  end.

(** [Array.prototype.push] of ECMAScript, on [this]: it reads the
    length, sets each argument at the next index, sets the length and
    returns it. *)
Fixpoint push_from (this : value) (args : list value) (i : Z) : prog value :=
  match args with
  | [] => Vis (OpSet this (KStr "length") (VNum i)) (fun _ => Ret (VNum i))
  | a :: rest => Vis (OpSet this (KIdx (Z.to_N i)) a) (fun _ => push_from this rest (i + 1))
  end.

Definition Array_prototype_push (this : value) (args : list value) : prog value :=
  Vis (OpGet this (KStr "length")) (fun len =>
    match len with
    | VNum i => push_from this args i
    | _ => Throw TypeError
    end).

(** An application with one effect, which reads the length of the
    reactive array at address 0 and throws when the array is not empty. *)
Definition code_array : program :=
  {| fn := fun _ =>
       Vis (OpGet (VProxy Reactive 0%nat) (KStr "length")) (fun len =>
         if bool_decide (len = VNum 0) then Ret len else Throw (VStr "boom"));
     scheduler := fun _ => None;
     onStop := fun _ => None;
     setter := fun _ _ => Ret tt;
     native := fun _ => Array_prototype_push |}.

Definition st_empty_array : state :=
  set_nextObj 1%nat (upd_heap (<[0%nat := OArray 0 ∅]>) initial).

(** An application that catches an exception: the effect 0 reads the
    length of the reactive array at address 0, and its scheduler pushes onto
    the reactive array at address 1 inside a [try] block with an empty
    [catch]; the effect 1 reads the length of the array at address 1 and
    throws when that array is not empty. *)
Definition code_catch : program :=
  {| fn := fun e =>
       if bool_decide (e = 0%nat)
       then Vis (OpGet (VProxy Reactive 0%nat) (KStr "length")) Ret
       else Vis (OpGet (VProxy Reactive 1%nat) (KStr "length")) (fun len =>
              if bool_decide (len = VNum 0) then Ret len else Throw (VStr "boom"));
     scheduler := fun e =>
       if bool_decide (e = 0%nat)
       then Some (Try (perform (OpCallMethod (VProxy Reactive 1%nat) "push" [VNum 7]))
                    (fun _ => Ret VUndefined)
                    (fun _ => Ret tt))
       else None;
     onStop := fun _ => None;
     setter := fun _ _ => Ret tt;
     native := fun _ => Array_prototype_push |}.

Definition st_two_arrays : state :=
  set_nextObj 2%nat
    (upd_heap (fun _ => {[ 0%nat := OArray 0 ∅; 1%nat := OArray 0 ∅ ]}) initial).

(** An effect whose function stops the effect itself and then reads the
    ref at address 0. *)
Definition code_self_stop : program :=
  {| fn := fun _ =>
       Vis (OpStop 0%nat) (fun _ => Vis (OpGet (VObj 0%nat) (KStr "value")) Ret);
     scheduler := fun _ => None;
     onStop := fun _ => None;
     setter := fun _ _ => Ret tt;
     native := fun _ _ _ => Ret VUndefined |}.

Definition st_one_ref : state :=
  set_nextObj 1%nat (upd_heap (<[0%nat := ORef (new_RefImpl (VNum 1) false)]>) initial).

(** The plain object [{ a: 1 }] at address 0. *)
Definition st_obj : state :=
  set_nextObj 1%nat (upd_heap (<[0%nat := OPlain {[KStr "a" := VNum 1]}]>) initial).

(** An effect that reads the index 5 and the length of the reactive array
    at address 0, and the state after its first run. *)
Definition code_read_two : program :=
  {| fn := fun _ =>
       Vis (OpGet (VProxy Reactive 0%nat) (KIdx 5)) (fun _ =>
       Vis (OpGet (VProxy Reactive 0%nat) (KStr "length")) Ret);
     scheduler := fun _ => None;
     onStop := fun _ => None;
     setter := fun _ _ => Ret tt;
     native := fun _ => Array_prototype_push |}.

Definition st_two_cells : state :=
  match exec code_read_two 2 (perform (OpRun 0%nat)) st_empty_array with
  | Done _ st => st
  | _ => initial
  end.

(** An application that moves the tracking flag itself: the effect 1
    reads the index 0 of the reactive array at address 0 and has a scheduler
    that calls [enableTracking] without a matching [resetTracking]; the
    built-in method writes the index 0 and then reads the length. *)
Definition code_unbalanced : program :=
  {| fn := fun _ => Vis (OpGet (VProxy Reactive 0%nat) (KIdx 0)) Ret;
     scheduler := fun _ => Some (perform OpEnableTracking);
     onStop := fun _ => None;
     setter := fun _ _ => Ret tt;
     native := fun _ this _ =>
       Vis (OpSet this (KIdx 0) (VNum 9)) (fun _ => Vis (OpGet this (KStr "length")) Ret) |}.

Definition st_array_one : state :=
  set_nextObj 1%nat (upd_heap (<[0%nat := OArray 1 {[KIdx 0 := VNum 1]}]>) initial).

(** The object [{ a: 1, flag: true }] at address 0, and an effect that
    reads [o.a] only when [o.flag] is true. *)
Definition st_flag : state :=
  set_nextObj 1%nat
    (upd_heap (<[0%nat := OPlain {[KStr "a" := VNum 1; KStr "flag" := VBool true]}]>) initial).

Definition code_conditional : program :=
  {| fn := fun _ =>
       Vis (OpGet (VProxy Reactive 0%nat) (KStr "flag")) (fun flag =>
         if truthy flag then Vis (OpGet (VProxy Reactive 0%nat) (KStr "a")) Ret
         else Ret (VNum 0));
     scheduler := fun _ => None;
     onStop := fun _ => None;
     setter := fun _ _ => Ret tt;
     native := fun _ _ _ => Ret VUndefined |}.

(** An effect that increments the slot [o.a] it reads. *)
Definition code_increment : program :=
  {| fn := fun _ =>
       Vis (OpGet (VProxy Reactive 0%nat) (KStr "a")) (fun v =>
         match v with
         | VNum z => Vis (OpSet (VProxy Reactive 0%nat) (KStr "a") (VNum (z + 1))) (fun _ => Ret v)
         | _ => Ret v
         end);
     scheduler := fun _ => None;
     onStop := fun _ => None;
     setter := fun _ _ => Ret tt;
     native := fun _ _ _ => Ret VUndefined |}.

(** The ref [r = ref(1)] at address 0, the computed ref
    [c = computed(() => r.value + 1)] at address 1, whose effect is the
    effect 0, and the effect 1, which reads [c.value]. *)
Definition code_computed : program :=
  {| fn := fun e =>
       if bool_decide (e = 0%nat) then
         Vis (OpGet (VObj 0%nat) (KStr "value")) (fun v =>
           match v with VNum z => Ret (VNum (z + 1)) | _ => Ret v end)
       else Vis (OpGet (VObj 1%nat) (KStr "value")) Ret;
     scheduler := fun _ => None;
     onStop := fun _ => None;
     setter := fun _ _ => Ret tt;
     native := fun _ _ _ => Ret VUndefined |}.

Definition st_ref_computed : state :=
  set_nextObj 2%nat
    (upd_heap (<[1%nat := OComputed (new_ComputedRefImpl 0%nat true false)]>)
       (upd_heap (<[0%nat := ORef (new_RefImpl (VNum 1) false)]>)
          (upd_eff 0%nat (fun x => mkEffect true (deps x) (parent x) (Some 1%nat)
                                     (allowRecurse x))
             initial))).

(** [extends h h']: wherever [h] gives a result, [h'] gives the same. *)
Definition extends (h h' : handler) : Prop :=
  ∀ (X : Type) (op : operation X) (st : state),
    h X op st ≠ NoResult → h' X op st = h X op st.

(** ** Sequences of calls of the tracking functions

    The three functions that move the tracking flag, and a sequence of
    calls of them, as application code or the instrumented array methods
    make them. *)
Inductive tracking_call := PauseTracking | EnableTracking | ResetTracking.

Definition tracking_step (st : state) (c : tracking_call) : state :=
  match c with
  | PauseTracking => pauseTracking st
  | EnableTracking => enableTracking st
  | ResetTracking => resetTracking st
  end.

Definition tracking_calls (l : list tracking_call) (st : state) : state :=
  foldl tracking_step st l.

(** Properly nested calls: every [pauseTracking] and [enableTracking] is
    closed by a [resetTracking] of its own. *)
Inductive nested : list tracking_call → Prop :=
| nested_nil : nested []
| nested_pause l : nested l → nested (PauseTracking :: l ++ [ResetTracking])
| nested_enable l : nested l → nested (EnableTracking :: l ++ [ResetTracking])
| nested_app l1 l2 : nested l1 → nested l2 → nested (l1 ++ l2).

(** ** Subscribers of a property

    [subscribed st depsMap key e]: the effect [e] is in the cell that
    [depsMap] holds for [key]. *)
Definition subscribed (st : state) (depsMap : list (pkey * did)) (key : pkey) (e : eid)
    : Prop :=
  ∃ d, map_get depsMap key = Some d ∧ e ∈ dep_set (dep st d).

(** An effect that has read the property [UserSymbol 0] and the index 0
    of the reactive array at address 0. *)
Definition code_read_symbol : program :=
  {| fn := fun _ =>
       Vis (OpGet (VProxy Reactive 0%nat) (KSym (UserSymbol 0))) (fun _ =>
       Vis (OpGet (VProxy Reactive 0%nat) (KIdx 0)) Ret);
     scheduler := fun _ => None;
     onStop := fun _ => None;
     setter := fun _ _ => Ret tt;
     native := fun _ _ _ => Ret VUndefined |}.

Definition st_symbol_tracked : state :=
  match exec code_read_symbol 2 (perform (OpRun 0%nat)) st_array_one with
  | Done _ st => st
  | _ => initial
  end.

(** The object [{ a: 1 }] at address 0 after a run of an effect that has
    read [o.a] and the keys of [o]. *)
Definition code_read_keys : program :=
  {| fn := fun _ =>
       Vis (OpGet (VProxy Reactive 0%nat) (KStr "a")) (fun v =>
       Vis (OpOwnKeys (VProxy Reactive 0%nat)) (fun _ => Ret v));
     scheduler := fun _ => None;
     onStop := fun _ => None;
     setter := fun _ _ => Ret tt;
     native := fun _ _ _ => Ret VUndefined |}.

Definition st_keys_tracked : state :=
  match exec code_read_keys 2 (perform (OpRun 0%nat)) st_obj with
  | Done _ st => st
  | _ => initial
  end.

(** ** Keys the getter answers itself

    The four keys of [ReactiveFlags] that [createGetter] answers before it
    looks at the target. *)
Definition is_flag_key (key : pkey) : bool :=
  bool_decide (key ∈ [ReactiveFlags_IS_REACTIVE; ReactiveFlags_IS_READONLY;
                      ReactiveFlags_IS_SHALLOW; ReactiveFlags_RAW]).

(** The object [{ inner: { x: 1 }, r: ref(5) }] at address 0, with the
    inner object at address 1 and the ref at address 2; the array [[ref(5)]]
    at address 3 holds the same ref. *)
Definition st_nested : state :=
  set_nextObj 4%nat
    (upd_heap (fun _ =>
       {[ 0%nat := OPlain {[KStr "inner" := VObj 1%nat; KStr "r" := VObj 2%nat]};
          1%nat := OPlain {[KStr "x" := VNum 1]};
          2%nat := ORef (new_RefImpl (VNum 5) false);
          3%nat := OArray 1 {[KIdx 0 := VObj 2%nat]} ]}) initial).

(** ** Relations every operation keeps

    [kept R h]: whatever the operation and the state [st] it starts in,
    the state [st'] the handler [h] leaves, by a return or by an exception,
    satisfies [R st st']. *)
Definition kept (R : state → state → Prop) (h : handler) : Prop :=
  ∀ (X : Type) (op : operation X) (st : state), post (R st) (h X op st).

(** The bit of the current depth is [1 << effectTrackDepth]. *)
Definition bit_of_depth (st : state) : Prop :=
  trackOpBit st = js_shl 1 (effectTrackDepth st).

(** [same_depth st st']: the depth of running effects is the same, and
    the bit of the depth is still the bit of the depth if it was. *)
Definition same_depth (st st' : state) : Prop :=
  effectTrackDepth st' = effectTrackDepth st ∧ (bit_of_depth st → bit_of_depth st').

(** [stays_stopped st st']: an effect that is stopped in [st] is stopped
    in [st']. *)
Definition stays_stopped (st st' : state) : Prop :=
  ∀ e, active (eff st e) = false → active (eff st' e) = false.

(** [unsubscribed e st]: the effect [e] is stopped, it is not the active
    effect, and it is a subscriber of no cell. *)
Definition unsubscribed (e : eid) (st : state) : Prop :=
  active (eff st e) = false ∧
  activeEffect st ≠ Some e ∧
  ∀ d, e ∉ dep_set (dep st d).

(** [stays_unsubscribed e st st']: the active effect is restored, and if
    [e] is unsubscribed in [st] it is unsubscribed in [st'], with the same
    [deps]. *)
Definition stays_unsubscribed (e : eid) (st st' : state) : Prop :=
  frame st st' ∧
  (unsubscribed e st → unsubscribed e st' ∧ deps (eff st' e) = deps (eff st e)).

(** [retired e st]: the effect [e] is unsubscribed and is not running:
    it is nowhere on the chain of running effects, so that no return of an
    enclosing run makes it the active effect again. *)
Definition retired (e : eid) (st : state) : Prop :=
  unsubscribed e st ∧ ¬ on_chain st (activeEffect st) e.

(** The effect 0 runs the effect 1 and then reads the ref at address 0;
    the effect 1 stops the effect 0. *)
Definition code_nested_stop : program :=
  {| fn := fun e =>
       if bool_decide (e = 0%nat)
       then Vis (OpRun 1%nat) (fun _ => Vis (OpGet (VObj 0%nat) (KStr "value")) Ret)
       else Vis (OpStop 0%nat) (fun _ => Ret VUndefined);
     scheduler := fun _ => None;
     onStop := fun _ => None;
     setter := fun _ _ => Ret tt;
     native := fun _ _ _ => Ret VUndefined |}.

(** The ref [r = ref(1)] at address 0 after the effect 0 of
    [code_computed], which reads [r.value], has run once. *)
Definition st_after_read : state :=
  match exec code_computed 3 (perform (OpRun 0%nat)) st_one_ref with
  | Done _ st => st
  | _ => initial
  end.

(** ** The chain of running effects, by position

    [ancestor st p i]: the effect met after [i] steps up the [parent]
    chain that starts at [p]. *)
Fixpoint ancestor (st : state) (p : option eid) (i : nat) : option eid :=
  match i, p with
  | O, _ => p
  | S i', Some x => ancestor st (parent (eff st x)) i'
  | S _, None => None
  end.

(** The effect 0 runs the effect 1, which writes the property [a] that
    the effect 0 has read before. *)
Definition code_nested_write : program :=
  {| fn := fun e =>
       if bool_decide (e = 0%nat) then
         Vis (OpGet (VProxy Reactive 0%nat) (KStr "a")) (fun _ =>
         Vis (OpRun 1%nat) Ret)
       else
         Vis (OpSet (VProxy Reactive 0%nat) (KStr "a") (VNum 2)) (fun _ => Ret VUndefined);
     scheduler := fun _ => None;
     onStop := fun _ => None;
     setter := fun _ _ => Ret tt;
     native := fun _ _ _ => Ret VUndefined |}.

(** The state in which the effect 1 runs inside the effect 0. *)
Definition st_inner_running : state :=
  run_enter 1%nat (run_enter 0%nat st_obj).

(** ** More of [ref.ts]: [unref], [proxyRefs], [toRef] *)

(** [ObjectRefImpl]: its three fields are read-only, so that an instance
    is the triple of them. *)
Record ObjectRefImpl := mkObjectRef {
  _object : value;
  _key : pkey;
  _defaultValue : value
}.

Section ref_utilities.

Context (h : handler).

(** [unref(ref)]: [isRef(ref) ? ref.value : ref] *)
Definition unref (ref : value) (st : state) : outcome value :=
  if isRef st ref then h _ (OpGet ref (KStr "value")) st else Done ref st.

(** [shallowUnwrapHandlers.get], the [get] trap of the proxy that
    [proxyRefs] builds over a raw plain object or array [target]. *)
Definition shallowUnwrapHandlers_get (target : addr) (key : pkey) (st : state)
    : outcome value :=
  unref (Reflect_get st target key) st.

(** [shallowUnwrapHandlers.set]; the receiver is the proxy itself, so
    that [Reflect.set] defines the property on the target. *)
Definition shallowUnwrapHandlers_set (target : addr) (key : pkey) (v : value) (st : state)
    : outcome bool :=
  let oldValue := Reflect_get st target key in
  if isRef st oldValue && negb (isRef st v) then
    (* oldValue.value = value; return true *)
    call _b at st1 := h _ (OpSet oldValue (KStr "value") v) st in
    Done true st1
  else OrdinarySet target key v st.

(** [get value()] of [ObjectRefImpl] *)
Definition ObjectRefImpl_get_value (this : ObjectRefImpl) (st : state) : outcome value :=
  call val at st1 := h _ (OpGet (_object this) (_key this)) st in
  Done (if strict_equals val VUndefined then _defaultValue this else val) st1.

(** [set value(newVal)] of [ObjectRefImpl]; the body of a class is strict
    code, in which an assignment that is refused throws a [TypeError]. *)
Definition ObjectRefImpl_set_value (this : ObjectRefImpl) (newVal : value) (st : state)
    : outcome unit :=
  call b at st1 := h _ (OpSet (_object this) (_key this) newVal) st in
  if b : bool then Done tt st1 else Raised TypeError st1.

(** [toRef(object, key, defaultValue)]: the ref the property holds, or a
    new [ObjectRefImpl]. *)
Definition toRef (object : value) (key : pkey) (defaultValue : value) (st : state)
    : outcome (value + ObjectRefImpl) :=
  call val at st1 := h _ (OpGet object key) st in
  Done (if isRef st1 val then inl val else inr (mkObjectRef object key defaultValue)) st1.

End ref_utilities.

(** ** Marker bits and subscriptions

    The cells of a target: its [depsMap], empty when the target was never
    tracked. *)
Definition cells (st : state) (target : addr) : list (pkey * did) :=
  default [] (targetMap st !! target).

(** [markers_sound e st]: while the marker bits are in use, a cell that
    carries the bit of the current depth, as tracked before or as newly
    tracked, has [e] among its subscribers. *)
Definition markers_sound (e : eid) (st : state) : Prop :=
  effectTrackDepth st ≤ maxMarkerBits →
  ∀ d, wasTracked st d = true ∨ newTracked st d = true → e ∈ dep_set (dep st d).

(** [cells_allocated st]: the cells of the targets were allocated by
    [createDep] before the next one. *)
Definition cells_allocated (st : state) : Prop :=
  ∀ target key d, map_get (cells st target) key = Some d → (d < nextDep st)%nat.

(** ** The identity-sensitive search methods of arrays

    [Array.prototype.includes], [indexOf] and [lastIndexOf] of ECMAScript
    on a raw array, which reads its length and its elements without any
    trap. *)

(** [SameValueZero]: [NaN] is the same as [NaN], the two zeros are the same. *)
Definition SameValueZero (a b : value) : bool :=
  match a, b with
  | VNaN, VNaN => true
  | _, _ => strict_equals a b
  end.

(** [ToIntegerOrInfinity] on the values of the model that convert without
    running code; [None] for a string, a function or an object. *)
Definition ToIntegerOrInfinity (v : value) : option Z :=
  match v with
  | VUndefined | VNull | VNaN | VNegZero => Some 0
  | VNum z => Some z
  | VBool b => Some (if b then 1 else 0)
  | _ => None
  end.

(** The elements at the indices below the length; a hole is [None]. *)
Definition elements (len : N) (props : gmap pkey value) : list (option value) :=
  map (fun i => props !! KIdx (N.of_nat i)) (seq 0 (N.to_nat len)).

(** The index a forward search starts at, for the [fromIndex] [n]. *)
Definition start_index (len n : Z) : Z :=
  if 0 <=? n then n else Z.max (len + n) 0.

(** The index of the first element of [l] that satisfies [p], the first
    element of [l] having the index [i]; [-1] when there is none. *)
Fixpoint find_index (p : option value → bool) (l : list (option value)) (i : Z) : Z :=
  match l with
  | [] => -1
  | y :: l' => if p y then i else find_index p l' (i + 1)
  end.

(** The index of the last element of [l] that satisfies [p]. *)
Fixpoint find_last_index (p : option value → bool) (l : list (option value)) (i : Z) : Z :=
  match l with
  | [] => -1
  | y :: l' =>
      let r := find_last_index p l' (i + 1) in
      if r =? -1 then (if p y then i else -1) else r
  end.

Definition Array_prototype_includes (len : N) (props : gmap pkey value) (args : list value)
    : option value :=
  if (len =? 0)%N then Some (VBool false)
  else
    match ToIntegerOrInfinity (nth 1 args VUndefined) with
    | Some n =>
        let k := start_index (Z.of_N len) n in
        Some (VBool (existsb (fun y => SameValueZero (nth 0 args VUndefined) (default VUndefined y))
                       (drop (Z.to_nat k) (elements len props))))
    | None => None
    end.

(** A hole is skipped by [indexOf] and [lastIndexOf]. *)
Definition strictly_equal_element (x : value) (y : option value) : bool :=
  match y with
  | Some v => strict_equals x v
  | None => false
  end.

Definition Array_prototype_indexOf (len : N) (props : gmap pkey value) (args : list value)
    : option value :=
  if (len =? 0)%N then Some (VNum (-1))
  else
    match ToIntegerOrInfinity (nth 1 args VUndefined) with
    | Some n =>
        let k := start_index (Z.of_N len) n in
        Some (VNum (find_index (strictly_equal_element (nth 0 args VUndefined))
                      (drop (Z.to_nat k) (elements len props)) k))
    | None => None
    end.

Definition Array_prototype_lastIndexOf (len : N) (props : gmap pkey value) (args : list value)
    : option value :=
  if (len =? 0)%N then Some (VNum (-1))
  else
    match (if (1 <? length args)%nat then ToIntegerOrInfinity (nth 1 args VUndefined)
           else Some (Z.of_N len - 1)) with
    | Some n =>
        let k := if 0 <=? n then Z.min n (Z.of_N len - 1) else Z.of_N len + n in
        Some (VNum (find_last_index (strictly_equal_element (nth 0 args VUndefined))
                      (take (Z.to_nat (k + 1)) (elements len props)) 0))
    | None => None
    end.

(** [arr[key](...args)] on the raw array [arr], for the three search
    methods, when the array inherits them from [Array.prototype]. *)
Definition Array_prototype_search (key : string) (arr : addr) (args : list value) (st : state)
    : outcome value :=
  match heap st !! arr with
  | Some (OArray len props) =>
      if bool_decide (Reflect_get st arr (KStr key) = VFn ("Array.prototype." +:+ key)) then
        match
          (if bool_decide (key = "includes") then Array_prototype_includes len props args
           else if bool_decide (key = "indexOf") then Array_prototype_indexOf len props args
           else if bool_decide (key = "lastIndexOf")
                then Array_prototype_lastIndexOf len props args
           else None)
        with
        | Some res => Done res st
        | None => NoResult
        end
      else NoResult
  | _ => NoResult
  end.

Section array_search.

Context (h : handler).

(** The instrumentation of [includes], [indexOf] and [lastIndexOf]:
    [const arr = toRaw(this);
     for (let i = 0, l = this.length; i < l; i++) track(arr, GET, i + '');
     const res = arr[key](...args);
     if (res === -1 || res === false) return arr[key](...args.map(toRaw))
     else return res].
    [op_callMethod] does not dispatch to it: the programs of the model do
    not call the search methods. *)
Definition identityInstrumentation (key : string) (this : value) (args : list value)
    (st : state) : outcome value :=
  match toRaw this with
  | VObj arr =>
      call l at st1 := h _ (OpGet this (KStr "length")) st in
      match l with
      | VNum n =>
          let st2 :=
            foldl (fun s i => track arr GET (KIdx (N.of_nat i)) s) st1 (seq 0 (Z.to_nat n)) in
          call res at st3 := Array_prototype_search key arr args st2 in
          if strict_equals res (VNum (-1)) || strict_equals res (VBool false)
          then Array_prototype_search key arr (map toRaw args) st3
          else Done res st3
      | _ => NoResult
      end
  | _ => NoResult
  end.

End array_search.

(** The array [[o]] at address 0, whose element is the plain object at
    address 1. *)
Definition st_array_of_object : state :=
  set_nextObj 2%nat
    (upd_heap (fun _ =>
       {[ 0%nat := OArray 1 {[KIdx 0 := VObj 1%nat]};
          1%nat := OPlain {[KStr "x" := VNum 1]} ]}) initial).

(** * The scheduler of the renderer

    [runtime-core/src/scheduler.ts]: the renderer gives the effect of a
    component the scheduler [() => queueJob(instance.update)] and a watcher
    the scheduler [() => queuePreFlushCb(job)], so [triggerEffects] ends in
    these queues.  The module state of the file is the record [scheduler];
    the jobs are function objects, named by their addresses, whose fields
    [id] and [allowRecurse] the scheduler reads and never writes. *)
Module Scheduler.

Definition job : Type := nat.

(** The fields of a [SchedulerJob] that the queue reads; [id] is
    [undefined] or an integer. *)
Record SchedulerJob : Type := {
  job_id : option Z;
  job_allowRecurse : bool
}.

(** [SchedulerJobs = SchedulerJob | SchedulerJob[]] *)
Inductive SchedulerJobs : Type :=
  | Single (cb : job)
  | Several (cbs : list job).

(** The numbers [getId] returns. *)
Inductive number : Type :=
  | Finite (z : Z)
  | Infinity.

(** [a < b] for [b] finite. *)
Definition number_lt (a : number) (b : Z) : bool :=
  match a with
  | Finite z => z <? b
  | Infinity => false
  end.

Definition number_le (a b : number) : Prop :=
  match a, b with
  | Finite x, Finite y => x ≤ y
  | _, Infinity => True
  | Infinity, Finite _ => False
  end.

(** How a call ends: with a value, with a [TypeError], or with the fuel
    of the model used up. *)
Inductive answer (A : Type) : Type :=
  | Returned (a : A)
  | TypeError
  | OutOfFuel.

Arguments Returned {A} a.
Arguments TypeError {A}.
Arguments OutOfFuel {A}.

(** The variables of the module.  [scheduled] is a ghost counter of the
    calls [resolvedPromise.then(flushJobs)]; [currentFlushPromise] holds
    the number of the call that made the promise. *)
Record scheduler : Type := {
  isFlushing : bool;
  isFlushPending : bool;
  queue : list job;
  flushIndex : nat;
  pendingPreFlushCbs : list job;
  activePreFlushCbs : option (list job);
  preFlushIndex : nat;
  pendingPostFlushCbs : list job;
  activePostFlushCbs : option (list job);
  postFlushIndex : nat;
  currentFlushPromise : option nat;
  currentPreFlushParentJob : option job;
  scheduled : nat
}.

(** The state of the module when it is loaded. *)
Definition initial : scheduler :=
  {| isFlushing := false;
     isFlushPending := false;
     queue := [];
     flushIndex := 0;
     pendingPreFlushCbs := [];
     activePreFlushCbs := None;
     preFlushIndex := 0;
     pendingPostFlushCbs := [];
     activePostFlushCbs := None;
     postFlushIndex := 0;
     currentFlushPromise := None;
     currentPreFlushParentJob := None;
     scheduled := 0 |}.

Definition set_queue (q : list job) (st : scheduler) : scheduler :=
  {| isFlushing := isFlushing st;
     isFlushPending := isFlushPending st;
     queue := q;
     flushIndex := flushIndex st;
     pendingPreFlushCbs := pendingPreFlushCbs st;
     activePreFlushCbs := activePreFlushCbs st;
     preFlushIndex := preFlushIndex st;
     pendingPostFlushCbs := pendingPostFlushCbs st;
     activePostFlushCbs := activePostFlushCbs st;
     postFlushIndex := postFlushIndex st;
     currentFlushPromise := currentFlushPromise st;
     currentPreFlushParentJob := currentPreFlushParentJob st;
     scheduled := scheduled st |}.

Definition set_pendingPreFlushCbs (q : list job) (st : scheduler) : scheduler :=
  {| isFlushing := isFlushing st;
     isFlushPending := isFlushPending st;
     queue := queue st;
     flushIndex := flushIndex st;
     pendingPreFlushCbs := q;
     activePreFlushCbs := activePreFlushCbs st;
     preFlushIndex := preFlushIndex st;
     pendingPostFlushCbs := pendingPostFlushCbs st;
     activePostFlushCbs := activePostFlushCbs st;
     postFlushIndex := postFlushIndex st;
     currentFlushPromise := currentFlushPromise st;
     currentPreFlushParentJob := currentPreFlushParentJob st;
     scheduled := scheduled st |}.

Definition set_pendingPostFlushCbs (q : list job) (st : scheduler) : scheduler :=
  {| isFlushing := isFlushing st;
     isFlushPending := isFlushPending st;
     queue := queue st;
     flushIndex := flushIndex st;
     pendingPreFlushCbs := pendingPreFlushCbs st;
     activePreFlushCbs := activePreFlushCbs st;
     preFlushIndex := preFlushIndex st;
     pendingPostFlushCbs := q;
     activePostFlushCbs := activePostFlushCbs st;
     postFlushIndex := postFlushIndex st;
     currentFlushPromise := currentFlushPromise st;
     currentPreFlushParentJob := currentPreFlushParentJob st;
     scheduled := scheduled st |}.

(** [queueFlush]:
    [if (!isFlushing && !isFlushPending) {
       isFlushPending = true
       currentFlushPromise = resolvedPromise.then(flushJobs) }] *)
Definition queueFlush (st : scheduler) : scheduler :=
  if negb (isFlushing st) && negb (isFlushPending st) then
    {| isFlushing := isFlushing st;
       isFlushPending := true;
       queue := queue st;
       flushIndex := flushIndex st;
       pendingPreFlushCbs := pendingPreFlushCbs st;
       activePreFlushCbs := activePreFlushCbs st;
       preFlushIndex := preFlushIndex st;
       pendingPostFlushCbs := pendingPostFlushCbs st;
       activePostFlushCbs := activePostFlushCbs st;
       postFlushIndex := postFlushIndex st;
       currentFlushPromise := Some (scheduled st);
       currentPreFlushParentJob := currentPreFlushParentJob st;
       scheduled := S (scheduled st) |}
  else st.

(** [Array.prototype.includes(x, fromIndex)] and [indexOf(x)] on an array
    of function objects, for a [fromIndex] that is not negative. *)
Definition includes (l : list job) (x : job) (fromIndex : nat) : bool :=
  bool_decide (x ∈ drop fromIndex l).

Definition indexOf (l : list job) (x : job) : Z :=
  match list_find (fun y => y = x) l with
  | Some (i, _) => Z.of_nat i
  | None => -1
  end.

(** [splice(i, 0, x)] and [splice(i, 1)]; an index beyond the length is
    the length. *)
Definition splice_insert (l : list job) (i : nat) (x : job) : list job :=
  take i l ++ x :: drop i l.

Definition splice_remove (l : list job) (i : nat) : list job :=
  take i l ++ drop (S i) l.

Section jobs.

Context (fields : job → SchedulerJob).

(** [getId = job => job.id == null ? Infinity : job.id] *)
Definition getId (j : job) : number :=
  match job_id (fields j) with
  | None => Infinity
  | Some z => Finite z
  end.

(** The loop of [findInsertionIndex]:
    [while (start < end) {
       const middle = (start + end) >>> 1
       const middleJobId = getId(queue[middle])
       middleJobId < id ? (start = middle + 1) : (end = middle) }
     return start].
    [>>>] takes its left operand modulo [2^32]; [getId(undefined)] is a
    [TypeError]. *)
Fixpoint findInsertionIndex_loop (fuel : nat) (q : list job) (id : Z) (start end_ : Z)
    : answer Z :=
  if start <? end_ then
    match fuel with
    | O => OutOfFuel
    | S fuel' =>
        let middle := Z.shiftr ((start + end_) mod 2 ^ 32) 1 in
        match q !! Z.to_nat middle with
        | Some j =>
            if number_lt (getId j) id
            then findInsertionIndex_loop fuel' q id (middle + 1) end_
            else findInsertionIndex_loop fuel' q id start middle
        | None => TypeError
        end
    end
  else Returned start.

(** [findInsertionIndex(id)]: [start = flushIndex + 1], [end = queue.length]. *)
Definition findInsertionIndex (fuel : nat) (id : Z) (st : scheduler) : answer Z :=
  findInsertionIndex_loop fuel (queue st) id
    (Z.of_nat (flushIndex st) + 1) (Z.of_nat (length (queue st))).

(** [queueJob(job)]:
    [if ((!queue.length ||
          !queue.includes(job, isFlushing && job.allowRecurse ? flushIndex + 1 : flushIndex))
         && job !== currentPreFlushParentJob) {
       if (job.id == null) queue.push(job)
       else queue.splice(findInsertionIndex(job.id), 0, job)
       queueFlush() }] *)
Definition queueJob (fuel : nat) (j : job) (st : scheduler) : answer scheduler :=
  if (bool_decide (length (queue st) = 0%nat)
      || negb (includes (queue st) j
                 (if isFlushing st && job_allowRecurse (fields j)
                  then flushIndex st + 1 else flushIndex st)%nat))
     && negb (bool_decide (Some j = currentPreFlushParentJob st))
  then
    match job_id (fields j) with
    | None => Returned (queueFlush (set_queue (queue st ++ [j]) st))
    | Some id =>
        match findInsertionIndex fuel id st with
        | Returned i => Returned (queueFlush (set_queue (splice_insert (queue st) (Z.to_nat i) j) st))
        | TypeError => TypeError
        | OutOfFuel => OutOfFuel
        end
    end
  else Returned st.

(** [invalidateJob(job)]:
    [const i = queue.indexOf(job); if (i > flushIndex) queue.splice(i, 1)] *)
Definition invalidateJob (j : job) (st : scheduler) : scheduler :=
  let i := indexOf (queue st) j in
  if Z.of_nat (flushIndex st) <? i
  then set_queue (splice_remove (queue st) (Z.to_nat i)) st
  else st.

(** [queueCb(cb, activeQueue, pendingQueue, index)], up to its call of
    [queueFlush]: the new contents of [pendingQueue].
    [if (!isArray(cb)) {
       if (!activeQueue || !activeQueue.includes(cb, cb.allowRecurse ? index + 1 : index))
         pendingQueue.push(cb)
     } else pendingQueue.push(...cb)] *)
Definition queueCb (cb : SchedulerJobs) (activeQueue : option (list job))
    (pendingQueue : list job) (index : nat) : list job :=
  match cb with
  | Single c =>
      match activeQueue with
      | None => pendingQueue ++ [c]
      | Some active =>
          if negb (includes active c
                     (if job_allowRecurse (fields c) then index + 1 else index)%nat)
          then pendingQueue ++ [c]
          else pendingQueue
      end
  | Several cbs => pendingQueue ++ cbs
  end.

(** [queuePreFlushCb(cb)] is
    [queueCb(cb, activePreFlushCbs, pendingPreFlushCbs, preFlushIndex)]. *)
Definition queuePreFlushCb (cb : job) (st : scheduler) : scheduler :=
  queueFlush
    (set_pendingPreFlushCbs
       (queueCb (Single cb) (activePreFlushCbs st) (pendingPreFlushCbs st) (preFlushIndex st))
       st).

(** [queuePostFlushCb(cb)] is
    [queueCb(cb, activePostFlushCbs, pendingPostFlushCbs, postFlushIndex)]. *)
Definition queuePostFlushCb (cb : SchedulerJobs) (st : scheduler) : scheduler :=
  queueFlush
    (set_pendingPostFlushCbs
       (queueCb cb (activePostFlushCbs st) (pendingPostFlushCbs st) (postFlushIndex st))
       st).

(** The calls of the renderer into the queues, and a sequence of them. *)
Inductive queue_call : Type :=
  | QueueJob (j : job)
  | InvalidateJob (j : job)
  | QueuePreFlushCb (cb : job)
  | QueuePostFlushCb (cb : SchedulerJobs).

Definition queue_step (fuel : nat) (c : queue_call) (st : scheduler) : answer scheduler :=
  match c with
  | QueueJob j => queueJob fuel j st
  | InvalidateJob j => Returned (invalidateJob j st)
  | QueuePreFlushCb cb => Returned (queuePreFlushCb cb st)
  | QueuePostFlushCb cb => Returned (queuePostFlushCb cb st)
  end.

Fixpoint queue_calls (fuel : nat) (l : list queue_call) (st : scheduler) : answer scheduler :=
  match l with
  | [] => Returned st
  | c :: l' =>
      match queue_step fuel c st with
      | Returned st' => queue_calls fuel l' st'
      | TypeError => TypeError
      | OutOfFuel => OutOfFuel
      end
  end.

(** The jobs behind the one that is being flushed are in the order of
    their ids. *)
Definition pending_sorted (st : scheduler) : Prop :=
  ∀ a b ja jb,
    (flushIndex st < a)%nat → (a ≤ b)%nat →
    queue st !! a = Some ja → queue st !! b = Some jb →
    number_le (getId ja) (getId jb).

(** Nothing is queued, or a flush is on its way. *)
Definition flush_due (st : scheduler) : Prop :=
  queue st ≠ [] ∨ pendingPreFlushCbs st ≠ [] ∨ pendingPostFlushCbs st ≠ [] →
  isFlushPending st = true.

End jobs.

(** The update jobs of components: the renderer sets [update.id] to the
    [uid] of the instance, here the address of the job, and lets the job
    trigger itself. *)
Definition component_jobs : job → SchedulerJob :=
  fun j => {| job_id := Some (Z.of_nat j); job_allowRecurse := true |}.

(** A flush that runs the second of four jobs. *)
Definition st_flushing : scheduler :=
  {| isFlushing := true;
     isFlushPending := false;
     queue := [1; 3; 5; 7]%nat;
     flushIndex := 1;
     pendingPreFlushCbs := [];
     activePreFlushCbs := None;
     preFlushIndex := 0;
     pendingPostFlushCbs := [];
     activePostFlushCbs := None;
     postFlushIndex := 0;
     currentFlushPromise := Some 0%nat;
     currentPreFlushParentJob := None;
     scheduled := 1 |}.

End Scheduler.

(** * Verification *)

(** ** Stores *)

Lemma eff_upd_eff (st : state) (e : eid) (f : ReactiveEffect → ReactiveEffect) (x : eid) :
  eff (upd_eff e f st) x = if decide (x = e) then f (eff st e) else eff st x.
Proof.
  unfold eff, upd_eff; simpl. destruct (decide (x = e)) as [->|Hne].
  - by rewrite lookup_insert_eq.
  - by rewrite lookup_insert_ne.
Qed.

Lemma dep_upd_dep (st : state) (d : did) (f : Dep → Dep) (x : did) :
  dep (upd_dep d f st) x = if decide (x = d) then f (dep st d) else dep st x.
Proof.
  unfold dep, upd_dep; simpl. destruct (decide (x = d)) as [->|Hne].
  - by rewrite lookup_insert_eq.
  - by rewrite lookup_insert_ne.
Qed.

Lemma eff_upd_dep (st : state) (d : did) (f : Dep → Dep) (x : eid) :
  eff (upd_dep d f st) x = eff st x.
Proof. reflexivity. Qed.

Lemma dep_upd_eff (st : state) (e : eid) (f : ReactiveEffect → ReactiveEffect) (x : did) :
  dep (upd_eff e f st) x = dep st x.
Proof. reflexivity. Qed.

(** ** Ref creation (C10) *)

Lemma isRef_createRef (x : value) (shallow : bool) (st : state) :
  isRef (createRef x shallow st).2 (createRef x shallow st).1 = true.
Proof.
  unfold createRef. destruct (isRef st x) eqn:Hx; simpl; [done|].
  by rewrite lookup_insert_eq.
Qed.

(** C10. For every value [x] that is already a ref, [ref(x)] and
    [shallowRef(x)] return [x] itself and allocate nothing; hence, for
    every [x], a ref of a ref is that ref: [ref(ref(x)) === ref(x)], and
    the same for every combination of [ref] and [shallowRef]. *)
Theorem createRef_idempotent (x : value) (st : state) :
  (isRef st x = true → ref x st = (x, st) ∧ shallowRef x st = (x, st)) ∧
  (∀ s1 s2 : bool,
     createRef (createRef x s1 st).1 s2 (createRef x s1 st).2 = createRef x s1 st).
Proof.
  split.
  - intros Hx. unfold ref, shallowRef, createRef. by rewrite Hx.
  - intros s1 s2. pose proof (isRef_createRef x s1 st) as H.
    destruct (createRef x s1 st) as [r st1] eqn:E. simpl in *.
    unfold createRef at 1. by rewrite H.
Qed.

(** ** Assignment to a ref (C6) *)

(** C6. For every ref [r] and every value [x], the assignment
    [r.value = x] unwraps [x] to its raw value unless the ref is shallow.
    When that raw value is the same value as the stored raw value
    ([Object.is], under which [NaN] is the same as [NaN]) the state is left
    as it is: nothing is stored, no subscriber is triggered.  Otherwise the
    new raw value is stored, the reactive wrapper of it for a deep ref, and
    the subscribers of the cell of the ref are triggered. *)
Theorem RefImpl_assignment (code : program) (h : handler)
    (this : addr) (r : RefImpl) (x : value) (st : state) :
  heap st !! this = Some (ORef r) →
  let raw := if r_isShallow r then x else toRaw x in
  let stored := if r_isShallow r then raw else toReactive raw in
  let st1 :=
    upd_heap (<[this := ORef (mkRef stored raw (r_dep r) (r_isShallow r))]>) st in
  (Object_is raw (r_rawValue r) = true →
     step code h _ (OpSet (VObj this) (KStr "value") x) st = Done true st) ∧
  (raw = VNaN → r_rawValue r = VNaN →
     step code h _ (OpSet (VObj this) (KStr "value") x) st = Done true st) ∧
  (Object_is raw (r_rawValue r) = false →
     step code h _ (OpSet (VObj this) (KStr "value") x) st
       = bind (triggerRefValue code h this st1) (fun _ st' => Done true st') ∧
     triggerRefValue code h this st1
       = match r_dep r with
         | Some d => triggerEffects code h (dep_set (dep st d)) st1
         | None => Done tt st1
         end).
Proof.
  intros Hr raw stored st1.
  assert (Hsame : Object_is raw (r_rawValue r) = true →
            step code h _ (OpSet (VObj this) (KStr "value") x) st = Done true st).
  { intros Hsame. simpl. rewrite Hr. simpl.
    unfold RefImpl_set_value, hasChanged. fold raw. by rewrite Hsame. }
  split; [exact Hsame|]. split.
  - intros Hx Hold. apply Hsame. rewrite Hx, Hold. reflexivity.
  - intros Hdiff. split.
    + simpl. rewrite Hr. simpl.
      unfold RefImpl_set_value, hasChanged. fold raw. rewrite Hdiff. reflexivity.
    + unfold triggerRefValue, ref_dep, st1. simpl. rewrite lookup_insert_eq. simpl.
      reflexivity.
Qed.

(** ** Readonly wrappers (C7) *)

(** C7, as amended.  For a readonly wrapper (deep or shallow) of a plain
    object, whose properties are ordinary data properties, a write and a
    delete return [true] and leave the whole state as it is: the raw object
    is unchanged, [trigger] is not called, no subscriber runs. *)
Theorem readonly_write_and_delete (code : program) (h : handler)
    (kind : proxy_kind) (target : addr) (props : gmap pkey value) (key : pkey) (v : value)
    (st : state) :
  kind_isReadonly kind = true →
  heap st !! target = Some (OPlain props) →
  step code h _ (OpSet (VProxy kind target) key v) st = Done true st ∧
  step code h _ (OpDelete (VProxy kind target) key) st = Done true st.
Proof.
  intros Hk Ht. simpl. unfold is_base_target, proxy_delete, isArray. rewrite Ht, Hk.
  split; [reflexivity|]. unfold readonlyHandlers_deleteProperty. simpl. by rewrite Ht.
Qed.

(** ** Sets of effects *)

Lemma elem_of_set_add (x e : eid) (s : list eid) :
  x ∈ set_add e s ↔ x = e ∨ x ∈ s.
Proof.
  unfold set_add, set_has. case_bool_decide as He.
  - split; [by right|]. intros [->|?]; done.
  - rewrite elem_of_app, list_elem_of_singleton. tauto.
Qed.

Lemma NoDup_set_add (e : eid) (s : list eid) : NoDup s → NoDup (set_add e s).
Proof.
  intros Hs. unfold set_add, set_has. case_bool_decide as He; [done|].
  apply NoDup_app. split; [done|]. split.
  - intros x Hx Hx'. apply list_elem_of_singleton in Hx'. by subst.
  - apply NoDup_singleton.
Qed.

Lemma set_of_list_acc (l acc : list eid) :
  NoDup acc →
  NoDup (foldl (fun s e => set_add e s) acc l) ∧
  ∀ x, x ∈ foldl (fun s e => set_add e s) acc l ↔ x ∈ acc ∨ x ∈ l.
Proof.
  revert acc. induction l as [|e l IH]; intros acc Hacc; simpl.
  - split; [done|]. intros x. rewrite elem_of_nil. tauto.
  - destruct (IH (set_add e acc) (NoDup_set_add e acc Hacc)) as [Hnd Hin].
    split; [done|]. intros x. rewrite Hin, elem_of_set_add, elem_of_cons. tauto.
Qed.

Lemma NoDup_set_of_list (l : list eid) : NoDup (set_of_list l).
Proof. apply (set_of_list_acc l []), NoDup_nil_2. Qed.

Lemma elem_of_set_of_list (l : list eid) (x : eid) : x ∈ set_of_list l ↔ x ∈ l.
Proof.
  unfold set_of_list.
  destruct (set_of_list_acc l [] (NoDup_nil_2)) as [_ H].
  rewrite H, elem_of_nil. tauto.
Qed.

Lemma elem_of_set_delete (x e : eid) (s : list eid) :
  x ∈ set_delete e s ↔ x ≠ e ∧ x ∈ s.
Proof. unfold set_delete. rewrite list_elem_of_filter. tauto. Qed.

Lemma elem_of_effects_of (st : state) (ds : list (option did)) (e : eid) :
  e ∈ effects_of st ds ↔ ∃ d, Some d ∈ ds ∧ e ∈ dep_set (dep st d).
Proof.
  unfold effects_of. induction ds as [|od ds IH]; simpl.
  - rewrite elem_of_nil. split; [done|]. intros (d & Hd & _). by apply elem_of_nil in Hd.
  - rewrite elem_of_app, IH. split.
    + intros [He|(d & Hd & He)].
      * destruct od as [d|]; [|by apply elem_of_nil in He].
        exists d. split; [left|done].
      * exists d. split; [by right|done].
    + intros (d & Hd & He). apply elem_of_cons in Hd as [<-|Hd].
      * by left.
      * right. by exists d.
Qed.

(** ** The loop of [triggerEffects] (C2) *)

Lemma skipped_dec (st : state) (e : eid) :
  negb (bool_decide (Some e = activeEffect st)) || allowRecurse (eff st e) = false
  ↔ skipped st e.
Proof.
  unfold skipped. case_bool_decide as Ha; simpl.
  - destruct (allowRecurse (eff st e)); split; try done; intros []; done.
  - split; [done|]. intros [Hact _]. by rewrite Hact in Ha.
Qed.

Lemma triggerEffects_cons (code : program) (h : handler)
    (e : eid) (l : list eid) (st : state) :
  triggerEffects code h (e :: l) st =
    if negb (bool_decide (Some e = activeEffect st)) || allowRecurse (eff st e)
    then call _u at st' := execute code h e st in triggerEffects code h l st'
    else triggerEffects code h l st.
Proof.
  simpl. destruct (negb _ || _); [|reflexivity].
  unfold execute. destruct (call_scheduler code h e st) as [r0|]; [reflexivity|].
  destruct (run code h e st); reflexivity.
Qed.


(** ** Deduplication in [trigger] (C5) *)

(** C5. When one [trigger] call affects several dependency cells (the
    list of collected cells does not have length one), the subscribers of
    all affected cells are deduplicated before execution: [triggerEffects]
    receives each subscriber of an affected cell exactly once, so a
    subscriber that appears in two or more of the affected cells has one
    turn per [trigger] call, not one per cell. *)
Theorem trigger_deduplicates (code : program) (h : handler)
    (target : addr) (type : TriggerOpTypes) (key : option pkey) (newValue : value)
    (st : state) (depsMap : list (pkey * did)) (ds : list (option did)) :
  targetMap st !! target = Some depsMap →
  affected st target type key newValue depsMap = Normal ds →
  length ds ≠ 1%nat →
  ∃ l : list eid,
    trigger code h target type key newValue st
      = triggerEffects code h l (record (EvTrigger target type key) st) ∧
    NoDup l ∧
    (∀ e, e ∈ l ↔ ∃ d, Some d ∈ ds ∧ e ∈ dep_set (dep st d)) ∧
    (∀ e d, Some d ∈ ds → e ∈ dep_set (dep st d) → count_occ Nat.eq_dec l e = 1%nat).
Proof.
  intros Hmap Haff Hlen.
  exists (set_of_list (effects_of st ds)).
  assert (Hin : ∀ e, e ∈ set_of_list (effects_of st ds)
                   ↔ ∃ d, Some d ∈ ds ∧ e ∈ dep_set (dep st d)).
  { intros e. by rewrite elem_of_set_of_list, elem_of_effects_of. }
  split; [|split; [apply NoDup_set_of_list|split; [exact Hin|]]].
  - unfold trigger. simpl. rewrite Hmap.
    change (affected (record (EvTrigger target type key) st) target type key newValue depsMap)
      with (affected st target type key newValue depsMap).
    rewrite Haff.
    destruct ds as [|[d|] [|d' ds']]; simpl in Hlen; try done.
  - intros e d Hd He.
    assert (Hel : e ∈ set_of_list (effects_of st ds)) by (apply Hin; eauto).
    pose proof (NoDup_set_of_list (effects_of st ds)) as Hnd.
    apply NoDup_ListNoDup in Hnd.
    apply list_elem_of_In in Hel.
    pose proof (proj1 (NoDup_count_occ Nat.eq_dec _) Hnd e) as Hle.
    pose proof (proj1 (count_occ_In Nat.eq_dec _ e) Hel) as Hge.
    lia.
Qed.

(** ** The kind of operation a write triggers (C1) *)

Lemma raw_set_heap (a : addr) (key : pkey) (v : value) (st st1 : state) :
  raw_set a key v st = Normal st1 → ∃ f, st1 = upd_heap f st.
Proof.
  unfold raw_set. intros H. repeat case_match; try done; inversion H; by eexists.
Qed.

Lemma trace_raw_set (a : addr) (key : pkey) (v : value) (st st1 : state) :
  raw_set a key v st = Normal st1 → trace st1 = trace st.
Proof. intros [f ->]%raw_set_heap. reflexivity. Qed.

(** C1, as amended.  For every write [o[k] = v] through a mutable
    wrapper, deep or shallow, that reaches the raw target itself (the setter
    gets to its [Reflect.set]: the old value is not a ref the new value is
    assigned through, and the target is the raw object of the receiver, not
    an object of its prototype chain) and that the raw target accepts (the
    raw assignment returns, it does not throw): when the key did not exist
    on the raw target (for an array and an integer key, the index was not
    below the length), [trigger] is called with the kind [ADD]; when it
    existed and the new raw value differs from the old one under
    [hasChanged], [trigger] is called with the kind [SET]; when it existed
    and the raw value is unchanged, [trigger] is not called: the write
    returns in the state the raw assignment leaves, with the call trace as
    it was. *)
Theorem createSetter_trigger_kind (code : program) (h : handler) (shallow : bool)
    (target : addr) (key : pkey) (v : value) (receiver : value) (st st1 : state) :
  let oldValue := raw_get st target key in
  let deep := negb shallow && negb (isReadonly st v) in
  let unwrap := deep && negb (isShallow st v) in
  let v' := if unwrap then toRaw v else v in
  let oldValue' := if unwrap then toRaw oldValue else oldValue in
  reaches_raw_target shallow target key v receiver st →
  raw_set target key v' st = Normal st1 →
  (hadKey st target key = false →
     createSetter code h shallow target key v receiver st
       = call _u at st2 := trigger code h target ADD (Some key) v' st1 in Done true st2) ∧
  (hadKey st target key = true → hasChanged v' oldValue' = true →
     createSetter code h shallow target key v receiver st
       = call _u at st2 := trigger code h target SET (Some key) v' st1 in Done true st2) ∧
  (hadKey st target key = true → hasChanged v' oldValue' = false →
     createSetter code h shallow target key v receiver st = Done true st1 ∧
     trace st1 = trace st) ∧
  (∀ len props i, heap st !! target = Some (OArray len props) → key = KIdx i →
     hadKey st target key = bool_decide (i < len)%N) ∧
  ((isArray st target && isIntegerKey key = false) →
     hadKey st target key = hasOwn st target key).
Proof.
  intros oldValue deep unwrap v' oldValue' (Hro & Href & Hrecv) Hraw.
  fold oldValue deep unwrap v' oldValue' in Hro, Href.
  assert (Hset : Reflect_set target key v' receiver st = Done true st1).
  { unfold Reflect_set, OrdinarySet. by rewrite Hrecv, Hraw. }
  pose proof (trace_raw_set target key v' st st1 Hraw) as Htr.
  unfold createSetter. fold oldValue. rewrite Hro. fold deep unwrap v' oldValue'.
  rewrite Href, Hset, Hrecv. simpl. rewrite bool_decide_eq_true_2 by done.
  split; [|split; [|split; [|split]]].
  - intros ->. reflexivity.
  - intros -> ->. reflexivity.
  - intros -> ->. split; [reflexivity|exact Htr].
  - intros len props i Hh ->. unfold hadKey. rewrite Hh.
    case_bool_decide as Hlt.
    + by apply N.ltb_lt.
    + by apply N.ltb_nlt.
  - unfold hadKey, isArray. intros Hk.
    destruct (heap st !! target) as [[| | | |]|]; try done.
    destruct key; done.
Qed.

(** A write that the raw target refuses: the exception of [Reflect.set]
    leaves the setter in the state it was called in, and [trigger] is not
    called. *)
Lemma createSetter_raw_set_throws (code : program) (h : handler) (shallow : bool)
    (target : addr) (key : pkey) (v : value) (receiver : value) (st : state) (x : value) :
  let oldValue := raw_get st target key in
  let deep := negb shallow && negb (isReadonly st v) in
  let unwrap := deep && negb (isShallow st v) in
  let v' := if unwrap then toRaw v else v in
  let oldValue' := if unwrap then toRaw oldValue else oldValue in
  reaches_raw_target shallow target key v receiver st →
  raw_set target key v' st = Abrupt x →
  createSetter code h shallow target key v receiver st = Raised x st.
Proof.
  intros oldValue deep unwrap v' oldValue' (Hro & Href & Hrecv) Hraw.
  fold oldValue deep unwrap v' oldValue' in Hro, Href.
  assert (Hset : Reflect_set target key v' receiver st = Raised x st).
  { unfold Reflect_set, OrdinarySet. by rewrite Hrecv, Hraw. }
  unfold createSetter. fold oldValue. rewrite Hro. fold deep unwrap v' oldValue'.
  by rewrite Href, Hset.
Qed.

(** ** Steps that only touch the graph *)

Lemma quiet_refl (st : state) : quiet st st.
Proof. unfold quiet. repeat split; lia. Qed.

Lemma quiet_trans (st1 st2 st3 : state) : quiet st1 st2 → quiet st2 st3 → quiet st1 st3.
Proof.
  unfold quiet. intros (?&?&?&?&?&?&?&Hx1) (?&?&?&?&?&?&?&Hx2).
  repeat split; try congruence; try lia;
    destruct (Hx1 x) as (?&?&?&?); destruct (Hx2 x) as (?&?&?&?); congruence.
Qed.

Lemma quiet_upd_dep (d : did) (f : Dep → Dep) (st : state) : quiet st (upd_dep d f st).
Proof. unfold quiet. repeat split; simpl; lia. Qed.

Lemma size_insert_le {A : Type} (m : gmap nat A) (i : nat) (x : A) :
  (size m ≤ size (<[i := x]> m))%nat.
Proof.
  destruct (m !! i) as [y|] eqn:Hi.
  - rewrite map_size_insert_Some by eauto. lia.
  - rewrite map_size_insert_None by done. lia.
Qed.

Lemma quiet_upd_eff_deps (e : eid) (g : list did → list did) (st : state) :
  quiet st (upd_eff e (fun x => set_deps (g (deps x)) x) st).
Proof.
  unfold quiet. repeat split; simpl; try (apply size_insert_le);
    rewrite eff_upd_eff; case_decide; subst; reflexivity.
Qed.

Lemma quiet_heap (f : gmap addr obj → gmap addr obj) (st : state) :
  quiet st (upd_heap f st).
Proof. unfold quiet. repeat split; simpl; lia. Qed.

Lemma quiet_targetMap f (st : state) : quiet st (upd_targetMap f st).
Proof. unfold quiet. repeat split; simpl; lia. Qed.

Lemma quiet_alloc_dep (st : state) : quiet st (alloc_dep st).2.
Proof. unfold quiet. repeat split; simpl; lia. Qed.

Lemma quiet_foldl {A : Type} (f : state → A → state) (l : list A) (st : state) :
  (∀ s a, quiet s (f s a)) → quiet st (foldl f st l).
Proof.
  intros Hf. revert st. induction l as [|a l IH]; intros st; simpl.
  - apply quiet_refl.
  - eapply quiet_trans; [apply Hf|apply IH].
Qed.

Lemma quiet_trackEffects (e : eid) (d : did) (st : state) : quiet st (trackEffects e d st).
Proof.
  unfold trackEffects.
  destruct (effectTrackDepth st <=? maxMarkerBits).
  - destruct (negb (newTracked st d)); [|apply quiet_refl].
    destruct (negb (wasTracked st d)).
    + eapply quiet_trans; [apply quiet_upd_dep|].
      eapply quiet_trans; [apply quiet_upd_dep|].
      apply (quiet_upd_eff_deps e (fun l => l ++ [d])).
    + apply quiet_upd_dep.
  - destruct (negb (set_has e (dep_set (dep st d)))); [|apply quiet_refl].
    eapply quiet_trans; [apply quiet_upd_dep|].
    apply (quiet_upd_eff_deps e (fun l => l ++ [d])).
Qed.

Lemma quiet_track (target : addr) (type : TrackOpTypes) (key : pkey) (st : state) :
  quiet st (track target type key st).
Proof.
  unfold track. destruct (activeEffect st) as [e|]; [|apply quiet_refl].
  destruct (shouldTrack st); [|apply quiet_refl].
  destruct (map_get _ key) as [d|].
  - apply quiet_trackEffects.
  - destruct (alloc_dep st) as [d st1] eqn:Ha.
    pose proof (quiet_alloc_dep st) as Hq. rewrite Ha in Hq. simpl in Hq.
    eapply quiet_trans; [exact Hq|].
    eapply quiet_trans; [apply quiet_targetMap|apply quiet_trackEffects].
Qed.

Lemma quiet_upd_ref (a : addr) f (st : state) : quiet st (upd_ref a f st).
Proof. unfold upd_ref. repeat case_match; try apply quiet_refl. apply quiet_heap. Qed.

Lemma quiet_upd_computed (a : addr) f (st : state) : quiet st (upd_computed a f st).
Proof. unfold upd_computed. repeat case_match; try apply quiet_refl. apply quiet_heap. Qed.

Lemma quiet_trackRefValue (ref : addr) (st : state) : quiet st (trackRefValue ref st).
Proof.
  unfold trackRefValue. destruct (activeEffect st) as [e|]; [|apply quiet_refl].
  destruct (shouldTrack st); [|apply quiet_refl].
  assert (Hgo : quiet st
    match ref_dep st ref with
    | Some d => trackEffects e d st
    | None => let '(d, st1) := alloc_dep st in trackEffects e d (set_ref_dep ref d st1)
    end).
  { destruct (ref_dep st ref) as [d|]; [apply quiet_trackEffects|].
    destruct (alloc_dep st) as [d st1] eqn:Ha.
    pose proof (quiet_alloc_dep st) as Hq. rewrite Ha in Hq. simpl in Hq.
    eapply quiet_trans; [exact Hq|].
    eapply quiet_trans; [|apply quiet_trackEffects].
    unfold set_ref_dep.
    eapply quiet_trans; [apply quiet_upd_ref|apply quiet_upd_computed]. }
  destruct (heap st !! ref) as [[| | | |]|]; try apply quiet_refl; exact Hgo.
Qed.

Lemma quiet_cleanupEffect (e : eid) (st : state) : quiet st (cleanupEffect e st).
Proof.
  unfold cleanupEffect. destruct (deps (eff st e)) as [|d ds]; [apply quiet_refl|].
  eapply quiet_trans; [|apply (quiet_upd_eff_deps e (fun _ => []))].
  apply quiet_foldl. intros. apply quiet_upd_dep.
Qed.

Lemma quiet_initDepMarkers (e : eid) (st : state) : quiet st (initDepMarkers e st).
Proof. unfold initDepMarkers. apply quiet_foldl. intros. apply quiet_upd_dep. Qed.

Lemma quiet_finalize_loop (e : eid) (ds kept : list did) (st : state) :
  quiet st (finalize_loop e ds kept st).2.
Proof.
  revert kept st. induction ds as [|d ds IH]; intros kept st; simpl.
  - apply quiet_refl.
  - eapply quiet_trans; [|apply IH].
    destruct (wasTracked st d && negb (newTracked st d)).
    + eapply quiet_trans; apply quiet_upd_dep.
    + apply quiet_upd_dep.
Qed.

Lemma quiet_finalizeDepMarkers (e : eid) (st : state) : quiet st (finalizeDepMarkers e st).
Proof.
  unfold finalizeDepMarkers. destruct (deps (eff st e)) as [|d ds]; [apply quiet_refl|].
  pose proof (quiet_finalize_loop e (d :: ds) [] st) as Hq.
  destruct (finalize_loop e (d :: ds) [] st) as [kept st'].
  eapply quiet_trans; [exact Hq|]. apply (quiet_upd_eff_deps e (fun _ => kept)).
Qed.

Lemma quiet_record (ev : event) (st : state) :
  activeEffect (record ev st) = activeEffect st ∧
  ∀ x, eff (record ev st) x = eff st x.
Proof. split; reflexivity. Qed.

(** ** The chain of running effects *)

Lemma chain_has_mono (st st' : state) (e : eid) (n m : nat) (p : option eid) (b : bool) :
  chain_has n st p e = Some b →
  (n ≤ m)%nat →
  (∀ x, parent (eff st' x) = parent (eff st x)) →
  chain_has m st' p e = Some b.
Proof.
  intros Hc Hle Hp. revert m p Hc Hle.
  induction n as [|n IH]; intros m p Hc Hle; destruct p as [x|]; simpl in *.
  - destruct m; simpl; case_bool_decide; done.
  - destruct m; done.
  - destruct m as [|m]; [lia|]. simpl.
    case_bool_decide; [done|]. rewrite Hp. apply IH; [done|lia].
  - destruct m; done.
Qed.

Lemma chain_has_false (st : state) (e : eid) (n : nat) (p : option eid) :
  chain_has n st p e = Some false → ¬ on_chain st p e.
Proof.
  revert p. induction n as [|n IH]; intros p Hc Hon.
  - destruct p as [x|]; [|inversion Hon]. simpl in Hc.
    case_bool_decide; done.
  - destruct p as [x|]; [|inversion Hon]. simpl in Hc.
    case_bool_decide as Hx; [done|].
    inversion Hon; subst; [done|]. by eapply IH.
Qed.

Lemma on_chain_transfer (st st' : state) (p : option eid) (x : eid) :
  on_chain st p x →
  (∀ y, on_chain st p y → parent (eff st' y) = parent (eff st y)) →
  on_chain st' p x.
Proof.
  induction 1 as [x|y x Hon IH]; intros Hp.
  - constructor.
  - apply on_chain_next. rewrite (Hp y) by constructor.
    apply IH. intros z Hz. apply Hp. by apply on_chain_next.
Qed.

Lemma frame_refl (st : state) : frame st st.
Proof. by split. Qed.

Lemma frame_trans (st1 st2 st3 : state) : frame st1 st2 → frame st2 st3 → frame st1 st3.
Proof.
  intros [Ha1 Hp1] [Ha2 Hp2]. split; [congruence|].
  intros x Hx. rewrite <- (Hp1 x Hx). apply Hp2. rewrite Ha1.
  by apply (on_chain_transfer st1).
Qed.

Lemma frame_same (st st' : state) :
  activeEffect st' = activeEffect st →
  (∀ x, parent (eff st' x) = parent (eff st x)) →
  frame st st'.
Proof. intros Ha Hp. split; [done|]. intros x _. apply Hp. Qed.

Lemma quiet_frame (st st' : state) : quiet st st' → frame st st'.
Proof.
  intros (Ha&_&_&_&_&_&_&Hx). apply frame_same; [done|]. intros x. apply Hx.
Qed.

Lemma post_weaken {A : Type} (P Q : state → Prop) (m : outcome A) :
  (∀ st, P st → Q st) → post P m → post Q m.
Proof. intros HPQ. destruct m; simpl; auto. Qed.

Lemma post_frame_pre {A : Type} (st st1 : state) (m : outcome A) :
  frame st st1 → post (frame st1) m → post (frame st) m.
Proof. intros H. apply post_weaken. intros st2. by apply frame_trans. Qed.

Lemma post_frame_bind {A B : Type} (st : state) (m : outcome A) (k : A → state → outcome B) :
  post (frame st) m →
  (∀ a st', post (frame st') (k a st')) →
  post (frame st) (bind m k).
Proof.
  intros Hm Hk. destruct m as [a st'|x st'|]; simpl in *; [|done..].
  eapply post_frame_pre; [exact Hm|apply Hk].
Qed.

Lemma interp_framed {R : Type} (h : handler) (p : prog R) (st : state) :
  framed h → post (frame st) (interp h p st).
Proof.
  intros Hh. revert st.
  induction p as [R r|R x|R X op k IH|R body IHb hd IHh k IHk]; intros st; simpl.
  - apply frame_refl.
  - apply frame_refl.
  - apply post_frame_bind; [apply Hh|]. intros a st'. apply IH.
  - pose proof (IHb st) as Hb.
    destruct (interp h body st) as [v st1|x st1|]; simpl in *; [| |done].
    + eapply post_frame_pre; [exact Hb|apply IHk].
    + eapply post_frame_pre; [exact Hb|].
      apply post_frame_bind; [apply IHh|]. intros a st'. apply IHk.
Qed.

(** ** [run] restores the active effect (towards C4) *)

Lemma run_enter_ctx (e : eid) (st : state) :
  activeEffect (run_enter e st) = Some e ∧
  parent (eff (run_enter e st) e) = activeEffect st ∧
  (∀ x, x ≠ e → parent (eff (run_enter e st) x) = parent (eff st x)) ∧
  (∀ x, active (eff (run_enter e st) x) = active (eff st x)) ∧
  trace (run_enter e st) = trace st.
Proof.
  unfold run_enter.
  set (st3 := set_trackOpBit _ _).
  assert (H3 : activeEffect st3 = Some e ∧
               parent (eff st3 e) = activeEffect st ∧
               (∀ x, x ≠ e → parent (eff st3 x) = parent (eff st x)) ∧
               (∀ x, active (eff st3 x) = active (eff st x)) ∧
               trace st3 = trace st).
  { unfold st3. repeat split.
    - change (parent (eff (upd_eff e (set_parent (activeEffect st)) st) e) = activeEffect st).
      rewrite eff_upd_eff. by rewrite decide_True.
    - intros x Hx.
      change (parent (eff (upd_eff e (set_parent (activeEffect st)) st) x) = parent (eff st x)).
      rewrite eff_upd_eff. by rewrite decide_False.
    - intros x.
      change (active (eff (upd_eff e (set_parent (activeEffect st)) st) x) = active (eff st x)).
      rewrite eff_upd_eff. case_decide; subst; reflexivity. }
  destruct H3 as (Ha & Hp & Hx & Hact & Htr).
  assert (Hq : quiet st3 (if effectTrackDepth st3 <=? maxMarkerBits
                          then initDepMarkers e st3 else cleanupEffect e st3)).
  { destruct (_ <=? _); [apply quiet_initDepMarkers|apply quiet_cleanupEffect]. }
  destruct Hq as (Ha'&_&_&_&_&Htr'&_&Hx').
  repeat split.
  - congruence.
  - destruct (Hx' e) as (-> & _). exact Hp.
  - intros x Hne. destruct (Hx' x) as (-> & _). by apply Hx.
  - intros x. destruct (Hx' x) as (_ & -> & _). apply Hact.
  - congruence.
Qed.

Lemma run_exit_ctx (e : eid) (last : bool) (st : state) :
  activeEffect (run_exit e last st) = parent (eff st e) ∧
  shouldTrack (run_exit e last st) = last ∧
  (∀ x, x ≠ e → parent (eff (run_exit e last st) x) = parent (eff st x)) ∧
  trace (run_exit e last st) = trace st.
Proof.
  unfold run_exit.
  set (st1 := if effectTrackDepth st <=? maxMarkerBits then finalizeDepMarkers e st else st).
  assert (Hq : quiet st st1).
  { unfold st1. destruct (_ <=? _); [apply quiet_finalizeDepMarkers|apply quiet_refl]. }
  destruct Hq as (_&_&_&_&_&Htr&_&Hx).
  repeat split.
  - simpl. change (parent (eff st1 e) = parent (eff st e)). by destruct (Hx e) as (-> & _).
  - intros x Hne. rewrite eff_upd_eff, decide_False by done.
    change (parent (eff st1 x) = parent (eff st x)). by destruct (Hx x) as (-> & _).
  - simpl. exact Htr.
Qed.

Lemma run_exit_frame (e : eid) (last : bool) (st st2 : state) :
  ¬ on_chain st (activeEffect st) e →
  frame (record (EvFn e) (run_enter e st)) st2 →
  frame st (run_exit e last st2).
Proof.
  intros Hc [Ha2 Hp2].
  destruct (run_enter_ctx e st) as (Ha & Hp & Hx & _ & _).
  destruct (run_exit_ctx e last st2) as (Hae & _ & Hxe & _).
  change (activeEffect (record (EvFn e) (run_enter e st)))
    with (activeEffect (run_enter e st)) in Hp2.
  rewrite Ha in Hp2.
  assert (Hpe : ∀ x, parent (eff (record (EvFn e) (run_enter e st)) x)
                     = parent (eff (run_enter e st) x)) by reflexivity.
  split.
  - rewrite Hae, (Hp2 e), Hpe by constructor. exact Hp.
  - intros x Hon.
    assert (Hne : x ≠ e) by (intros ->; by apply Hc).
    rewrite (Hxe x Hne), (Hp2 x), Hpe; [by apply Hx|].
    apply on_chain_next. rewrite Hpe, Hp.
    apply (on_chain_transfer st); [exact Hon|].
    intros y Hy. rewrite Hpe. apply Hx. intros ->. by apply Hc.
Qed.

Lemma run_framed (code : program) (h : handler) (e : eid) (st : state) :
  framed h → post (frame st) (run code h e st).
Proof.
  intros Hh. unfold run.
  set (st_r := record (EvRun e) st).
  assert (Hr : frame st st_r) by (by apply frame_same).
  eapply post_frame_pre; [exact Hr|].
  destruct (negb (active (eff st_r e))).
  { unfold call_fn.
    eapply post_frame_pre; [|by apply interp_framed]. by apply frame_same. }
  destruct (chain_has _ st_r (activeEffect st_r) e) as [[|]|] eqn:Hc;
    [apply frame_refl| |done].
  apply chain_has_false in Hc.
  unfold call_fn.
  pose proof (interp_framed h (fn code e) (record (EvFn e) (run_enter e st_r)) Hh) as Hpost.
  destruct (interp h (fn code e) (record (EvFn e) (run_enter e st_r))) as [v st2|x st2|];
    [| |done]; apply run_exit_frame; assumption.
Qed.

(** ** Every operation restores the active effect *)

Lemma frame_OrdinarySet (a : addr) (key : pkey) (v : value) (st : state) :
  post (frame st) (OrdinarySet a key v st).
Proof.
  unfold OrdinarySet. destruct (raw_set a key v st) as [st1|x|] eqn:E; simpl;
    [|apply frame_refl|done].
  apply raw_set_heap in E as [f ->]. by apply frame_same.
Qed.

Lemma frame_Reflect_set (target : addr) (key : pkey) (v : value) (receiver : value)
    (st : state) :
  post (frame st) (Reflect_set target key v receiver st).
Proof.
  unfold Reflect_set. destruct (toRaw receiver); try apply frame_refl.
  apply frame_OrdinarySet.
Qed.

Lemma frame_raw_delete (a : addr) (key : pkey) (st : state) :
  frame st (raw_delete a key st).2.
Proof. unfold raw_delete. repeat case_match; by apply frame_same. Qed.

Lemma frame_upd_active (e : eid) (b : bool) (st : state) :
  frame st (upd_eff e (set_active b) st).
Proof.
  apply frame_same; [done|]. intros x. rewrite eff_upd_eff. by case_decide; subst.
Qed.

Section framed_library.

Context (code : program) (h : handler) (Hh : framed h).

Lemma stop_framed (e : eid) (st : state) : post (frame st) (stop code h e st).
Proof.
  unfold stop. destruct (active (eff st e)); [|apply frame_refl].
  eapply post_frame_pre; [apply quiet_frame, quiet_cleanupEffect|].
  apply post_frame_bind.
  - destruct (onStop code e); [by apply interp_framed|apply frame_refl].
  - intros _ st'. apply frame_upd_active.
Qed.

Lemma call_scheduler_framed (e : eid) (st : state) (r : outcome unit) :
  call_scheduler code h e st = Some r → post (frame st) r.
Proof.
  unfold call_scheduler. intros Hr.
  destruct (computed (eff st e)) as [c|].
  - inversion Hr; subst. eapply post_frame_pre; [|apply Hh]. by apply frame_same.
  - destruct (scheduler code e) as [p|]; [|done]. inversion Hr; subst.
    eapply post_frame_pre; [|by apply interp_framed]. by apply frame_same.
Qed.

Lemma triggerEffects_framed (l : list eid) (st : state) :
  post (frame st) (triggerEffects code h l st).
Proof.
  revert st. induction l as [|e l IH]; intros st; simpl.
  - apply frame_refl.
  - destruct (negb _ || _); [|apply IH].
    destruct (call_scheduler code h e st) as [r|] eqn:Hs.
    + apply post_frame_bind; [by eapply call_scheduler_framed|]. intros _ st'. apply IH.
    + apply post_frame_bind; [by apply run_framed|]. intros _ st'. apply IH.
Qed.

Lemma trigger_framed (target : addr) (type : TriggerOpTypes) (key : option pkey)
    (newValue : value) (st : state) :
  post (frame st) (trigger code h target type key newValue st).
Proof.
  unfold trigger.
  eapply (post_frame_pre st (record (EvTrigger target type key) st));
    [by apply frame_same|].
  destruct (targetMap _ !! target) as [depsMap|]; [|apply frame_refl].
  destruct (affected _ target type key newValue depsMap) as [ds|x|]; [|apply frame_refl|done].
  destruct ds as [|[d|] [|d' ds']];
    try apply triggerEffects_framed; apply frame_refl.
Qed.

Lemma triggerRefValue_framed (ref : addr) (st : state) :
  post (frame st) (triggerRefValue code h ref st).
Proof.
  unfold triggerRefValue. destruct (ref_dep st ref);
    [apply triggerEffects_framed|apply frame_refl].
Qed.

Lemma RefImpl_set_value_framed (this : addr) (r : RefImpl) (v : value) (st : state) :
  post (frame st) (RefImpl_set_value code h this r v st).
Proof.
  unfold RefImpl_set_value. destruct (hasChanged _ _); [|apply frame_refl].
  eapply post_frame_pre; [|apply triggerRefValue_framed]. by apply frame_same.
Qed.

Lemma computed_scheduler_framed (this : addr) (st : state) :
  post (frame st) (computed_scheduler code h this st).
Proof.
  unfold computed_scheduler.
  destruct (heap st !! this) as [[| | | |c]|]; try done.
  destruct (negb (c_dirty c)); [|apply frame_refl].
  eapply post_frame_pre; [|apply triggerRefValue_framed].
  apply quiet_frame, quiet_upd_computed.
Qed.

Lemma ComputedRefImpl_get_value_framed (self : addr) (st : state) :
  post (frame st) (ComputedRefImpl_get_value code h self st).
Proof.
  unfold ComputedRefImpl_get_value.
  eapply post_frame_pre; [apply quiet_frame, (quiet_trackRefValue self)|].
  destruct (heap _ !! self) as [[| | | |c]|]; try done.
  destruct (c_dirty c || negb (c_cacheable c)); [|apply frame_refl].
  eapply post_frame_pre; [apply quiet_frame, quiet_upd_computed|].
  apply post_frame_bind; [by apply run_framed|].
  intros v st'. apply quiet_frame, quiet_upd_computed.
Qed.

Lemma createGetter_framed (isReadonly_ shallow : bool) (target : addr) (key : pkey)
    (receiver : value) (st : state) :
  post (frame st) (createGetter h isReadonly_ shallow target key receiver st).
Proof.
  unfold createGetter.
  do 4 (destruct (_ : bool); [apply frame_refl|]).
  match goal with |- post _ (match ?x with _ => _ end) => destruct x end;
    [apply frame_refl|].
  destruct (if isSymbol key then _ else _); [apply frame_refl|].
  set (st1 := if negb isReadonly_ then track target GET key st else st).
  assert (H1 : frame st st1).
  { unfold st1. destruct (negb isReadonly_); [apply quiet_frame, quiet_track|apply frame_refl]. }
  eapply post_frame_pre; [exact H1|].
  destruct shallow; [apply frame_refl|].
  destruct (isRef st1 _).
  - destruct (_ || _); [apply Hh|apply frame_refl].
  - repeat case_match; try done; apply frame_refl.
Qed.

Lemma createSetter_framed (shallow : bool) (target : addr) (key : pkey) (v : value)
    (receiver : value) (st : state) :
  post (frame st) (createSetter code h shallow target key v receiver st).
Proof.
  unfold createSetter.
  destruct (_ && _ && negb (isRef st v)); [apply frame_refl|].
  destruct (_ && _ && _ && _).
  { apply post_frame_bind; [apply Hh|]. intros _ st'. apply frame_refl. }
  apply post_frame_bind; [apply frame_Reflect_set|]. intros result st1.
  case_bool_decide; [|apply frame_refl].
  destruct (negb _).
  - apply post_frame_bind; [apply trigger_framed|]. intros. apply frame_refl.
  - destruct (hasChanged _ _); [|apply frame_refl].
    apply post_frame_bind; [apply trigger_framed|]. intros. apply frame_refl.
Qed.

Lemma deleteProperty_framed (target : addr) (key : pkey) (st : state) :
  post (frame st) (deleteProperty code h target key st).
Proof.
  unfold deleteProperty.
  pose proof (frame_raw_delete target key st) as Hd.
  destruct (raw_delete target key st) as [result st1]. simpl in Hd.
  destruct (result && _); [|exact Hd].
  eapply post_frame_pre; [exact Hd|].
  apply post_frame_bind; [apply trigger_framed|]. intros. apply frame_refl.
Qed.

Lemma step_framed : framed (step code h).
Proof.
  intros X op st. destruct op; simpl.
  - (* OpGet *)
    unfold op_get. destruct o; try done; try apply frame_refl.
    + destruct (heap st !! a) as [[| | |r|c]|]; try done; try apply frame_refl.
      * repeat case_match; try done; try apply frame_refl.
        apply quiet_frame, quiet_trackRefValue.
      * repeat case_match; try done; try apply frame_refl.
        all: try apply ComputedRefImpl_get_value_framed.
    + destruct (is_base_target st a); [apply createGetter_framed|done].
  - (* OpSet *)
    unfold op_set. destruct o; try done.
    + destruct (heap st !! a) as [[| | |r|c]|]; try done; try apply frame_OrdinarySet.
      * case_bool_decide; [|done].
        apply post_frame_bind; [apply RefImpl_set_value_framed|]. intros. apply frame_refl.
      * case_bool_decide; [|done].
        apply post_frame_bind; [by apply interp_framed|]. intros. apply frame_refl.
    + destruct (is_base_target st a); [|done].
      destruct (kind_isReadonly k0); [apply frame_refl|apply createSetter_framed].
  - (* OpDelete *)
    unfold op_delete. destruct o; try done.
    + destruct (is_base_target st a); [|done].
      pose proof (frame_raw_delete a k st) as Hd.
      by destruct (raw_delete a k st).
    + destruct (is_base_target st a); [|done].
      unfold proxy_delete. apply post_frame_bind.
      * destruct (kind_isReadonly k0); [apply frame_refl|apply deleteProperty_framed].
      * intros result st1. destruct (_ && _ && _); apply frame_refl.
  - (* OpHas *)
    unfold op_has, has_. destruct o; try done.
    + destruct (is_base_target st a); [|done].
      destruct (Reflect_has st a k); [apply frame_refl|done].
    + destruct (is_base_target st a); [|done].
      destruct (Reflect_has st a k); [|by destruct (kind_isReadonly k0)].
      destruct (kind_isReadonly k0); [apply frame_refl|].
      destruct (_ || _); [apply quiet_frame, quiet_track|apply frame_refl].
  - (* OpOwnKeys *)
    unfold op_ownKeys, ownKeys. destruct o; try done.
    destruct (is_base_target st a); [|done].
    destruct (kind_isReadonly k); [apply frame_refl|apply quiet_frame, quiet_track].
  - (* OpCallMethod *)
    unfold op_callMethod. apply post_frame_bind.
    + unfold op_get. destruct o; try done; try apply frame_refl.
      * destruct (heap st !! a) as [[| | |r|c]|]; try done; try apply frame_refl.
        -- repeat case_match; try done; try apply frame_refl.
           apply quiet_frame, quiet_trackRefValue.
        -- repeat case_match; try done; try apply frame_refl.
           all: try apply ComputedRefImpl_get_value_framed.
      * destruct (is_base_target st a); [apply createGetter_framed|done].
    + intros f st1. repeat case_match; try done; try apply frame_refl;
        by apply interp_framed.
  - by apply run_framed.
  - apply stop_framed.
  - by apply frame_same.
  - by apply frame_same.
  - unfold resetTracking. case_match; by apply frame_same.
  - unfold createRef. destruct (isRef st v); simpl; [apply frame_refl|by apply frame_same].
  - apply computed_scheduler_framed.
Qed.

End framed_library.

Lemma sem_framed (code : program) (fuel : nat) : framed (sem code fuel).
Proof.
  induction fuel as [|fuel IH]; intros X op st; simpl; [done|].
  by apply step_framed.
Qed.

(** ** Exceptions in [run] (C4) *)

Lemma run_inactive (code : program) (h : handler) (e : eid) (st : state) :
  active (eff st e) = false →
  run code h e st = call_fn code h e (record (EvRun e) st).
Proof.
  intros Hact. unfold run.
  change (active (eff (record (EvRun e) st) e)) with (active (eff st e)).
  by rewrite Hact.
Qed.

Lemma chain_has_ext (st st' : state) (e : eid) (n : nat) (p : option eid) :
  (∀ x, parent (eff st' x) = parent (eff st x)) →
  chain_has n st' p e = chain_has n st p e.
Proof.
  intros Hp. revert p. induction n as [|n IH]; intros [x|]; simpl; try done.
  case_bool_decide; [done|]. by rewrite Hp.
Qed.

Lemma run_active (code : program) (h : handler) (e : eid) (st : state) :
  active (eff st e) = true →
  run code h e st =
    match chain_has (S (size (effects st))) st (activeEffect st) e with
    | None => NoResult
    | Some true => Done VUndefined (record (EvRun e) st)
    | Some false =>
        finally (call_fn code h e (run_enter e (record (EvRun e) st)))
          (run_exit e (shouldTrack st))
    end.
Proof.
  intros Hact. unfold run.
  change (active (eff (record (EvRun e) st) e)) with (active (eff st e)).
  rewrite Hact. simpl negb. cbv iota.
  rewrite (chain_has_ext st (record (EvRun e) st)) by reflexivity.
  reflexivity.
Qed.

(** C4, as amended.  For every effect [e] whose [run] gets to call the
    wrapped function, if the function throws, the exception is the one [run]
    throws, unmodified.  On every exit of [run], the throwing one included,
    [activeEffect] is again what it was before the run; and, for an effect
    that is active (not stopped), [shouldTrack] is again what it was before
    the run. *)
Theorem run_exception_restores (code : program) (fuel : nat) (e : eid)
    (st : state) (x : value) (st2 : state) :
  let h := sem code fuel in
  let st_r := record (EvRun e) st in
  let st_fn := if active (eff st e) then run_enter e st_r else st_r in
  active (eff st e) = false ∨
    chain_has (S (size (effects st))) st (activeEffect st) e = Some false →
  call_fn code h e st_fn = Raised x st2 →
  (∃ st', run code h e st = Raised x st' ∧
          activeEffect st' = activeEffect st ∧
          (active (eff st e) = true → shouldTrack st' = shouldTrack st)) ∧
  post (fun st' => activeEffect st' = activeEffect st ∧
                   (active (eff st e) = true → shouldTrack st' = shouldTrack st))
    (run code h e st).
Proof.
  intros h st_r st_fn Hguard Hfn.
  pose proof (run_framed code h e st (sem_framed code fuel)) as Hf. fold h in Hf.
  assert (Hall : post (fun st' => activeEffect st' = activeEffect st ∧
                   (active (eff st e) = true → shouldTrack st' = shouldTrack st))
                   (run code h e st)).
  { destruct (active (eff st e)) eqn:Hact.
    - rewrite (run_active code h e st Hact) in *.
      destruct (chain_has _ st (activeEffect st) e) as [[|]|]; [| |done].
      + destruct Hf as [Ha _]. split; [exact Ha|done].
      + destruct (call_fn code h e _) as [v s|y s|]; [| |done].
        all: destruct Hf as [Ha _]; split; [exact Ha|]; intros _;
          by destruct (run_exit_ctx e (shouldTrack st) s) as (_ & -> & _).
    - rewrite (run_inactive code h e st Hact) in *.
      destruct (call_fn code h e _) as [v s|y s|]; [| |done].
      all: destruct Hf as [Ha _]; split; [exact Ha|done]. }
  split; [|exact Hall].
  unfold st_fn in Hfn.
  destruct (active (eff st e)) eqn:Hact.
  - destruct Hguard as [|Hc]; [done|].
    rewrite (run_active code h e st Hact) in *. rewrite Hc in *.
    fold st_r in Hall |- *. rewrite Hfn in *. simpl in *. eauto.
  - rewrite (run_inactive code h e st Hact) in *.
    fold st_r in Hall |- *. rewrite Hfn in *. simpl in *. eauto.
Qed.

(** The claim as it was stated fails for a stopped effect: [run] calls the
    function outside any [try], and a function that pauses tracking before
    it throws leaves [shouldTrack] false. *)
Lemma run_exception_stopped_counterexample :
  ∃ st', run code_pause_throw (sem code_pause_throw 1) 0%nat st_stopped
           = Raised (VStr "boom") st' ∧
         shouldTrack st_stopped = true ∧
         shouldTrack st' = false.
Proof. eexists. split; [reflexivity|]. split; reflexivity. Qed.

Lemma run_exception_restores_witness :
  ∃ st', run code_pause_throw (sem code_pause_throw 1) 0%nat initial
           = Raised (VStr "boom") st' ∧
         activeEffect st' = activeEffect initial ∧
         (active (eff initial 0%nat) = true → shouldTrack st' = shouldTrack initial).
Proof.
  refine (proj1 (run_exception_restores code_pause_throw 1 0%nat initial (VStr "boom") _ _ _)).
  - right. reflexivity.
  - reflexivity.
Defined.

(** ** The heap under graph steps *)

Lemma heap_foldl {A : Type} (f : state → A → state) (l : list A) (st : state) :
  (∀ s a, heap (f s a) = heap s) → heap (foldl f st l) = heap st.
Proof.
  intros Hf. revert st. induction l as [|a l IH]; intros st; simpl; [done|].
  by rewrite IH, Hf.
Qed.

Lemma heap_trackEffects (e : eid) (d : did) (st : state) :
  heap (trackEffects e d st) = heap st.
Proof.
  unfold trackEffects. destruct (effectTrackDepth st <=? maxMarkerBits).
  - destruct (negb (newTracked st d)); [|done]. by destruct (negb (wasTracked st d)).
  - by destruct (negb (set_has e (dep_set (dep st d)))).
Qed.

Lemma heap_finalize_loop (e : eid) (ds kept : list did) (st : state) :
  heap (finalize_loop e ds kept st).2 = heap st.
Proof.
  revert kept st. induction ds as [|d ds IH]; intros kept st; simpl; [done|].
  rewrite IH. by case_match.
Qed.

Lemma heap_finalizeDepMarkers (e : eid) (st : state) :
  heap (finalizeDepMarkers e st) = heap st.
Proof.
  unfold finalizeDepMarkers. destruct (deps (eff st e)) as [|d ds]; [done|].
  pose proof (heap_finalize_loop e (d :: ds) [] st) as Hl.
  by destruct (finalize_loop e (d :: ds) [] st).
Qed.

Lemma heap_run_exit (e : eid) (last : bool) (st : state) :
  heap (run_exit e last st) = heap st.
Proof.
  unfold run_exit. simpl. destruct (_ <=? _); [apply heap_finalizeDepMarkers|done].
Qed.

Lemma trackRefValue_computed (self : addr) (c : ComputedRefImpl) (st : state) :
  heap st !! self = Some (OComputed c) →
  ∃ c1, heap (trackRefValue self st) !! self = Some (OComputed c1) ∧
        c_value c1 = c_value c ∧ c_dirty c1 = c_dirty c ∧
        c_cacheable c1 = c_cacheable c ∧ c_effect c1 = c_effect c.
Proof.
  intros Hc. unfold trackRefValue.
  destruct (activeEffect st) as [e|]; [|by exists c].
  destruct (shouldTrack st); [|by exists c].
  rewrite Hc. destruct (ref_dep st self) as [d|].
  - rewrite heap_trackEffects. by exists c.
  - simpl. rewrite heap_trackEffects. unfold set_ref_dep, upd_ref, upd_computed. simpl.
    rewrite Hc. simpl. rewrite Hc. simpl. rewrite lookup_insert_eq.
    by eexists.
Qed.

Lemma upd_computed_lookup (self : addr) (c : ComputedRefImpl) f (st : state) :
  heap st !! self = Some (OComputed c) →
  heap (upd_computed self f st) !! self = Some (OComputed (f c)).
Proof. intros Hc. unfold upd_computed. rewrite Hc. simpl. by rewrite lookup_insert_eq. Qed.

(** ** Computed caching (C3) *)

(** C3, as amended.  For every cacheable computed ref (one that was not
    created for server-side rendering) that is dirty and is read from
    outside its own getter: when the getter returns [v] and nothing
    invalidated the computed ref meanwhile, the first read returns [v] and so
    does the second, and the two reads together invoke the getter exactly
    once: the first read records the one call of the wrapped function, the
    body of the getter runs, and nothing is recorded after the body, neither
    by the rest of the first read nor by the second read. *)
Theorem computed_caching (code : program) (h : handler) (self : addr)
    (c : ComputedRefImpl) (st : state) (v : value) (st3 : state) :
  heap st !! self = Some (OComputed c) →
  c_cacheable c = true →
  c_dirty c = true →
  let e := c_effect c in
  let st2 := upd_computed self (set_c_dirty false) (trackRefValue self st) in
  let st_r := record (EvRun e) st2 in
  let body_start := record (EvFn e) (if active (eff st e) then run_enter e st_r else st_r) in
  active (eff st e) = false ∨
    chain_has (S (size (effects st))) st (activeEffect st) e = Some false →
  interp h (fn code e) body_start = Done v st3 →
  (∃ c3, heap st3 !! self = Some (OComputed c3) ∧ c_dirty c3 = false ∧ c_cacheable c3 = true) →
  ∃ st4 st5,
    ComputedRefImpl_get_value code h self st = Done v st4 ∧
    ComputedRefImpl_get_value code h self st4 = Done v st5 ∧
    trace body_start = trace st ++ [EvRun e; EvFn e] ∧
    trace st5 = trace st3.
Proof.
  intros Hc Hcache Hdirty e st2 st_r body_start Hguard Hbody (c3 & Hc3 & Hd3 & Hca3).
  destruct (trackRefValue_computed self c st Hc) as (c1 & Hc1 & _ & Hd1 & Hca1 & He1).
  pose proof (quiet_trackRefValue self st) as Hq1.
  assert (Hq2 : quiet st st2).
  { eapply quiet_trans; [exact Hq1|apply quiet_upd_computed]. }
  destruct Hq2 as (Ha2 & _ & _ & _ & _ & Htr2 & Hsz2 & Hx2).
  assert (Hact2 : active (eff st2 e) = active (eff st e)) by (by destruct (Hx2 e) as (_ & ? & _)).
  (* the state the first read leaves *)
  set (st_x := if active (eff st e) then run_exit e (shouldTrack st2) st3 else st3).
  assert (Hrun : run code h e st2 = Done v st_x).
  { unfold st_x, body_start in *. destruct (active (eff st e)) eqn:Hact.
    - destruct Hguard as [|Hch]; [done|].
      rewrite (run_active code h e st2) by congruence.
      rewrite Ha2.
      rewrite (chain_has_mono st st2 e _ (S (size (effects st2))) _ false Hch);
        [| lia | intros x; by destruct (Hx2 x) as (? & _)].
      unfold call_fn. fold st_r. by rewrite Hbody.
    - rewrite (run_inactive code h e st2) by congruence.
      unfold call_fn. fold st_r. by rewrite Hbody. }
  assert (Hx3 : heap st_x !! self = Some (OComputed c3)).
  { unfold st_x. destruct (active (eff st e)); [by rewrite heap_run_exit|done]. }
  assert (Htrx : trace st_x = trace st3).
  { unfold st_x. destruct (active (eff st e)); [|done].
    by destruct (run_exit_ctx e (shouldTrack st2) st3) as (_ & _ & _ & ?). }
  set (st4 := upd_computed self (set_c_value v) st_x).
  assert (Hc4 : heap st4 !! self = Some (OComputed (set_c_value v c3))).
  { by apply upd_computed_lookup. }
  destruct (trackRefValue_computed self _ st4 Hc4) as (c5 & Hc5 & Hv5 & Hd5 & Hca5 & _).
  exists st4, (trackRefValue self st4). repeat split.
  - unfold ComputedRefImpl_get_value. rewrite Hc1, Hd1, Hdirty. simpl.
    rewrite He1. fold e. fold st2. rewrite Hrun. reflexivity.
  - unfold ComputedRefImpl_get_value. rewrite Hc5, Hd5, Hca5. simpl.
    rewrite Hd3, Hca3. simpl. by rewrite Hv5.
  - unfold body_start. destruct (active (eff st e)).
    + destruct (run_enter_ctx e st_r) as (_ & _ & _ & _ & Htr).
      simpl. rewrite Htr. simpl. rewrite Htr2. by rewrite <- app_assoc.
    + simpl. rewrite Htr2. by rewrite <- app_assoc.
  - destruct (quiet_trackRefValue self st4) as (_ & _ & _ & _ & _ & -> & _).
    unfold st4. destruct (quiet_upd_computed self (set_c_value v) st_x)
      as (_ & _ & _ & _ & _ & -> & _).
    exact Htrx.
Qed.

Lemma computed_caching_witness :
  ∃ st4 st5,
    ComputedRefImpl_get_value code_const (sem code_const 1) 0%nat (st_computed false)
      = Done (VNum 1) st4 ∧
    ComputedRefImpl_get_value code_const (sem code_const 1) 0%nat st4
      = Done (VNum 1) st5 ∧
    trace st5 = [EvRun 0%nat; EvFn 0%nat].
Proof.
  destruct (computed_caching code_const (sem code_const 1) 0%nat
              (new_ComputedRefImpl 0%nat true false) (st_computed false) (VNum 1)
              (record (EvFn 0%nat)
                 (run_enter 0%nat
                    (record (EvRun 0%nat)
                       (upd_computed 0%nat (set_c_dirty false)
                          (trackRefValue 0%nat (st_computed false)))))))
    as (st4 & st5 & H1 & H2 & _ & H4).
  - vm_compute. reflexivity.
  - reflexivity.
  - reflexivity.
  - right. vm_compute. reflexivity.
  - vm_compute. reflexivity.
  - eexists. vm_compute. split; [reflexivity|]. split; reflexivity.
  - exists st4, st5. split; [exact H1|]. split; [exact H2|]. rewrite H4.
    vm_compute. reflexivity.
Defined.

(** The claim as it was stated fails for a computed ref created for
    server-side rendering: it is not cacheable, and each of two successive
    reads invokes the getter. *)
Lemma computed_caching_ssr_counterexample :
  ∃ st4 st5,
    ComputedRefImpl_get_value code_const (sem code_const 1) 0%nat (st_computed true)
      = Done (VNum 1) st4 ∧
    ComputedRefImpl_get_value code_const (sem code_const 1) 0%nat st4
      = Done (VNum 1) st5 ∧
    trace st5 = [EvRun 0%nat; EvFn 0%nat; EvRun 0%nat; EvFn 0%nat] ∧
    count_occ event_eq_dec (trace st5) (EvFn 0%nat) = 2%nat.
Proof.
  eexists. eexists. split; [vm_compute; reflexivity|].
  split; [vm_compute; reflexivity|]. split; vm_compute; reflexivity.
Qed.

(** ** The tracking flag is left as found by everything but the tracking
    operations (towards C8) *)

Lemma same_tracking_refl (st : state) : same_tracking st st.
Proof. by split. Qed.

Lemma same_tracking_trans (st1 st2 st3 : state) :
  same_tracking st1 st2 → same_tracking st2 st3 → same_tracking st1 st3.
Proof. intros [] []. split; congruence. Qed.

Lemma quiet_same_tracking (st st' : state) : quiet st st' → same_tracking st st'.
Proof. intros (_ & ? & ? & _). by split. Qed.

Lemma returns_pre {A : Type} (st st1 : state) (m : outcome A) :
  same_tracking st st1 → returns (same_tracking st1) m → returns (same_tracking st) m.
Proof.
  intros H. destruct m; simpl; try done. by apply same_tracking_trans.
Qed.

Lemma returns_bind {A B : Type} (st : state) (m : outcome A) (k : A → state → outcome B) :
  returns (same_tracking st) m →
  (∀ a st', returns (same_tracking st') (k a st')) →
  returns (same_tracking st) (bind m k).
Proof.
  intros Hm Hk. destruct m as [a st'|x st'|]; simpl in *; [|done..].
  eapply returns_pre; [exact Hm|apply Hk].
Qed.

Lemma interp_pbind {A B : Type} (h : handler) (p : prog A) (f : A → prog B) (st : state) :
  interp h (pbind p f) st = bind (interp h p st) (fun a st' => interp h (f a) st').
Proof.
  revert B f st.
  induction p as [A r|A x|A X op k IH|A body IHb hd IHh k IHk]; intros B f st; simpl;
    try done.
  - destruct (h X op st) as [a st'|y st'|]; simpl; [apply IH|done..].
  - destruct (interp h body st) as [v st1|x st1|]; simpl; [apply IHk| |done].
    destruct (interp h (hd x) st1) as [v st2|y st2|]; simpl; [apply IHk|done..].
Qed.

Lemma interp_neutral {R : Type} (h : handler) (p : prog R) (st : state) :
  neutral h → quiet_prog p → returns (same_tracking st) (interp h p st).
Proof.
  intros Hh Hp. revert st. induction Hp as [r|x|X op k Hop _ IH]; intros st; simpl.
  - apply same_tracking_refl.
  - done.
  - apply returns_bind; [by apply Hh|]. intros a st'. apply IH.
Qed.

Lemma same_tracking_OrdinarySet (a : addr) (key : pkey) (v : value) (st : state) :
  returns (same_tracking st) (OrdinarySet a key v st).
Proof.
  unfold OrdinarySet. destruct (raw_set a key v st) as [st1|x|] eqn:E; simpl; [|done..].
  apply raw_set_heap in E as [f ->]. by split.
Qed.

Lemma same_tracking_Reflect_set (target : addr) (key : pkey) (v : value) (receiver : value)
    (st : state) :
  returns (same_tracking st) (Reflect_set target key v receiver st).
Proof.
  unfold Reflect_set. destruct (toRaw receiver); try apply same_tracking_refl.
  apply same_tracking_OrdinarySet.
Qed.

Lemma same_tracking_raw_delete (a : addr) (key : pkey) (st : state) :
  same_tracking st (raw_delete a key st).2.
Proof. unfold raw_delete. by repeat case_match. Qed.

Lemma trackStack_run_enter (e : eid) (st : state) :
  trackStack (run_enter e st) = trackStack st.
Proof.
  unfold run_enter. set (st3 := set_trackOpBit _ _).
  assert (Hq : quiet st3 (if effectTrackDepth st3 <=? maxMarkerBits
                          then initDepMarkers e st3 else cleanupEffect e st3)).
  { destruct (_ <=? _); [apply quiet_initDepMarkers|apply quiet_cleanupEffect]. }
  by destruct Hq as (_ & _ & -> & _).
Qed.

Lemma trackStack_run_exit (e : eid) (last : bool) (st : state) :
  trackStack (run_exit e last st) = trackStack st.
Proof.
  unfold run_exit. simpl.
  destruct (_ <=? _); [|done].
  by destruct (quiet_finalizeDepMarkers e st) as (_ & _ & -> & _).
Qed.

Section neutral_library.

Context (code : program) (h : handler).
Context (Hfree : tracking_balanced code) (Hlib : library_tracking h).

Lemma handler_neutral : neutral h.
Proof. by destruct Hlib. Qed.

Lemma handler_pauseTracking (st : state) :
  h _ OpPauseTracking st = Done tt (pauseTracking st) ∨ h _ OpPauseTracking st = NoResult.
Proof. by destruct Hlib as (_ & H & _). Qed.

Lemma handler_resetTracking (st : state) :
  h _ OpResetTracking st = Done tt (resetTracking st) ∨ h _ OpResetTracking st = NoResult.
Proof. by destruct Hlib as (_ & _ & _ & H). Qed.

Lemma run_neutral (e : eid) (st : state) :
  returns (same_tracking st) (run code h e st).
Proof.
  destruct Hfree as (Hfn & _).
  destruct (active (eff st e)) eqn:Hact.
  - rewrite run_active by done.
    destruct (chain_has _ st (activeEffect st) e) as [[|]|]; [by split| |done].
    unfold call_fn.
    pose proof (Hfn e h (record (EvFn e) (run_enter e (record (EvRun e) st))) Hlib) as Hi.
    destruct (interp h (fn code e) _) as [v st2|x st2|]; simpl in *; [|done..].
    destruct Hi as [_ Hstack]. split.
    + by destruct (run_exit_ctx e (shouldTrack st) st2) as (_ & -> & _).
    + rewrite trackStack_run_exit, Hstack. simpl. by rewrite trackStack_run_enter.
  - rewrite run_inactive by done. unfold call_fn.
    eapply returns_pre; [|by apply Hfn]. by split.
Qed.

Lemma stop_neutral (e : eid) (st : state) :
  returns (same_tracking st) (stop code h e st).
Proof.
  destruct Hfree as (_ & _ & Hstop & _).
  unfold stop. destruct (active (eff st e)); [|apply same_tracking_refl].
  eapply returns_pre; [apply quiet_same_tracking, quiet_cleanupEffect|].
  apply returns_bind.
  - destruct (onStop code e) eqn:Ho; [|apply same_tracking_refl].
    by eapply Hstop.
  - intros _ st'. by split.
Qed.

Lemma call_scheduler_neutral (e : eid) (st : state) (r : outcome unit) :
  call_scheduler code h e st = Some r → returns (same_tracking st) r.
Proof.
  destruct Hfree as (_ & Hsched & _).
  unfold call_scheduler. intros Hr.
  destruct (computed (eff st e)) as [c|].
  - inversion Hr; subst. eapply returns_pre; [|by apply handler_neutral]. by split.
  - destruct (scheduler code e) as [p|] eqn:Hp; [|done]. inversion Hr; subst.
    eapply returns_pre; [|by eapply Hsched]. by split.
Qed.

Lemma triggerEffects_neutral (l : list eid) (st : state) :
  returns (same_tracking st) (triggerEffects code h l st).
Proof.
  revert st. induction l as [|e l IH]; intros st; simpl.
  - apply same_tracking_refl.
  - destruct (negb _ || _); [|apply IH].
    destruct (call_scheduler code h e st) as [r|] eqn:Hs.
    + apply returns_bind; [by eapply call_scheduler_neutral|]. intros _ st'. apply IH.
    + apply returns_bind; [apply run_neutral|]. intros _ st'. apply IH.
Qed.

Lemma trigger_neutral (target : addr) (type : TriggerOpTypes) (key : option pkey)
    (newValue : value) (st : state) :
  returns (same_tracking st) (trigger code h target type key newValue st).
Proof.
  unfold trigger.
  eapply (returns_pre st (record (EvTrigger target type key) st)); [by split|].
  destruct (targetMap _ !! target) as [depsMap|]; [|apply same_tracking_refl].
  destruct (affected _ target type key newValue depsMap) as [ds|x|]; [|done..].
  destruct ds as [|[d|] [|d' ds']];
    try apply triggerEffects_neutral; apply same_tracking_refl.
Qed.

Lemma triggerRefValue_neutral (ref : addr) (st : state) :
  returns (same_tracking st) (triggerRefValue code h ref st).
Proof.
  unfold triggerRefValue. destruct (ref_dep st ref);
    [apply triggerEffects_neutral|apply same_tracking_refl].
Qed.

Lemma computed_scheduler_neutral (this : addr) (st : state) :
  returns (same_tracking st) (computed_scheduler code h this st).
Proof.
  unfold computed_scheduler.
  destruct (heap st !! this) as [[| | | |c]|]; try done.
  destruct (negb (c_dirty c)); [|apply same_tracking_refl].
  eapply returns_pre; [|apply triggerRefValue_neutral].
  apply quiet_same_tracking, quiet_upd_computed.
Qed.

Lemma ComputedRefImpl_get_value_neutral (self : addr) (st : state) :
  returns (same_tracking st) (ComputedRefImpl_get_value code h self st).
Proof.
  unfold ComputedRefImpl_get_value.
  eapply returns_pre; [apply quiet_same_tracking, (quiet_trackRefValue self)|].
  destruct (heap _ !! self) as [[| | | |c]|]; try done.
  destruct (c_dirty c || negb (c_cacheable c)); [|apply same_tracking_refl].
  eapply returns_pre; [apply quiet_same_tracking, quiet_upd_computed|].
  apply returns_bind; [apply run_neutral|].
  intros v st'. apply quiet_same_tracking, quiet_upd_computed.
Qed.

Lemma createGetter_neutral (isReadonly_ shallow : bool) (target : addr) (key : pkey)
    (receiver : value) (st : state) :
  returns (same_tracking st) (createGetter h isReadonly_ shallow target key receiver st).
Proof.
  unfold createGetter.
  do 4 (destruct (_ : bool); [apply same_tracking_refl|]).
  match goal with |- returns _ (match ?x with _ => _ end) => destruct x end;
    [apply same_tracking_refl|].
  destruct (if isSymbol key then _ else _); [apply same_tracking_refl|].
  set (st1 := if negb isReadonly_ then track target GET key st else st).
  assert (H1 : same_tracking st st1).
  { unfold st1. destruct (negb isReadonly_);
      [apply quiet_same_tracking, quiet_track|apply same_tracking_refl]. }
  eapply returns_pre; [exact H1|].
  destruct shallow; [apply same_tracking_refl|].
  destruct (isRef st1 _).
  - destruct (_ || _); [by apply handler_neutral|apply same_tracking_refl].
  - repeat case_match; try done; apply same_tracking_refl.
Qed.

Lemma createSetter_neutral (shallow : bool) (target : addr) (key : pkey) (v : value)
    (receiver : value) (st : state) :
  returns (same_tracking st) (createSetter code h shallow target key v receiver st).
Proof.
  unfold createSetter.
  destruct (_ && _ && negb (isRef st v)); [apply same_tracking_refl|].
  destruct (_ && _ && _ && _).
  { apply returns_bind; [by apply handler_neutral|]. intros _ st'. apply same_tracking_refl. }
  apply returns_bind; [apply same_tracking_Reflect_set|]. intros result st1.
  case_bool_decide; [|apply same_tracking_refl].
  destruct (negb _).
  - apply returns_bind; [apply trigger_neutral|]. intros. apply same_tracking_refl.
  - destruct (hasChanged _ _); [|apply same_tracking_refl].
    apply returns_bind; [apply trigger_neutral|]. intros. apply same_tracking_refl.
Qed.

Lemma deleteProperty_neutral (target : addr) (key : pkey) (st : state) :
  returns (same_tracking st) (deleteProperty code h target key st).
Proof.
  unfold deleteProperty.
  pose proof (same_tracking_raw_delete target key st) as Hd.
  destruct (raw_delete target key st) as [result st1]. simpl in Hd.
  destruct (result && _); [|exact Hd].
  eapply returns_pre; [exact Hd|].
  apply returns_bind; [apply trigger_neutral|]. intros. apply same_tracking_refl.
Qed.

Lemma op_get_neutral (o : value) (k : pkey) (st : state) :
  returns (same_tracking st) (op_get code h o k st).
Proof.
  unfold op_get. destruct o; try done.
  - destruct (heap st !! a) as [[| | |r|c]|]; try done; try apply same_tracking_refl.
    + repeat case_match; try done; try apply same_tracking_refl.
      apply quiet_same_tracking, quiet_trackRefValue.
    + repeat case_match; try done; try apply same_tracking_refl.
      all: try apply ComputedRefImpl_get_value_neutral.
  - destruct (is_base_target st a); [apply createGetter_neutral|done].
Qed.

Lemma instrumentation_neutral (m : string) (this : value) (args : list value) (st : state) :
  returns (same_tracking st) (interp h (lengthAlteringInstrumentation code m this args) st).
Proof.
  destruct Hfree as (_ & _ & _ & _ & Hnative).
  unfold lengthAlteringInstrumentation. simpl.
  destruct (handler_pauseTracking st) as [-> | ->]; [|done]. simpl.
  rewrite interp_pbind.
  pose proof (interp_neutral h (native code m this args) (pauseTracking st) handler_neutral
                (Hnative m this args)) as Hn.
  destruct (interp h (native code m this args) (pauseTracking st)) as [res st2|x st2|];
    simpl in *; [|done..].
  destruct (handler_resetTracking st2) as [-> | ->]; [|done]. simpl.
  destruct Hn as [Hs Hk]. unfold resetTracking. rewrite Hk. by split.
Qed.

Lemma step_neutral : neutral (step code h).
Proof.
  intros X op st Hop. destruct op; simpl in *; try done.
  - apply op_get_neutral.
  - (* OpSet *)
    unfold op_set. destruct o; try done.
    + destruct (heap st !! a) as [[| | |r|c]|]; try done;
        try apply same_tracking_OrdinarySet.
      * case_bool_decide; [|done].
        apply returns_bind; [|intros; apply same_tracking_refl].
        unfold RefImpl_set_value. destruct (hasChanged _ _); [|apply same_tracking_refl].
        eapply returns_pre; [|apply triggerRefValue_neutral]. by split.
      * case_bool_decide; [|done].
        apply returns_bind; [|intros; apply same_tracking_refl].
        destruct Hfree as (_ & _ & _ & Hset & _). by apply Hset.
    + destruct (is_base_target st a); [|done].
      destruct (kind_isReadonly k0); [apply same_tracking_refl|apply createSetter_neutral].
  - (* OpDelete *)
    unfold op_delete. destruct o; try done.
    + destruct (is_base_target st a); [|done].
      pose proof (same_tracking_raw_delete a k st) as Hd.
      by destruct (raw_delete a k st).
    + destruct (is_base_target st a); [|done].
      unfold proxy_delete. apply returns_bind.
      * destruct (kind_isReadonly k0);
          [apply same_tracking_refl|apply deleteProperty_neutral].
      * intros result st1. destruct (_ && _ && _); [done|apply same_tracking_refl].
  - (* OpHas *)
    unfold op_has, has_. destruct o; try done.
    + destruct (is_base_target st a); [|done].
      destruct (Reflect_has st a k); [apply same_tracking_refl|done].
    + destruct (is_base_target st a); [|done].
      destruct (Reflect_has st a k); [|by destruct (kind_isReadonly k0)].
      destruct (kind_isReadonly k0); [apply same_tracking_refl|].
      destruct (_ || _); [apply quiet_same_tracking, quiet_track|apply same_tracking_refl].
  - (* OpOwnKeys *)
    unfold op_ownKeys, ownKeys. destruct o; try done.
    destruct (is_base_target st a); [|done].
    destruct (kind_isReadonly k);
      [apply same_tracking_refl|apply quiet_same_tracking, quiet_track].
  - (* OpCallMethod *)
    unfold op_callMethod. apply returns_bind; [apply op_get_neutral|].
    intros f st1. destruct (_ && _); [apply instrumentation_neutral|].
    case_bool_decide.
    + apply interp_neutral; [apply handler_neutral|]. by destruct Hfree as (_ & _ & _ & _ & Hn).
    + by destruct f.
  - apply run_neutral.
  - apply stop_neutral.
  - unfold createRef. destruct (isRef st v); simpl; [apply same_tracking_refl|by split].
  - apply computed_scheduler_neutral.
Qed.

End neutral_library.

Lemma sem_library_tracking (code : program) (fuel : nat) :
  tracking_balanced code → library_tracking (sem code fuel).
Proof.
  intros Hfree. induction fuel as [|fuel IH].
  - split; [by intros X op st Hop|]. split; [|split]; intros st; by right.
  - split; [|split; [|split]; intros st; by left].
    intros X op st Hop. simpl. by apply step_neutral.
Qed.

Lemma sem_neutral (code : program) (fuel : nat) :
  tracking_balanced code → neutral (sem code fuel).
Proof. intros Hfree. by destruct (sem_library_tracking code fuel Hfree). Qed.

(** A program that calls none of the three functions and catches nothing
    is balanced. *)
Lemma quiet_balanced {R : Type} (p : prog R) : quiet_prog p → balanced p.
Proof. intros Hp h st (Hh & _). by apply interp_neutral. Qed.

(** So is a program that pauses tracking, runs a quiet program and resets
    tracking. *)
Lemma paused_balanced {R : Type} (p : prog R) :
  quiet_prog p →
  balanced (Vis OpPauseTracking (fun _ => pbind p (fun r => Vis OpResetTracking (fun _ => Ret r)))).
Proof.
  intros Hp h st (Hh & Hpause & _ & Hreset). simpl.
  destruct (Hpause st) as [-> | ->]; [|done]. simpl.
  rewrite interp_pbind.
  pose proof (interp_neutral h p (pauseTracking st) Hh Hp) as Hn.
  destruct (interp h p (pauseTracking st)) as [res st2|x st2|]; simpl in *; [|done..].
  destruct (Hreset st2) as [-> | ->]; [|done]. simpl.
  destruct Hn as [Hs Hk]. unfold resetTracking. rewrite Hk. by split.
Qed.

(** ** The instrumented array methods (C8) *)

Lemma paused_throughout {R : Type} (h : handler) (p : prog R) (st : state) :
  neutral h → quiet_prog p → shouldTrack st = false →
  holds_throughout h (fun s => shouldTrack s = false) p st.
Proof.
  intros Hh Hp. revert st. induction Hp as [r|x|X op k Hop _ IH]; intros st Hst; simpl.
  - done.
  - done.
  - split; [done|]. pose proof (Hh X op st Hop) as Hn.
    destruct (h X op st) as [a st'|y st'|]; [|done..].
    apply IH. destruct Hn as [-> _]. exact Hst.
Qed.


Lemma quiet_push_from (this : value) (args : list value) (i : Z) :
  quiet_prog (push_from this args i).
Proof.
  revert i. induction args as [|a rest IH]; intros i; simpl.
  - constructor; [done|]. intros _. constructor.
  - constructor; [done|]. intros _. apply IH.
Qed.

Lemma code_array_balanced : tracking_balanced code_array.
Proof.
  split; [|split; [|split; [|split]]]; simpl.
  - intros _. apply quiet_balanced.
    constructor; [done|]. intros len. case_bool_decide; constructor.
  - done.
  - done.
  - intros. apply quiet_balanced. constructor.
  - intros m this args. constructor; [done|]. intros len.
    destruct len; try constructor. apply quiet_push_from.
Qed.



(** ** The two sides of the dependency graph (C9) *)

Lemma eff_foldl_upd_dep (g : did → Dep → Dep) (ds : list did) (st : state) (x : eid) :
  eff (foldl (fun s d => upd_dep d (g d) s) st ds) x = eff st x.
Proof.
  revert st. induction ds as [|d ds IH]; intros st; simpl; [done|]. by rewrite IH.
Qed.

Lemma cleanup_fold_members (e : eid) (ds : list did) (st : state) (d : did) (x : eid) :
  x ∈ dep_set (dep (foldl (fun s d => upd_dep d
                      (fun y => set_dep_set (set_delete e (dep_set y)) y) s) st ds) d)
  ↔ x ∈ dep_set (dep st d) ∧ ¬ (x = e ∧ d ∈ ds).
Proof.
  revert st. induction ds as [|d0 ds IH]; intros st; simpl.
  - rewrite elem_of_nil. tauto.
  - rewrite IH, dep_upd_dep. rewrite elem_of_cons.
    destruct (decide (d = d0)) as [->|Hne]; simpl.
    + rewrite elem_of_set_delete. tauto.
    + tauto.
Qed.

(** [trackEffects] adds the effect to the set and the set to the [deps]
    of the effect together. *)
Lemma trackEffects_pushes (e : eid) (d : did) (st : state) :
  e ∉ dep_set (dep st d) →
  e ∈ dep_set (dep (trackEffects e d st) d) →
  d ∈ deps (eff (trackEffects e d st) e).
Proof.
  intros Hnot. unfold trackEffects.
  destruct (effectTrackDepth st <=? maxMarkerBits).
  - destruct (negb (newTracked st d)); [|done].
    destruct (negb (wasTracked st d)).
    + intros _. rewrite eff_upd_eff, decide_True by done. simpl.
      rewrite elem_of_app, list_elem_of_singleton. by right.
    + rewrite dep_upd_dep, decide_True by done. done.
  - destruct (negb (set_has e (dep_set (dep st d)))); [|done].
    intros _. rewrite eff_upd_eff, decide_True by done. simpl.
    rewrite elem_of_app, list_elem_of_singleton. by right.
Qed.

Lemma consistent_add (e : eid) (d : did) (st : state) :
  graph_consistent st →
  graph_consistent
    (upd_eff e (fun x => set_deps (deps x ++ [d]) x)
       (upd_dep d (fun x => set_dep_set (set_add e (dep_set x)) x) st)).
Proof.
  intros Hc e' d'. rewrite eff_upd_eff, dep_upd_eff, dep_upd_dep, eff_upd_dep.
  specialize (Hc e' d').
  destruct (decide (e' = e)) as [->|He]; destruct (decide (d' = d)) as [->|Hd]; simpl;
    rewrite ?elem_of_app, ?list_elem_of_singleton, ?elem_of_set_add; tauto.
Qed.

Lemma consistent_upd_markers (d : did) (f : Dep → Dep) (st : state) :
  (∀ x, dep_set (f x) = dep_set x) →
  graph_consistent st → graph_consistent (upd_dep d f st).
Proof.
  intros Hf Hc e' d'. rewrite dep_upd_dep, eff_upd_dep. specialize (Hc e' d').
  destruct (decide (d' = d)) as [->|Hd]; [by rewrite Hf|done].
Qed.

Lemma trackEffects_consistent (e : eid) (d : did) (st : state) :
  graph_consistent st → graph_consistent (trackEffects e d st).
Proof.
  intros Hc. unfold trackEffects.
  destruct (effectTrackDepth st <=? maxMarkerBits).
  - destruct (negb (newTracked st d)); [|done].
    destruct (negb (wasTracked st d)).
    + apply consistent_add. by apply consistent_upd_markers.
    + by apply consistent_upd_markers.
  - destruct (negb (set_has e (dep_set (dep st d)))); [|done]. by apply consistent_add.
Qed.

(** [cleanupEffect] removes the effect from every set of its [deps] and
    empties [deps]; in a consistent graph the effect is then in no set. *)
Lemma cleanupEffect_spec (e : eid) (st : state) :
  deps (eff (cleanupEffect e st) e) = [] ∧
  (∀ d, d ∈ deps (eff st e) → e ∉ dep_set (dep (cleanupEffect e st) d)) ∧
  (graph_consistent st →
     graph_consistent (cleanupEffect e st) ∧
     ∀ d, e ∉ dep_set (dep (cleanupEffect e st) d)).
Proof.
  unfold cleanupEffect. destruct (deps (eff st e)) as [|d0 ds] eqn:Hds.
  - split; [done|]. split; [intros d Hd; by apply elem_of_nil in Hd|].
    intros Hc. split; [done|]. intros d Hd. apply Hc in Hd. rewrite Hds in Hd.
    by apply elem_of_nil in Hd.
  - split; [by rewrite eff_upd_eff, decide_True|].
    split.
    + intros d Hd. rewrite dep_upd_eff, cleanup_fold_members. tauto.
    + intros Hc. split.
      * intros e' d'. rewrite eff_upd_eff, dep_upd_eff, cleanup_fold_members.
        rewrite (eff_foldl_upd_dep
                   (fun _ y => set_dep_set (set_delete e (dep_set y)) y)).
        specialize (Hc e' d'). destruct (decide (e' = e)) as [->|He]; simpl.
        -- rewrite elem_of_nil. rewrite Hds in Hc. split; [done|].
           intros [Ha Hn]. apply Hn. split; [done|by apply Hc].
        -- rewrite (eff_foldl_upd_dep
                      (fun _ y => set_dep_set (set_delete e (dep_set y)) y)).
           rewrite eff_upd_dep. tauto.
      * intros d. rewrite dep_upd_eff, cleanup_fold_members.
        intros [Hin Hnot]. apply Hnot. split; [done|].
        rewrite <- Hds. by apply Hc.
Qed.

(** [stop] on an effect that is active and has no [onStop] hook, in a
    consistent graph: afterwards the effect belongs to no dependency set,
    its [deps] is empty, and the graph is consistent. *)
Lemma stop_active_spec (code : program) (h : handler) (e : eid) (st : state) :
  active (eff st e) = true →
  onStop code e = None →
  graph_consistent st →
  ∃ st', stop code h e st = Done tt st' ∧
         active (eff st' e) = false ∧
         deps (eff st' e) = [] ∧
         (∀ d, e ∉ dep_set (dep st' d)) ∧
         graph_consistent st'.
Proof.
  intros Hact Hhook Hc. unfold stop. rewrite Hact, Hhook. simpl.
  eexists. split; [reflexivity|].
  destruct (cleanupEffect_spec e st) as (Hd & _ & Hcons).
  destruct (Hcons Hc) as [Hc' Hno].
  split; [by rewrite eff_upd_eff, decide_True|].
  split; [rewrite eff_upd_eff, decide_True by done; exact Hd|].
  split; [exact Hno|].
  intros e' d'. rewrite eff_upd_eff, dep_upd_eff.
  destruct (decide (e' = e)) as [->|]; apply Hc'.
Qed.

(** [stop] on a stopped effect does nothing. *)
Lemma stop_inactive (code : program) (h : handler) (e : eid) (st : state) :
  active (eff st e) = false → stop code h e st = Done tt st.
Proof. intros Hact. unfold stop. by rewrite Hact. Qed.

(** C9, at the failing input.  An effect whose function calls its own
    [stop] and then reads a ref: the read that follows [stop] tracks the
    effect again, so that after the run the stopped effect is a subscriber
    of the cell of the ref; a later [stop] does nothing, the effect still
    belongs to the cell, its [deps] has length one, and a write to the ref
    runs the function of the stopped effect again. *)
Theorem stop_leaves_subscription_after_self_stop :
  ∃ st1 st2 st3,
    exec code_self_stop 3 (perform (OpRun 0%nat)) st_one_ref = Done (VNum 1) st1 ∧
    exec code_self_stop 3 (perform (OpStop 0%nat)) st1 = Done tt st2 ∧
    active (eff st2 0%nat) = false ∧
    0%nat ∈ dep_set (dep st2 0%nat) ∧
    deps (eff st2 0%nat) = [0%nat] ∧
    ref_dep st2 0%nat = Some 0%nat ∧
    exec code_self_stop 3 (perform (OpSet (VObj 0%nat) (KStr "value") (VNum 5))) st2
      = Done true st3 ∧
    trace st3 = trace st2 ++ [EvRun 0%nat; EvFn 0%nat].
Proof.
  eexists. eexists. eexists.
  split; [vm_compute; reflexivity|].
  split; [vm_compute; reflexivity|].
  split; [reflexivity|].
  split; [vm_compute; by left|].
  split; [reflexivity|].
  split; [reflexivity|].
  split; vm_compute; reflexivity.
Qed.

(** ** The theorems at concrete inputs *)

Lemma createRef_idempotent_witness :
  isRef st_one_ref (VObj 0%nat) = true ∧
  ref (VObj 0%nat) st_one_ref = (VObj 0%nat, st_one_ref) ∧
  shallowRef (VObj 0%nat) st_one_ref = (VObj 0%nat, st_one_ref).
Proof.
  split; [reflexivity|].
  apply (proj1 (createRef_idempotent (VObj 0%nat) st_one_ref)). reflexivity.
Defined.

Lemma RefImpl_assignment_witness :
  step code_const (sem code_const 1) _ (OpSet (VObj 0%nat) (KStr "value") (VNum 1)) st_one_ref
    = Done true st_one_ref.
Proof.
  apply (proj1 (RefImpl_assignment code_const (sem code_const 1) 0%nat
                  (new_RefImpl (VNum 1) false) (VNum 1) st_one_ref eq_refl)).
  reflexivity.
Defined.

Lemma readonly_write_and_delete_witness :
  step code_const (sem code_const 1) _ (OpSet (VProxy Readonly 0%nat) (KStr "a") (VNum 2)) st_obj
    = Done true st_obj ∧
  step code_const (sem code_const 1) _ (OpDelete (VProxy Readonly 0%nat) (KStr "a")) st_obj
    = Done true st_obj.
Proof.
  apply (readonly_write_and_delete code_const (sem code_const 1) Readonly 0%nat
           {[KStr "a" := VNum 1]} (KStr "a") (VNum 2) st_obj); reflexivity.
Defined.

(** The delete of the [length] of an array through a readonly wrapper is
    not a silent no-op: the trap answers [true] for a property that is not
    configurable, and the proxy throws a [TypeError]; a write of the
    [length] is a no-op like any other write. *)
Example readonly_array_delete_length :
  step code_const (sem code_const 1) _ (OpDelete (VProxy Readonly 0%nat) (KStr "length"))
    st_array_one = Raised TypeError st_array_one ∧
  step code_const (sem code_const 1) _ (OpSet (VProxy Readonly 0%nat) (KStr "length") (VNum 0))
    st_array_one = Done true st_array_one ∧
  step code_const (sem code_const 1) _ (OpDelete (VProxy Readonly 0%nat) (KIdx 0))
    st_array_one = Done true st_array_one.
Proof. repeat split. Qed.

(** The claim as it was stated fails on the result: the two traps of the
    readonly handlers return [true], not [false]. *)
Lemma readonly_result_counterexample :
  readonlyHandlers_set 0%nat (KStr "a") st_obj = Done true st_obj ∧
  readonlyHandlers_deleteProperty 0%nat (KStr "a") st_obj = Done true st_obj ∧
  step code_const (sem code_const 1) _ (OpSet (VProxy Readonly 0%nat) (KStr "a") (VNum 2)) st_obj
    ≠ Done false st_obj ∧
  step code_const (sem code_const 1) _ (OpDelete (VProxy Readonly 0%nat) (KStr "a")) st_obj
    ≠ Done false st_obj.
Proof. repeat split; done. Qed.


Lemma trigger_deduplicates_witness :
  ∃ l : list eid,
    trigger code_read_two (sem code_read_two 1) 0%nat ADD (Some (KIdx 5)) (VNum 9) st_two_cells
      = triggerEffects code_read_two (sem code_read_two 1) l
          (record (EvTrigger 0%nat ADD (Some (KIdx 5))) st_two_cells) ∧
    NoDup l ∧
    count_occ Nat.eq_dec l 0%nat = 1%nat.
Proof.
  destruct (trigger_deduplicates code_read_two (sem code_read_two 1) 0%nat ADD
              (Some (KIdx 5)) (VNum 9) st_two_cells
              [(KIdx 5, 0%nat); (KStr "length", 1%nat)] [Some 0%nat; Some 1%nat])
    as (l & Hl & Hnd & _ & Hcount).
  - vm_compute. reflexivity.
  - vm_compute. reflexivity.
  - simpl. lia.
  - exists l. split; [exact Hl|]. split; [exact Hnd|].
    apply (Hcount 0%nat 0%nat); [by left|vm_compute; by left].
Defined.

Lemma createSetter_trigger_kind_witness :
  createSetter code_const (sem code_const 1) false 0%nat (KStr "a") (VNum 2)
    (VProxy Reactive 0%nat) st_obj
  = call _u at st2 :=
      trigger code_const (sem code_const 1) 0%nat SET (Some (KStr "a")) (VNum 2)
        (upd_heap (<[0%nat := OPlain (<[KStr "a" := VNum 2]> {[KStr "a" := VNum 1]})]>)
           st_obj) in
    Done true st2.
Proof.
  destruct (createSetter_trigger_kind code_const (sem code_const 1) false 0%nat (KStr "a")
              (VNum 2) (VProxy Reactive 0%nat) st_obj
              (upd_heap (<[0%nat := OPlain (<[KStr "a" := VNum 2]> {[KStr "a" := VNum 1]})]>)
                 st_obj)) as (_ & Hset & _).
  - repeat split.
  - reflexivity.
  - apply Hset; reflexivity.
Defined.

(** The claim as it was stated fails for a write that the raw target
    refuses: [arr.length = -1] through the reactive wrapper of the array
    [[1]] reaches [Reflect.set] on the raw array, the key [length] exists and
    the new value differs from the old one, but [Reflect.set] throws a
    [RangeError], which leaves the setter before [trigger] is called: the
    state, the call trace included, is as it was. *)
Lemma createSetter_invalid_length_counterexample :
  reaches_raw_target false 0%nat (KStr "length") (VNum (-1)) (VProxy Reactive 0%nat)
    st_array_one ∧
  hadKey st_array_one 0%nat (KStr "length") = true ∧
  hasChanged (VNum (-1)) (raw_get st_array_one 0%nat (KStr "length")) = true ∧
  createSetter code_const (sem code_const 1) false 0%nat (KStr "length") (VNum (-1))
    (VProxy Reactive 0%nat) st_array_one = Raised RangeError st_array_one ∧
  step code_const (sem code_const 1) _
    (OpSet (VProxy Reactive 0%nat) (KStr "length") (VNum (-1))) st_array_one
    = Raised RangeError st_array_one ∧
  trace st_array_one = [].
Proof. repeat split; vm_compute; reflexivity. Qed.

(** ** Examples *)

(** The scenario of the specification: [o = reactive({ a: 1 })], an
    effect that reads [o.a], then [o.a = 2] twice: the effect runs on
    creation and on the first write, not on the redundant second one. *)
Example effect_runs_once_per_changing_write :
  let code :=
    {| fn := fun _ => Vis (OpGet (VProxy Reactive 0%nat) (KStr "a")) Ret;
       scheduler := fun _ => None; onStop := fun _ => None;
       setter := fun _ _ => Ret tt; native := fun _ _ _ => Ret VUndefined |} in
  let write := OpSet (VProxy Reactive 0%nat) (KStr "a") (VNum 2) in
  ∃ st',
    exec code 3 (Vis (OpRun 0%nat) (fun _ => Vis write (fun _ => perform write))) st_obj
      = Done true st' ∧
    trace st' = [EvRun 0%nat; EvFn 0%nat; EvTrigger 0%nat SET (Some (KStr "a"));
                 EvRun 0%nat; EvFn 0%nat] ∧
    raw_get st' 0%nat (KStr "a") = VNum 2.
Proof.
  eexists. split; [vm_compute; reflexivity|]. split; [reflexivity|]. vm_compute. reflexivity.
Qed.

(** An [ADD] at index 5 of an array affects the cell of the index and the
    cell of the length; the effect that subscribes to both runs once. *)
Example add_on_array_runs_subscriber_once :
  ∃ st',
    exec code_read_two 3 (perform (OpSet (VProxy Reactive 0%nat) (KIdx 5) (VNum 9)))
      st_two_cells = Done true st' ∧
    trace st' = trace st_two_cells ++
                [EvTrigger 0%nat ADD (Some (KIdx 5)); EvRun 0%nat; EvFn 0%nat].
Proof. eexists. split; vm_compute; reflexivity. Qed.

(** [NaN] assigned to a ref that holds [NaN] does not trigger, although
    [NaN === NaN] is false; the two zeros are different values. *)
Example hasChanged_is_same_value :
  hasChanged VNaN VNaN = false ∧ strict_equals VNaN VNaN = false ∧
  hasChanged (VNum 0) VNegZero = true ∧ strict_equals (VNum 0) VNegZero = true.
Proof. repeat split. Qed.

(** [1 << 31] wraps to the sign bit, [1 << 32] to [1]: the marker bits are
    used up to the depth 30 only. *)
Example trackOpBit_wraps :
  js_shl 1 30 = 2 ^ 30 ∧ js_shl 1 31 = - 2 ^ 31 ∧ js_shl 1 32 = 1.
Proof. repeat split. Qed.

(** Dependency shrinkage: once [o.flag] is false and the effect has run
    again, [o.a] is no longer read, its cell is pruned, and a write to [o.a]
    runs nothing. *)
Example dependency_shrinkage :
  let o := VProxy Reactive 0%nat in
  ∃ st',
    exec code_conditional 4
      (Vis (OpRun 0%nat) (fun _ =>
       Vis (OpSet o (KStr "flag") (VBool false)) (fun _ =>
       perform (OpSet o (KStr "a") (VNum 2))))) st_flag = Done true st' ∧
    trace st' = [EvRun 0%nat; EvFn 0%nat;
                 EvTrigger 0%nat SET (Some (KStr "flag")); EvRun 0%nat; EvFn 0%nat;
                 EvTrigger 0%nat SET (Some (KStr "a"))] ∧
    deps (eff st' 0%nat) = [0%nat] ∧
    dep_set (dep st' 1%nat) = [].
Proof.
  eexists. split; [vm_compute; reflexivity|]. split; [reflexivity|]. split; reflexivity.
Qed.

(** Recursion guard: an effect that writes the slot it reads is skipped
    by the trigger of its own write, and stops after one run per outside
    write. *)
Example recursion_guard :
  let o := VProxy Reactive 0%nat in
  ∃ st',
    exec code_increment 4
      (Vis (OpRun 0%nat) (fun _ => perform (OpSet o (KStr "a") (VNum 10)))) st_flag
      = Done true st' ∧
    trace st' = [EvRun 0%nat; EvFn 0%nat; EvTrigger 0%nat SET (Some (KStr "a"));
                 EvTrigger 0%nat SET (Some (KStr "a")); EvRun 0%nat; EvFn 0%nat;
                 EvTrigger 0%nat SET (Some (KStr "a"))] ∧
    raw_get st' 0%nat (KStr "a") = VNum 11.
Proof.
  eexists. split; [vm_compute; reflexivity|]. split; [reflexivity|].
  vm_compute. reflexivity.
Qed.

(** Computed laziness and invalidation: the write to [r] runs the
    scheduler of the computed ref, which marks it dirty and triggers the
    reader; the getter runs again on the read of the reader, and the read
    that follows takes the cached value. *)
Example computed_invalidation :
  ∃ st',
    exec code_computed 6
      (Vis (OpRun 1%nat) (fun _ =>
       Vis (OpSet (VObj 0%nat) (KStr "value") (VNum 5)) (fun _ =>
       perform (OpGet (VObj 1%nat) (KStr "value"))))) st_ref_computed
      = Done (VNum 6) st' ∧
    trace st' = [EvRun 1%nat; EvFn 1%nat; EvRun 0%nat; EvFn 0%nat;
                 EvScheduler 0%nat;
                 EvRun 1%nat; EvFn 1%nat; EvRun 0%nat; EvFn 0%nat].
Proof. eexists. split; [vm_compute; reflexivity|]. reflexivity. Qed.

(** A computed ref that nothing reads does no work when its input
    changes. *)
Example computed_laziness :
  ∃ st',
    exec code_computed 6 (perform (OpSet (VObj 0%nat) (KStr "value") (VNum 5)))
      st_ref_computed = Done true st' ∧
    trace st' = [].
Proof. eexists. split; [vm_compute; reflexivity|]. reflexivity. Qed.

(** ** More fuel gives the same result *)

Lemma bind_extends {A B : Type} (m m' : outcome A) (k k' : A → state → outcome B) :
  (m ≠ NoResult → m' = m) →
  (∀ a st, k a st ≠ NoResult → k' a st = k a st) →
  bind m k ≠ NoResult → bind m' k' = bind m k.
Proof.
  intros Hm Hk Hb. destruct m as [a st|x st|]; simpl in *; [| |done].
  - rewrite Hm by done. simpl. by apply Hk.
  - by rewrite Hm.
Qed.

Lemma finally_extends {A : Type} (m m' : outcome A) (f : state → state) :
  (m ≠ NoResult → m' = m) →
  finally m f ≠ NoResult → finally m' f = finally m f.
Proof. intros Hm Hf. destruct m; simpl in *; [| |done]; by rewrite Hm. Qed.

Lemma interp_extends {R : Type} (h h' : handler) (p : prog R) (st : state) :
  extends h h' → interp h p st ≠ NoResult → interp h' p st = interp h p st.
Proof.
  intros Hh. revert st.
  induction p as [R r|R x|R X op k IH|R body IHb hd IHh k IHk]; intros st; simpl;
    try done.
  - apply bind_extends; [apply Hh|]. intros a st'. apply IH.
  - intros Hres. pose proof (IHb st) as Hb.
    destruct (interp h body st) as [v st1|x st1|]; [| |done].
    + rewrite Hb by done. by apply IHk.
    + rewrite Hb by done.
      apply bind_extends; [apply IHh| |done]. intros a st'. apply IHk.
Qed.

Section extends_library.

Context (code : program) (h h' : handler) (Hh : extends h h').

Lemma run_extends (e : eid) (st : state) :
  run code h e st ≠ NoResult → run code h' e st = run code h e st.
Proof.
  unfold run, call_fn. destruct (negb _); [by apply interp_extends|].
  destruct (chain_has _ _ _ _) as [[|]|]; try done.
  apply finally_extends. by apply interp_extends.
Qed.

Lemma stop_extends (e : eid) (st : state) :
  stop code h e st ≠ NoResult → stop code h' e st = stop code h e st.
Proof.
  unfold stop. destruct (active _); [|done].
  apply bind_extends; [|done]. destruct (onStop code e); [by apply interp_extends|done].
Qed.

Lemma triggerEffects_extends (l : list eid) (st : state) :
  triggerEffects code h l st ≠ NoResult →
  triggerEffects code h' l st = triggerEffects code h l st.
Proof.
  revert st. induction l as [|e l IH]; intros st; simpl; [done|].
  destruct (negb _ || _); [|apply IH].
  unfold call_scheduler. destruct (computed (eff st e)) as [c|].
  - apply bind_extends; [apply Hh|]. intros _ st'. apply IH.
  - destruct (scheduler code e) as [p|].
    + apply bind_extends; [by apply interp_extends|]. intros _ st'. apply IH.
    + apply bind_extends; [apply run_extends|]. intros _ st'. apply IH.
Qed.

Lemma trigger_extends (target : addr) (type : TriggerOpTypes) (key : option pkey)
    (newValue : value) (st : state) :
  trigger code h target type key newValue st ≠ NoResult →
  trigger code h' target type key newValue st = trigger code h target type key newValue st.
Proof.
  unfold trigger. destruct (targetMap _ !! target) as [depsMap|]; [|done].
  destruct (affected _ target type key newValue depsMap) as [ds|x|]; [|done..].
  destruct ds as [|[d|] [|d' ds']]; try done; apply triggerEffects_extends.
Qed.

Lemma triggerRefValue_extends (ref : addr) (st : state) :
  triggerRefValue code h ref st ≠ NoResult →
  triggerRefValue code h' ref st = triggerRefValue code h ref st.
Proof.
  unfold triggerRefValue. destruct (ref_dep st ref); [apply triggerEffects_extends|done].
Qed.

Lemma ComputedRefImpl_get_value_extends (self : addr) (st : state) :
  ComputedRefImpl_get_value code h self st ≠ NoResult →
  ComputedRefImpl_get_value code h' self st = ComputedRefImpl_get_value code h self st.
Proof.
  unfold ComputedRefImpl_get_value.
  destruct (heap _ !! self) as [[| | | |c]|]; try done.
  destruct (c_dirty c || negb (c_cacheable c)); [|done].
  apply bind_extends; [apply run_extends|done].
Qed.

Lemma createGetter_extends (isReadonly_ shallow : bool) (target : addr) (key : pkey)
    (receiver : value) (st : state) :
  createGetter h isReadonly_ shallow target key receiver st ≠ NoResult →
  createGetter h' isReadonly_ shallow target key receiver st
    = createGetter h isReadonly_ shallow target key receiver st.
Proof.
  unfold createGetter.
  do 4 (destruct (_ : bool); [done|]).
  match goal with |- match ?x with _ => _ end ≠ _ → _ => destruct x end; [done|].
  destruct (if isSymbol key then _ else _); [done|].
  destruct shallow; [done|].
  destruct (isRef _ _); [|done].
  destruct (_ || _); [apply Hh|done].
Qed.

Lemma createSetter_extends (shallow : bool) (target : addr) (key : pkey) (v : value)
    (receiver : value) (st : state) :
  createSetter code h shallow target key v receiver st ≠ NoResult →
  createSetter code h' shallow target key v receiver st
    = createSetter code h shallow target key v receiver st.
Proof.
  unfold createSetter.
  destruct (_ && _ && negb (isRef st v)); [done|].
  destruct (_ && _ && _ && _).
  { apply bind_extends; [apply Hh|done]. }
  apply bind_extends; [done|]. intros result st1.
  case_bool_decide; [|done].
  destruct (negb _).
  - apply bind_extends; [apply trigger_extends|done].
  - destruct (hasChanged _ _); [|done].
    apply bind_extends; [apply trigger_extends|done].
Qed.

Lemma op_get_extends (o : value) (k : pkey) (st : state) :
  op_get code h o k st ≠ NoResult → op_get code h' o k st = op_get code h o k st.
Proof.
  unfold op_get. destruct o; try done.
  - destruct (heap st !! a) as [[| | |r|c]|]; try done.
    case_bool_decide; [|done]. apply ComputedRefImpl_get_value_extends.
  - destruct (is_base_target st a); [apply createGetter_extends|done].
Qed.

Lemma step_extends : extends (step code h) (step code h').
Proof.
  intros X op st. destruct op; simpl.
  - apply op_get_extends.
  - unfold op_set. destruct o; try done.
    + destruct (heap st !! a) as [[| | |r|c]|]; try done.
      * case_bool_decide; [|done]. apply bind_extends; [|done].
        unfold RefImpl_set_value. destruct (hasChanged _ _); [|done].
        apply triggerRefValue_extends.
      * case_bool_decide; [|done]. apply bind_extends; [|done].
        by apply interp_extends.
    + destruct (is_base_target st a); [|done].
      destruct (kind_isReadonly k0); [done|apply createSetter_extends].
  - unfold op_delete. destruct o; try done.
    destruct (is_base_target st a); [|done].
    unfold proxy_delete. apply bind_extends; [|done].
    destruct (kind_isReadonly k0); [done|].
    unfold deleteProperty. destruct (raw_delete a k st) as [result st1].
    destruct (result && _); [|done].
    apply bind_extends; [apply trigger_extends|done].
  - done.
  - done.
  - unfold op_callMethod. apply bind_extends; [apply op_get_extends|].
    intros f st1. destruct (_ && _); [by apply interp_extends|].
    case_bool_decide; [by apply interp_extends|done].
  - apply run_extends.
  - apply stop_extends.
  - done.
  - done.
  - done.
  - done.
  - unfold computed_scheduler. destruct (heap st !! c) as [[| | | |c0]|]; try done.
    destruct (negb (c_dirty c0)); [|done]. apply triggerRefValue_extends.
Qed.

End extends_library.

(** A result obtained with some fuel is the result with any larger fuel. *)
Lemma sem_extends (code : program) (n m : nat) :
  (n ≤ m)%nat → extends (sem code n) (sem code m).
Proof.
  revert m. induction n as [|n IH]; intros m Hle X op st; simpl; [done|].
  destruct m as [|m]; [lia|]. simpl.
  apply step_extends. apply IH. lia.
Qed.

Lemma exec_more_fuel {R : Type} (code : program) (n m : nat) (p : prog R) (st : state) :
  (n ≤ m)%nat → exec code n p st ≠ NoResult → exec code m p st = exec code n p st.
Proof. intros Hle. apply interp_extends. by apply sem_extends. Qed.

(** ** The stack of tracking flags *)

Lemma resetTracking_pauseTracking (st : state) : resetTracking (pauseTracking st) = st.
Proof. by destruct st. Qed.

Lemma resetTracking_enableTracking (st : state) : resetTracking (enableTracking st) = st.
Proof. by destruct st. Qed.

Lemma tracking_calls_app (l1 l2 : list tracking_call) (st : state) :
  tracking_calls (l1 ++ l2) st = tracking_calls l2 (tracking_calls l1 st).
Proof. apply foldl_app. Qed.

Lemma tracking_calls_frame (l : list tracking_call) (st : state) (b : bool) (bs : list bool) :
  nested l →
  tracking_calls l (set_shouldTrack b (set_trackStack bs st))
  = set_shouldTrack b (set_trackStack bs st).
Proof.
  intros Hl. revert b bs. induction Hl as [|l _ IH|l _ IH|l1 l2 _ IH1 _ IH2]; intros b bs.
  - reflexivity.
  - change (PauseTracking :: l ++ [ResetTracking]) with ([PauseTracking] ++ l ++ [ResetTracking]).
    rewrite !tracking_calls_app.
    change (tracking_calls [PauseTracking] ?s) with (pauseTracking s).
    change (tracking_calls [ResetTracking] ?s) with (resetTracking s).
    unfold pauseTracking at 1. simpl shouldTrack. simpl trackStack.
    replace (set_shouldTrack false (set_trackStack (b :: bs) (set_shouldTrack b (set_trackStack bs st))))
      with (set_shouldTrack false (set_trackStack (b :: bs) st)) by reflexivity.
    rewrite IH. reflexivity.
  - change (EnableTracking :: l ++ [ResetTracking]) with ([EnableTracking] ++ l ++ [ResetTracking]).
    rewrite !tracking_calls_app.
    change (tracking_calls [EnableTracking] ?s) with (enableTracking s).
    change (tracking_calls [ResetTracking] ?s) with (resetTracking s).
    unfold enableTracking at 1. simpl shouldTrack. simpl trackStack.
    replace (set_shouldTrack true (set_trackStack (b :: bs) (set_shouldTrack b (set_trackStack bs st))))
      with (set_shouldTrack true (set_trackStack (b :: bs) st)) by reflexivity.
    rewrite IH. reflexivity.
  - rewrite tracking_calls_app, IH1, IH2. reflexivity.
Qed.

(** Properly nested calls of [pauseTracking], [enableTracking] and
    [resetTracking] leave the whole state as they found it: the flag, the
    stack of saved flags and everything else.  A surplus [resetTracking],
    which finds the stack empty, turns tracking on, whatever the flag was. *)
Theorem tracking_calls_nested (l : list tracking_call) (st : state) :
  nested l →
  tracking_calls l st = st ∧
  (trackStack st = [] →
     shouldTrack (tracking_calls (l ++ [ResetTracking]) st) = true ∧
     trackStack (tracking_calls (l ++ [ResetTracking]) st) = []).
Proof.
  intros Hl.
  assert (H : tracking_calls l st = st).
  { pose proof (tracking_calls_frame l st (shouldTrack st) (trackStack st) Hl) as H.
    by destruct st. }
  split; [exact H|].
  intros Hs. rewrite tracking_calls_app, H.
  change (tracking_calls [ResetTracking] st) with (resetTracking st).
  unfold resetTracking. by rewrite Hs.
Qed.

Lemma tracking_calls_nested_witness :
  tracking_calls [PauseTracking; EnableTracking; ResetTracking; ResetTracking]
    (set_shouldTrack false initial) = set_shouldTrack false initial ∧
  shouldTrack
    (tracking_calls ([PauseTracking; EnableTracking; ResetTracking; ResetTracking]
                       ++ [ResetTracking])
       (set_shouldTrack false initial)) = true.
Proof.
  destruct (tracking_calls_nested
              [PauseTracking; EnableTracking; ResetTracking; ResetTracking]
              (set_shouldTrack false initial)) as [H1 H2].
  - apply (nested_pause [EnableTracking; ResetTracking]), (nested_enable []), nested_nil.
  - split; [exact H1|]. apply H2. reflexivity.
Defined.

(** ** [stop] twice *)

(** After [stop()] has returned, the effect is inactive, and a further
    [stop()] returns at once in the same state: the subscriptions are not
    cleaned again and the [onStop] hook is not called again. *)
Theorem stop_idempotent (code : program) (h : handler) (e : eid) (st st' : state) :
  stop code h e st = Done tt st' →
  active (eff st' e) = false ∧ stop code h e st' = Done tt st'.
Proof.
  intros Hs.
  assert (Hact : active (eff st' e) = false).
  { unfold stop in Hs. destruct (active (eff st e)) eqn:Ha.
    - destruct (match onStop code e with
                | Some hook => interp h hook (cleanupEffect e st)
                | None => Done tt (cleanupEffect e st)
                end) as [[] st2|x st2|]; simpl in Hs; [|done..].
      inversion Hs; subst. by rewrite eff_upd_eff, decide_True.
    - by inversion Hs; subst. }
  split; [exact Hact|]. unfold stop. by rewrite Hact.
Qed.

Lemma stop_idempotent_witness :
  ∃ st', stop code_const (sem code_const 1) 0%nat initial = Done tt st' ∧
         active (eff st' 0%nat) = false ∧
         stop code_const (sem code_const 1) 0%nat st' = Done tt st'.
Proof.
  eexists. split; [reflexivity|].
  apply (stop_idempotent code_const (sem code_const 1) 0%nat initial). reflexivity.
Defined.

(** ** Deleting a property *)

Lemma raw_delete_absent (a : addr) (key : pkey) (st : state) :
  is_base_target st a = true →
  hasOwn st a key = false →
  raw_delete a key st = (true, st).
Proof.
  unfold is_base_target, hasOwn, raw_delete. intros Hb Hk.
  destruct (heap st !! a) as [[props|len props| | |]|] eqn:Ha; try done; simpl in Hk.
  - apply bool_decide_eq_false in Hk. rewrite <- not_eq_None_Some in Hk.
    apply dec_stable in Hk. rewrite delete_id by done.
    unfold upd_heap. rewrite insert_id by done. by destruct st.
  - apply bool_decide_eq_false in Hk. rewrite <- not_eq_None_Some in Hk.
    apply dec_stable in Hk.
    case_bool_decide as Hl; [subst; by rewrite lookup_insert_eq in Hk|].
    rewrite lookup_insert_ne in Hk by done. rewrite delete_id by done.
    unfold upd_heap. rewrite insert_id by done. by destruct st.
Qed.

Lemma raw_delete_present (a : addr) (key : pkey) (st : state) :
  is_base_target st a = true →
  ¬ (isArray st a = true ∧ key = KStr "length") →
  ∃ st1, raw_delete a key st = (true, st1) ∧
         hasOwn st1 a key = false ∧
         raw_get st1 a key = VUndefined ∧
         (∀ k, k ≠ key → raw_get st1 a k = raw_get st a k) ∧
         quiet st st1 ∧ targetMap st1 = targetMap st ∧ depStore st1 = depStore st.
Proof.
  unfold is_base_target, isArray, raw_delete, hasOwn, raw_get. intros Hb Hk.
  destruct (heap st !! a) as [[props|len props| | |]|] eqn:Ha; try done.
  - eexists. split; [reflexivity|]. simpl. rewrite lookup_insert_eq. simpl.
    rewrite lookup_delete_eq. split; [done|]. split; [done|].
    split; [|split; [apply quiet_heap|done]].
    intros k Hne. by rewrite lookup_delete_ne.
  - case_bool_decide as Hl; [by destruct Hk|].
    eexists. split; [reflexivity|]. simpl. rewrite lookup_insert_eq. simpl.
    rewrite lookup_insert_ne by done. rewrite lookup_delete_eq.
    split; [done|]. split; [done|].
    split; [|split; [apply quiet_heap|done]].
    intros k Hne. destruct (decide (k = KStr "length")) as [->|Hkl].
    + by rewrite !lookup_insert_eq.
    + rewrite !lookup_insert_ne by done. by rewrite lookup_delete_ne.
Qed.

(** [delete o[k]] through a mutable wrapper of a plain object or array.
    A key the raw object does not own: the result is [true], the state is
    untouched and [trigger] is not called.  The [length] of an array: the
    result is [false], the state is untouched and [trigger] is not called.
    Any other own key: the property is removed from the raw object (the
    other properties keep their values), then [trigger] is called with the
    kind [DELETE], and the result is [true]. *)
Theorem deleteProperty_trigger_kind (code : program) (h : handler)
    (target : addr) (key : pkey) (st : state) :
  is_base_target st target = true →
  (hasOwn st target key = false →
     deleteProperty code h target key st = Done true st) ∧
  (isArray st target = true → key = KStr "length" →
     deleteProperty code h target key st = Done false st) ∧
  (hasOwn st target key = true → ¬ (isArray st target = true ∧ key = KStr "length") →
     ∃ st1,
       deleteProperty code h target key st
         = (call _u at st2 := trigger code h target DELETE (Some key) VUndefined st1 in
            Done true st2) ∧
       hasOwn st1 target key = false ∧
       raw_get st1 target key = VUndefined ∧
       (∀ k, k ≠ key → raw_get st1 target k = raw_get st target k) ∧
       trace st1 = trace st).
Proof.
  intros Hb. split; [|split].
  - intros Hk. unfold deleteProperty. rewrite Hk.
    by rewrite (raw_delete_absent target key st Hb Hk).
  - intros Harr ->. unfold deleteProperty, raw_delete.
    unfold isArray in Harr.
    destruct (heap st !! target) as [[| | | |]|]; done.
  - intros Hk Hne.
    destruct (raw_delete_present target key st Hb Hne)
      as (st1 & Hd & Hno & Hget & Hothers & Hq & _).
    exists st1. unfold deleteProperty. rewrite Hk, Hd. simpl.
    split; [done|]. split; [done|]. split; [done|]. split; [done|].
    by destruct Hq as (_ & _ & _ & _ & _ & ? & _).
Qed.

Lemma deleteProperty_trigger_kind_witness :
  deleteProperty code_const (sem code_const 1) 0%nat (KStr "b") st_obj = Done true st_obj ∧
  ∃ st1,
    deleteProperty code_const (sem code_const 1) 0%nat (KStr "a") st_obj
      = (call _u at st2 :=
           trigger code_const (sem code_const 1) 0%nat DELETE (Some (KStr "a")) VUndefined st1 in
         Done true st2) ∧
    hasOwn st1 0%nat (KStr "a") = false.
Proof.
  destruct (deleteProperty_trigger_kind code_const (sem code_const 1) 0%nat (KStr "b") st_obj)
    as (H1 & _); [reflexivity|].
  destruct (deleteProperty_trigger_kind code_const (sem code_const 1) 0%nat (KStr "a") st_obj)
    as (_ & _ & H3); [reflexivity|].
  split; [apply H1; reflexivity|].
  destruct H3 as (st1 & Hd & Hno & _); [reflexivity|by intros [? ?]|].
  exists st1. by split.
Defined.

(** ** Tracking the same cell twice *)

Lemma land_lor_same (n bit : Z) : Z.land (Z.lor n bit) bit = bit.
Proof.
  apply Z.bits_inj'. intros i Hi.
  rewrite Z.land_spec, Z.lor_spec. destruct (Z.testbit n i), (Z.testbit bit i); reflexivity.
Qed.

Lemma targetMap_trackEffects (e : eid) (d : did) (st : state) :
  targetMap (trackEffects e d st) = targetMap st.
Proof.
  unfold trackEffects. destruct (effectTrackDepth st <=? maxMarkerBits).
  - destruct (negb (newTracked st d)); [|done]. by destruct (negb (wasTracked st d)).
  - by destruct (negb (set_has e (dep_set (dep st d)))).
Qed.

Lemma trackEffects_marked (e : eid) (d : did) (st : state) :
  (effectTrackDepth st ≤ maxMarkerBits → 0 < trackOpBit st) →
  if effectTrackDepth st <=? maxMarkerBits
  then newTracked (trackEffects e d st) d = true
  else set_has e (dep_set (dep (trackEffects e d st) d)) = true.
Proof.
  intros Hbit. unfold trackEffects.
  destruct (effectTrackDepth st <=? maxMarkerBits) eqn:Hmode.
  - apply Z.leb_le in Hmode. specialize (Hbit Hmode).
    destruct (negb (newTracked st d)) eqn:Hn; [|by apply negb_false_iff in Hn].
    assert (Hnew : ∀ s, dep_n (dep s d) = Z.lor (dep_n (dep st d)) (trackOpBit st) →
                        trackOpBit s = trackOpBit st → newTracked s d = true).
    { intros s Hdn Hb. unfold newTracked. rewrite Hb, Hdn, land_lor_same.
      by apply Z.ltb_lt. }
    destruct (negb (wasTracked st d)); apply Hnew; try reflexivity.
    + rewrite dep_upd_eff, !dep_upd_dep, !decide_True by done. reflexivity.
    + by rewrite dep_upd_dep, decide_True.
  - destruct (negb (set_has e (dep_set (dep st d)))) eqn:Hhas;
      [|by apply negb_false_iff in Hhas].
    rewrite dep_upd_eff, dep_upd_dep, decide_True by done. simpl.
    unfold set_has. apply bool_decide_eq_true. apply elem_of_set_add. by left.
Qed.

Lemma trackEffects_idempotent (e : eid) (d : did) (st : state) :
  (effectTrackDepth st ≤ maxMarkerBits → 0 < trackOpBit st) →
  trackEffects e d (trackEffects e d st) = trackEffects e d st.
Proof.
  intros Hbit.
  pose proof (trackEffects_marked e d st Hbit) as Hm.
  destruct (quiet_trackEffects e d st) as (_ & _ & _ & Hd & _).
  set (st' := trackEffects e d st) in *.
  unfold trackEffects. rewrite Hd.
  destruct (effectTrackDepth st <=? maxMarkerBits); by rewrite Hm.
Qed.

Lemma map_get_app (m : list (pkey * did)) (key : pkey) (d : did) :
  map_get m key = None → map_get (m ++ [(key, d)]) key = Some d.
Proof.
  induction m as [|[k d0] m IH]; simpl.
  - intros _. by rewrite bool_decide_eq_true_2.
  - case_bool_decide; [done|]. exact IH.
Qed.

Lemma quiet_bits (st st' : state) :
  quiet st st' →
  (effectTrackDepth st ≤ maxMarkerBits → 0 < trackOpBit st) →
  (effectTrackDepth st' ≤ maxMarkerBits → 0 < trackOpBit st').
Proof. intros (_ & _ & _ & -> & -> & _). done. Qed.

Lemma ref_dep_set_ref_dep (ref : addr) (d : did) (st : state) :
  (∃ r, heap st !! ref = Some (ORef r)) ∨ (∃ c, heap st !! ref = Some (OComputed c)) →
  ref_dep (set_ref_dep ref d st) ref = Some d ∧
  ((∃ r, heap (set_ref_dep ref d st) !! ref = Some (ORef r)) ∨
   (∃ c, heap (set_ref_dep ref d st) !! ref = Some (OComputed c))).
Proof.
  unfold ref_dep, set_ref_dep, upd_computed, upd_ref.
  intros [[r Hr]|[c Hc]].
  - rewrite Hr. simpl. rewrite lookup_insert_eq. simpl. rewrite lookup_insert_eq.
    split; [done|]. left. by eexists.
  - rewrite Hc. rewrite Hc. simpl. rewrite lookup_insert_eq.
    split; [done|]. right. by eexists.
Qed.

Lemma track_cell (target : addr) (type : TrackOpTypes) (key : pkey) (e : eid) (st : state) :
  activeEffect st = Some e → shouldTrack st = true →
  ∃ d st0, track target type key st = trackEffects e d st0 ∧
           map_get (default [] (targetMap st0 !! target)) key = Some d ∧
           quiet st st0.
Proof.
  intros Ha Hs. unfold track. rewrite Ha, Hs.
  destruct (map_get (default [] (targetMap st !! target)) key) as [d|] eqn:Hget.
  - exists d, st. split; [done|]. split; [done|apply quiet_refl].
  - simpl. eexists _, _. split; [reflexivity|]. split.
    + simpl. rewrite lookup_insert_eq. simpl. by apply map_get_app.
    + eapply quiet_trans; [|apply quiet_targetMap].
      apply (quiet_alloc_dep st).
Qed.

Lemma trackRefValue_cell (ref : addr) (e : eid) (st : state) :
  activeEffect st = Some e → shouldTrack st = true →
  ((∃ r, heap st !! ref = Some (ORef r)) ∨ (∃ c, heap st !! ref = Some (OComputed c))) →
  ∃ d st0, trackRefValue ref st = trackEffects e d st0 ∧
           ref_dep st0 ref = Some d ∧
           ((∃ r, heap st0 !! ref = Some (ORef r)) ∨
            (∃ c, heap st0 !! ref = Some (OComputed c))) ∧
           quiet st st0.
Proof.
  intros Ha Hs Hobj. unfold trackRefValue. rewrite Ha, Hs.
  assert (Hgo : ∃ d st0,
    match ref_dep st ref with
    | Some d => trackEffects e d st
    | None => let '(d, st1) := alloc_dep st in trackEffects e d (set_ref_dep ref d st1)
    end = trackEffects e d st0 ∧
    ref_dep st0 ref = Some d ∧
    ((∃ r, heap st0 !! ref = Some (ORef r)) ∨ (∃ c, heap st0 !! ref = Some (OComputed c))) ∧
    quiet st st0).
  { destruct (ref_dep st ref) as [d|] eqn:Hd.
    - exists d, st. split; [done|]. split; [done|]. split; [done|apply quiet_refl].
    - simpl.
      destruct (ref_dep_set_ref_dep ref (nextDep st)
                  (set_nextDep (S (nextDep st))
                     (upd_depStore (<[nextDep st := createDep []]>) st))) as [Hrd Hobj'];
        [exact Hobj|].
      eexists _, _. split; [reflexivity|]. split; [exact Hrd|]. split; [exact Hobj'|].
      eapply quiet_trans; [apply (quiet_alloc_dep st)|].
      unfold set_ref_dep.
      eapply quiet_trans; [apply quiet_upd_ref|apply quiet_upd_computed]. }
  destruct Hobj as [[r Hr]|[c Hc]]; [rewrite Hr|rewrite Hc]; exact Hgo.
Qed.

(** A second [track] of the same property, or a second [trackRefValue]
    of the same ref, made by the same effect in the same run changes
    nothing: the cell is not created twice, the effect is not added to the
    cell again, and the cell is not pushed on the [deps] of the effect
    again.  The bit of the current depth is positive whenever the markers
    are in use, as [run] sets it. *)
Theorem track_idempotent (target : addr) (type : TrackOpTypes) (key : pkey)
    (ref : addr) (st : state) :
  (effectTrackDepth st ≤ maxMarkerBits → 0 < trackOpBit st) →
  track target type key (track target type key st) = track target type key st ∧
  trackRefValue ref (trackRefValue ref st) = trackRefValue ref st.
Proof.
  intros Hbit. split.
  - destruct (activeEffect st) as [e|] eqn:Ha;
      [|unfold track at 2; rewrite Ha; unfold track; by rewrite Ha].
    destruct (shouldTrack st) eqn:Hs;
      [|unfold track at 2; rewrite Ha, Hs; unfold track; by rewrite Ha, Hs].
    destruct (track_cell target type key e st Ha Hs) as (d & st0 & -> & Hget & Hq).
    pose proof (quiet_trans _ _ _ Hq (quiet_trackEffects e d st0)) as Hq'.
    unfold track.
    destruct Hq' as (-> & -> & _). rewrite Ha, Hs.
    rewrite targetMap_trackEffects, Hget.
    apply trackEffects_idempotent. by apply (quiet_bits st).
  - destruct (activeEffect st) as [e|] eqn:Ha;
      [|unfold trackRefValue at 2; rewrite Ha; unfold trackRefValue; by rewrite Ha].
    destruct (shouldTrack st) eqn:Hs;
      [|unfold trackRefValue at 2; rewrite Ha, Hs; unfold trackRefValue; by rewrite Ha, Hs].
    assert (Hobj : ((∃ r, heap st !! ref = Some (ORef r)) ∨
                    (∃ c, heap st !! ref = Some (OComputed c))) ∨
                   trackRefValue ref st = st).
    { unfold trackRefValue. rewrite Ha, Hs.
      destruct (heap st !! ref) as [[| | |r|c]|]; eauto. }
    destruct Hobj as [Hobj|Hsame]; [|by rewrite !Hsame].
    destruct (trackRefValue_cell ref e st Ha Hs Hobj) as (d & st0 & -> & Hrd & Hobj0 & Hq).
    pose proof (quiet_trans _ _ _ Hq (quiet_trackEffects e d st0)) as Hq'.
    unfold trackRefValue.
    destruct Hq' as (-> & -> & _). rewrite Ha, Hs.
    unfold ref_dep in *. rewrite heap_trackEffects.
    assert (Hgo : match
                    match heap st0 !! ref with
                    | Some (ORef r) => r_dep r
                    | Some (OComputed c) => c_dep c
                    | _ => None
                    end
                  with
                  | Some d0 => trackEffects e d0 (trackEffects e d st0)
                  | None =>
                      let '(d0, st1) := alloc_dep (trackEffects e d st0) in
                      trackEffects e d0 (set_ref_dep ref d0 st1)
                  end = trackEffects e d st0).
    { rewrite Hrd. apply trackEffects_idempotent. by apply (quiet_bits st). }
    destruct Hobj0 as [[r Hr]|[c Hc]]; [rewrite Hr in *|rewrite Hc in *]; exact Hgo.
Qed.

Lemma track_idempotent_witness :
  let st := set_activeEffect (Some 0%nat) st_one_ref in
  track 0%nat GET (KStr "a") (track 0%nat GET (KStr "a") st) = track 0%nat GET (KStr "a") st ∧
  trackRefValue 0%nat (trackRefValue 0%nat st) = trackRefValue 0%nat st ∧
  deps (eff (trackRefValue 0%nat st) 0%nat) = [0%nat].
Proof.
  destruct (track_idempotent 0%nat GET (KStr "a") 0%nat
              (set_activeEffect (Some 0%nat) st_one_ref)) as [H1 H2].
  - intros _. reflexivity.
  - split; [exact H1|]. split; [exact H2|reflexivity].
Defined.

(** ** The subscribers [trigger] notifies *)

Lemma trigger_subscribers (code : program) (h : handler)
    (target : addr) (type : TriggerOpTypes) (key : option pkey) (newValue : value)
    (st : state) (depsMap : list (pkey * did)) (ds : list (option did)) :
  targetMap st !! target = Some depsMap →
  affected st target type key newValue depsMap = Normal ds →
  ∃ l : list eid,
    trigger code h target type key newValue st
      = triggerEffects code h l (record (EvTrigger target type key) st) ∧
    ∀ e, e ∈ l ↔ ∃ d, Some d ∈ ds ∧ e ∈ dep_set (dep st d).
Proof.
  intros Hmap Haff.
  assert (Hun : trigger code h target type key newValue st =
                match ds with
                | [Some d] => triggerEffects code h (dep_set (dep st d))
                                (record (EvTrigger target type key) st)
                | [None] => Done tt (record (EvTrigger target type key) st)
                | _ => triggerEffects code h (dep_set (createDep (effects_of st ds)))
                         (record (EvTrigger target type key) st)
                end).
  { unfold trigger. simpl. rewrite Hmap.
    change (affected (record (EvTrigger target type key) st) target type key newValue depsMap)
      with (affected st target type key newValue depsMap).
    rewrite Haff. reflexivity. }
  assert (Hgen : ∀ e, e ∈ dep_set (createDep (effects_of st ds))
                      ↔ ∃ d, Some d ∈ ds ∧ e ∈ dep_set (dep st d)).
  { intros e. simpl. by rewrite elem_of_set_of_list, elem_of_effects_of. }
  destruct ds as [|[d|] [|od ds']].
  - eexists. split; [exact Hun|exact Hgen].
  - exists (dep_set (dep st d)). split; [exact Hun|].
    intros e. split.
    + intros He. exists d. split; [by left|done].
    + intros (d' & Hd' & He). apply list_elem_of_singleton in Hd'. by inversion Hd'; subst.
  - eexists. split; [exact Hun|exact Hgen].
  - exists []. split; [exact Hun|].
    intros e. split; [by intros ?%elem_of_nil|].
    intros (d' & Hd' & _). by apply list_elem_of_singleton in Hd'.
  - eexists. split; [exact Hun|exact Hgen].
Qed.

Lemma isArray_plain (st : state) (target : addr) (props : gmap pkey value) :
  heap st !! target = Some (OPlain props) → isArray st target = false ∧ isMap st target = false.
Proof. intros H. unfold isArray, isMap. by rewrite H. Qed.

Lemma isArray_array (st : state) (target : addr) (len : N) (props : gmap pkey value) :
  heap st !! target = Some (OArray len props) → isArray st target = true ∧ isMap st target = false.
Proof. intros H. unfold isArray, isMap. by rewrite H. Qed.

(** [trigger] on a plain object, for the key of a write or of a delete:
    the subscribers of the key are notified, and with them, when a key was
    added or deleted, the subscribers of the iteration key, the effects
    that have enumerated the keys of the object; a change of the value of an
    existing key does not notify those. *)
Theorem trigger_plain_object (code : program) (h : handler)
    (target : addr) (type : TriggerOpTypes) (key : pkey) (newValue : value)
    (st : state) (props : gmap pkey value) (depsMap : list (pkey * did)) :
  heap st !! target = Some (OPlain props) →
  targetMap st !! target = Some depsMap →
  type ≠ CLEAR →
  ∃ l : list eid,
    trigger code h target type (Some key) newValue st
      = triggerEffects code h l (record (EvTrigger target type (Some key)) st) ∧
    ∀ e, e ∈ l ↔
         subscribed st depsMap key e ∨
         (type ≠ SET ∧ subscribed st depsMap (KSym ITERATE_KEY) e).
Proof.
  intros Hobj Hmap Htype.
  destruct (isArray_plain st target props Hobj) as [Harr Hm].
  assert (Haff : affected st target type (Some key) newValue depsMap
                 = Normal (map_get depsMap key ::
                         match type with
                         | ADD | DELETE => [map_get depsMap (KSym ITERATE_KEY)]
                         | _ => []
                         end)).
  { unfold affected. rewrite Harr, Hm. rewrite bool_decide_eq_false_2 by done.
    rewrite andb_false_r. destruct type; done. }
  destruct (trigger_subscribers code h target type (Some key) newValue st depsMap _ Hmap Haff)
    as (l & Hl & Hin).
  exists l. split; [exact Hl|]. intros e. rewrite Hin. unfold subscribed. split.
  - intros (d & Hd & He). apply elem_of_cons in Hd as [Hd|Hd].
    + left. by exists d.
    + right. destruct type; try (by apply elem_of_nil in Hd);
        apply list_elem_of_singleton in Hd; (split; [done|by exists d]).
  - intros [(d & Hd & He)|(Hns & d & Hd & He)].
    + exists d. split; [rewrite Hd; by left|done].
    + exists d. split; [|done]. right. destruct type; try done;
        apply list_elem_of_singleton; by rewrite Hd.
Qed.

Lemma trigger_plain_object_witness :
  ∃ l : list eid,
    trigger code_read_keys (sem code_read_keys 1) 0%nat ADD (Some (KStr "b")) (VNum 2)
      st_keys_tracked
      = triggerEffects code_read_keys (sem code_read_keys 1) l
          (record (EvTrigger 0%nat ADD (Some (KStr "b"))) st_keys_tracked) ∧
    0%nat ∈ l.
Proof.
  destruct (trigger_plain_object code_read_keys (sem code_read_keys 1) 0%nat ADD (KStr "b")
              (VNum 2) st_keys_tracked {[KStr "a" := VNum 1]}
              [(KStr "a", 0%nat); (KSym ITERATE_KEY, 1%nat)]) as (l & Hl & Hin).
  - vm_compute. reflexivity.
  - vm_compute. reflexivity.
  - done.
  - exists l. split; [exact Hl|]. apply Hin. right. split; [done|].
    exists 1%nat. split; [reflexivity|]. vm_compute. by left.
Defined.

(** [trigger] on an array, for a key other than [length]: the
    subscribers of the key are notified, and with them, when an integer key
    was added (an index at or beyond the length was written), the
    subscribers of [length]. *)
Theorem trigger_array_element (code : program) (h : handler)
    (target : addr) (type : TriggerOpTypes) (key : pkey) (newValue : value)
    (st : state) (len : N) (props : gmap pkey value) (depsMap : list (pkey * did)) :
  heap st !! target = Some (OArray len props) →
  targetMap st !! target = Some depsMap →
  type ≠ CLEAR →
  key ≠ KStr "length" →
  ∃ l : list eid,
    trigger code h target type (Some key) newValue st
      = triggerEffects code h l (record (EvTrigger target type (Some key)) st) ∧
    ∀ e, e ∈ l ↔
         subscribed st depsMap key e ∨
         (type = ADD ∧ isIntegerKey key = true ∧ subscribed st depsMap (KStr "length") e).
Proof.
  intros Hobj Hmap Htype Hkey.
  destruct (isArray_array st target len props Hobj) as [Harr Hm].
  assert (Haff : affected st target type (Some key) newValue depsMap
                 = Normal (map_get depsMap key ::
                         if bool_decide (type = ADD) && isIntegerKey key
                         then [map_get depsMap (KStr "length")] else [])).
  { unfold affected. rewrite Harr, Hm. rewrite bool_decide_eq_false_2 by done.
    rewrite (bool_decide_eq_false_2 (Some key = Some (KStr "length"))) by congruence.
    simpl. destruct type; try done; simpl; by destruct (isIntegerKey key). }
  destruct (trigger_subscribers code h target type (Some key) newValue st depsMap _ Hmap Haff)
    as (l & Hl & Hin).
  exists l. split; [exact Hl|]. intros e. rewrite Hin. unfold subscribed. split.
  - intros (d & Hd & He). apply elem_of_cons in Hd as [Hd|Hd].
    + left. by exists d.
    + right. case_bool_decide as Ht; [|by apply elem_of_nil in Hd]. simpl in Hd.
      destruct (isIntegerKey key); [|by apply elem_of_nil in Hd].
      apply list_elem_of_singleton in Hd. split; [done|]. split; [done|]. by exists d.
  - intros [(d & Hd & He)|(Ht & Hi & d & Hd & He)].
    + exists d. split; [rewrite Hd; by left|done].
    + exists d. split; [|done]. right. rewrite bool_decide_eq_true_2, Hi by done. simpl.
      apply list_elem_of_singleton. by rewrite Hd.
Qed.

Lemma trigger_array_element_witness :
  ∃ l : list eid,
    trigger code_read_two (sem code_read_two 1) 0%nat ADD (Some (KIdx 3)) (VNum 2) st_two_cells
      = triggerEffects code_read_two (sem code_read_two 1) l
          (record (EvTrigger 0%nat ADD (Some (KIdx 3))) st_two_cells) ∧
    0%nat ∈ l.
Proof.
  destruct (trigger_array_element code_read_two (sem code_read_two 1) 0%nat ADD (KIdx 3)
              (VNum 2) st_two_cells 0 ∅
              [(KIdx 5, 0%nat); (KStr "length", 1%nat)]) as (l & Hl & Hin).
  - vm_compute. reflexivity.
  - vm_compute. reflexivity.
  - done.
  - done.
  - exists l. split; [exact Hl|]. apply Hin. right. split; [done|]. split; [done|].
    exists 1%nat. split; [reflexivity|]. vm_compute. by left.
Defined.

Lemma affected_length (st : state) (target : addr) (type : TriggerOpTypes) (n : Z)
    (depsMap : list (pkey * did)) :
  isArray st target = true →
  type ≠ CLEAR →
  (∀ k d, (k, d) ∈ depsMap → k = KStr "length" ∨ isIntegerKey k = true) →
  ∃ ds, affected st target type (Some (KStr "length")) (VNum n) depsMap = Normal ds ∧
        ∀ d, Some d ∈ ds ↔
             ∃ k, (k, d) ∈ depsMap ∧
                  (k = KStr "length" ∨ ∃ i, k = KIdx i ∧ n ≤ Z.of_N i).
Proof.
  intros Harr Htype Hkeys. unfold affected.
  rewrite bool_decide_eq_false_2 by done. rewrite bool_decide_eq_true_2 by done.
  rewrite Harr. simpl. clear Harr Htype.
  induction depsMap as [|[k d0] m IH]; simpl.
  - eexists. split; [reflexivity|]. intros d. split.
    + by intros ?%elem_of_nil.
    + intros (k & Hk & _). by apply elem_of_nil in Hk.
  - destruct IH as (ds & -> & Hds).
    { intros k' d' Hin. apply (Hkeys k' d'). by right. }
    assert (Hk : k = KStr "length" ∨ isIntegerKey k = true) by (apply (Hkeys k d0); by left).
    case_bool_decide as Hlen.
    + eexists. split; [reflexivity|]. intros d. rewrite elem_of_cons, Hds. split.
      * intros [Hd|(k' & Hin & Hc)].
        -- inversion Hd; subst. exists (KStr "length"). split; [by left|by left].
        -- exists k'. split; [by right|done].
      * intros (k' & Hin & Hc). apply elem_of_cons in Hin as [Hin|Hin].
        -- inversion Hin; subst. by left.
        -- right. by exists k'.
    + destruct Hk as [Hk|Hk]; [done|]. destruct k as [s|i|y]; try done. simpl.
      destruct (n <=? Z.of_N i) eqn:Hle.
      * apply Z.leb_le in Hle.
        eexists. split; [reflexivity|]. intros d. rewrite elem_of_cons, Hds. split.
        -- intros [Hd|(k' & Hin & Hc)].
           ++ inversion Hd; subst. exists (KIdx i). split; [by left|]. right. eauto.
           ++ exists k'. split; [by right|done].
        -- intros (k' & Hin & Hc). apply elem_of_cons in Hin as [Hin|Hin].
           ++ inversion Hin; subst. by left.
           ++ right. by exists k'.
      * apply Z.leb_gt in Hle.
        eexists. split; [reflexivity|]. intros d. rewrite Hds. split.
        -- intros (k' & Hin & Hc). exists k'. split; [by right|done].
        -- intros (k' & Hin & Hc). apply elem_of_cons in Hin as [Hin|Hin].
           ++ inversion Hin; subst. destruct Hc as [Hc|(j & Hc & Hj)]; [done|].
              inversion Hc; subst. lia.
           ++ by exists k'.
Qed.

(** [trigger] for a write of the [length] of an array all of whose
    tracked keys are [length] and indices: the effects notified are the
    subscribers of [length] and of the indices at or beyond the new length;
    an effect that has read only indices below the new length is not
    notified. *)
Theorem trigger_array_length (code : program) (h : handler)
    (target : addr) (type : TriggerOpTypes) (n : Z)
    (st : state) (len : N) (props : gmap pkey value) (depsMap : list (pkey * did)) :
  heap st !! target = Some (OArray len props) →
  targetMap st !! target = Some depsMap →
  type ≠ CLEAR →
  (∀ k d, (k, d) ∈ depsMap → k = KStr "length" ∨ isIntegerKey k = true) →
  ∃ l : list eid,
    trigger code h target type (Some (KStr "length")) (VNum n) st
      = triggerEffects code h l (record (EvTrigger target type (Some (KStr "length"))) st) ∧
    ∀ e, e ∈ l ↔
         ∃ k d, (k, d) ∈ depsMap ∧ e ∈ dep_set (dep st d) ∧
                (k = KStr "length" ∨ ∃ i, k = KIdx i ∧ n ≤ Z.of_N i).
Proof.
  intros Hobj Hmap Htype Hkeys.
  destruct (isArray_array st target len props Hobj) as [Harr _].
  destruct (affected_length st target type n depsMap Harr Htype Hkeys)
    as (ds & Haff & Hds).
  destruct (trigger_subscribers code h target type (Some (KStr "length")) (VNum n) st
              depsMap ds Hmap Haff) as (l & Hl & Hin).
  exists l. split; [exact Hl|]. intros e. rewrite Hin. split.
  - intros (d & Hd & He). apply Hds in Hd as (k & Hk & Hc). by exists k, d.
  - intros (k & d & Hk & He & Hc). exists d. split; [|done]. apply Hds. by exists k.
Qed.

Lemma trigger_array_length_witness :
  ∃ l : list eid,
    trigger code_read_two (sem code_read_two 1) 0%nat SET (Some (KStr "length")) (VNum 3)
      st_two_cells
      = triggerEffects code_read_two (sem code_read_two 1) l
          (record (EvTrigger 0%nat SET (Some (KStr "length"))) st_two_cells) ∧
    0%nat ∈ l.
Proof.
  destruct (trigger_array_length code_read_two (sem code_read_two 1) 0%nat SET 3
              st_two_cells 0 ∅ [(KIdx 5, 0%nat); (KStr "length", 1%nat)])
    as (l & Hl & Hin).
  - vm_compute. reflexivity.
  - vm_compute. reflexivity.
  - done.
  - intros k d Hk. apply elem_of_cons in Hk as [Hk|Hk]; [inversion Hk; by right|].
    apply list_elem_of_singleton in Hk. inversion Hk. by left.
  - exists l. split; [exact Hl|]. apply Hin.
    exists (KIdx 5), 0%nat. split; [by left|]. split; [vm_compute; by left|].
    right. exists 5%N. split; [done|lia].
Defined.

Lemma string_ge_number_not_abrupt (s : string) (n : Z) (x : value) :
  string_ge_number s n ≠ Abrupt x.
Proof.
  unfold string_ge_number. destruct (StringToNumber s) as [|negative|negative m e]; try done.
  destruct (decimal_ge negative m e n 1); [done|].
  by destruct (_ && _).
Qed.

Lemma affected_length_symbol (st : state) (target : addr) (type : TriggerOpTypes)
    (n : Z) (depsMap : list (pkey * did)) (y : symbol) (d : did) :
  isArray st target = true →
  type ≠ CLEAR →
  (KSym y, d) ∈ depsMap →
  (∀ s d', (KStr s, d') ∈ depsMap → s = "length" ∨ string_ge_number s n ≠ Unmodelled) →
  affected st target type (Some (KStr "length")) (VNum n) depsMap = Abrupt TypeError.
Proof.
  intros Harr Htype Hin Hstr. unfold affected.
  rewrite bool_decide_eq_false_2 by done. rewrite bool_decide_eq_true_2 by done.
  rewrite Harr. simpl. clear Harr Htype.
  induction depsMap as [|[k d0] m IH]; simpl; [by apply elem_of_nil in Hin|].
  case_bool_decide as Hlen.
  - apply elem_of_cons in Hin as [Hin|Hin]; [inversion Hin; by subst|].
    rewrite IH; [done|done|]. intros s d' Hs. apply (Hstr s d'). by right.
  - apply elem_of_cons in Hin as [Hin|Hin].
    + inversion Hin; subst. reflexivity.
    + rewrite IH; [|done|intros s d' Hs; apply (Hstr s d'); by right].
      destruct k as [s|i|y']; simpl.
      * assert (Hs : s = "length" ∨ string_ge_number s n ≠ Unmodelled)
          by (apply (Hstr s d0); by left).
        destruct Hs as [->|Hs]; [done|].
        pose proof (string_ge_number_not_abrupt s n) as Hx.
        destruct (string_ge_number s n) as [[|]|x|]; try done. by destruct (Hx x).
      * by destruct (n <=? Z.of_N i).
      * done.
Qed.

(** A write of a valid new [length] to a reactive array one of whose
    symbol-keyed properties has been tracked: in the loop of [trigger] over
    the tracked keys the symbol is compared with the new length, which
    JavaScript refuses with a [TypeError].  The exception leaves the setter
    after the raw array has got its new length, and no subscriber is
    notified.  (The tracked string keys other than [length] are taken to
    compare with the new length without regard to rounding.) *)
Theorem createSetter_length_symbol_key (code : program) (h : handler) (shallow : bool)
    (target : addr) (n : Z) (st : state)
    (len : N) (props : gmap pkey value) (depsMap : list (pkey * did)) (y : symbol) (d : did) :
  heap st !! target = Some (OArray len props) →
  targetMap st !! target = Some depsMap →
  (KSym y, d) ∈ depsMap →
  (∀ s d', (KStr s, d') ∈ depsMap → s = "length" ∨ string_ge_number s n ≠ Unmodelled) →
  0 ≤ n < 2 ^ 32 →
  n ≠ Z.of_N len →
  let receiver := VProxy (proxy_kind_of false shallow) target in
  ∃ st1 : state,
    raw_set target (KStr "length") (VNum n) st = Normal st1 ∧
    createSetter code h shallow target (KStr "length") (VNum n) receiver st
      = Raised TypeError (record (EvTrigger target SET (Some (KStr "length"))) st1) ∧
    raw_get st1 target (KStr "length") = VNum n.
Proof.
  intros Hobj Hmap Hin Hstr Hrange Hn receiver.
  assert (Hold : raw_get st target (KStr "length") = VNum (Z.of_N len)).
  { unfold raw_get. rewrite Hobj. simpl. by rewrite lookup_insert_eq. }
  assert (Hlen : array_length_of (VNum n) = Normal (Z.to_N n)).
  { simpl. destruct (0 <=? n) eqn:H0; [|apply Z.leb_gt in H0; lia].
    destruct (n <? 2 ^ 32) eqn:H1; [done|apply Z.ltb_ge in H1; lia]. }
  destruct (raw_set target (KStr "length") (VNum n) st) as [st1| |] eqn:Hset;
    unfold raw_set in Hset; rewrite Hobj, Hlen in Hset; try done.
  injection Hset as Hst1.
  assert (Hobj1 : ∃ props1, heap st1 !! target = Some (OArray (Z.to_N n) props1)).
  { rewrite <- Hst1. simpl. rewrite lookup_insert_eq. eauto. }
  destruct Hobj1 as (props1 & Hobj1).
  assert (Htm : targetMap st1 = targetMap st) by (by rewrite <- Hst1).
  exists st1. split; [reflexivity|]. split.
  - unfold createSetter. rewrite Hold. simpl.
    assert (Hv : (if negb shallow && true && true then VNum n else VNum n) = VNum n)
      by (by destruct shallow).
    assert (Ho : (if negb shallow && true && true then VNum (Z.of_N len) else VNum (Z.of_N len))
                 = VNum (Z.of_N len)) by (by destruct shallow).
    rewrite Hv, Ho.
    change (isRef st (VNum (Z.of_N len))) with false. rewrite andb_false_r. simpl.
    unfold Reflect_set, receiver. simpl. unfold OrdinarySet, raw_set.
    rewrite Hobj, Hlen. rewrite Hst1. simpl.
    rewrite bool_decide_eq_true_2 by done.
    assert (Hhad : hadKey st target (KStr "length") = true).
    { unfold hadKey, hasOwn. rewrite Hobj. simpl. rewrite lookup_insert_eq.
      by apply bool_decide_eq_true. }
    rewrite Hhad. simpl.
    assert (Hch : hasChanged (VNum n) (VNum (Z.of_N len)) = true).
    { unfold hasChanged, Object_is. rewrite bool_decide_eq_false_2; [done|congruence]. }
    rewrite Hch.
    unfold trigger.
    change (targetMap (record (EvTrigger target SET (Some (KStr "length"))) st1))
      with (targetMap st1).
    rewrite Htm, Hmap.
    rewrite (affected_length_symbol _ target SET n depsMap y d); try done.
    unfold isArray. simpl. by rewrite Hobj1.
  - unfold raw_get. rewrite Hobj1. simpl. rewrite lookup_insert_eq. simpl.
    by rewrite Z2N.id by lia.
Qed.

Lemma createSetter_length_symbol_key_witness :
  ∃ st1 : state,
    raw_set 0%nat (KStr "length") (VNum 0) st_symbol_tracked = Normal st1 ∧
    createSetter code_read_symbol (sem code_read_symbol 1) false 0%nat (KStr "length") (VNum 0)
      (VProxy Reactive 0%nat) st_symbol_tracked
    = Raised TypeError (record (EvTrigger 0%nat SET (Some (KStr "length"))) st1) ∧
    raw_get st1 0%nat (KStr "length") = VNum 0.
Proof.
  apply (createSetter_length_symbol_key code_read_symbol (sem code_read_symbol 1) false
           0%nat 0 st_symbol_tracked 1 {[KIdx 0 := VNum 1]}
           [(KSym (UserSymbol 0), 0%nat); (KIdx 0, 1%nat)] (UserSymbol 0) 0%nat).
  - vm_compute. reflexivity.
  - vm_compute. reflexivity.
  - by left.
  - intros s d' Hs. apply elem_of_cons in Hs as [Hs|Hs]; [done|].
    by apply list_elem_of_singleton in Hs.
  - lia.
  - done.
Defined.

(** ** Readonly wrappers are deep, shallow readonly wrappers are not *)

Lemma createGetter_plain_read (h : handler) (isReadonly_ shallow : bool)
    (target : addr) (key : pkey) (receiver : value) (st : state) :
  is_flag_key key = false →
  isReadonly_ = true ∨ isArray st target = false ∨ isIntegerKey key = true ∨ isSymbol key = true →
  (if isSymbol key then builtInSymbols_has key else isNonTrackableKeys key) = false →
  let res := Reflect_get st target key in
  let st1 := if negb isReadonly_ then track target GET key st else st in
  createGetter h isReadonly_ shallow target key receiver st =
    if shallow then Done res st1
    else if isRef st1 res then
      if negb (isArray st target) || negb (isIntegerKey key)
      then h _ (OpGet res (KStr "value")) st1
      else Done res st1
    else if isObject res then
      if isReadonly_ then
        match readonly res with
        | Some wrapped => Done wrapped st1
        | None => NoResult
        end
      else Done (reactive res) st1
    else Done res st1.
Proof.
  intros Hflag Hinstr Htrack res st1. unfold createGetter.
  unfold is_flag_key in Hflag. apply bool_decide_eq_false in Hflag.
  rewrite !elem_of_cons in Hflag.
  rewrite (bool_decide_eq_false_2 (key = ReactiveFlags_IS_REACTIVE)) by tauto.
  rewrite (bool_decide_eq_false_2 (key = ReactiveFlags_IS_READONLY)) by tauto.
  rewrite (bool_decide_eq_false_2 (key = ReactiveFlags_IS_SHALLOW)) by tauto.
  rewrite (bool_decide_eq_false_2 (key = ReactiveFlags_RAW)) by tauto.
  simpl andb. cbv iota.
  match goal with
  | |- match ?x with _ => _ end = _ => assert (Hnone : x = None); [|rewrite Hnone]
  end.
  { destruct key as [m| |]; try done.
    destruct Hinstr as [->|[->|[Hi|Hs]]]; try done. by rewrite andb_false_r. }
  rewrite Htrack. reflexivity.
Qed.

(** Through a deep readonly wrapper, a read of a property that holds a
    plain object or array tracks nothing, leaves the state as it is and
    returns the readonly wrapper of the nested object.  Through that wrapper
    a write is again a no-op, and so is a delete, except the delete of the
    [length] of a nested array, which throws a [TypeError]: the handler
    answers [true] for a property that cannot be deleted.  Through a shallow
    readonly wrapper the same read returns the nested object itself,
    unwrapped, and a write to it is the write to the raw object: it changes
    the object, or throws where the raw assignment throws. *)
Theorem readonly_is_deep (code : program) (h : handler)
    (a b : addr) (k k' : pkey) (v : value) (st : state) :
  is_base_target st a = true →
  is_base_target st b = true →
  Reflect_get st a k = VObj b →
  isRef st (VObj b) = false →
  is_flag_key k = false →
  (if isSymbol k then builtInSymbols_has k else isNonTrackableKeys k) = false →
  (step code h _ (OpGet (VProxy Readonly a) k) st = Done (VProxy Readonly b) st ∧
   step code h _ (OpSet (VProxy Readonly b) k' v) st = Done true st ∧
   step code h _ (OpDelete (VProxy Readonly b) k') st
     = if isArray st b && bool_decide (k' = KStr "length")
       then Raised TypeError st else Done true st) ∧
  (step code h _ (OpGet (VProxy ShallowReadonly a) k) st = Done (VObj b) st ∧
   (∀ st2, raw_set b k' v st = Normal st2 →
           step code h _ (OpSet (VObj b) k' v) st = Done true st2) ∧
   (∀ x, raw_set b k' v st = Abrupt x →
         step code h _ (OpSet (VObj b) k' v) st = Raised x st)).
Proof.
  intros Ha Hb Hget Href Hflag Htrack. split; [split; [|split]|split; [|split]].
  - simpl. rewrite Ha. simpl.
    rewrite (createGetter_plain_read h true false a k _ st Hflag (or_introl eq_refl) Htrack).
    simpl. by rewrite Hget, Href.
  - simpl. by rewrite Hb.
  - simpl. rewrite Hb. reflexivity.
  - simpl. rewrite Ha. simpl.
    rewrite (createGetter_plain_read h true true a k _ st Hflag (or_introl eq_refl) Htrack).
    simpl. by rewrite Hget.
  - intros st2 Hset. simpl. unfold is_base_target in Hb. unfold OrdinarySet. rewrite Hset.
    destruct (heap st !! b) as [[| | | |]|]; done.
  - intros x Hset. simpl. unfold is_base_target in Hb. unfold OrdinarySet. rewrite Hset.
    destruct (heap st !! b) as [[| | | |]|]; done.
Qed.

Lemma readonly_is_deep_witness :
  step code_const (sem code_const 0) _ (OpGet (VProxy Readonly 0%nat) (KStr "inner")) st_nested
    = Done (VProxy Readonly 1%nat) st_nested ∧
  step code_const (sem code_const 0) _ (OpSet (VProxy Readonly 1%nat) (KStr "x") (VNum 2))
    st_nested = Done true st_nested ∧
  step code_const (sem code_const 0) _ (OpDelete (VProxy Readonly 1%nat) (KStr "x")) st_nested
    = Done true st_nested ∧
  step code_const (sem code_const 0) _ (OpGet (VProxy ShallowReadonly 0%nat) (KStr "inner"))
    st_nested = Done (VObj 1%nat) st_nested.
Proof.
  destruct (readonly_is_deep code_const (sem code_const 0) 0%nat 1%nat (KStr "inner")
              (KStr "x") (VNum 2) st_nested) as [(H1 & H2 & H3) (H4 & _)];
    try (vm_compute; reflexivity).
  split; [exact H1|]. split; [exact H2|]. split; [exact H3|exact H4].
Defined.

(** ** Refs held by reactive objects and arrays *)

(** A read through a deep reactive wrapper of a property that holds a
    ref: on a plain object the read is tracked and the ref is unwrapped, the
    result is the inner value of the ref, whose read is tracked too; on an
    array, at an integer key, the read is tracked and the ref itself is
    returned.  A shallow reactive wrapper returns the ref itself in both
    cases. *)
Theorem reactive_unwraps_refs (code : program) (fuel : nat)
    (a b : addr) (k : pkey) (r : RefImpl) (st : state) :
  is_base_target st a = true →
  Reflect_get st a k = VObj b →
  heap st !! b = Some (ORef r) →
  is_flag_key k = false →
  isArray st a = false ∨ isIntegerKey k = true →
  (if isSymbol k then builtInSymbols_has k else isNonTrackableKeys k) = false →
  let h := sem code (S fuel) in
  let st1 := track a GET k st in
  step code h _ (OpGet (VProxy Reactive a) k) st
    = (if isArray st a then Done (VObj b) st1 else Done (r_value r) (trackRefValue b st1)) ∧
  step code h _ (OpGet (VProxy ShallowReactive a) k) st = Done (VObj b) st1.
Proof.
  intros Ha Hget Hb Hflag Hshape Htrack h st1.
  assert (Hinstr : false = true ∨ isArray st a = false ∨ isIntegerKey k = true ∨
                   isSymbol k = true) by tauto.
  assert (Hb1 : heap st1 !! b = Some (ORef r)).
  { unfold st1, track. destruct (activeEffect st); [|done]. destruct (shouldTrack st); [|done].
    destruct (map_get _ k); [by rewrite heap_trackEffects|].
    simpl. by rewrite heap_trackEffects. }
  split.
  - simpl. rewrite Ha. simpl.
    rewrite (createGetter_plain_read h false false a k _ st Hflag Hinstr Htrack).
    simpl. fold st1. rewrite Hget.
    assert (Hr1 : isRef st1 (VObj b) = true) by (simpl; by rewrite Hb1).
    assert (Hval : h value (OpGet (VObj b) (KStr "value")) st1
                   = Done (r_value r) (trackRefValue b st1)).
    { unfold h. simpl. by rewrite Hb1. }
    rewrite Hr1, Hval.
    destruct Hshape as [Harr|Hint].
    + by rewrite Harr.
    + rewrite Hint. by destruct (isArray st a).
  - simpl. rewrite Ha. simpl.
    rewrite (createGetter_plain_read h false true a k _ st Hflag Hinstr Htrack).
    simpl. by rewrite Hget.
Qed.

Lemma reactive_unwraps_refs_witness :
  step code_const (sem code_const 1) _ (OpGet (VProxy Reactive 0%nat) (KStr "r")) st_nested
    = Done (VNum 5) st_nested ∧
  step code_const (sem code_const 1) _ (OpGet (VProxy Reactive 3%nat) (KIdx 0)) st_nested
    = Done (VObj 2%nat) st_nested.
Proof.
  destruct (reactive_unwraps_refs code_const 0 0%nat 2%nat (KStr "r")
              (new_RefImpl (VNum 5) false) st_nested) as [H1 _];
    try (vm_compute; reflexivity); [by left|].
  destruct (reactive_unwraps_refs code_const 0 3%nat 2%nat (KIdx 0)
              (new_RefImpl (VNum 5) false) st_nested) as [H2 _];
    try (vm_compute; reflexivity); [by right|].
  split; [exact H1|exact H2].
Defined.

(** ** The scheduler of a computed ref *)

(** When a dependency of a computed ref changes, its effect has its turn
    in [triggerEffects] through the scheduler the constructor gave it, which
    never runs the getter.  If the computed ref is already dirty, the turn
    changes nothing: its subscribers are not notified again.  If it is
    clean, it is marked dirty and its own subscribers are notified. *)
Theorem computed_scheduler_batches (code : program) (fuel : nat)
    (e : eid) (c : addr) (cc : ComputedRefImpl) (l : list eid) (st : state) :
  computed (eff st e) = Some c →
  heap st !! c = Some (OComputed cc) →
  ¬ skipped st e →
  let h := sem code (S fuel) in
  let st_s := record (EvScheduler e) st in
  (c_dirty cc = true →
     triggerEffects code h (e :: l) st = triggerEffects code h l st_s) ∧
  (c_dirty cc = false →
     heap (upd_computed c (set_c_dirty true) st_s) !! c = Some (OComputed (set_c_dirty true cc)) ∧
     triggerEffects code h (e :: l) st
       = (call _u at st' :=
            triggerRefValue code (sem code fuel) c (upd_computed c (set_c_dirty true) st_s) in
          triggerEffects code h l st')).
Proof.
  intros Hc Hh Hns h st_s.
  assert (Hgo : negb (bool_decide (Some e = activeEffect st)) || allowRecurse (eff st e) = true).
  { destruct (negb _ || _) eqn:Hgo; [done|]. by apply skipped_dec in Hgo. }
  assert (Hun : triggerEffects code h (e :: l) st
                = (call _u at st' := computed_scheduler code (sem code fuel) c st_s in
                   triggerEffects code h l st')).
  { simpl triggerEffects. rewrite Hgo. unfold call_scheduler. rewrite Hc. reflexivity. }
  assert (Hhs : heap st_s !! c = Some (OComputed cc)) by exact Hh.
  split.
  - intros Hd. rewrite Hun. unfold computed_scheduler. by rewrite Hhs, Hd.
  - intros Hd. split; [by apply upd_computed_lookup|].
    rewrite Hun. unfold computed_scheduler. by rewrite Hhs, Hd.
Qed.

Lemma computed_scheduler_batches_witness :
  triggerEffects code_computed (sem code_computed 1) [0%nat] st_ref_computed
    = Done tt (record (EvScheduler 0%nat) st_ref_computed).
Proof.
  refine (proj1 (computed_scheduler_batches code_computed 0 0%nat 1%nat
                   (new_ComputedRefImpl 0%nat true false) [] st_ref_computed _ _ _) _);
    try reflexivity.
  intros [Ha _]. discriminate Ha.
Defined.

(** ** Relations every operation keeps *)

Section kept_library.

Context (code : program) (R : state → state → Prop).
Context (R_refl : ∀ st, R st st).
Context (R_trans : ∀ st1 st2 st3, R st1 st2 → R st2 st3 → R st1 st3).
Context (R_record : ∀ ev st, R st (record ev st)).
Context (R_track : ∀ target type key st, R st (track target type key st)).
Context (R_trackRefValue : ∀ ref st, R st (trackRefValue ref st)).
Context (R_heap : ∀ f st, R st (upd_heap f st)).
Context (R_nextObj : ∀ n st, R st (set_nextObj n st)).
Context (R_pause : ∀ st, R st (pauseTracking st)).
Context (R_enable : ∀ st, R st (enableTracking st)).
Context (R_reset : ∀ st, R st (resetTracking st)).
Context (R_run : ∀ h, kept R h → ∀ e st, post (R st) (run code h e st)).
Context (R_stop : ∀ h, kept R h → ∀ e st, post (R st) (stop code h e st)).

Lemma post_pre {A : Type} (st st1 : state) (m : outcome A) :
  R st st1 → post (R st1) m → post (R st) m.
Proof. intros H. apply post_weaken. intros st2. by apply R_trans. Qed.

Lemma post_bind {A B : Type} (st : state) (m : outcome A) (k : A → state → outcome B) :
  post (R st) m →
  (∀ a st', post (R st') (k a st')) →
  post (R st) (bind m k).
Proof.
  intros Hm Hk. destruct m as [a st'|x st'|]; simpl in *; [|done..].
  eapply post_pre; [exact Hm|apply Hk].
Qed.

Lemma interp_kept {A : Type} (h : handler) (p : prog A) (st : state) :
  kept R h → post (R st) (interp h p st).
Proof.
  intros Hh. revert st.
  induction p as [A r|A x|A X op k IH|A body IHb hd IHh k IHk]; intros st; simpl.
  - apply R_refl.
  - apply R_refl.
  - apply post_bind; [apply Hh|]. intros a st'. apply IH.
  - pose proof (IHb st) as Hb.
    destruct (interp h body st) as [v st1|x st1|]; simpl in *; [| |done].
    + eapply post_pre; [exact Hb|apply IHk].
    + eapply post_pre; [exact Hb|].
      apply post_bind; [apply IHh|]. intros a st'. apply IHk.
Qed.

Lemma R_OrdinarySet (a : addr) (key : pkey) (v : value) (st : state) :
  post (R st) (OrdinarySet a key v st).
Proof.
  unfold OrdinarySet. destruct (raw_set a key v st) as [st1|x|] eqn:Hset; simpl;
    [|apply R_refl|done].
  destruct (raw_set_heap a key v st st1 Hset) as [f ->]. apply R_heap.
Qed.

Lemma R_Reflect_set (target : addr) (key : pkey) (v receiver : value) (st : state) :
  post (R st) (Reflect_set target key v receiver st).
Proof. unfold Reflect_set. destruct (toRaw receiver); try apply R_refl. apply R_OrdinarySet. Qed.

Lemma R_raw_delete (a : addr) (key : pkey) (st : state) : R st (raw_delete a key st).2.
Proof. unfold raw_delete. repeat case_match; try apply R_refl; apply R_heap. Qed.

Lemma R_upd_computed (a : addr) f (st : state) : R st (upd_computed a f st).
Proof. unfold upd_computed. repeat case_match; try apply R_refl; apply R_heap. Qed.

Context (h : handler) (Hh : kept R h).

Lemma call_scheduler_kept (e : eid) (st : state) (r : outcome unit) :
  call_scheduler code h e st = Some r → post (R st) r.
Proof.
  unfold call_scheduler. intros Hr.
  destruct (computed (eff st e)) as [c|].
  - inversion Hr; subst. eapply post_pre; [apply R_record|apply Hh].
  - destruct (scheduler code e) as [p|]; [|done]. inversion Hr; subst.
    eapply post_pre; [apply R_record|by apply interp_kept].
Qed.

Lemma triggerEffects_kept (l : list eid) (st : state) :
  post (R st) (triggerEffects code h l st).
Proof.
  revert st. induction l as [|e l IH]; intros st; simpl.
  - apply R_refl.
  - destruct (negb _ || _); [|apply IH].
    destruct (call_scheduler code h e st) as [r|] eqn:Hs.
    + apply post_bind; [by eapply call_scheduler_kept|]. intros _ st'. apply IH.
    + apply post_bind; [by apply R_run|]. intros _ st'. apply IH.
Qed.

Lemma trigger_kept (target : addr) (type : TriggerOpTypes) (key : option pkey)
    (newValue : value) (st : state) :
  post (R st) (trigger code h target type key newValue st).
Proof.
  unfold trigger.
  eapply (post_pre st (record (EvTrigger target type key) st)); [apply R_record|].
  destruct (targetMap _ !! target) as [depsMap|]; [|apply R_refl].
  destruct (affected _ target type key newValue depsMap) as [ds|x|]; [|apply R_refl|done].
  destruct ds as [|[d|] [|d' ds']];
    try apply triggerEffects_kept; apply R_refl.
Qed.

Lemma triggerRefValue_kept (ref : addr) (st : state) :
  post (R st) (triggerRefValue code h ref st).
Proof.
  unfold triggerRefValue. destruct (ref_dep st ref);
    [apply triggerEffects_kept|apply R_refl].
Qed.

Lemma RefImpl_set_value_kept (this : addr) (r : RefImpl) (v : value) (st : state) :
  post (R st) (RefImpl_set_value code h this r v st).
Proof.
  unfold RefImpl_set_value. destruct (hasChanged _ _); [|apply R_refl].
  eapply post_pre; [apply R_heap|apply triggerRefValue_kept].
Qed.

Lemma computed_scheduler_kept (this : addr) (st : state) :
  post (R st) (computed_scheduler code h this st).
Proof.
  unfold computed_scheduler.
  destruct (heap st !! this) as [[| | | |c]|]; try done.
  destruct (negb (c_dirty c)); [|apply R_refl].
  eapply post_pre; [apply R_upd_computed|apply triggerRefValue_kept].
Qed.

Lemma ComputedRefImpl_get_value_kept (self : addr) (st : state) :
  post (R st) (ComputedRefImpl_get_value code h self st).
Proof.
  unfold ComputedRefImpl_get_value.
  eapply post_pre; [apply (R_trackRefValue self)|].
  destruct (heap _ !! self) as [[| | | |c]|]; try done.
  destruct (c_dirty c || negb (c_cacheable c)); [|apply R_refl].
  eapply post_pre; [apply R_upd_computed|].
  apply post_bind; [by apply R_run|].
  intros v st'. apply R_upd_computed.
Qed.

Lemma createGetter_kept (isReadonly_ shallow : bool) (target : addr) (key : pkey)
    (receiver : value) (st : state) :
  post (R st) (createGetter h isReadonly_ shallow target key receiver st).
Proof.
  unfold createGetter.
  do 4 (destruct (_ : bool); [apply R_refl|]).
  match goal with |- post _ (match ?x with _ => _ end) => destruct x end;
    [apply R_refl|].
  destruct (if isSymbol key then _ else _); [apply R_refl|].
  set (st1 := if negb isReadonly_ then track target GET key st else st).
  assert (H1 : R st st1).
  { unfold st1. destruct (negb isReadonly_); [apply R_track|apply R_refl]. }
  eapply post_pre; [exact H1|].
  destruct shallow; [apply R_refl|].
  destruct (isRef st1 _).
  - destruct (_ || _); [apply Hh|apply R_refl].
  - destruct (isObject _); [|apply R_refl].
    destruct isReadonly_; [|apply R_refl].
    destruct (readonly _); [apply R_refl|done].
Qed.

Lemma createSetter_kept (shallow : bool) (target : addr) (key : pkey) (v : value)
    (receiver : value) (st : state) :
  post (R st) (createSetter code h shallow target key v receiver st).
Proof.
  unfold createSetter.
  destruct (_ && _ && negb (isRef st v)); [apply R_refl|].
  destruct (_ && _ && _ && _).
  { apply post_bind; [apply Hh|]. intros _ st'. apply R_refl. }
  apply post_bind; [apply R_Reflect_set|]. intros result st1.
  case_bool_decide; [|apply R_refl].
  destruct (negb _).
  - apply post_bind; [apply trigger_kept|]. intros. apply R_refl.
  - destruct (hasChanged _ _); [|apply R_refl].
    apply post_bind; [apply trigger_kept|]. intros. apply R_refl.
Qed.

Lemma deleteProperty_kept (target : addr) (key : pkey) (st : state) :
  post (R st) (deleteProperty code h target key st).
Proof.
  unfold deleteProperty.
  pose proof (R_raw_delete target key st) as Hd.
  destruct (raw_delete target key st) as [result st1]. simpl in Hd.
  destruct (result && _); [|exact Hd].
  eapply post_pre; [exact Hd|].
  apply post_bind; [apply trigger_kept|]. intros. apply R_refl.
Qed.

Lemma op_get_kept (o : value) (k : pkey) (st : state) :
  post (R st) (op_get code h o k st).
Proof.
  unfold op_get. destruct o; try done; try apply R_refl.
  - destruct (heap st !! a) as [[| | |r|c]|]; try done; try apply R_refl.
    + repeat case_match; try done; try apply R_refl. apply R_trackRefValue.
    + repeat case_match; try done; try apply R_refl.
      all: try apply ComputedRefImpl_get_value_kept.
  - destruct (is_base_target st a); [apply createGetter_kept|done].
Qed.

Lemma step_kept : kept R (step code h).
Proof.
  intros X op st. destruct op; simpl.
  - apply op_get_kept.
  - unfold op_set. destruct o; try done.
    + destruct (heap st !! a) as [[| | |r|c]|]; try done; try apply R_OrdinarySet.
      * case_bool_decide; [|done].
        apply post_bind; [apply RefImpl_set_value_kept|]. intros. apply R_refl.
      * case_bool_decide; [|done].
        apply post_bind; [by apply interp_kept|]. intros. apply R_refl.
    + destruct (is_base_target st a); [|done].
      destruct (kind_isReadonly k0); [apply R_refl|apply createSetter_kept].
  - unfold op_delete. destruct o; try done.
    + destruct (is_base_target st a); [|done].
      pose proof (R_raw_delete a k st) as Hd.
      by destruct (raw_delete a k st).
    + destruct (is_base_target st a); [|done].
      unfold proxy_delete. apply post_bind.
      * destruct (kind_isReadonly k0); [apply R_refl|apply deleteProperty_kept].
      * intros result st1. destruct (_ && _ && _); apply R_refl.
  - unfold op_has, has_. destruct o; try done.
    + destruct (is_base_target st a); [|done].
      destruct (Reflect_has st a k); [apply R_refl|done].
    + destruct (is_base_target st a); [|done].
      destruct (Reflect_has st a k); [|by destruct (kind_isReadonly k0)].
      destruct (kind_isReadonly k0); [apply R_refl|].
      destruct (_ || _); [apply R_track|apply R_refl].
  - unfold op_ownKeys, ownKeys. destruct o; try done.
    destruct (is_base_target st a); [|done].
    destruct (kind_isReadonly k); [apply R_refl|apply R_track].
  - unfold op_callMethod. apply post_bind; [apply op_get_kept|].
    intros f st1. repeat case_match; try done; try apply R_refl;
      by apply interp_kept.
  - by apply R_run.
  - by apply R_stop.
  - apply R_pause.
  - apply R_enable.
  - apply R_reset.
  - unfold createRef. destruct (isRef st v); simpl; [apply R_refl|].
    eapply R_trans; [apply R_heap|apply R_nextObj].
  - apply computed_scheduler_kept.
Qed.

End kept_library.

Lemma sem_kept (code : program) (R : state → state → Prop) :
  (∀ st, R st st) →
  (∀ st1 st2 st3, R st1 st2 → R st2 st3 → R st1 st3) →
  (∀ ev st, R st (record ev st)) →
  (∀ target type key st, R st (track target type key st)) →
  (∀ ref st, R st (trackRefValue ref st)) →
  (∀ f st, R st (upd_heap f st)) →
  (∀ n st, R st (set_nextObj n st)) →
  (∀ st, R st (pauseTracking st)) →
  (∀ st, R st (enableTracking st)) →
  (∀ st, R st (resetTracking st)) →
  (∀ h, kept R h → ∀ e st, post (R st) (run code h e st)) →
  (∀ h, kept R h → ∀ e st, post (R st) (stop code h e st)) →
  ∀ fuel, kept R (sem code fuel).
Proof.
  intros H1 H2 H3 H4 H5 H6 H7 H8 H9 H10 H11 H12 fuel.
  induction fuel as [|fuel IH]; intros X op st; simpl; [done|].
  by apply step_kept.
Qed.

(** ** The depth of running effects *)

Lemma same_depth_refl (st : state) : same_depth st st.
Proof. by split. Qed.

Lemma same_depth_trans (st1 st2 st3 : state) :
  same_depth st1 st2 → same_depth st2 st3 → same_depth st1 st3.
Proof. intros [H1 H1'] [H2 H2']. split; [congruence|auto]. Qed.

Lemma same_depth_fields (st st' : state) :
  effectTrackDepth st' = effectTrackDepth st →
  trackOpBit st' = trackOpBit st →
  same_depth st st'.
Proof. intros Hd Hb. split; [done|]. unfold bit_of_depth. by rewrite Hd, Hb. Qed.

Lemma quiet_same_depth (st st' : state) : quiet st st' → same_depth st st'.
Proof. intros (_ & _ & _ & Hd & Hb & _). by apply same_depth_fields. Qed.

Lemma run_enter_depth (e : eid) (st : state) :
  effectTrackDepth (run_enter e st) = effectTrackDepth st + 1 ∧
  bit_of_depth (run_enter e st).
Proof.
  unfold run_enter.
  set (st3 := set_trackOpBit _ _).
  assert (Hq : quiet st3 (if effectTrackDepth st3 <=? maxMarkerBits
                          then initDepMarkers e st3 else cleanupEffect e st3)).
  { destruct (_ <=? _); [apply quiet_initDepMarkers|apply quiet_cleanupEffect]. }
  destruct Hq as (_ & _ & _ & Hd & Hb & _).
  unfold bit_of_depth. rewrite Hd, Hb. by split.
Qed.

Lemma run_exit_depth (e : eid) (last : bool) (st : state) :
  effectTrackDepth (run_exit e last st) = effectTrackDepth st - 1 ∧
  bit_of_depth (run_exit e last st).
Proof.
  unfold run_exit.
  set (st1 := if effectTrackDepth st <=? maxMarkerBits then finalizeDepMarkers e st else st).
  assert (Hq : quiet st st1).
  { unfold st1. destruct (_ <=? _); [apply quiet_finalizeDepMarkers|apply quiet_refl]. }
  destruct Hq as (_ & _ & _ & Hd & _).
  unfold bit_of_depth. simpl. by rewrite Hd.
Qed.

Lemma run_same_depth (code : program) (h : handler) (e : eid) (st : state) :
  kept same_depth h → post (same_depth st) (run code h e st).
Proof.
  intros Hh. unfold run.
  set (st_r := record (EvRun e) st).
  assert (Hr : same_depth st st_r) by (by apply same_depth_fields).
  eapply (post_pre same_depth same_depth_trans); [exact Hr|].
  destruct (negb (active (eff st_r e))).
  { unfold call_fn.
    eapply (post_pre same_depth same_depth_trans);
      [|apply (interp_kept same_depth same_depth_refl same_depth_trans); exact Hh].
    by apply same_depth_fields. }
  destruct (chain_has _ st_r (activeEffect st_r) e) as [[|]|];
    [apply same_depth_refl| |done].
  unfold call_fn.
  destruct (run_enter_depth e st_r) as [Hd Hb].
  pose proof (interp_kept same_depth same_depth_refl same_depth_trans h (fn code e)
                (record (EvFn e) (run_enter e st_r)) Hh) as Hpost.
  destruct (interp h (fn code e) (record (EvFn e) (run_enter e st_r))) as [v st2|x st2|];
    [| |done]; simpl in Hpost;
    change (same_depth st_r (run_exit e (shouldTrack st_r) st2)).
  all: destruct Hpost as [Hd2 _];
    destruct (run_exit_depth e (shouldTrack st_r) st2) as [Hd3 Hb3];
    split; [|done];
    rewrite Hd3, Hd2;
    change (effectTrackDepth (record (EvFn e) (run_enter e st_r)))
      with (effectTrackDepth (run_enter e st_r));
    rewrite Hd; lia.
Qed.

Lemma stop_same_depth (code : program) (h : handler) (e : eid) (st : state) :
  kept same_depth h → post (same_depth st) (stop code h e st).
Proof.
  intros Hh. unfold stop. destruct (active (eff st e)); [|apply same_depth_refl].
  eapply (post_pre same_depth same_depth_trans);
    [apply quiet_same_depth, quiet_cleanupEffect|].
  apply (post_bind same_depth same_depth_trans).
  - destruct (onStop code e);
      [by apply (interp_kept same_depth same_depth_refl same_depth_trans)
      |apply same_depth_refl].
  - intros _ st'. by apply same_depth_fields.
Qed.

(** Every operation of the library, when it returns and when it throws,
    leaves [effectTrackDepth] as it found it, and [trackOpBit] equal to
    [1 << effectTrackDepth] if it was: a run that ends, however it ends,
    undoes its own increment of the depth. *)
Theorem operations_keep_depth (code : program) (fuel : nat)
    (X : Type) (op : operation X) (st : state) :
  post (fun st' =>
          effectTrackDepth st' = effectTrackDepth st ∧
          (trackOpBit st = js_shl 1 (effectTrackDepth st) →
           trackOpBit st' = js_shl 1 (effectTrackDepth st')))
    (sem code fuel X op st).
Proof.
  apply (sem_kept code same_depth).
  - apply same_depth_refl.
  - apply same_depth_trans.
  - intros. by apply same_depth_fields.
  - intros. apply quiet_same_depth, quiet_track.
  - intros. apply quiet_same_depth, quiet_trackRefValue.
  - intros. by apply same_depth_fields.
  - intros. by apply same_depth_fields.
  - intros. by apply same_depth_fields.
  - intros. by apply same_depth_fields.
  - intros. unfold resetTracking. case_match; by apply same_depth_fields.
  - intros. by apply run_same_depth.
  - intros. by apply stop_same_depth.
Qed.

(** ** Stopped effects stay stopped *)

Lemma stays_stopped_refl (st : state) : stays_stopped st st.
Proof. by intros e. Qed.

Lemma stays_stopped_trans (st1 st2 st3 : state) :
  stays_stopped st1 st2 → stays_stopped st2 st3 → stays_stopped st1 st3.
Proof. intros H1 H2 e He. by apply H2, H1. Qed.

Lemma stays_stopped_same (st st' : state) :
  (∀ e, active (eff st' e) = active (eff st e)) → stays_stopped st st'.
Proof. intros H e He. by rewrite H. Qed.

Lemma quiet_stays_stopped (st st' : state) : quiet st st' → stays_stopped st st'.
Proof.
  intros (_ & _ & _ & _ & _ & _ & _ & Hx). apply stays_stopped_same.
  intros e. by destruct (Hx e) as (_ & ? & _).
Qed.

Lemma run_exit_active (e : eid) (last : bool) (st : state) (x : eid) :
  active (eff (run_exit e last st) x) = active (eff st x).
Proof.
  unfold run_exit.
  set (st1 := if effectTrackDepth st <=? maxMarkerBits then finalizeDepMarkers e st else st).
  assert (Hq : quiet st st1).
  { unfold st1. destruct (_ <=? _); [apply quiet_finalizeDepMarkers|apply quiet_refl]. }
  destruct Hq as (_ & _ & _ & _ & _ & _ & _ & Hx).
  rewrite eff_upd_eff.
  change (eff (set_shouldTrack last _) ?y) with (eff st1 y).
  destruct (Hx x) as (_ & <- & _). by case_decide; subst.
Qed.

Lemma run_stays_stopped (code : program) (h : handler) (e : eid) (st : state) :
  kept stays_stopped h → post (stays_stopped st) (run code h e st).
Proof.
  intros Hh. unfold run.
  set (st_r := record (EvRun e) st).
  assert (Hr : stays_stopped st st_r) by (by apply stays_stopped_same).
  eapply (post_pre stays_stopped stays_stopped_trans); [exact Hr|].
  destruct (negb (active (eff st_r e))).
  { unfold call_fn.
    eapply (post_pre stays_stopped stays_stopped_trans);
      [|apply (interp_kept stays_stopped stays_stopped_refl stays_stopped_trans); exact Hh].
    by apply stays_stopped_same. }
  destruct (chain_has _ st_r (activeEffect st_r) e) as [[|]|];
    [apply stays_stopped_refl| |done].
  unfold call_fn.
  assert (He : stays_stopped st_r (record (EvFn e) (run_enter e st_r))).
  { apply stays_stopped_same. intros x.
    destruct (run_enter_ctx e st_r) as (_ & _ & _ & Hact & _). exact (Hact x). }
  pose proof (interp_kept stays_stopped stays_stopped_refl stays_stopped_trans h (fn code e)
                (record (EvFn e) (run_enter e st_r)) Hh) as Hpost.
  destruct (interp h (fn code e) (record (EvFn e) (run_enter e st_r))) as [v st2|x st2|];
    [| |done]; simpl in Hpost;
    change (stays_stopped st_r (run_exit e (shouldTrack st_r) st2)).
  all: eapply stays_stopped_trans; [exact He|];
    eapply stays_stopped_trans; [exact Hpost|];
    apply stays_stopped_same; intros y; apply run_exit_active.
Qed.

Lemma stop_stays_stopped (code : program) (h : handler) (e : eid) (st : state) :
  kept stays_stopped h → post (stays_stopped st) (stop code h e st).
Proof.
  intros Hh. unfold stop. destruct (active (eff st e)); [|apply stays_stopped_refl].
  eapply (post_pre stays_stopped stays_stopped_trans);
    [apply quiet_stays_stopped, quiet_cleanupEffect|].
  apply (post_bind stays_stopped stays_stopped_trans).
  - destruct (onStop code e);
      [by apply (interp_kept stays_stopped stays_stopped_refl stays_stopped_trans)
      |apply stays_stopped_refl].
  - intros _ st' x Hx. rewrite eff_upd_eff. by case_decide; subst.
Qed.

(** No operation of the library makes a stopped effect active again:
    whatever user code runs, and whether the operation returns or throws, an
    effect that was stopped before is stopped after. *)
Theorem stopped_effect_stays_stopped (code : program) (fuel : nat)
    (X : Type) (op : operation X) (st : state) (e : eid) :
  active (eff st e) = false →
  post (fun st' => active (eff st' e) = false) (sem code fuel X op st).
Proof.
  intros He.
  assert (Hk : kept stays_stopped (sem code fuel)).
  { apply (sem_kept code stays_stopped).
    - apply stays_stopped_refl.
    - apply stays_stopped_trans.
    - intros. by apply stays_stopped_same.
    - intros. apply quiet_stays_stopped, quiet_track.
    - intros. apply quiet_stays_stopped, quiet_trackRefValue.
    - intros. by apply stays_stopped_same.
    - intros. by apply stays_stopped_same.
    - intros. by apply stays_stopped_same.
    - intros. by apply stays_stopped_same.
    - intros. unfold resetTracking. case_match; by apply stays_stopped_same.
    - intros. by apply run_stays_stopped.
    - intros. by apply stop_stays_stopped. }
  eapply post_weaken; [|apply Hk]. intros st' Hs. by apply Hs.
Qed.

Lemma stopped_effect_stays_stopped_witness :
  ∃ st', sem code_pause_throw 3 _ (OpRun 0%nat) st_stopped = Raised (VStr "boom") st' ∧
         active (eff st' 0%nat) = false.
Proof.
  assert (E : ∃ st', sem code_pause_throw 3 _ (OpRun 0%nat) st_stopped
                     = Raised (VStr "boom") st') by (eexists; vm_compute; reflexivity).
  destruct E as [st' E]. exists st'. split; [exact E|].
  pose proof (stopped_effect_stays_stopped code_pause_throw 3 _ (OpRun 0%nat) st_stopped
                0%nat eq_refl) as H.
  rewrite E in H. exact H.
Defined.

(** ** A stopped effect that is not running is not subscribed again *)

Lemma post_and {A : Type} (P Q : state → Prop) (m : outcome A) :
  post P m → post Q m → post (fun s => P s ∧ Q s) m.
Proof. destruct m; simpl; auto. Qed.

Lemma stays_unsubscribed_refl (e : eid) (st : state) : stays_unsubscribed e st st.
Proof. split; [apply frame_refl|done]. Qed.

Lemma stays_unsubscribed_trans (e : eid) (st1 st2 st3 : state) :
  stays_unsubscribed e st1 st2 → stays_unsubscribed e st2 st3 → stays_unsubscribed e st1 st3.
Proof.
  intros [Hf1 H1] [Hf2 H2]. split; [by eapply frame_trans|].
  intros Hk. destruct (H1 Hk) as [Hk2 Hd2]. destruct (H2 Hk2) as [Hk3 Hd3].
  split; [done|congruence].
Qed.

(** A step that keeps the flags of the effects, adds to the cells no
    effect but the active one, and changes the [deps] of no effect but the
    active one. *)
Lemma stays_unsubscribed_step (e : eid) (st st' : state) :
  frame st st' →
  (∀ x, active (eff st' x) = active (eff st x)) →
  (∀ d, e ∈ dep_set (dep st' d) → e ∈ dep_set (dep st d) ∨ activeEffect st = Some e) →
  (activeEffect st ≠ Some e → deps (eff st' e) = deps (eff st e)) →
  stays_unsubscribed e st st'.
Proof.
  intros Hf Hact Hmem Hdeps. split; [done|].
  intros (Ha & Hne & Hno). split; [|by apply Hdeps].
  split; [by rewrite Hact|]. split; [by destruct Hf as [-> _]|].
  intros d Hd. destruct (Hmem d Hd) as [Hin|Heq]; [by apply (Hno d)|done].
Qed.

Lemma members_trackEffects (e' : eid) (d d0 : did) (x : eid) (st : state) :
  x ∈ dep_set (dep (trackEffects e' d st) d0) → x ∈ dep_set (dep st d0) ∨ x = e'.
Proof.
  unfold trackEffects. destruct (effectTrackDepth st <=? maxMarkerBits).
  - destruct (negb (newTracked st d)); [|by left].
    destruct (negb (wasTracked st d)).
    + rewrite dep_upd_eff, !dep_upd_dep. case_decide; subst; simpl; [|by left].
      rewrite decide_True by done. simpl. rewrite elem_of_set_add. tauto.
    + rewrite dep_upd_dep. case_decide; subst; by left.
  - destruct (negb (set_has e' (dep_set (dep st d)))); [|by left].
    rewrite dep_upd_eff, dep_upd_dep. case_decide; subst; simpl; [|by left].
    rewrite elem_of_set_add. tauto.
Qed.

Lemma deps_trackEffects (e' : eid) (d : did) (x : eid) (st : state) :
  x ≠ e' → deps (eff (trackEffects e' d st) x) = deps (eff st x).
Proof.
  intros Hne. unfold trackEffects. destruct (effectTrackDepth st <=? maxMarkerBits).
  - destruct (negb (newTracked st d)); [|done].
    destruct (negb (wasTracked st d)); [|done].
    by rewrite eff_upd_eff, decide_False.
  - destruct (negb (set_has e' (dep_set (dep st d)))); [|done].
    by rewrite eff_upd_eff, decide_False.
Qed.

Lemma members_alloc_dep (st : state) (d0 : did) (x : eid) :
  x ∈ dep_set (dep (alloc_dep st).2 d0) → x ∈ dep_set (dep st d0).
Proof.
  unfold alloc_dep, dep. simpl.
  destruct (decide (d0 = nextDep st)) as [->|Hne].
  - rewrite lookup_insert_eq. simpl. by intros ?%elem_of_nil.
  - by rewrite lookup_insert_ne.
Qed.

Lemma stays_unsubscribed_track (e : eid) (target : addr) (type : TrackOpTypes) (key : pkey)
    (st : state) :
  stays_unsubscribed e st (track target type key st).
Proof.
  apply stays_unsubscribed_step.
  - apply quiet_frame, quiet_track.
  - intros x. by destruct (quiet_track target type key st) as (_&_&_&_&_&_&_&Hx);
      destruct (Hx x) as (_ & ? & _).
  - intros d. unfold track. destruct (activeEffect st) as [e'|]; [|by left].
    destruct (shouldTrack st); [|by left].
    destruct (map_get _ key) as [d1|].
    + intros [?| ->]%members_trackEffects; [by left|by right].
    + simpl. intros [Hin| ->]%members_trackEffects; [|by right].
      left. by apply (members_alloc_dep st).
  - intros Hne. unfold track. destruct (activeEffect st) as [e'|]; [|done].
    destruct (shouldTrack st); [|done].
    assert (e ≠ e') by congruence.
    destruct (map_get _ key) as [d1|]; simpl; by rewrite deps_trackEffects.
Qed.

Lemma dep_set_ref_dep (ref : addr) (d : did) (st : state) (d0 : did) :
  dep (set_ref_dep ref d st) d0 = dep st d0.
Proof. unfold set_ref_dep, upd_computed, upd_ref. by repeat case_match. Qed.

Lemma eff_set_ref_dep (ref : addr) (d : did) (st : state) (x : eid) :
  eff (set_ref_dep ref d st) x = eff st x.
Proof. unfold set_ref_dep, upd_computed, upd_ref. by repeat case_match. Qed.

Lemma stays_unsubscribed_trackRefValue (e : eid) (ref : addr) (st : state) :
  stays_unsubscribed e st (trackRefValue ref st).
Proof.
  apply stays_unsubscribed_step.
  - apply quiet_frame, quiet_trackRefValue.
  - intros x. by destruct (quiet_trackRefValue ref st) as (_&_&_&_&_&_&_&Hx);
      destruct (Hx x) as (_ & ? & _).
  - intros d. unfold trackRefValue. destruct (activeEffect st) as [e'|]; [|by left].
    destruct (shouldTrack st); [|by left].
    assert (Hgo : e ∈ dep_set (dep
               match ref_dep st ref with
               | Some d1 => trackEffects e' d1 st
               | None => let '(d1, st1) := alloc_dep st in
                         trackEffects e' d1 (set_ref_dep ref d1 st1)
               end d) → e ∈ dep_set (dep st d) ∨ Some e' = Some e).
    { destruct (ref_dep st ref) as [d1|].
      - intros [?| ->]%members_trackEffects; [by left|by right].
      - simpl. intros [Hin| ->]%members_trackEffects; [|by right].
        left. rewrite dep_set_ref_dep in Hin. by apply (members_alloc_dep st). }
    destruct (heap st !! ref) as [[| | | |]|]; try (by left); exact Hgo.
  - intros Hne. unfold trackRefValue. destruct (activeEffect st) as [e'|]; [|done].
    destruct (shouldTrack st); [|done].
    assert (e ≠ e') by congruence.
    assert (Hgo : deps (eff
               match ref_dep st ref with
               | Some d1 => trackEffects e' d1 st
               | None => let '(d1, st1) := alloc_dep st in
                         trackEffects e' d1 (set_ref_dep ref d1 st1)
               end e) = deps (eff st e)).
    { destruct (ref_dep st ref) as [d1|]; simpl; rewrite deps_trackEffects by done;
        [done|by rewrite eff_set_ref_dep]. }
    destruct (heap st !! ref) as [[| | | |]|]; try done; exact Hgo.
Qed.

Lemma stays_unsubscribed_same (e : eid) (st st' : state) :
  activeEffect st' = activeEffect st →
  (∀ x, eff st' x = eff st x) →
  (∀ d, dep st' d = dep st d) →
  stays_unsubscribed e st st'.
Proof.
  intros Ha He Hd. apply stays_unsubscribed_step.
  - apply frame_same; [done|]. intros x. by rewrite He.
  - intros x. by rewrite He.
  - intros d. rewrite Hd. by left.
  - intros _. by rewrite He.
Qed.

Lemma members_cleanupEffect (e' : eid) (st : state) (d : did) (x : eid) :
  x ∈ dep_set (dep (cleanupEffect e' st) d) → x ∈ dep_set (dep st d).
Proof.
  unfold cleanupEffect. destruct (deps (eff st e')) as [|d0 ds]; [done|].
  rewrite dep_upd_eff, cleanup_fold_members. tauto.
Qed.

Lemma eff_cleanupEffect (e' : eid) (st : state) (x : eid) :
  x ≠ e' → eff (cleanupEffect e' st) x = eff st x.
Proof.
  intros Hne. unfold cleanupEffect. destruct (deps (eff st e')) as [|d0 ds]; [done|].
  rewrite eff_upd_eff, decide_False by done.
  apply (eff_foldl_upd_dep (fun _ y => set_dep_set (set_delete e' (dep_set y)) y)).
Qed.

Lemma initDepMarkers_fold (ds : list did) (st : state) :
  let st' := foldl (fun s d => upd_dep d (fun x => set_dep_w (Z.lor (dep_w x) (trackOpBit s)) x) s)
               st ds in
  (∀ x, eff st' x = eff st x) ∧ (∀ d, dep_set (dep st' d) = dep_set (dep st d)).
Proof.
  revert st. induction ds as [|d0 ds IH]; intros st; simpl; [done|].
  destruct (IH (upd_dep d0 (fun x => set_dep_w (Z.lor (dep_w x) (trackOpBit st)) x) st))
    as [He Hd].
  split.
  - intros x. by rewrite He.
  - intros d. rewrite Hd, dep_upd_dep. by case_decide; subst.
Qed.

Lemma members_finalize_loop (e' : eid) (ds kept0 : list did) (st : state) (d : did) (x : eid) :
  x ∈ dep_set (dep (finalize_loop e' ds kept0 st).2 d) → x ∈ dep_set (dep st d).
Proof.
  revert kept0 st. induction ds as [|d0 ds IH]; intros kept0 st; simpl; [done|].
  intros Hx%IH. rewrite dep_upd_dep in Hx.
  destruct (wasTracked st d0 && negb (newTracked st d0)).
  - case_decide; subst; simpl in Hx.
    + rewrite dep_upd_dep, decide_True in Hx by done. simpl in Hx.
      apply elem_of_set_delete in Hx. tauto.
    + rewrite dep_upd_dep, decide_False in Hx by done. done.
  - case_decide; subst; done.
Qed.

Lemma eff_finalize_loop (e' : eid) (ds kept0 : list did) (st : state) (x : eid) :
  eff (finalize_loop e' ds kept0 st).2 x = eff st x.
Proof.
  revert kept0 st. induction ds as [|d0 ds IH]; intros kept0 st; simpl; [done|].
  rewrite IH. by destruct (wasTracked st d0 && negb (newTracked st d0)).
Qed.

Lemma members_finalizeDepMarkers (e' : eid) (st : state) (d : did) (x : eid) :
  x ∈ dep_set (dep (finalizeDepMarkers e' st) d) → x ∈ dep_set (dep st d).
Proof.
  unfold finalizeDepMarkers. destruct (deps (eff st e')) as [|d0 ds]; [done|].
  pose proof (members_finalize_loop e' (d0 :: ds) [] st d x) as Hm.
  destruct (finalize_loop e' (d0 :: ds) [] st) as [kept0 st'].
  by rewrite dep_upd_eff.
Qed.

Lemma eff_finalizeDepMarkers (e' : eid) (st : state) (x : eid) :
  x ≠ e' → eff (finalizeDepMarkers e' st) x = eff st x.
Proof.
  intros Hne. unfold finalizeDepMarkers. destruct (deps (eff st e')) as [|d0 ds]; [done|].
  pose proof (eff_finalize_loop e' (d0 :: ds) [] st x) as Hm.
  destruct (finalize_loop e' (d0 :: ds) [] st) as [kept0 st'].
  by rewrite eff_upd_eff, decide_False.
Qed.

Lemma run_enter_graph (e' : eid) (st : state) :
  (∀ d x, x ∈ dep_set (dep (run_enter e' st) d) → x ∈ dep_set (dep st d)) ∧
  (∀ x, x ≠ e' → deps (eff (run_enter e' st) x) = deps (eff st x)).
Proof.
  unfold run_enter. set (st3 := set_trackOpBit _ _).
  assert (H3 : (∀ d, dep st3 d = dep st d) ∧
               (∀ x, x ≠ e' → eff st3 x = eff st x)).
  { split; [done|]. intros x Hne. unfold st3.
    change (eff (upd_eff e' (set_parent (activeEffect st)) st) x = eff st x).
    by rewrite eff_upd_eff, decide_False. }
  destruct H3 as [Hd3 He3].
  destruct (effectTrackDepth st3 <=? maxMarkerBits).
  - destruct (initDepMarkers_fold (deps (eff st3 e')) st3) as [He Hd].
    unfold initDepMarkers. split.
    + intros d x. by rewrite Hd, Hd3.
    + intros x Hne. by rewrite He, He3.
  - split.
    + intros d x Hx%members_cleanupEffect. by rewrite <- Hd3.
    + intros x Hne. by rewrite eff_cleanupEffect, He3.
Qed.

Lemma run_exit_graph (e' : eid) (last : bool) (st : state) :
  (∀ d x, x ∈ dep_set (dep (run_exit e' last st) d) → x ∈ dep_set (dep st d)) ∧
  (∀ x, x ≠ e' → deps (eff (run_exit e' last st) x) = deps (eff st x)).
Proof.
  unfold run_exit.
  set (st1 := if effectTrackDepth st <=? maxMarkerBits then finalizeDepMarkers e' st else st).
  assert (H1 : (∀ d x, x ∈ dep_set (dep st1 d) → x ∈ dep_set (dep st d)) ∧
               (∀ x, x ≠ e' → eff st1 x = eff st x)).
  { unfold st1. destruct (_ <=? _); [|done]. split.
    - intros d x. apply members_finalizeDepMarkers.
    - intros x. apply eff_finalizeDepMarkers. }
  destruct H1 as [Hm He]. split.
  - intros d x. rewrite dep_upd_eff. apply Hm.
  - intros x Hne. rewrite eff_upd_eff, decide_False by done.
    change (deps (eff st1 x) = deps (eff st x)). by rewrite He.
Qed.

Lemma kept_framed (e : eid) (h : handler) : kept (stays_unsubscribed e) h → framed h.
Proof. intros Hh X op st. eapply post_weaken; [|apply Hh]. by intros st' [? _]. Qed.

Lemma run_stays_unsubscribed (code : program) (e : eid) (h : handler) (e' : eid) (st : state) :
  kept (stays_unsubscribed e) h → post (stays_unsubscribed e st) (run code h e' st).
Proof.
  intros Hh.
  pose proof (run_framed code h e' st (kept_framed e h Hh)) as Hf.
  assert (HQ : post (fun st' => unsubscribed e st →
                       active (eff st' e) = false ∧
                       (∀ d, e ∉ dep_set (dep st' d)) ∧
                       deps (eff st' e) = deps (eff st e))
                 (run code h e' st)).
  { unfold run. set (st_r := record (EvRun e') st).
    destruct (negb (active (eff st_r e'))) eqn:Hact.
    { unfold call_fn.
      pose proof (interp_kept (stays_unsubscribed e) (stays_unsubscribed_refl e)
                    (stays_unsubscribed_trans e) h (fn code e') (record (EvFn e') st_r) Hh)
        as Hpost.
      eapply post_weaken; [|exact Hpost]. intros st' [_ Hk] Hu.
      destruct Hk as [(Ha & _ & Hno) Hd]; [exact Hu|]. by split. }
    destruct (chain_has _ st_r (activeEffect st_r) e') as [[|]|]; [| |done].
    { intros (Ha & _ & Hno). by split. }
    apply negb_false_iff in Hact.
    unfold call_fn.
    pose proof (interp_kept (stays_unsubscribed e) (stays_unsubscribed_refl e)
                  (stays_unsubscribed_trans e) h (fn code e')
                  (record (EvFn e') (run_enter e' st_r)) Hh) as Hpost.
    assert (Hgo : ∀ st2, stays_unsubscribed e (record (EvFn e') (run_enter e' st_r)) st2 →
              unsubscribed e st →
              active (eff (run_exit e' (shouldTrack st_r) st2) e) = false ∧
              (∀ d, e ∉ dep_set (dep (run_exit e' (shouldTrack st_r) st2) d)) ∧
              deps (eff (run_exit e' (shouldTrack st_r) st2) e) = deps (eff st e)).
    { intros st2 [_ Hk] (Ha & Hne & Hno).
      assert (Hee : e ≠ e').
      { intros ->. change (active (eff st e') = true) in Hact. congruence. }
      destruct (run_enter_ctx e' st_r) as (Hae & _ & _ & Hacte & _).
      destruct (run_enter_graph e' st_r) as [Hme Hde].
      destruct Hk as [(Ha2 & _ & Hno2) Hd2].
      { split; [|split].
        - change (active (eff (run_enter e' st_r) e) = false). by rewrite Hacte.
        - change (activeEffect (run_enter e' st_r) ≠ Some e). rewrite Hae. congruence.
        - intros d Hd. apply (Hno d). by apply (Hme d e). }
      destruct (run_exit_graph e' (shouldTrack st_r) st2) as [Hmx Hdx].
      split; [by rewrite run_exit_active|]. split.
      - intros d Hd. apply (Hno2 d). by apply Hmx.
      - rewrite Hdx, Hd2 by done.
        change (deps (eff (run_enter e' st_r) e) = deps (eff st e)). by rewrite Hde. }
    destruct (interp h (fn code e') (record (EvFn e') (run_enter e' st_r))) as [v st2|x st2|];
      [| |done]; simpl in Hpost; intros Hu; by apply (Hgo st2). }
  pose proof (post_and _ _ _ Hf HQ) as Hall.
  eapply post_weaken; [|exact Hall].
  intros st' [Hfr Hq]. split; [exact Hfr|].
  intros Hu. destruct (Hq Hu) as (Ha & Hno & Hd).
  split; [|exact Hd]. split; [exact Ha|]. split; [|exact Hno].
  destruct Hfr as [-> _]. by destruct Hu as (_ & ? & _).
Qed.

Lemma stop_stays_unsubscribed (code : program) (e : eid) (h : handler) (e' : eid) (st : state) :
  kept (stays_unsubscribed e) h → post (stays_unsubscribed e st) (stop code h e' st).
Proof.
  intros Hh. unfold stop. destruct (active (eff st e')) eqn:Hact;
    [|apply stays_unsubscribed_refl].
  eapply (post_pre (stays_unsubscribed e) (stays_unsubscribed_trans e) st (cleanupEffect e' st)).
  { split; [apply quiet_frame, quiet_cleanupEffect|].
    intros (Ha & Hne & Hno).
    assert (Hee : e ≠ e') by (intros ->; congruence).
    destruct (quiet_cleanupEffect e' st) as (Hae & _ & _ & _ & _ & _ & _ & Hx).
    split; [|by rewrite eff_cleanupEffect].
    split; [by destruct (Hx e) as (_ & -> & _)|]. split; [by rewrite Hae|].
    intros d Hd. apply (Hno d). by apply members_cleanupEffect in Hd. }
  apply (post_bind (stays_unsubscribed e) (stays_unsubscribed_trans e)).
  - destruct (onStop code e');
      [by apply (interp_kept (stays_unsubscribed e) (stays_unsubscribed_refl e)
                   (stays_unsubscribed_trans e))
      |apply stays_unsubscribed_refl].
  - intros _ st'. split; [apply frame_upd_active|].
    intros (Ha & Hne & Hno). split; [|rewrite eff_upd_eff; by case_decide; subst].
    split; [rewrite eff_upd_eff; by case_decide; subst|]. split; [done|].
    intros d. rewrite dep_upd_eff. apply Hno.
Qed.

Lemma unsubscribed_kept (code : program) (fuel : nat)
    (A : Type) (p : prog A) (st : state) (e : eid) :
  unsubscribed e st →
  post (fun st' => unsubscribed e st' ∧ deps (eff st' e) = deps (eff st e))
    (exec code fuel p st).
Proof.
  intros Hu.
  assert (Hk : kept (stays_unsubscribed e) (sem code fuel)).
  { apply (sem_kept code (stays_unsubscribed e)).
    - apply stays_unsubscribed_refl.
    - apply stays_unsubscribed_trans.
    - intros. by apply stays_unsubscribed_same.
    - intros. apply stays_unsubscribed_track.
    - intros. apply stays_unsubscribed_trackRefValue.
    - intros. by apply stays_unsubscribed_same.
    - intros. by apply stays_unsubscribed_same.
    - intros. by apply stays_unsubscribed_same.
    - intros. by apply stays_unsubscribed_same.
    - intros. unfold resetTracking. case_match; by apply stays_unsubscribed_same.
    - intros. by apply run_stays_unsubscribed.
    - intros. by apply stop_stays_unsubscribed. }
  unfold exec.
  eapply post_weaken;
    [|apply (interp_kept (stays_unsubscribed e) (stays_unsubscribed_refl e)
               (stays_unsubscribed_trans e) (sem code fuel) p st Hk)].
  intros st' [_ H]. by apply H.
Qed.

Lemma on_chain_frame_back (st st' : state) (p : option eid) (x : eid) :
  on_chain st' p x →
  (∀ y, on_chain st p y → parent (eff st' y) = parent (eff st y)) →
  on_chain st p x.
Proof.
  induction 1 as [x|y x Hon IH]; intros Hp.
  - constructor.
  - apply on_chain_next. rewrite <- (Hp y) by constructor. apply IH.
    intros z Hz. apply Hp. apply on_chain_next. by rewrite <- (Hp y) by constructor.
Qed.

Lemma not_running_frame (e : eid) (st st' : state) :
  frame st st' →
  ¬ on_chain st (activeEffect st) e →
  ¬ on_chain st' (activeEffect st') e.
Proof.
  intros [Ha Hp] Hno Hon. apply Hno. rewrite Ha in Hon.
  by apply (on_chain_frame_back st st').
Qed.

Lemma retired_kept (code : program) (fuel : nat)
    (A : Type) (p : prog A) (st : state) (e : eid) :
  retired e st →
  post (fun st' => retired e st' ∧ deps (eff st' e) = deps (eff st e))
    (exec code fuel p st).
Proof.
  intros [Hu Hno].
  pose proof (unsubscribed_kept code fuel A p st e Hu) as H1.
  pose proof (interp_framed (sem code fuel) p st (sem_framed code fuel)) as H2.
  unfold exec in *.
  destruct (interp (sem code fuel) p st) as [v st'|x st'|]; simpl in *; [| |done].
  - destruct H1 as [Hu' Hd']. split; [|done]. split; [done|]. by apply (not_running_frame e st).
  - destruct H1 as [Hu' Hd']. split; [|done]. split; [done|]. by apply (not_running_frame e st).
Qed.

(** The return of the run of the active effect [e'] keeps another effect
    retired: the effect that becomes active is the parent of [e'], which is
    on the chain already. *)
Lemma run_exit_retired (e e' : eid) (last : bool) (st : state) :
  retired e st →
  activeEffect st = Some e' →
  retired e (run_exit e' last st) ∧
  deps (eff (run_exit e' last st) e) = deps (eff st e).
Proof.
  intros [(Ha & Hne & Hmem) Hno] Hae.
  assert (Hee : e ≠ e') by (intros ->; by rewrite Hae in Hne).
  destruct (run_exit_ctx e' last st) as (Hact & _ & Hpar & _).
  destruct (run_exit_graph e' last st) as [Hm Hd].
  assert (Hback : ∀ p x, on_chain (run_exit e' last st) p x → on_chain st p x).
  { intros p x Hon. induction Hon as [x|y x Hon IH]; [constructor|].
    apply on_chain_next. destruct (decide (y = e')) as [->|Hy].
    - assert (Hnone : parent (eff (run_exit e' last st) e') = None).
      { unfold run_exit. by rewrite eff_upd_eff, decide_True. }
      rewrite Hnone in Hon. inversion Hon.
    - rewrite <- (Hpar y Hy). exact IH. }
  assert (Hno' : ¬ on_chain (run_exit e' last st) (activeEffect (run_exit e' last st)) e).
  { rewrite Hact. intros Hon. apply Hno. rewrite Hae. apply on_chain_next. by apply Hback. }
  split; [|by apply Hd]. split; [|exact Hno'].
  split; [by rewrite run_exit_active|]. split.
  - intros Heq. apply Hno'. rewrite Heq. constructor.
  - intros d Hin. apply (Hmem d). by apply Hm.
Qed.

(** [stop()] called from outside the run of the effect (the effect is
    nowhere on the chain of running effects), on an active effect without
    [onStop] hook, in a graph whose two sides agree, is effective and
    permanent: it returns with the effect stopped, in no cell, with empty
    [deps] and not running; every program run from there, whatever it reads,
    writes, runs or stops and whether it returns or throws, leaves the
    effect so; and so does the return of the run of an enclosing effect. *)
Theorem stop_is_permanent (code : program) (fuel : nat)
    (A : Type) (p : prog A) (st : state) (e : eid) :
  active (eff st e) = true →
  onStop code e = None →
  graph_consistent st →
  ¬ on_chain st (activeEffect st) e →
  ∃ st1,
    stop code (sem code fuel) e st = Done tt st1 ∧
    retired e st1 ∧ deps (eff st1 e) = [] ∧
    post (fun st' => retired e st' ∧ deps (eff st' e) = []) (exec code fuel p st1) ∧
    (∀ st' e' last,
       retired e st' → deps (eff st' e) = [] → activeEffect st' = Some e' →
       retired e (run_exit e' last st') ∧ deps (eff (run_exit e' last st') e) = []).
Proof.
  intros Hact Hhook Hc Hno.
  destruct (stop_active_spec code (sem code fuel) e st Hact Hhook Hc)
    as (st1 & Hs & Ha1 & Hd1 & Hno1 & _).
  pose proof (stop_framed code (sem code fuel) (sem_framed code fuel) e st) as Hf.
  rewrite Hs in Hf. simpl in Hf.
  assert (Hno' : ¬ on_chain st1 (activeEffect st1) e) by (by apply (not_running_frame e st)).
  assert (Hu : retired e st1).
  { split; [|exact Hno']. split; [done|]. split; [|done].
    intros Heq. apply Hno'. rewrite Heq. constructor. }
  exists st1. split; [done|]. split; [done|]. split; [done|]. split.
  - eapply post_weaken; [|apply (retired_kept code fuel A p st1 e Hu)].
    intros st' [Hu' Hd']. split; [done|congruence].
  - intros st' e' last Hr Hd Hae.
    destruct (run_exit_retired e e' last st' Hr Hae) as [Hr' Hd'].
    split; [done|congruence].
Qed.

Lemma stop_is_permanent_witness :
  ∃ st1,
    stop code_computed (sem code_computed 3) 0%nat st_after_read = Done tt st1 ∧
    retired 0%nat st1 ∧ deps (eff st1 0%nat) = [] ∧
    post (fun st' => retired 0%nat st' ∧ deps (eff st' 0%nat) = [])
      (exec code_computed 3
         (Vis (OpSet (VObj 0%nat) (KStr "value") (VNum 7)) (fun _ => perform (OpRun 0%nat)))
         st1).
Proof.
  destruct (stop_is_permanent code_computed 3 _
              (Vis (OpSet (VObj 0%nat) (KStr "value") (VNum 7)) (fun _ => perform (OpRun 0%nat)))
              st_after_read 0%nat) as (st1 & H1 & H2 & H3 & H4 & _).
  - reflexivity.
  - reflexivity.
  - assert (Hds : depStore st_after_read = {[0%nat := mkDep [0%nat] 0 0]})
      by (vm_compute; reflexivity).
    assert (Hes : effects st_after_read
                  = {[0%nat := mkEffect true [0%nat] None None false]})
      by (vm_compute; reflexivity).
    intros e d. unfold eff, dep. rewrite Hds, Hes.
    destruct (decide (e = 0%nat)) as [->|He]; destruct (decide (d = 0%nat)) as [->|Hd];
      rewrite ?lookup_singleton_eq, ?lookup_singleton_ne by done; simpl;
      rewrite ?list_elem_of_singleton, ?elem_of_nil; split; try done; lia.
  - intros Hon. inversion Hon.
  - exists st1. split; [exact H1|]. split; [exact H2|]. split; [exact H3|exact H4].
Defined.

(** The hypothesis that the effect is not running cannot be weakened to
    its not being the active effect: the effect 0 runs the effect 1, which
    stops the effect 0 while it is the parent of the active effect; when the
    run of the effect 1 returns, the effect 0 is active again, its read of
    the ref subscribes it, and after its run the stopped effect is a
    subscriber of the ref, which a write runs again. *)
Example stop_from_nested_run_resubscribes :
  ∃ v st1 st2,
    exec code_nested_stop 4 (perform (OpRun 0%nat)) st_one_ref = Done v st1 ∧
    active (eff st1 0%nat) = false ∧
    ref_dep st1 0%nat = Some 0%nat ∧
    dep_set (dep st1 0%nat) = [0%nat] ∧
    exec code_nested_stop 4 (perform (OpSet (VObj 0%nat) (KStr "value") (VNum 5))) st1
      = Done true st2 ∧
    EvFn 0%nat ∈ drop (length (trace st1)) (trace st2).
Proof.
  eexists. eexists. eexists. split; [vm_compute; reflexivity|].
  split; [reflexivity|]. split; [reflexivity|]. split; [reflexivity|].
  split; [vm_compute; reflexivity|]. vm_compute. repeat constructor.
Qed.

(** ** An effect that is running is not entered again *)

Lemma ancestor_None (st : state) (i : nat) : ancestor st None i = None.
Proof. by destruct i. Qed.

Lemma ancestor_add (st : state) (p : option eid) (i j : nat) :
  ancestor st p (i + j) = ancestor st (ancestor st p i) j.
Proof.
  revert p. induction i as [|i IH]; intros p; simpl; [done|].
  destruct p as [x|]; [apply IH|by rewrite ancestor_None].
Qed.

Lemma on_chain_ancestor (st : state) (p : option eid) (e : eid) :
  on_chain st p e → ∃ k, ancestor st p k = Some e.
Proof.
  induction 1 as [x|y x _ [k Hk]].
  - by exists 0%nat.
  - by exists (S k).
Qed.

Lemma ancestor_search (st : state) (p : option eid) (e : eid) (k : nat) :
  (∃ i, (i < k)%nat ∧ ancestor st p i = Some e) ∨
  (∀ i, (i < k)%nat → ancestor st p i ≠ Some e).
Proof.
  induction k as [|k [(i & Hi & He)|Hno]].
  - right. intros i Hi. lia.
  - left. exists i. split; [lia|done].
  - destruct (decide (ancestor st p k = Some e)) as [He|Hne].
    + left. exists k. split; [lia|done].
    + right. intros i Hi. destruct (decide (i = k)) as [->|]; [done|]. apply Hno. lia.
Qed.

Lemma ancestor_first (st : state) (p : option eid) (e : eid) (k : nat) :
  ancestor st p k = Some e →
  ∃ k0, ancestor st p k0 = Some e ∧ ∀ i, (i < k0)%nat → ancestor st p i ≠ Some e.
Proof.
  induction k as [k IH] using lt_wf_ind. intros Hk.
  destruct (ancestor_search st p e k) as [(i & Hi & He)|Hno].
  - by apply (IH i).
  - by exists k.
Qed.

(** The effects met before the first occurrence of [e]. *)
Lemma ancestors_before (st : state) (p : option eid) (e : eid) (k : nat) :
  ancestor st p k = Some e →
  (∀ i, (i < k)%nat → ancestor st p i ≠ Some e) →
  ∃ l : list eid,
    length l = k ∧ NoDup l ∧
    (∀ i x, l !! i = Some x → ancestor st p i = Some x) ∧
    (∀ x, x ∈ l → is_Some (effects st !! x)).
Proof.
  intros Hk Hfirst.
  assert (Hsome : ∀ i, (i < k)%nat → ∃ x, ancestor st p i = Some x ∧
                                          parent (eff st x) = ancestor st p (S i)).
  { intros i Hi. destruct (ancestor st p i) as [x|] eqn:Hx.
    - exists x. split; [done|]. replace (S i) with (i + 1)%nat by lia.
      rewrite ancestor_add, Hx. reflexivity.
    - replace k with (i + (k - i))%nat in Hk by lia.
      rewrite ancestor_add, Hx, ancestor_None in Hk. done. }
  assert (Hl : ∀ n, (n ≤ k)%nat →
            ∃ l : list eid, length l = n ∧
              ∀ i x, l !! i = Some x → ancestor st p i = Some x).
  { induction n as [|n IH]; intros Hn.
    - exists []. split; [done|]. intros i x Hix. by rewrite lookup_nil in Hix.
    - destruct IH as (l & Hlen & Hlk); [lia|].
      destruct (Hsome n) as (x & Hx & _); [lia|].
      exists (l ++ [x]). split; [rewrite length_app; simpl; lia|].
      intros i y Hiy. apply lookup_app_Some in Hiy as [Hiy|[Hge Hiy]]; [by apply Hlk|].
      rewrite Hlen in *. apply list_lookup_singleton_Some in Hiy as [Hi ->].
      replace i with n by lia. done. }
  destruct (Hl k) as (l & Hlen & Hlk); [lia|].
  exists l. split; [done|]. split; [|split; [done|]].
  - apply NoDup_alt. intros i j x Hi Hj.
    assert (Hdiff : ∀ a b, (a < b)%nat → l !! a = Some x → l !! b = Some x → False).
    { intros a b Hab Ha Hb.
      pose proof (lookup_lt_Some _ _ _ Hb) as Hbk. rewrite Hlen in Hbk.
      apply Hlk in Ha. apply Hlk in Hb.
      (* the chain from position [a] and from position [b] is the same *)
      apply (Hfirst (a + (k - b))%nat); [lia|].
      rewrite ancestor_add, Ha, <- Hb, <- ancestor_add.
      replace (b + (k - b))%nat with k by lia. done. }
    destruct (Nat.lt_trichotomy i j) as [Hlt|[Heq|Hgt]]; [|done|].
    + by destruct (Hdiff i j).
    + by destruct (Hdiff j i).
  - intros x Hx. apply list_elem_of_lookup in Hx as [i Hi].
    pose proof (lookup_lt_Some _ _ _ Hi) as Hik. rewrite Hlen in Hik.
    destruct (Hsome i Hik) as (y & Hy & Hpar).
    rewrite (Hlk i x Hi) in Hy. inversion Hy; subst y.
    assert (Hnext : ∃ z, ancestor st p (S i) = Some z).
    { destruct (decide (S i = k)) as [Heq|Hne].
      - exists e. by rewrite Heq.
      - destruct (Hsome (S i)) as (z & Hz & _); [lia|]. by exists z. }
    destruct Hnext as [z Hz]. rewrite Hz in Hpar.
    destruct (effects st !! x) as [r|] eqn:Hr; [by eexists|].
    (* an effect that was never written to has no parent *)
    unfold eff in Hpar. by rewrite Hr in Hpar.
Qed.

Lemma chain_has_found (st : state) (e : eid) (k n : nat) (p : option eid) :
  ancestor st p k = Some e →
  (k ≤ n)%nat →
  chain_has n st p e = Some true.
Proof.
  revert n p. induction k as [|k IH]; intros n p Hk Hn; simpl in Hk.
  - subst p. destruct n; simpl; by rewrite bool_decide_eq_true_2.
  - destruct p as [x|]; [|done]. destruct n as [|n]; [lia|]. simpl.
    case_bool_decide; [done|]. apply IH; [done|lia].
Qed.

Lemma chain_has_on_chain (st : state) (e : eid) (p : option eid) :
  on_chain st p e → chain_has (S (size (effects st))) st p e = Some true.
Proof.
  intros Hon. apply on_chain_ancestor in Hon as [k Hk].
  apply ancestor_first in Hk as (k0 & Hk0 & Hfirst).
  destruct (ancestors_before st p e k0 Hk0 Hfirst) as (l & Hlen & Hnd & _ & Hdom).
  apply (chain_has_found st e k0); [done|].
  assert (Hle : (length l ≤ size (effects st))%nat).
  { rewrite <- (size_dom (D := gset eid)).
    rewrite <- (size_list_to_set (C := gset eid) l) by done.
    apply subseteq_size. intros x Hx. apply elem_of_list_to_set in Hx.
    apply elem_of_dom. by apply Hdom. }
  lia.
Qed.

(** [run] on an active effect that is running already (it is the active
    effect, or the active effect runs inside it, directly or not) returns
    [undefined] at once: the wrapped function is not called and nothing
    changes.  In particular, when an effect without a scheduler writes to a
    cell it is subscribed to, its turn in [triggerEffects] changes nothing,
    whether [allowRecurse] is set or not. *)
Theorem run_not_reentered (code : program) (h : handler) (e : eid) (st : state) :
  active (eff st e) = true →
  on_chain st (activeEffect st) e →
  run code h e st = Done VUndefined (record (EvRun e) st) ∧
  (computed (eff st e) = None → scheduler code e = None →
   ∃ st', triggerEffects code h [e] st = Done tt st' ∧
          (st' = st ∨ st' = record (EvRun e) st)).
Proof.
  intros Hact Hon.
  assert (Hrun : run code h e st = Done VUndefined (record (EvRun e) st)).
  { rewrite (run_active code h e st Hact). by rewrite (chain_has_on_chain st e _ Hon). }
  split; [exact Hrun|].
  intros Hc Hs. simpl. destruct (negb _ || _).
  - unfold call_scheduler. rewrite Hc, Hs, Hrun. simpl. eauto.
  - eauto.
Qed.

Lemma run_not_reentered_witness :
  run code_nested_write (sem code_nested_write 1) 0%nat st_inner_running
    = Done VUndefined (record (EvRun 0%nat) st_inner_running).
Proof.
  refine (proj1 (run_not_reentered code_nested_write (sem code_nested_write 1) 0%nat
                   st_inner_running _ _)).
  - reflexivity.
  - apply on_chain_next. vm_compute. apply on_chain_here.
Defined.

(** ** [unref], [toRef] and [proxyRefs] *)

(** [unref] gives back what [ref] and [shallowRef] were given: for a
    value [v] that is not a ref, [unref(shallowRef(v))] is [v] and
    [unref(ref(v))] is [v], wrapped by [reactive] when it is an object; the
    read is tracked as a read of the new ref.  On a value that is not a ref
    [unref] is the identity and leaves the state alone. *)
Theorem unref_createRef (code : program) (fuel : nat) (v : value) (shallow : bool)
    (st : state) :
  isRef st v = false →
  let h := sem code (S fuel) in
  let r := (createRef v shallow st).1 in
  let st1 := (createRef v shallow st).2 in
  r = VObj (nextObj st) ∧
  unref h r st1 = Done (if shallow then v else toReactive v) (trackRefValue (nextObj st) st1) ∧
  unref h v st = Done v st.
Proof.
  intros Hv h r st1. unfold r, st1, createRef. rewrite Hv. simpl.
  split; [reflexivity|]. split.
  - unfold unref. simpl. rewrite lookup_insert_eq. simpl.
    unfold h. simpl. rewrite lookup_insert_eq. simpl.
    unfold RefImpl_get_value. simpl. by destruct shallow.
  - unfold unref. by rewrite Hv.
Qed.

Lemma unref_createRef_witness :
  unref (sem code_const 1) (createRef (VObj 0%nat) false st_obj).1
    (createRef (VObj 0%nat) false st_obj).2
  = Done (VProxy Reactive 0%nat) (createRef (VObj 0%nat) false st_obj).2.
Proof.
  destruct (unref_createRef code_const 0 (VObj 0%nat) false st_obj) as (_ & H & _).
  - reflexivity.
  - exact H.
Defined.

Lemma strict_equals_undefined (v : value) :
  strict_equals v VUndefined = bool_decide (v = VUndefined).
Proof. destruct v as [| | |z| | | | | |]; try done. by destruct z. Qed.

(** An [ObjectRefImpl] over a raw plain object reads and writes the
    property of the object: after [r.value = v], the property holds [v] and
    [r.value] is [v], except that a property that holds [undefined] reads as
    the default value.  [toRef] on a property that holds a ref returns that
    ref, not a new object. *)
Theorem ObjectRefImpl_round_trip (code : program) (h0 : handler)
    (a : addr) (props : gmap pkey value) (key : pkey) (v dflt : value) (st : state) :
  heap st !! a = Some (OPlain props) →
  let h := step code h0 in
  let this := mkObjectRef (VObj a) key dflt in
  let st1 := upd_heap (<[a := OPlain (<[key := v]> props)]>) st in
  raw_set a key v st = Normal st1 ∧
  ObjectRefImpl_set_value h this v st = Done tt st1 ∧
  raw_get st1 a key = v ∧
  ObjectRefImpl_get_value h this st1 = Done (if bool_decide (v = VUndefined) then dflt else v) st1 ∧
  (isRef st (Reflect_get st a key) = true →
   toRef h (VObj a) key dflt st = Done (inl (Reflect_get st a key)) st).
Proof.
  intros Ha h this st1.
  assert (Hset : raw_set a key v st = Normal st1) by (unfold raw_set; by rewrite Ha).
  assert (Ha1 : heap st1 !! a = Some (OPlain (<[key := v]> props))).
  { unfold st1. simpl. by rewrite lookup_insert_eq. }
  assert (Hg : Reflect_get st1 a key = v).
  { unfold Reflect_get. rewrite Ha1. simpl. by rewrite lookup_insert_eq. }
  split; [exact Hset|]. clearbody st1. split; [|split; [|split]].
  - unfold ObjectRefImpl_set_value. simpl. rewrite Ha. unfold OrdinarySet. by rewrite Hset.
  - unfold raw_get. rewrite Ha1. simpl. by rewrite lookup_insert_eq.
  - unfold ObjectRefImpl_get_value. simpl. rewrite Ha1. simpl. rewrite Hg.
    by rewrite strict_equals_undefined.
  - intros Href. unfold toRef. simpl. rewrite Ha. simpl. by rewrite Href.
Qed.

Lemma ObjectRefImpl_round_trip_witness :
  let h := step code_const (sem code_const 0) in
  let this := mkObjectRef (VObj 0%nat) (KStr "a") (VNum 9) in
  let st1 :=
    upd_heap (<[0%nat := OPlain (<[KStr "a" := VUndefined]> {[KStr "a" := VNum 1]})]>) st_obj in
  ObjectRefImpl_set_value h this VUndefined st_obj = Done tt st1 ∧
  ObjectRefImpl_get_value h this st1 = Done (VNum 9) st1.
Proof.
  destruct (ObjectRefImpl_round_trip code_const (sem code_const 0) 0%nat
              {[KStr "a" := VNum 1]} (KStr "a") VUndefined (VNum 9) st_obj)
    as (_ & H1 & _ & H3 & _).
  - reflexivity.
  - split; [exact H1|exact H3].
Defined.

Lemma isRef_raw_set_self (a : addr) (props : gmap pkey value) (key : pkey) (v : value)
    (st : state) :
  heap st !! a = Some (OPlain props) →
  isRef st v = false →
  isRef (upd_heap (<[a := OPlain (<[key := v]> props)]>) st) v = false.
Proof.
  intros Ha Hv. unfold isRef in *. simpl.
  destruct v as [| | | | | | | |b|k b]; try done.
  - destruct (decide (b = a)) as [->|Hne].
    + rewrite lookup_insert_eq. rewrite Ha in Hv. simpl in *.
      apply bool_decide_eq_false. apply bool_decide_eq_false in Hv.
      destruct (decide (key = KStr "__v_isRef")) as [->|Hk].
      * by rewrite lookup_insert_eq.
      * by rewrite lookup_insert_ne.
    + by rewrite lookup_insert_ne.
  - destruct (decide (b = a)) as [->|Hne].
    + rewrite lookup_insert_eq. rewrite Ha in Hv. simpl in *.
      apply bool_decide_eq_false. apply bool_decide_eq_false in Hv.
      destruct (decide (key = KStr "__v_isRef")) as [->|Hk].
      * by rewrite lookup_insert_eq.
      * by rewrite lookup_insert_ne.
    + by rewrite lookup_insert_ne.
Qed.

(** An assignment through the proxy of [proxyRefs] over a raw plain
    object, of a value that is not a ref.  To a property that does not hold
    a ref: the property gets the value, and a read through the proxy returns
    it.  To a property that holds a ref without subscribers, whose raw value
    differs: the property still holds the same ref, the ref has got the
    value, and a read through the proxy returns the new inner value of the
    ref. *)
Theorem proxyRefs_round_trip (code : program) (fuel : nat)
    (target : addr) (props : gmap pkey value) (key : pkey) (v : value) (st : state) :
  heap st !! target = Some (OPlain props) →
  isRef st v = false →
  let h := sem code (S fuel) in
  (isRef st (Reflect_get st target key) = false →
     let st1 := upd_heap (<[target := OPlain (<[key := v]> props)]>) st in
     raw_set target key v st = Normal st1 ∧
     shallowUnwrapHandlers_set h target key v st = Done true st1 ∧
     shallowUnwrapHandlers_get h target key st1 = Done v st1) ∧
  (∀ b r,
     Reflect_get st target key = VObj b →
     heap st !! b = Some (ORef r) →
     r_dep r = None →
     let raw := if r_isShallow r then v else toRaw v in
     let stored := if r_isShallow r then raw else toReactive raw in
     hasChanged raw (r_rawValue r) = true →
     let st1 := upd_heap (<[b := ORef (mkRef stored raw None (r_isShallow r))]>) st in
     shallowUnwrapHandlers_set h target key v st = Done true st1 ∧
     Reflect_get st1 target key = VObj b ∧
     shallowUnwrapHandlers_get h target key st1 = Done stored (trackRefValue b st1)).
Proof.
  intros Ht Hv h. split.
  - intros Hold st1.
    assert (Hset : raw_set target key v st = Normal st1) by (unfold raw_set; by rewrite Ht).
    assert (Ht1 : heap st1 !! target = Some (OPlain (<[key := v]> props))).
    { unfold st1. simpl. by rewrite lookup_insert_eq. }
    assert (Hg : Reflect_get st1 target key = v).
    { unfold Reflect_get. rewrite Ht1. simpl. by rewrite lookup_insert_eq. }
    split; [exact Hset|].
    pose proof (isRef_raw_set_self target props key v st Ht Hv) as Hv1.
    fold st1 in Hv1. clearbody st1. split.
    + unfold shallowUnwrapHandlers_set. rewrite Hold. unfold OrdinarySet. by rewrite Hset.
    + unfold shallowUnwrapHandlers_get, unref. rewrite Hg. by rewrite Hv1.
  - intros b r Hslot Hb Hdep raw stored Hch st1.
    assert (Hne : b ≠ target) by (intros ->; congruence).
    assert (Hb1 : heap st1 !! b = Some (ORef (mkRef stored raw None (r_isShallow r)))).
    { unfold st1. simpl. by rewrite lookup_insert_eq. }
    assert (Hg1 : Reflect_get st1 target key = VObj b).
    { unfold Reflect_get in *. unfold st1. simpl. rewrite lookup_insert_ne by done.
      exact Hslot. }
    split; [|split; [exact Hg1|]].
    + unfold shallowUnwrapHandlers_set. rewrite Hslot.
      assert (Hrb : isRef st (VObj b) = true) by (simpl; by rewrite Hb).
      rewrite Hrb, Hv. unfold h. simpl. rewrite Hb. simpl.
      unfold RefImpl_set_value. fold raw. rewrite Hch.
      unfold triggerRefValue, ref_dep. simpl. rewrite lookup_insert_eq. simpl.
      rewrite Hdep. reflexivity.
    + unfold shallowUnwrapHandlers_get, unref. rewrite Hg1.
      assert (Hrb : isRef st1 (VObj b) = true) by (simpl; by rewrite lookup_insert_eq).
      rewrite Hrb. unfold h. simpl. rewrite lookup_insert_eq. simpl. reflexivity.
Qed.

Lemma proxyRefs_round_trip_witness :
  let h := sem code_const 1 in
  let st1 := upd_heap (<[2%nat := ORef (mkRef (VNum 6) (VNum 6) None false)]>) st_nested in
  shallowUnwrapHandlers_set h 0%nat (KStr "r") (VNum 6) st_nested = Done true st1 ∧
  Reflect_get st1 0%nat (KStr "r") = VObj 2%nat ∧
  shallowUnwrapHandlers_get h 0%nat (KStr "r") st1 = Done (VNum 6) st1.
Proof.
  destruct (proxyRefs_round_trip code_const 0 0%nat
              {[KStr "inner" := VObj 1%nat; KStr "r" := VObj 2%nat]} (KStr "r") (VNum 6)
              st_nested) as [_ H]; [vm_compute; reflexivity|reflexivity|].
  destruct (H 2%nat (new_RefImpl (VNum 5) false)) as (H1 & H2 & H3);
    try (vm_compute; reflexivity).
  split; [exact H1|]. split; [exact H2|exact H3].
Defined.

(** ** [track] subscribes the active effect *)

Lemma map_get_app_Some (m : list (pkey * did)) (key k : pkey) (d d0 : did) :
  map_get m k = Some d → map_get (m ++ [(key, d0)]) k = Some d.
Proof.
  induction m as [|[k1 d1] m IH]; simpl; [done|].
  case_bool_decide; [done|]. exact IH.
Qed.

Lemma trackEffects_subscribes (e : eid) (d : did) (st : state) :
  markers_sound e st →
  e ∈ dep_set (dep (trackEffects e d st) d) ∧
  markers_sound e (trackEffects e d st) ∧
  (∀ d0 x, x ∈ dep_set (dep st d0) → x ∈ dep_set (dep (trackEffects e d st) d0)).
Proof.
  intros Hm. unfold trackEffects.
  destruct (effectTrackDepth st <=? maxMarkerBits) eqn:Hmode.
  - apply Z.leb_le in Hmode. specialize (Hm Hmode).
    destruct (negb (newTracked st d)) eqn:Hn.
    + destruct (negb (wasTracked st d)) eqn:Hw.
      * set (st1 := upd_dep d (fun x => set_dep_n (Z.lor (dep_n x) (trackOpBit st)) x) st).
        set (st2 := upd_dep d (fun x => set_dep_set (set_add e (dep_set x)) x) st1).
        assert (Hin : ∀ d0 x, x ∈ dep_set (dep st d0) →
                  x ∈ dep_set (dep (upd_eff e (fun x => set_deps (deps x ++ [d]) x) st2) d0)).
        { intros d0 x Hx. rewrite dep_upd_eff. unfold st2, st1. rewrite !dep_upd_dep.
          destruct (decide (d0 = d)) as [->|Hne]; [|done].
          rewrite decide_True by done. simpl. apply elem_of_set_add. by right. }
        split; [|split; [|exact Hin]].
        -- rewrite dep_upd_eff. unfold st2. rewrite dep_upd_dep, decide_True by done.
           simpl. apply elem_of_set_add. by left.
        -- intros _ d0 Hbits.
           destruct (decide (d0 = d)) as [->|Hne].
           ++ rewrite dep_upd_eff. unfold st2. rewrite dep_upd_dep, decide_True by done.
              simpl. apply elem_of_set_add. by left.
           ++ apply Hin, Hm.
              unfold wasTracked, newTracked in *.
              rewrite dep_upd_eff in Hbits. unfold st2, st1 in Hbits.
              rewrite !dep_upd_dep, !decide_False in Hbits by done. exact Hbits.
      * apply negb_false_iff in Hw.
        assert (Hin : ∀ d0 x, x ∈ dep_set (dep st d0) →
                  x ∈ dep_set (dep (upd_dep d
                     (fun x => set_dep_n (Z.lor (dep_n x) (trackOpBit st)) x) st) d0)).
        { intros d0 x Hx. rewrite dep_upd_dep. by case_decide; subst. }
        split; [|split; [|exact Hin]].
        -- apply Hin, Hm. by left.
        -- intros _ d0 Hbits.
           destruct (decide (d0 = d)) as [->|Hne].
           ++ apply Hin, Hm. by left.
           ++ apply Hin, Hm.
              unfold wasTracked, newTracked in *.
              rewrite !dep_upd_dep, !decide_False in Hbits by done. exact Hbits.
    + apply negb_false_iff in Hn.
      split; [apply Hm; by right|]. split; [by intros _|done].
  - destruct (negb (set_has e (dep_set (dep st d)))) eqn:Hhas.
    + split; [|split].
      * rewrite dep_upd_eff, dep_upd_dep, decide_True by done. simpl.
        apply elem_of_set_add. by left.
      * intros Hle. apply Z.leb_gt in Hmode.
        change (effectTrackDepth st ≤ maxMarkerBits) in Hle. lia.
      * intros d0 x Hx. rewrite dep_upd_eff, dep_upd_dep.
        case_decide; subst; simpl; [|done]. apply elem_of_set_add. by right.
    + apply negb_false_iff in Hhas. unfold set_has in Hhas.
      apply bool_decide_eq_true in Hhas.
      split; [done|]. split; [|done].
      intros Hle. apply Z.leb_gt in Hmode. lia.
Qed.

(** [track] under an active effect with tracking on subscribes the
    effect to the cell of the property, creating the cell if need be, and
    drops no subscription: every effect that was a subscriber of a property
    of a target still is.  The marker bits are taken to be sound (a cell
    that carries the bit of the current depth has the effect among its
    subscribers) and the cells to have been allocated by [createDep]; both
    facts hold again afterwards. *)
Theorem track_subscribes (target : addr) (type : TrackOpTypes) (key : pkey)
    (e : eid) (st : state) :
  activeEffect st = Some e →
  shouldTrack st = true →
  markers_sound e st →
  cells_allocated st →
  let st' := track target type key st in
  subscribed st' (cells st' target) key e ∧
  (∀ t k x, subscribed st (cells st t) k x → subscribed st' (cells st' t) k x) ∧
  markers_sound e st' ∧
  cells_allocated st'.
Proof.
  intros Ha Hs Hm Hc st'. unfold st', track. rewrite Ha, Hs.
  destruct (map_get (default [] (targetMap st !! target)) key) as [d|] eqn:Hget.
  - destruct (trackEffects_subscribes e d st Hm) as (Hin & Hm' & Hmono).
    assert (Hcells : ∀ t, cells (trackEffects e d st) t = cells st t).
    { intros t. unfold cells. by rewrite targetMap_trackEffects. }
    split; [|split; [|split]].
    + exists d. by rewrite Hcells.
    + intros t k x (d0 & Hk & Hx). exists d0. rewrite Hcells. split; [done|by apply Hmono].
    + exact Hm'.
    + intros t k d0. rewrite Hcells.
      assert (Hnd : nextDep (trackEffects e d st) = nextDep st).
      { unfold trackEffects. destruct (_ <=? _).
        - destruct (negb (newTracked st d)); [|done]. by destruct (negb (wasTracked st d)).
        - by destruct (negb (set_has e (dep_set (dep st d)))). }
      rewrite Hnd. apply Hc.
  - simpl.
    set (d := nextDep st).
    set (st0 := upd_targetMap
                  (<[target := default [] (targetMap st !! target) ++ [(key, d)]]>)
                  (set_nextDep (S d) (upd_depStore (<[d := createDep []]>) st))).
    assert (Hdep0 : ∀ d0, d0 ≠ d → dep st0 d0 = dep st d0).
    { intros d0 Hne. unfold dep, st0. simpl. by rewrite lookup_insert_ne. }
    assert (Hdepd : dep st0 d = createDep []).
    { unfold dep, st0. simpl. by rewrite lookup_insert_eq. }
    assert (Hm0 : markers_sound e st0).
    { intros Hle d0 Hbits. destruct (decide (d0 = d)) as [->|Hne].
      - unfold wasTracked, newTracked in Hbits. rewrite Hdepd in Hbits. simpl in Hbits.
        rewrite Z.land_0_l in Hbits. by destruct Hbits.
      - rewrite Hdep0 by done. apply (Hm Hle).
        unfold wasTracked, newTracked in *. by rewrite Hdep0 in Hbits. }
    destruct (trackEffects_subscribes e d st0 Hm0) as (Hin & Hm' & Hmono).
    assert (Hnd : nextDep (trackEffects e d st0) = S d).
    { unfold trackEffects. destruct (_ <=? _).
      - destruct (negb (newTracked st0 d)); [|done]. by destruct (negb (wasTracked st0 d)).
      - by destruct (negb (set_has e (dep_set (dep st0 d)))). }
    assert (Hcells : ∀ t, cells (trackEffects e d st0) t
                          = if decide (t = target) then cells st target ++ [(key, d)]
                            else cells st t).
    { intros t. unfold cells. rewrite targetMap_trackEffects. unfold st0. simpl.
      destruct (decide (t = target)) as [->|Hne].
      - by rewrite lookup_insert_eq.
      - by rewrite lookup_insert_ne. }
    split; [|split; [|split]].
    + exists d. rewrite Hcells, decide_True by done. split; [|done].
      by apply map_get_app.
    + intros t k x (d0 & Hk & Hx). exists d0. split.
      * rewrite Hcells. destruct (decide (t = target)) as [->|Hne]; [|done].
        by apply map_get_app_Some.
      * apply Hmono. rewrite Hdep0; [done|].
        apply Hc in Hk. unfold d. lia.
    + exact Hm'.
    + intros t k d0. rewrite Hcells, Hnd.
      destruct (decide (t = target)) as [->|Hne].
      * intros Hk.
        destruct (map_get (cells st target) k) as [d1|] eqn:Hk1.
        -- rewrite (map_get_app_Some _ key k d1 d Hk1) in Hk. inversion Hk; subst.
           apply Hc in Hk1. lia.
        -- assert (Hd0 : d0 = d).
           { clear -Hk Hk1. induction (cells st target) as [|[k1 d1] m IH]; simpl in *.
             - case_bool_decide; [by inversion Hk|done].
             - case_bool_decide; [done|]. by apply IH. }
           subst d0. lia.
      * intros Hk. apply Hc in Hk. unfold d. lia.
Qed.

Lemma track_subscribes_witness :
  let st := set_activeEffect (Some 0%nat) st_obj in
  subscribed (track 0%nat GET (KStr "a") st) (cells (track 0%nat GET (KStr "a") st) 0%nat)
    (KStr "a") 0%nat.
Proof.
  refine (proj1 (track_subscribes 0%nat GET (KStr "a") 0%nat
                   (set_activeEffect (Some 0%nat) st_obj) _ _ _ _)).
  - reflexivity.
  - reflexivity.
  - intros _ d [H|H]; vm_compute in H; discriminate H.
  - intros t k d H. unfold cells in H. simpl in H. rewrite lookup_empty in H. done.
Defined.

(** ** The identity-sensitive search methods *)

Lemma heap_track (target : addr) (type : TrackOpTypes) (key : pkey) (st : state) :
  heap (track target type key st) = heap st.
Proof.
  unfold track. destruct (activeEffect st); [|done]. destruct (shouldTrack st); [|done].
  destruct (map_get _ key); [by rewrite heap_trackEffects|].
  simpl. by rewrite heap_trackEffects.
Qed.

Lemma heap_track_indices (arr : addr) (l : list nat) (st : state) :
  heap (foldl (fun s i => track arr GET (KIdx (N.of_nat i)) s) st l) = heap st.
Proof.
  revert st. induction l as [|i l IH]; intros st; simpl; [done|].
  by rewrite IH, heap_track.
Qed.

Lemma get_length_reactive (code : program) (h : handler) (kind : proxy_kind)
    (arr : addr) (len : N) (props : gmap pkey value) (st : state) :
  heap st !! arr = Some (OArray len props) →
  kind_isReadonly kind = false →
  step code h _ (OpGet (VProxy kind arr) (KStr "length")) st
    = Done (VNum (Z.of_N len)) (track arr GET (KStr "length") st).
Proof.
  intros Ha Hk. simpl. unfold is_base_target. rewrite Ha.
  unfold createGetter. rewrite Hk. simpl.
  unfold isArray, Reflect_get. rewrite Ha. simpl. rewrite lookup_insert_eq.
  by destruct (kind_isShallow kind).
Qed.

Lemma Reflect_get_method (arr : addr) (len : N) (props : gmap pkey value) (m : string)
    (st : state) :
  heap st !! arr = Some (OArray len props) →
  m ∈ identitySensitive →
  props !! KStr m = None →
  Reflect_get st arr (KStr m) = VFn ("Array.prototype." +:+ m).
Proof.
  intros Ha Hm Hp. unfold Reflect_get. rewrite Ha. simpl.
  assert (Hne : KStr "length" ≠ KStr m).
  { intros Heq. inversion Heq; subst. unfold identitySensitive in Hm.
    rewrite !elem_of_cons in Hm. destruct Hm as [?|[?|[?|?%elem_of_nil]]]; done. }
  rewrite lookup_insert_ne, Hp by done.
  rewrite bool_decide_eq_true_2; [done|].
  unfold lengthAltering. rewrite !elem_of_cons. do 5 right. exact Hm.
Qed.

Lemma existsb_or {A : Type} (p q : A → bool) (l : list A) :
  existsb (fun y => p y || q y) l = existsb p l || existsb q l.
Proof.
  induction l as [|a l IH]; simpl; [done|]. rewrite IH.
  destruct (p a), (q a), (existsb p l), (existsb q l); reflexivity.
Qed.

Lemma elements_lookup (len : N) (props : gmap pkey value) (i : nat) :
  (N.of_nat i < len)%N → elements len props !! i = Some (props !! KIdx (N.of_nat i)).
Proof.
  intros Hi. unfold elements. rewrite list_lookup_fmap.
  rewrite lookup_seq_lt by lia. reflexivity.
Qed.

Lemma elements_lookup_Some (len : N) (props : gmap pkey value) (i : nat) (y : option value) :
  elements len props !! i = Some y → (N.of_nat i < len)%N ∧ y = props !! KIdx (N.of_nat i).
Proof.
  unfold elements. rewrite list_lookup_fmap. intros H.
  destruct (seq 0 (N.to_nat len) !! i) as [j|] eqn:Hj; [|done].
  apply lookup_seq in Hj as [-> Hlt]. simpl in H. inversion H. split; [lia|done].
Qed.

Lemma find_index_spec (p : option value → bool) (l : list (option value)) (i : Z) :
  let j := find_index p l i in
  (j = -1 ∨ (i ≤ j < i + Z.of_nat (length l))) ∧
  (0 ≤ i → j = -1 → ∀ y, y ∈ l → p y = false) ∧
  (j ≠ -1 → ∃ y, l !! Z.to_nat (j - i) = Some y ∧ p y = true) ∧
  (∀ n y, l !! n = Some y → p y = true → 0 ≤ i → j ≠ -1 ∧ j ≤ i + Z.of_nat n).
Proof.
  revert i. induction l as [|y l IH]; intros i; simpl.
  - split; [by left|]. split; [by intros _ _ y ?%elem_of_nil|]. split; [done|].
    intros n y Hn. by rewrite lookup_nil in Hn.
  - destruct (p y) eqn:Hy.
    + split; [right; lia|]. split; [lia|]. split.
      * intros _. exists y. replace (i - i) with 0 by lia. by split.
      * intros n y0 _ _ Hi. split; lia.
    + destruct (IH (i + 1)) as (Hr & Hno & Hyes & Hfirst).
      split; [destruct Hr as [?|?]; [by left|right; lia]|]. split; [|split].
      * intros Hi Hj y0 [->|Hin]%elem_of_cons; [done|]. apply Hno; [lia|done|done].
      * intros Hj. destruct (Hyes Hj) as (y0 & Hl & Hp).
        destruct Hr as [?|Hr]; [done|].
        exists y0. split; [|done].
        replace (Z.to_nat (find_index p l (i + 1) - i))
          with (S (Z.to_nat (find_index p l (i + 1) - (i + 1)))) by lia.
        done.
      * intros n y0 Hn Hp Hi. destruct n as [|n]; simpl in Hn.
        -- inversion Hn; subst. congruence.
        -- destruct (Hfirst n y0 Hn Hp) as [? ?]; [lia|]. split; [done|lia].
Qed.

Section search_results.

Context (code : program) (fuel : nat).
Context (kind : proxy_kind) (arr : addr) (len : N) (props : gmap pkey value) (st : state).
Context (Harr : heap st !! arr = Some (OArray len props)).
Context (Hkind : kind_isReadonly kind = false).

Local Notation h := (sem code (S fuel)).
Local Notation st2 :=
  (foldl (fun s i => track arr GET (KIdx (N.of_nat i)) s)
     (track arr GET (KStr "length") st) (seq 0 (N.to_nat len))).

Lemma identityInstrumentation_unfold (key : string) (args : list value) :
  identityInstrumentation h key (VProxy kind arr) args st =
    (call res at st3 := Array_prototype_search key arr args st2 in
     if strict_equals res (VNum (-1)) || strict_equals res (VBool false)
     then Array_prototype_search key arr (map toRaw args) st3
     else Done res st3).
Proof.
  unfold identityInstrumentation. simpl toRaw. cbv iota.
  change (sem code (S fuel) value ?op ?s) with (step code (sem code fuel) value op s).
  rewrite (get_length_reactive code _ kind arr len props st Harr Hkind).
  simpl bind. replace (Z.to_nat (Z.of_N len)) with (N.to_nat len) by lia. reflexivity.
Qed.

Lemma heap_st2 : heap st2 = heap st.
Proof. by rewrite heap_track_indices, heap_track. Qed.

Lemma search_includes (x : value) :
  props !! KStr "includes" = None →
  identityInstrumentation h "includes" (VProxy kind arr) [x] st
    = Done (VBool (existsb (fun y => SameValueZero x (default VUndefined y)
                                      || SameValueZero (toRaw x) (default VUndefined y))
                     (elements len props))) st2.
Proof.
  intros Hown. rewrite identityInstrumentation_unfold.
  assert (Hm : ∀ args, Array_prototype_search "includes" arr args st2
                       = match Array_prototype_includes len props args with
                         | Some res => Done res st2
                         | None => NoResult
                         end).
  { intros args. unfold Array_prototype_search. rewrite heap_st2, Harr.
    rewrite bool_decide_eq_true_2; [done|].
    unfold Reflect_get. rewrite heap_st2.
    apply (Reflect_get_method arr len props "includes" st Harr); [|done].
    unfold identitySensitive. by left. }
  rewrite Hm, existsb_or. unfold Array_prototype_includes at 1.
  destruct (len =? 0)%N eqn:Hlen.
  - simpl. rewrite Hm. unfold Array_prototype_includes. rewrite Hlen.
    apply N.eqb_eq in Hlen. rewrite Hlen. reflexivity.
  - simpl. unfold start_index. simpl.
    change (Z.to_nat 0) with 0%nat. rewrite drop_0.
    destruct (existsb (fun y => SameValueZero x (default VUndefined y)) (elements len props))
      eqn:E; simpl; [done|].
    rewrite Hm. unfold Array_prototype_includes. rewrite Hlen. reflexivity.
Qed.

Lemma search_indexOf (x : value) :
  props !! KStr "indexOf" = None →
  identityInstrumentation h "indexOf" (VProxy kind arr) [x] st
    = Done (VNum (let r := find_index (strictly_equal_element x) (elements len props) 0 in
                  if r =? -1
                  then find_index (strictly_equal_element (toRaw x)) (elements len props) 0
                  else r)) st2.
Proof.
  intros Hown. rewrite identityInstrumentation_unfold.
  assert (Hm : ∀ args, Array_prototype_search "indexOf" arr args st2
                       = match Array_prototype_indexOf len props args with
                         | Some res => Done res st2
                         | None => NoResult
                         end).
  { intros args. unfold Array_prototype_search. rewrite heap_st2, Harr.
    rewrite bool_decide_eq_true_2; [done|].
    unfold Reflect_get. rewrite heap_st2.
    apply (Reflect_get_method arr len props "indexOf" st Harr); [|done].
    unfold identitySensitive. right. by left. }
  rewrite Hm. unfold Array_prototype_indexOf at 1.
  destruct (len =? 0)%N eqn:Hlen.
  - simpl. rewrite Hm. unfold Array_prototype_indexOf. rewrite Hlen.
    apply N.eqb_eq in Hlen. rewrite Hlen. reflexivity.
  - unfold start_index. change (nth 1 [x] VUndefined) with VUndefined.
    change (nth 0 [x] VUndefined) with x.
    change (ToIntegerOrInfinity VUndefined) with (Some 0).
    unfold bind. cbv beta iota zeta.
    change (0 <=? 0) with true. cbv iota.
    change (Z.to_nat 0) with 0%nat. rewrite drop_0.
    set (r := find_index (strictly_equal_element x) (elements len props) 0).
    assert (Hr : strict_equals (VNum r) (VNum (-1)) || strict_equals (VNum r) (VBool false)
                 = (r =? -1)).
    { destruct (r =? -1) eqn:Hr1.
      - apply Z.eqb_eq in Hr1. by rewrite Hr1.
      - apply Z.eqb_neq in Hr1. unfold strict_equals.
        destruct r as [|p|p]; simpl; try done;
          rewrite bool_decide_eq_false_2; try done; congruence. }
    rewrite Hr. destruct (r =? -1); [|done].
    rewrite Hm. unfold Array_prototype_indexOf. rewrite Hlen. reflexivity.
Qed.

End search_results.

(** The instrumented [includes] and [indexOf] of a reactive array see
    through the wrappers of their argument: the array is searched for the
    argument as given, and when that finds nothing, for the raw value of the
    argument.  So an object stored raw in the array is found when the search
    is given its reactive wrapper: [includes] answers [true] and [indexOf]
    an index of the array.  [includes] answers
    [true] exactly when an element is the same as the argument or as its raw
    value, and [indexOf] answers [-1] exactly when no element is strictly
    equal to either.  The search changes no object. *)
Theorem identity_search_sees_through_wrappers (code : program) (fuel : nat)
    (kind : proxy_kind) (arr : addr) (len : N) (props : gmap pkey value)
    (x : value) (st : state) :
  heap st !! arr = Some (OArray len props) →
  kind_isReadonly kind = false →
  props !! KStr "includes" = None →
  props !! KStr "indexOf" = None →
  let h := sem code (S fuel) in
  let same y := SameValueZero x y || SameValueZero (toRaw x) y in
  let equal y := strict_equals x y || strict_equals (toRaw x) y in
  ∃ (b : bool) (j : Z) (st2 : state),
    identityInstrumentation h "includes" (VProxy kind arr) [x] st = Done (VBool b) st2 ∧
    identityInstrumentation h "indexOf" (VProxy kind arr) [x] st = Done (VNum j) st2 ∧
    heap st2 = heap st ∧
    (b = true ↔ ∃ i, (i < len)%N ∧ same (default VUndefined (props !! KIdx i)) = true) ∧
    (j = -1 ↔ ∀ i v, (i < len)%N → props !! KIdx i = Some v → equal v = false) ∧
    (j ≠ -1 → 0 ≤ j < Z.of_N len ∧
              ∃ v, props !! KIdx (Z.to_N j) = Some v ∧ equal v = true) ∧
    (∀ i o k, (i < len)%N → props !! KIdx i = Some (VObj o) → x = VProxy k o →
              b = true ∧ 0 ≤ j < Z.of_N len).
Proof.
  intros Harr Hkind Hinc Hidx h same equal.
  pose proof (search_includes code fuel kind arr len props st Harr Hkind x Hinc) as H1.
  pose proof (search_indexOf code fuel kind arr len props st Harr Hkind x Hidx) as H2.
  pose proof (heap_st2 arr len st) as H3.
  cbv zeta in H1, H2, H3.
  eexists _, _, _. split; [exact H1|]. split; [exact H2|]. split; [exact H3|].
  set (els := elements len props).
  assert (Hb : existsb (fun y => SameValueZero x (default VUndefined y)
                                  || SameValueZero (toRaw x) (default VUndefined y)) els = true
               ↔ ∃ i, (i < len)%N ∧ same (default VUndefined (props !! KIdx i)) = true).
  { rewrite existsb_exists. split.
    - intros (y & Hy & Hs). apply list_elem_of_In, list_elem_of_lookup in Hy as [n Hn].
      apply elements_lookup_Some in Hn as [Hlt ->]. by exists (N.of_nat n).
    - intros (i & Hi & Hs). exists (props !! KIdx i). split; [|done].
      apply list_elem_of_In, list_elem_of_lookup. exists (N.to_nat i).
      unfold els. rewrite elements_lookup by lia. by rewrite N2Nat.id. }
  set (r1 := find_index (strictly_equal_element x) els 0).
  set (r2 := find_index (strictly_equal_element (toRaw x)) els 0).
  destruct (find_index_spec (strictly_equal_element x) els 0) as (Hr1 & Hno1 & Hyes1 & Hfst1).
  destruct (find_index_spec (strictly_equal_element (toRaw x)) els 0)
    as (Hr2 & Hno2 & Hyes2 & Hfst2).
  fold r1 in Hr1, Hno1, Hyes1, Hfst1. fold r2 in Hr2, Hno2, Hyes2, Hfst2.
  assert (Hlen : Z.of_nat (length els) = Z.of_N len).
  { unfold els, elements. rewrite length_map, length_seq. lia. }
  assert (Helem : ∀ r (z : value), r ≠ -1 → 0 ≤ r < 0 + Z.of_nat (length els) →
            (∃ y, els !! Z.to_nat (r - 0) = Some y ∧ strictly_equal_element z y = true) →
            ∃ v, props !! KIdx (Z.to_N r) = Some v ∧ strict_equals z v = true).
  { intros r z Hr Hrange (y & Hy & Hp).
    apply elements_lookup_Some in Hy as [Hlt ->].
    replace (N.of_nat (Z.to_nat (r - 0))) with (Z.to_N r) in Hp by lia.
    destruct (props !! KIdx (Z.to_N r)) as [v|]; [|done]. by exists v. }
  set (j := if r1 =? -1 then r2 else r1).
  assert (Hj : j = -1 ↔ r1 = -1 ∧ r2 = -1).
  { unfold j. destruct (r1 =? -1) eqn:E.
    - apply Z.eqb_eq in E. tauto.
    - apply Z.eqb_neq in E. tauto. }
  split; [exact Hb|]. split; [|split].
  - rewrite Hj. split.
    + intros [E1 E2] i v Hi Hv. unfold equal.
      assert (Hin : (Some v : option value) ∈ els).
      { apply list_elem_of_lookup. exists (N.to_nat i).
        unfold els. rewrite elements_lookup by lia. by rewrite N2Nat.id, Hv. }
      pose proof (Hno1 (Z.le_refl 0) E1 _ Hin) as Hx1.
      pose proof (Hno2 (Z.le_refl 0) E2 _ Hin) as Hx2.
      simpl in Hx1, Hx2. by rewrite Hx1, Hx2.
    + intros Hall.
      assert (Hnone : ∀ r (z : value), (∀ v, equal v = false → strict_equals z v = false) →
                (r = -1 ∨ 0 ≤ r < 0 + Z.of_nat (length els)) →
                (r ≠ -1 → ∃ y, els !! Z.to_nat (r - 0) = Some y ∧
                               strictly_equal_element z y = true) →
                r = -1).
      { intros r z Hz Hrange Hyes. destruct (decide (r = -1)) as [|Hne]; [done|].
        destruct Hrange as [|Hrange]; [done|].
        destruct (Helem r z Hne Hrange (Hyes Hne)) as (v & Hv & Hs).
        rewrite (Hz v) in Hs; [done|]. apply (Hall (Z.to_N r)); [lia|done]. }
      split.
      * apply (Hnone r1 x); [|done|done]. unfold equal. intros v Hv.
        by apply orb_false_iff in Hv as [? _].
      * apply (Hnone r2 (toRaw x)); [|done|done]. unfold equal. intros v Hv.
        by apply orb_false_iff in Hv as [_ ?].
  - intros Hjn. unfold j in *. destruct (r1 =? -1) eqn:E.
    + destruct Hr2 as [|Hr2]; [done|]. split; [lia|].
      destruct (Helem r2 (toRaw x) Hjn Hr2 (Hyes2 Hjn)) as (v & Hv & Hs).
      exists v. split; [done|]. unfold equal. by rewrite Hs, orb_true_r.
    + apply Z.eqb_neq in E. destruct Hr1 as [|Hr1]; [done|]. split; [lia|].
      destruct (Helem r1 x Hjn Hr1 (Hyes1 Hjn)) as (v & Hv & Hs).
      exists v. split; [done|]. unfold equal. by rewrite Hs.
  - intros i o k Hi Hv ->. split.
    + apply Hb. exists i. split; [done|]. unfold same. rewrite Hv.
      apply orb_true_iff. right. cbn [default toRaw SameValueZero strict_equals].
      by apply bool_decide_eq_true.
    + assert (Hl : els !! N.to_nat i = Some (Some (VObj o))).
      { unfold els. rewrite elements_lookup by lia. by rewrite N2Nat.id, Hv. }
      assert (Hp : strictly_equal_element (toRaw (VProxy k o)) (Some (VObj o)) = true).
      { cbn [toRaw strictly_equal_element strict_equals]. by apply bool_decide_eq_true. }
      destruct (Hfst2 _ _ Hl Hp (Z.le_refl 0)) as [Hne2 Hle2].
      unfold j. destruct (r1 =? -1) eqn:E.
      * destruct Hr2 as [|Hr2]; [done|]. lia.
      * apply Z.eqb_neq in E. destruct Hr1 as [|Hr1]; [done|]. lia.
Qed.
Lemma identity_search_sees_through_wrappers_witness :
  ∃ st2,
    identityInstrumentation (sem code_const 1) "includes" (VProxy Reactive 0%nat)
      [VProxy Reactive 1%nat] st_array_of_object = Done (VBool true) st2 ∧
    identityInstrumentation (sem code_const 1) "indexOf" (VProxy Reactive 0%nat)
      [VProxy Reactive 1%nat] st_array_of_object = Done (VNum 0) st2.
Proof.
  destruct (identity_search_sees_through_wrappers code_const 0 Reactive 0%nat 1
              {[KIdx 0 := VObj 1%nat]} (VProxy Reactive 1%nat) st_array_of_object)
    as (b & j & st2 & H1 & H2 & _ & _ & _ & _ & Hfound); try reflexivity.
  destruct (Hfound 0%N 1%nat Reactive) as [Hb Hj]; [done|reflexivity|reflexivity|].
  exists st2. rewrite H1, H2, Hb. replace j with 0 by lia. by split.
Defined.

Lemma Array_prototype_search_state (key : string) (arr : addr) (args : list value)
    (st : state) (v : value) (st' : state) :
  Array_prototype_search key arr args st = Done v st' → st' = st.
Proof.
  unfold Array_prototype_search. intros H.
  repeat case_match; try done; by inversion H.
Qed.

Lemma track_indices_subscribes (arr : addr) (e : eid) (l : list nat) (st : state) :
  activeEffect st = Some e →
  shouldTrack st = true →
  markers_sound e st →
  cells_allocated st →
  let st' := foldl (fun s i => track arr GET (KIdx (N.of_nat i)) s) st l in
  (∀ i, i ∈ l → subscribed st' (cells st' arr) (KIdx (N.of_nat i)) e) ∧
  (∀ t k x, subscribed st (cells st t) k x → subscribed st' (cells st' t) k x).
Proof.
  revert st. induction l as [|i l IH]; intros st Ha Hs Hm Hc; simpl.
  - split; [by intros i ?%elem_of_nil|done].
  - destruct (track_subscribes arr GET (KIdx (N.of_nat i)) e st Ha Hs Hm Hc)
      as (Hsub & Hmono & Hm1 & Hc1).
    destruct (quiet_track arr GET (KIdx (N.of_nat i)) st) as (Ha1 & Hs1 & _).
    destruct (IH (track arr GET (KIdx (N.of_nat i)) st)) as [Hall Hmono'];
      [congruence|congruence|done|done|].
    split.
    + intros j [->|Hj]%elem_of_cons; [by apply Hmono'|by apply Hall].
    + intros t k x Hx. by apply Hmono', Hmono.
Qed.

(** Called by an effect that is running with tracking on, the
    instrumented search methods of a reactive array subscribe the effect to
    the length of the array and to every index below it, whatever is
    searched for and whatever the result: the effect is run again when any
    element changes. *)
Theorem identity_search_tracks (code : program) (fuel : nat)
    (kind : proxy_kind) (arr : addr) (len : N) (props : gmap pkey value)
    (key : string) (args : list value) (e : eid) (st : state) (v : value) (st' : state) :
  heap st !! arr = Some (OArray len props) →
  kind_isReadonly kind = false →
  activeEffect st = Some e →
  shouldTrack st = true →
  markers_sound e st →
  cells_allocated st →
  identityInstrumentation (sem code (S fuel)) key (VProxy kind arr) args st = Done v st' →
  subscribed st' (cells st' arr) (KStr "length") e ∧
  (∀ i, (i < len)%N → subscribed st' (cells st' arr) (KIdx i) e) ∧
  heap st' = heap st.
Proof.
  intros Harr Hkind Ha Hs Hm Hc Hres.
  rewrite (identityInstrumentation_unfold code fuel kind arr len props st Harr Hkind) in Hres.
  set (st1 := track arr GET (KStr "length") st) in *.
  set (st2 := foldl (fun s i => track arr GET (KIdx (N.of_nat i)) s) st1
                (seq 0 (N.to_nat len))) in *.
  assert (Hst' : st' = st2).
  { destruct (Array_prototype_search key arr args st2) as [res st3|x st3|] eqn:E1;
      simpl in Hres; [|done..].
    apply Array_prototype_search_state in E1. subst st3.
    destruct (_ || _); [by apply Array_prototype_search_state in Hres|by inversion Hres]. }
  subst st'.
  destruct (track_subscribes arr GET (KStr "length") e st Ha Hs Hm Hc)
    as (Hsub & Hmono & Hm1 & Hc1).
  destruct (quiet_track arr GET (KStr "length") st) as (Ha1 & Hs1 & _).
  fold st1 in Hsub, Hmono, Hm1, Hc1, Ha1, Hs1.
  destruct (track_indices_subscribes arr e (seq 0 (N.to_nat len)) st1) as [Hall Hmono'];
    [congruence|congruence|done|done|].
  fold st2 in Hall, Hmono'.
  split; [by apply Hmono'|]. split.
  - intros i Hi. replace i with (N.of_nat (N.to_nat i)) by lia.
    apply Hall. apply elem_of_seq. lia.
  - unfold st2, st1. by rewrite heap_track_indices, heap_track.
Qed.

Lemma identity_search_tracks_witness :
  match identityInstrumentation (sem code_const 1) "includes" (VProxy Reactive 0%nat)
          [VNum 3] (set_activeEffect (Some 0%nat) st_array_of_object) with
  | Done v st' =>
      v = VBool false ∧
      subscribed st' (cells st' 0%nat) (KStr "length") 0%nat ∧
      subscribed st' (cells st' 0%nat) (KIdx 0) 0%nat
  | _ => False
  end.
Proof.
  destruct (identityInstrumentation (sem code_const 1) "includes" (VProxy Reactive 0%nat)
              [VNum 3] (set_activeEffect (Some 0%nat) st_array_of_object))
    as [v st'|x st'|] eqn:E; [|vm_compute in E; discriminate E..].
  destruct (identity_search_tracks code_const 0 Reactive 0%nat 1 {[KIdx 0 := VObj 1%nat]}
              "includes" [VNum 3] 0%nat (set_activeEffect (Some 0%nat) st_array_of_object)
              v st') as (H1 & H2 & _); try reflexivity.
  - intros _ d [H|H]; vm_compute in H; discriminate H.
  - intros t k d H. unfold cells in H. simpl in H. rewrite lookup_empty in H. done.
  - exact E.
  - split; [vm_compute in E; by inversion E|]. split; [exact H1|]. by apply H2.
Defined.

(** ** The scheduler *)

Lemma number_le_lt (a b : Scheduler.number) (x : Z) :
  Scheduler.number_le a b → Scheduler.number_lt b x = true → Scheduler.number_lt a x = true.
Proof.
  destruct a, b; simpl; try done. intros H1 H2. apply Z.ltb_lt. apply Z.ltb_lt in H2. lia.
Qed.

Lemma number_le_not_lt (a b : Scheduler.number) (x : Z) :
  Scheduler.number_le a b → Scheduler.number_lt a x = false → Scheduler.number_lt b x = false.
Proof.
  destruct a, b; simpl; try done. intros H1 H2. apply Z.ltb_ge. apply Z.ltb_ge in H2. lia.
Qed.

Lemma number_le_refl (a : Scheduler.number) : Scheduler.number_le a a.
Proof. destruct a; simpl; [lia|done]. Qed.

Lemma middle_between (start end_ : Z) :
  0 ≤ start → start < end_ → end_ < 2 ^ 31 →
  let middle := Z.shiftr ((start + end_) mod 2 ^ 32) 1 in
  start ≤ middle < end_.
Proof.
  intros H0 H1 H2 middle. unfold middle.
  rewrite Z.mod_small by lia.
  rewrite Z.shiftr_div_pow2 by lia. change (2 ^ 1) with 2.
  split.
  - apply Z.div_le_lower_bound; lia.
  - apply Z.div_lt_upper_bound; lia.
Qed.

Lemma findInsertionIndex_loop_spec (fields : Scheduler.job → Scheduler.SchedulerJob)
    (q : list Scheduler.job) (id : Z) (lo : nat) :
  Z.of_nat (length q) < 2 ^ 31 →
  ∀ (fuel : nat) (start end_ : Z),
    0 ≤ start → start ≤ end_ → end_ ≤ Z.of_nat (length q) → end_ - start ≤ Z.of_nat fuel →
    ∃ i, Scheduler.findInsertionIndex_loop fields fuel q id start end_ = Scheduler.Returned i ∧
         start ≤ i ≤ end_ ∧
         ((∀ a b ja jb, (lo ≤ a)%nat → (a ≤ b)%nat → q !! a = Some ja → q !! b = Some jb →
                        Scheduler.number_le (Scheduler.getId fields ja) (Scheduler.getId fields jb)) →
          (∀ k j, (lo ≤ k)%nat → Z.of_nat k < start → q !! k = Some j →
                  Scheduler.number_lt (Scheduler.getId fields j) id = true) →
          (∀ k j, end_ ≤ Z.of_nat k → q !! k = Some j →
                  Scheduler.number_lt (Scheduler.getId fields j) id = false) →
          Z.of_nat lo ≤ start →
          (∀ k j, (lo ≤ k)%nat → Z.of_nat k < i → q !! k = Some j →
                  Scheduler.number_lt (Scheduler.getId fields j) id = true) ∧
          (∀ k j, i ≤ Z.of_nat k → q !! k = Some j →
                  Scheduler.number_lt (Scheduler.getId fields j) id = false)).
Proof.
  intros Hlen. induction fuel as [|fuel IH]; intros start end_ H0 H1 H2 H3.
  - assert (start = end_) by lia. subst end_. exists start. simpl.
    rewrite Z.ltb_irrefl. split; [done|]. split; [lia|]. by intros _ Hb Ha _.
  - simpl. destruct (start <? end_) eqn:Hlt.
    2:{ apply Z.ltb_ge in Hlt. assert (start = end_) by lia. subst end_.
        exists start. split; [done|]. split; [lia|]. by intros _ Hb Ha _. }
    apply Z.ltb_lt in Hlt.
    pose proof (middle_between start end_ H0 Hlt ltac:(lia)) as Hm. simpl in Hm.
    set (middle := Z.shiftr ((start + end_) mod 2 ^ 32) 1) in *.
    destruct (q !! Z.to_nat middle) as [j|] eqn:Hj.
    2:{ apply lookup_ge_None in Hj. lia. }
    destruct (Scheduler.number_lt (Scheduler.getId fields j) id) eqn:Hcmp.
    + destruct (IH (middle + 1) end_) as (i & Hi & Hr & Hspec); [lia..|].
      exists i. split; [done|]. split; [lia|].
      intros Hsorted Hbelow Habove Hlo. apply Hspec; [done| |done|lia].
      intros k jk Hk1 Hk2 Hjk.
      apply (number_le_lt _ (Scheduler.getId fields j)); [|done].
      apply (Hsorted k (Z.to_nat middle)); [done|lia|done|done].
    + destruct (IH start middle) as (i & Hi & Hr & Hspec); [lia..|].
      exists i. split; [done|]. split; [lia|].
      intros Hsorted Hbelow Habove Hlo. apply Hspec; [done|done| |done].
      intros k jk Hk Hjk.
      apply (number_le_not_lt (Scheduler.getId fields j)); [|done].
      apply (Hsorted (Z.to_nat middle) k); [lia|lia|done|done].
Qed.

Lemma findInsertionIndex_returns (fields : Scheduler.job → Scheduler.SchedulerJob)
    (fuel : nat) (id : Z) (st : Scheduler.scheduler) :
  Z.of_nat (length (Scheduler.queue st)) < 2 ^ 31 →
  (length (Scheduler.queue st) ≤ fuel)%nat →
  (Scheduler.flushIndex st < length (Scheduler.queue st))%nat →
  ∃ i : nat,
    Scheduler.findInsertionIndex fields fuel id st = Scheduler.Returned (Z.of_nat i) ∧
    (Scheduler.flushIndex st < i ≤ length (Scheduler.queue st))%nat ∧
    (Scheduler.pending_sorted fields st →
     (∀ k j, (Scheduler.flushIndex st < k < i)%nat → Scheduler.queue st !! k = Some j →
             Scheduler.number_lt (Scheduler.getId fields j) id = true) ∧
     (∀ k j, (i ≤ k)%nat → Scheduler.queue st !! k = Some j →
             Scheduler.number_lt (Scheduler.getId fields j) id = false)).
Proof.
  intros Hlen Hfuel Hidx. unfold Scheduler.findInsertionIndex.
  destruct (findInsertionIndex_loop_spec fields (Scheduler.queue st) id
              (S (Scheduler.flushIndex st)) Hlen fuel
              (Z.of_nat (Scheduler.flushIndex st) + 1)
              (Z.of_nat (length (Scheduler.queue st))))
    as (i & Hi & Hr & Hspec); [lia..|].
  exists (Z.to_nat i). rewrite Z2Nat.id by lia. split; [done|]. split; [lia|].
  intros Hsorted. destruct Hspec as [Hb Ha].
  - intros a b ja jb Ha Hab. apply Hsorted. lia. done.
  - intros k j Hk1 Hk2. lia.
  - intros k j Hk Hj. apply lookup_lt_Some in Hj. lia.
  - lia.
  - split.
    + intros k j Hk. apply Hb; lia.
    + intros k j Hk. apply Ha; lia.
Qed.
Lemma number_lt_le (a : Scheduler.number) (x : Z) :
  Scheduler.number_lt a x = true → Scheduler.number_le a (Scheduler.Finite x).
Proof. destruct a; simpl; [|done]. intros H%Z.ltb_lt. lia. Qed.

Lemma number_not_lt_le (a : Scheduler.number) (x : Z) :
  Scheduler.number_lt a x = false → Scheduler.number_le (Scheduler.Finite x) a.
Proof. destruct a; simpl; [|done]. intros H%Z.ltb_ge. lia. Qed.

Lemma splice_insert_end (q : list Scheduler.job) (i : nat) (j : Scheduler.job) :
  (length q ≤ i)%nat → Scheduler.splice_insert q i j = q ++ [j].
Proof. intros H. unfold Scheduler.splice_insert. by rewrite take_ge, drop_ge. Qed.

Lemma lookup_splice_insert (q : list Scheduler.job) (i : nat) (j : Scheduler.job) (k : nat) :
  (i ≤ length q)%nat →
  Scheduler.splice_insert q i j !! k =
    if decide (k < i)%nat then q !! k
    else if decide (k = i) then Some j else q !! (k - 1)%nat.
Proof.
  intros Hi. unfold Scheduler.splice_insert.
  assert (Hlen : length (take i q) = i) by (rewrite length_take; lia).
  destruct (decide (k < i)%nat) as [Hk|Hk].
  - rewrite lookup_app_l by lia. rewrite lookup_take. by rewrite decide_True.
  - rewrite lookup_app_r by lia. rewrite Hlen.
    destruct (decide (k = i)) as [->|Hne].
    + by rewrite Nat.sub_diag.
    + destruct (k - i)%nat as [|n] eqn:E; [lia|]. simpl.
      rewrite lookup_drop. f_equal. lia.
Qed.

Lemma drop_pending_insert (q : list Scheduler.job) (f i : nat) (j : Scheduler.job) :
  (S f ≤ i)%nat → (i ≤ length q)%nat →
  drop (S f) (Scheduler.splice_insert q i j) = drop (S f) (take i q) ++ j :: drop i q ∧
  drop (S f) q = drop (S f) (take i q) ++ drop i q.
Proof.
  intros H1 H2. unfold Scheduler.splice_insert. split.
  - rewrite drop_app_le; [done|]. rewrite length_take. lia.
  - rewrite <- (take_drop i q) at 1. rewrite drop_app_le; [done|]. rewrite length_take. lia.
Qed.

Lemma NoDup_pending_insert (q : list Scheduler.job) (f i : nat) (j : Scheduler.job) :
  (S f ≤ i ∨ length q ≤ i)%nat →
  j ∉ drop (S f) q →
  NoDup (drop (S f) q) →
  NoDup (drop (S f) (Scheduler.splice_insert q i j)).
Proof.
  intros Hi Hj Hq.
  destruct (decide (length q ≤ i)%nat) as [Hge|Hlt].
  - rewrite splice_insert_end by done.
    destruct (decide (S f ≤ length q)%nat) as [Hle|Hgt].
    + rewrite drop_app_le by done. apply NoDup_app. split; [done|]. split.
      * intros x Hx [->|[]%elem_of_nil]%elem_of_cons. done.
      * apply NoDup_singleton.
    + rewrite drop_app_ge by lia.
      destruct (S f - length q)%nat as [|m] eqn:E; [lia|]. simpl. rewrite drop_nil.
      apply NoDup_nil_2.
  - destruct (drop_pending_insert q f i j) as [E1 E2]; [lia..|].
    rewrite E1. rewrite E2 in Hj, Hq.
    rewrite <- Permutation_middle. apply NoDup_cons. by split.
Qed.

Lemma pending_sorted_insert (fields : Scheduler.job → Scheduler.SchedulerJob)
    (st : Scheduler.scheduler) (i : nat) (j : Scheduler.job) :
  Scheduler.pending_sorted fields st →
  (Scheduler.flushIndex st < i ≤ length (Scheduler.queue st))%nat →
  (∀ k jk, (Scheduler.flushIndex st < k < i)%nat → Scheduler.queue st !! k = Some jk →
           Scheduler.number_le (Scheduler.getId fields jk) (Scheduler.getId fields j)) →
  (∀ k jk, (i ≤ k)%nat → Scheduler.queue st !! k = Some jk →
           Scheduler.number_le (Scheduler.getId fields j) (Scheduler.getId fields jk)) →
  Scheduler.pending_sorted fields
    (Scheduler.queueFlush
       (Scheduler.set_queue (Scheduler.splice_insert (Scheduler.queue st) i j) st)).
Proof.
  intros Hsorted Hi Hbefore Hafter a b ja jb.
  assert (Hq : ∀ s, Scheduler.queue (Scheduler.queueFlush s) = Scheduler.queue s
                    ∧ Scheduler.flushIndex (Scheduler.queueFlush s) = Scheduler.flushIndex s).
  { intros s. unfold Scheduler.queueFlush. by destruct (_ && _). }
  destruct (Hq (Scheduler.set_queue (Scheduler.splice_insert (Scheduler.queue st) i j) st))
    as [-> ->]. simpl.
  intros Ha Hab. rewrite !lookup_splice_insert by lia.
  destruct (decide (a < i)%nat), (decide (b < i)%nat); try lia.
  - by apply Hsorted.
  - destruct (decide (b = i)) as [->|Hb].
    + intros H1 [= <-]. apply (Hbefore a); [lia|done].
    + apply Hsorted; lia.
  - destruct (decide (a = i)) as [->|Ha'], (decide (b = i)) as [->|Hb]; try lia.
    + intros [= <-] [= <-]. apply number_le_refl.
    + intros [= <-] H2. apply (Hafter (b - 1)%nat); [lia|done].
    + apply Hsorted; lia.
Qed.

Lemma queueFlush_queue (st : Scheduler.scheduler) :
  Scheduler.queue (Scheduler.queueFlush st) = Scheduler.queue st ∧
  Scheduler.flushIndex (Scheduler.queueFlush st) = Scheduler.flushIndex st.
Proof. unfold Scheduler.queueFlush. by destruct (_ && _). Qed.

Lemma queueJob_cases (fields : Scheduler.job → Scheduler.SchedulerJob) (fuel : nat)
    (j : Scheduler.job) (st : Scheduler.scheduler) :
  Z.of_nat (length (Scheduler.queue st)) < 2 ^ 31 →
  (length (Scheduler.queue st) ≤ fuel)%nat →
  (Scheduler.queueJob fields fuel j st = Scheduler.Returned st ∧
   (Some j = Scheduler.currentPreFlushParentJob st ∨
    (j ∈ drop (Scheduler.flushIndex st) (Scheduler.queue st) ∧
     j ∈ drop (if Scheduler.isFlushing st && Scheduler.job_allowRecurse (fields j)
               then Scheduler.flushIndex st + 1 else Scheduler.flushIndex st)%nat
            (Scheduler.queue st)))) ∨
  ((j ∉ drop (S (Scheduler.flushIndex st)) (Scheduler.queue st)) ∧
   (Some j ≠ Scheduler.currentPreFlushParentJob st) ∧
   (∃ i : nat,
     Scheduler.queueJob fields fuel j st
       = Scheduler.Returned
           (Scheduler.queueFlush
              (Scheduler.set_queue (Scheduler.splice_insert (Scheduler.queue st) i j) st)) ∧
     (((length (Scheduler.queue st) ≤ Scheduler.flushIndex st)%nat
       ∧ (length (Scheduler.queue st) ≤ i)%nat)
      ∨ ((Scheduler.flushIndex st < length (Scheduler.queue st))%nat
         ∧ Scheduler.job_id (fields j) = None ∧ i = length (Scheduler.queue st))
      ∨ (∃ id, (Scheduler.flushIndex st < length (Scheduler.queue st))%nat
               ∧ Scheduler.job_id (fields j) = Some id
               ∧ (Scheduler.flushIndex st < i ≤ length (Scheduler.queue st))%nat
               ∧ (Scheduler.pending_sorted fields st →
                  (∀ k jk, (Scheduler.flushIndex st < k < i)%nat →
                           Scheduler.queue st !! k = Some jk →
                           Scheduler.number_lt (Scheduler.getId fields jk) id = true) ∧
                  (∀ k jk, (i ≤ k)%nat → Scheduler.queue st !! k = Some jk →
                           Scheduler.number_lt (Scheduler.getId fields jk) id = false)))))).
Proof.
  intros Hlen Hfuel. unfold Scheduler.queueJob.
  set (start := (if Scheduler.isFlushing st && Scheduler.job_allowRecurse (fields j)
                 then Scheduler.flushIndex st + 1 else Scheduler.flushIndex st)%nat).
  assert (Hstart : (Scheduler.flushIndex st ≤ start ≤ S (Scheduler.flushIndex st))%nat).
  { unfold start. destruct (_ && _); lia. }
  destruct (bool_decide (Some j = Scheduler.currentPreFlushParentJob st)) eqn:Hparent.
  { left. rewrite andb_false_r. split; [done|]. left. by apply bool_decide_eq_true in Hparent. }
  apply bool_decide_eq_false in Hparent.
  rewrite andb_true_r.
  destruct (bool_decide (length (Scheduler.queue st) = 0%nat)
            || negb (Scheduler.includes (Scheduler.queue st) j start)) eqn:Hcond.
  2:{ left. split; [done|]. right.
      apply orb_false_iff in Hcond as [_ Hin]. apply negb_false_iff in Hin.
      unfold Scheduler.includes in Hin. apply bool_decide_eq_true in Hin.
      split; [|exact Hin].
      apply list_elem_of_lookup in Hin as [k Hk]. rewrite lookup_drop in Hk.
      apply list_elem_of_lookup. exists (start - Scheduler.flushIndex st + k)%nat.
      rewrite lookup_drop. rewrite <- Hk. f_equal. lia. }
  right.
  assert (Hnot : j ∉ drop (S (Scheduler.flushIndex st)) (Scheduler.queue st)).
  { apply orb_true_iff in Hcond as [Hempty|Hin].
    - apply bool_decide_eq_true in Hempty. apply nil_length_inv in Hempty.
      rewrite Hempty, drop_nil. apply not_elem_of_nil.
    - apply negb_true_iff in Hin. unfold Scheduler.includes in Hin.
      apply bool_decide_eq_false in Hin. intros Hj. apply Hin.
      apply list_elem_of_lookup in Hj as [k Hk]. rewrite lookup_drop in Hk.
      apply list_elem_of_lookup.
      exists (S (Scheduler.flushIndex st) - start + k)%nat.
      rewrite lookup_drop. rewrite <- Hk. f_equal. lia. }
  split; [done|]. split; [done|].
  destruct (Scheduler.job_id (fields j)) as [id|] eqn:Hid.
  - destruct (decide (Scheduler.flushIndex st < length (Scheduler.queue st))%nat) as [Hf|Hf].
    + destruct (findInsertionIndex_returns fields fuel id st Hlen Hfuel Hf)
        as (i & Hi & Hr & Hspec).
      rewrite Hi. exists i. rewrite Nat2Z.id. split; [done|]. right. right.
      exists id. done.
    + unfold Scheduler.findInsertionIndex.
      assert (Hloop : Scheduler.findInsertionIndex_loop fields fuel (Scheduler.queue st) id
                        (Z.of_nat (Scheduler.flushIndex st) + 1)
                        (Z.of_nat (length (Scheduler.queue st)))
                      = Scheduler.Returned (Z.of_nat (Scheduler.flushIndex st) + 1)).
      { destruct fuel; simpl; rewrite (proj2 (Z.ltb_ge _ _)); (done || lia). }
      rewrite Hloop. exists (Z.to_nat (Z.of_nat (Scheduler.flushIndex st) + 1)).
      split; [done|]. left. lia.
  - exists (length (Scheduler.queue st)). split.
    + by rewrite splice_insert_end.
    + destruct (decide (Scheduler.flushIndex st < length (Scheduler.queue st))%nat);
        [right; left; done|left; lia].
Qed.
Lemma splice_insert_lookup_at (q : list Scheduler.job) (i : nat) (j : Scheduler.job) :
  Scheduler.splice_insert q i j !! (i `min` length q)%nat = Some j.
Proof.
  destruct (decide (i ≤ length q)%nat) as [Hi|Hi].
  - rewrite Nat.min_l by done. rewrite lookup_splice_insert by done.
    rewrite decide_False by lia. by rewrite decide_True.
  - rewrite Nat.min_r by lia. rewrite splice_insert_end by lia.
    rewrite lookup_app_r by lia. by rewrite Nat.sub_diag.
Qed.

(** [queueJob] keeps the queue in order: in a queue of fewer than [2^31]
    jobs whose part behind [flushIndex] is in the order of the ids and
    holds no job twice, [queueJob] returns, with fuel for one step for each
    job, leaves [flushIndex] alone, and the part behind [flushIndex] is
    again in the order of the ids (a job without an id counting as
    [Infinity]) and holds no job twice.  The queue is the old one or the
    old one with the job put in at one index, and a job that is not the
    parent job of the pre-flush is in the queue, at [flushIndex] or behind
    it, afterwards. *)
Theorem queueJob_keeps_order (fields : Scheduler.job → Scheduler.SchedulerJob) (fuel : nat)
    (j : Scheduler.job) (st : Scheduler.scheduler) :
  Z.of_nat (length (Scheduler.queue st)) < 2 ^ 31 →
  (length (Scheduler.queue st) ≤ fuel)%nat →
  Scheduler.pending_sorted fields st →
  NoDup (drop (S (Scheduler.flushIndex st)) (Scheduler.queue st)) →
  ∃ st',
    Scheduler.queueJob fields fuel j st = Scheduler.Returned st' ∧
    Scheduler.flushIndex st' = Scheduler.flushIndex st ∧
    Scheduler.pending_sorted fields st' ∧
    NoDup (drop (S (Scheduler.flushIndex st')) (Scheduler.queue st')) ∧
    (Scheduler.queue st' = Scheduler.queue st ∨
     ∃ i, Scheduler.queue st' = Scheduler.splice_insert (Scheduler.queue st) i j) ∧
    ((Scheduler.flushIndex st ≤ length (Scheduler.queue st))%nat →
     Some j ≠ Scheduler.currentPreFlushParentJob st →
     j ∈ drop (Scheduler.flushIndex st) (Scheduler.queue st')).
Proof.
  intros Hlen Hfuel Hsorted Hnodup.
  destruct (queueJob_cases fields fuel j st Hlen Hfuel)
    as [[Hsame Hwhy]|(Hnot & Hparent & i & Hins & Hi)].
  - exists st. split; [done|]. split; [done|]. split; [done|]. split; [done|].
    split; [by left|]. intros _ Hp. by destruct Hwhy as [?|[? _]].
  - eexists. split; [exact Hins|].
    destruct (queueFlush_queue
                (Scheduler.set_queue (Scheduler.splice_insert (Scheduler.queue st) i j) st))
      as [Hq Hf]. simpl in Hq, Hf.
    split; [done|]. split; [|split; [|split]].
    + destruct Hi as [[H1 H2]|[(H1 & H2 & ->)|(id & H1 & H2 & H3 & H4)]].
      * intros a b ja jb. rewrite Hq, Hf. intros Ha Hab Hja.
        apply lookup_lt_Some in Hja. rewrite splice_insert_end in Hja by done.
        rewrite length_app in Hja. simpl in Hja. lia.
      * apply pending_sorted_insert; [done|lia| |].
        -- intros k jk _ _. unfold Scheduler.getId at 2. rewrite H2.
           by destruct (Scheduler.getId fields jk).
        -- intros k jk Hk Hjk. apply lookup_lt_Some in Hjk. lia.
      * destruct (H4 Hsorted) as [Hb Ha].
        assert (Hid : Scheduler.getId fields j = Scheduler.Finite id).
        { unfold Scheduler.getId. by rewrite H2. }
        apply pending_sorted_insert; [done|lia| |].
        -- intros k jk Hk Hjk. rewrite Hid. apply number_lt_le. by apply (Hb k).
        -- intros k jk Hk Hjk. rewrite Hid. apply number_not_lt_le. by apply (Ha k).
    + rewrite Hq, Hf. apply NoDup_pending_insert; [|done|done].
      destruct Hi as [[H1 H2]|[(H1 & H2 & ->)|(id & H1 & H2 & H3 & H4)]]; lia.
    + right. exists i. exact Hq.
    + intros Hle _. rewrite Hq. apply list_elem_of_lookup.
      exists ((i `min` length (Scheduler.queue st)) - Scheduler.flushIndex st)%nat.
      rewrite lookup_drop.
      replace (Scheduler.flushIndex st
               + ((i `min` length (Scheduler.queue st)) - Scheduler.flushIndex st))%nat
        with (i `min` length (Scheduler.queue st))%nat.
      * apply splice_insert_lookup_at.
      * destruct Hi as [[H1 H2]|[(H1 & H2 & ->)|(id & H1 & H2 & H3 & H4)]]; lia.
Qed.

(** [findInsertionIndex] is a lower bound: in a queue of fewer than
    [2^31] jobs whose part behind [flushIndex] is in the order of the ids,
    it returns, with fuel for one step for each job, an index [i] behind
    [flushIndex] such that the jobs between [flushIndex] and [i] have smaller
    ids than [id] and the jobs from [i] on have not.  When a job is at
    [flushIndex], [i] is at most the length of the queue; when none is, as
    on the empty queue of an idle scheduler, whose [flushIndex] is 0, the
    loop is not entered and [i] is [flushIndex + 1], beyond the end of the
    queue. *)
Theorem findInsertionIndex_lower_bound (fields : Scheduler.job → Scheduler.SchedulerJob)
    (fuel : nat) (id : Z) (st : Scheduler.scheduler) :
  Z.of_nat (length (Scheduler.queue st)) < 2 ^ 31 →
  (length (Scheduler.queue st) ≤ fuel)%nat →
  Scheduler.pending_sorted fields st →
  ∃ i : nat,
    Scheduler.findInsertionIndex fields fuel id st = Scheduler.Returned (Z.of_nat i) ∧
    (Scheduler.flushIndex st < i)%nat ∧
    ((Scheduler.flushIndex st < length (Scheduler.queue st))%nat →
     (i ≤ length (Scheduler.queue st))%nat) ∧
    ((length (Scheduler.queue st) ≤ Scheduler.flushIndex st)%nat →
     i = S (Scheduler.flushIndex st)) ∧
    (∀ k j, (Scheduler.flushIndex st < k < i)%nat → Scheduler.queue st !! k = Some j →
            Scheduler.number_lt (Scheduler.getId fields j) id = true) ∧
    (∀ k j, (i ≤ k)%nat → Scheduler.queue st !! k = Some j →
            Scheduler.number_lt (Scheduler.getId fields j) id = false).
Proof.
  intros Hlen Hfuel Hsorted.
  destruct (decide (Scheduler.flushIndex st < length (Scheduler.queue st))%nat) as [Hidx|Hidx].
  - destruct (findInsertionIndex_returns fields fuel id st Hlen Hfuel Hidx)
      as (i & Hi & Hr & Hspec).
    exists i. destruct (Hspec Hsorted) as [Hb Ha].
    split; [done|]. split; [lia|]. split; [lia|]. split; [lia|done].
  - exists (S (Scheduler.flushIndex st)). split; [|split; [lia|split; [lia|split; [done|split]]]].
    + unfold Scheduler.findInsertionIndex.
      replace (Z.of_nat (S (Scheduler.flushIndex st)))
        with (Z.of_nat (Scheduler.flushIndex st) + 1) by lia.
      destruct fuel; simpl; rewrite (proj2 (Z.ltb_ge _ _)); (done || lia).
    + intros k j Hk. lia.
    + intros k j Hk Hj. apply lookup_lt_Some in Hj. lia.
Qed.

(** The first job of a tick: on the empty queue of the idle scheduler
    [findInsertionIndex] returns 1, and the [splice] of [queueJob] at that
    index appends the job. *)
Example findInsertionIndex_empty_queue :
  Scheduler.findInsertionIndex Scheduler.component_jobs 0 4 Scheduler.initial
    = Scheduler.Returned 1 ∧
  Scheduler.splice_insert (Scheduler.queue Scheduler.initial) 1 4%nat = [4%nat].
Proof. split; reflexivity. Qed.

Lemma splice_insert_min (q : list Scheduler.job) (i : nat) (j : Scheduler.job) :
  Scheduler.splice_insert q i j = Scheduler.splice_insert q (i `min` length q) j.
Proof.
  destruct (decide (i ≤ length q)%nat) as [Hi|Hi].
  - by rewrite Nat.min_l.
  - rewrite Nat.min_r by lia. by rewrite !splice_insert_end by lia.
Qed.

Lemma length_splice_insert (q : list Scheduler.job) (i : nat) (j : Scheduler.job) :
  length (Scheduler.splice_insert q i j) = S (length q).
Proof.
  unfold Scheduler.splice_insert. rewrite length_app. simpl.
  rewrite length_take, length_drop. lia.
Qed.

Lemma indexOf_splice_insert (q : list Scheduler.job) (i : nat) (j : Scheduler.job) :
  j ∉ q → (i ≤ length q)%nat →
  Scheduler.indexOf (Scheduler.splice_insert q i j) j = Z.of_nat i.
Proof.
  intros Hj Hi. unfold Scheduler.indexOf.
  assert (H : list_find (fun y => y = j) (Scheduler.splice_insert q i j) = Some (i, j)).
  { apply list_find_Some. split; [|split; [done|]].
    - rewrite lookup_splice_insert by done. rewrite decide_False by lia. by rewrite decide_True.
    - intros k y Hy Hk. rewrite lookup_splice_insert in Hy by done.
      rewrite decide_True in Hy by done. intros ->. apply Hj.
      by apply list_elem_of_lookup_2 in Hy. }
  by rewrite H.
Qed.

Lemma splice_remove_insert (q : list Scheduler.job) (i : nat) (j : Scheduler.job) :
  (i ≤ length q)%nat →
  Scheduler.splice_remove (Scheduler.splice_insert q i j) i = q.
Proof.
  intros Hi. unfold Scheduler.splice_remove, Scheduler.splice_insert.
  assert (Hlen : length (take i q) = i) by (rewrite length_take; lia).
  rewrite take_app_length' by done.
  rewrite drop_app_ge by lia. rewrite Hlen.
  replace (S i - i)%nat with 1%nat by lia. simpl. rewrite drop_0. apply take_drop.
Qed.

(** [invalidateJob] takes back what [queueJob] put in, behind
    [flushIndex] only: for a job that is not in the queue and is not the
    parent job of the pre-flush, [queueJob] puts the job in the queue; when
    there is a job at [flushIndex], [invalidateJob] then gives the queue as
    it was; when the queue was empty, the job is at the index 0, which is
    not above [flushIndex], and [invalidateJob] leaves it in the queue. *)
Theorem invalidateJob_undoes_queueJob (fields : Scheduler.job → Scheduler.SchedulerJob)
    (fuel : nat) (j : Scheduler.job) (st : Scheduler.scheduler) :
  Z.of_nat (length (Scheduler.queue st)) < 2 ^ 31 →
  (length (Scheduler.queue st) ≤ fuel)%nat →
  j ∉ Scheduler.queue st →
  Some j ≠ Scheduler.currentPreFlushParentJob st →
  ∃ st1,
    Scheduler.queueJob fields fuel j st = Scheduler.Returned st1 ∧
    j ∈ Scheduler.queue st1 ∧
    ((Scheduler.flushIndex st < length (Scheduler.queue st))%nat →
     Scheduler.queue (Scheduler.invalidateJob j st1) = Scheduler.queue st) ∧
    (Scheduler.queue st = [] →
     Scheduler.queue (Scheduler.invalidateJob j st1) = [j]).
Proof.
  intros Hlen Hfuel Hj Hparent.
  destruct (queueJob_cases fields fuel j st Hlen Hfuel)
    as [[Hsame [Hwhy|[Hwhy _]]]|(Hnot & _ & i & Hins & Hi)].
  - done.
  - exfalso. apply Hj. apply list_elem_of_lookup in Hwhy as [k Hk].
    rewrite lookup_drop in Hk. by apply list_elem_of_lookup_2 in Hk.
  - eexists. split; [exact Hins|].
    destruct (queueFlush_queue
                (Scheduler.set_queue (Scheduler.splice_insert (Scheduler.queue st) i j) st))
      as [Hq Hf]. simpl in Hq, Hf.
    set (st1 := Scheduler.queueFlush
                  (Scheduler.set_queue (Scheduler.splice_insert (Scheduler.queue st) i j) st))
      in *.
    split; [|split].
    + rewrite Hq. apply (list_elem_of_lookup_2 _ (i `min` length (Scheduler.queue st))%nat).
      apply splice_insert_lookup_at.
    + intros Hidx.
      assert (Hi' : (Scheduler.flushIndex st < i ≤ length (Scheduler.queue st))%nat).
      { destruct Hi as [[H1 H2]|[(H1 & H2 & ->)|(id & H1 & H2 & H3 & H4)]]; lia. }
      unfold Scheduler.invalidateJob. rewrite Hq, Hf.
      rewrite indexOf_splice_insert by (done || lia).
      rewrite (proj2 (Z.ltb_lt _ _)) by lia. simpl.
      rewrite Nat2Z.id. apply splice_remove_insert. lia.
    + intros Hempty. unfold Scheduler.invalidateJob. rewrite Hq, Hf, Hempty.
      assert (Hone : Scheduler.splice_insert [] i j = [j]).
      { unfold Scheduler.splice_insert. by rewrite take_nil, drop_nil. }
      rewrite Hone. unfold Scheduler.indexOf. simpl. rewrite decide_True by done. simpl.
      rewrite (proj2 (Z.ltb_ge _ _)) by lia. rewrite Hq, Hempty. done.
Qed.

Lemma invalidateJob_fields (j : Scheduler.job) (st : Scheduler.scheduler) :
  Scheduler.isFlushing (Scheduler.invalidateJob j st) = Scheduler.isFlushing st ∧
  Scheduler.isFlushPending (Scheduler.invalidateJob j st) = Scheduler.isFlushPending st ∧
  Scheduler.scheduled (Scheduler.invalidateJob j st) = Scheduler.scheduled st ∧
  (length (Scheduler.queue (Scheduler.invalidateJob j st)) ≤ length (Scheduler.queue st))%nat.
Proof.
  unfold Scheduler.invalidateJob. destruct (_ <? _); simpl; repeat split; try done.
  unfold Scheduler.splice_remove. rewrite length_app, length_take, length_drop. lia.
Qed.

Lemma queueFlush_idle (st : Scheduler.scheduler) :
  Scheduler.isFlushing st = false →
  Scheduler.isFlushing (Scheduler.queueFlush st) = false ∧
  Scheduler.isFlushPending (Scheduler.queueFlush st) = true ∧
  Scheduler.scheduled (Scheduler.queueFlush st)
    = (Scheduler.scheduled st + (if Scheduler.isFlushPending st then 0 else 1))%nat.
Proof.
  intros Hf. unfold Scheduler.queueFlush. rewrite Hf.
  destruct (Scheduler.isFlushPending st) eqn:Hp; simpl; repeat split; (done || lia).
Qed.

Lemma queue_step_flush (fields : Scheduler.job → Scheduler.SchedulerJob) (fuel : nat)
    (c : Scheduler.queue_call) (st : Scheduler.scheduler) :
  Z.of_nat (length (Scheduler.queue st)) < 2 ^ 31 →
  (length (Scheduler.queue st) ≤ fuel)%nat →
  Scheduler.isFlushing st = false →
  Scheduler.flush_due st →
  ∃ st1,
    Scheduler.queue_step fields fuel c st = Scheduler.Returned st1 ∧
    Scheduler.isFlushing st1 = false ∧
    Scheduler.flush_due st1 ∧
    (length (Scheduler.queue st1) ≤ S (length (Scheduler.queue st)))%nat ∧
    Scheduler.scheduled st1
      = (Scheduler.scheduled st
         + (if Scheduler.isFlushPending st then 0
            else if Scheduler.isFlushPending st1 then 1 else 0))%nat ∧
    (Scheduler.isFlushPending st = true → Scheduler.isFlushPending st1 = true).
Proof.
  intros Hlen Hfuel Hidle Hdue.
  assert (Hsame : ∃ st1, Scheduler.Returned st = Scheduler.Returned st1 ∧
            Scheduler.isFlushing st1 = false ∧ Scheduler.flush_due st1 ∧
            (length (Scheduler.queue st1) ≤ S (length (Scheduler.queue st)))%nat ∧
            Scheduler.scheduled st1
              = (Scheduler.scheduled st
                 + (if Scheduler.isFlushPending st then 0
                    else if Scheduler.isFlushPending st1 then 1 else 0))%nat ∧
            (Scheduler.isFlushPending st = true → Scheduler.isFlushPending st1 = true)).
  { exists st. repeat split; try done; try lia. destruct (Scheduler.isFlushPending st); lia. }
  assert (Hflush : ∀ s,
            Scheduler.isFlushing s = false →
            Scheduler.isFlushPending s = Scheduler.isFlushPending st →
            Scheduler.scheduled s = Scheduler.scheduled st →
            (length (Scheduler.queue s) ≤ S (length (Scheduler.queue st)))%nat →
            ∃ st1, Scheduler.Returned (Scheduler.queueFlush s) = Scheduler.Returned st1 ∧
              Scheduler.isFlushing st1 = false ∧ Scheduler.flush_due st1 ∧
              (length (Scheduler.queue st1) ≤ S (length (Scheduler.queue st)))%nat ∧
              Scheduler.scheduled st1
                = (Scheduler.scheduled st
                   + (if Scheduler.isFlushPending st then 0
                      else if Scheduler.isFlushPending st1 then 1 else 0))%nat ∧
              (Scheduler.isFlushPending st = true → Scheduler.isFlushPending st1 = true)).
  { intros s Hs1 Hs2 Hs3 Hs4. exists (Scheduler.queueFlush s).
    destruct (queueFlush_idle s Hs1) as (H1 & H2 & H3).
    destruct (queueFlush_queue s) as [H4 _].
    split; [done|]. split; [done|]. split; [by intros _|]. split; [by rewrite H4|].
    split; [|done]. rewrite H3, H2, Hs2, Hs3. done. }
  destruct c as [j|j|cb|cb]; simpl.
  - destruct (queueJob_cases fields fuel j st Hlen Hfuel)
      as [[Hsame' _]|(_ & _ & i & Hins & _)].
    + rewrite Hsame'. exact Hsame.
    + rewrite Hins. apply Hflush; try done. simpl. rewrite length_splice_insert. lia.
  - destruct (Scheduler.isFlushPending st) eqn:Hp.
    + exists (Scheduler.invalidateJob j st).
      destruct (invalidateJob_fields j st) as (F1 & F2 & F3 & F4).
      split; [done|]. split; [by rewrite F1|]. split; [intros _; by rewrite F2|].
      split; [lia|]. split; [rewrite F3; lia|intros _; by rewrite F2].
    + assert (Hq : Scheduler.queue st = []).
      { destruct (Scheduler.queue st) eqn:E; [done|].
        unfold Scheduler.flush_due in Hdue. rewrite E in Hdue.
        rewrite Hdue in Hp; [done|by left]. }
      assert (Hinv : Scheduler.invalidateJob j st = st).
      { unfold Scheduler.invalidateJob. rewrite Hq. unfold Scheduler.indexOf. simpl.
        by rewrite (proj2 (Z.ltb_ge _ _)) by lia. }
      rewrite Hinv. exact Hsame.
  - unfold Scheduler.queuePreFlushCb. apply Hflush; simpl; (done || lia).
  - unfold Scheduler.queuePostFlushCb. apply Hflush; simpl; (done || lia).
Qed.

(** However many jobs and callbacks are queued while no flush is
    running, one flush is scheduled for them: a sequence of calls of
    [queueJob], [invalidateJob], [queuePreFlushCb] and [queuePostFlushCb]
    returns (the queue staying below [2^31] jobs, with fuel for one step for
    each job), calls [resolvedPromise.then(flushJobs)] once when no flush
    was pending before and one is pending afterwards, and not at all
    otherwise; and whenever one of the queues is not empty afterwards, a
    flush is pending. *)
Theorem queue_calls_schedule_one_flush (fields : Scheduler.job → Scheduler.SchedulerJob)
    (fuel : nat) (l : list Scheduler.queue_call) (st : Scheduler.scheduler) :
  Z.of_nat (length (Scheduler.queue st) + length l) < 2 ^ 31 →
  (length (Scheduler.queue st) + length l ≤ fuel)%nat →
  Scheduler.isFlushing st = false →
  Scheduler.flush_due st →
  ∃ st',
    Scheduler.queue_calls fields fuel l st = Scheduler.Returned st' ∧
    Scheduler.isFlushing st' = false ∧
    Scheduler.flush_due st' ∧
    Scheduler.scheduled st'
      = (Scheduler.scheduled st
         + (if Scheduler.isFlushPending st then 0
            else if Scheduler.isFlushPending st' then 1 else 0))%nat ∧
    (Scheduler.isFlushPending st = true → Scheduler.isFlushPending st' = true).
Proof.
  revert st. induction l as [|c l IH]; intros st Hlen Hfuel Hidle Hdue.
  - exists st. simpl. repeat split; try done. destruct (Scheduler.isFlushPending st); lia.
  - simpl in Hlen, Hfuel. simpl.
    destruct (queue_step_flush fields fuel c st) as (st1 & Hstep & H1 & H2 & H3 & H4 & H5);
      [lia|lia|done|done|].
    rewrite Hstep.
    destruct (IH st1) as (st' & Hcalls & H1' & H2' & H4' & H5'); [lia|lia|done|done|].
    exists st'. split; [done|]. split; [done|]. split; [done|]. split.
    + rewrite H4', H4.
      destruct (Scheduler.isFlushPending st) eqn:E, (Scheduler.isFlushPending st1) eqn:E1,
        (Scheduler.isFlushPending st') eqn:E'; try lia;
        try (specialize (H5 eq_refl); congruence);
        try (specialize (H5' eq_refl); congruence).
    + intros Hp. auto.
Qed.

(** A job that is being flushed queues itself only when it is allowed
    to: for the job at [flushIndex] of a running flush, which is not in the
    queue behind [flushIndex] and is not the parent job of the pre-flush,
    [queueJob] does nothing when [allowRecurse] is not set, and puts the job
    in the queue behind [flushIndex] when it is set. *)
Theorem queueJob_self_trigger (fields : Scheduler.job → Scheduler.SchedulerJob)
    (fuel : nat) (j : Scheduler.job) (st : Scheduler.scheduler) :
  Z.of_nat (length (Scheduler.queue st)) < 2 ^ 31 →
  (length (Scheduler.queue st) ≤ fuel)%nat →
  Scheduler.isFlushing st = true →
  Scheduler.queue st !! Scheduler.flushIndex st = Some j →
  j ∉ drop (S (Scheduler.flushIndex st)) (Scheduler.queue st) →
  Some j ≠ Scheduler.currentPreFlushParentJob st →
  ∃ st',
    Scheduler.queueJob fields fuel j st = Scheduler.Returned st' ∧
    (Scheduler.job_allowRecurse (fields j) = false → st' = st) ∧
    (Scheduler.job_allowRecurse (fields j) = true →
     j ∈ drop (S (Scheduler.flushIndex st)) (Scheduler.queue st') ∧
     length (Scheduler.queue st') = S (length (Scheduler.queue st))).
Proof.
  intros Hlen Hfuel Hflushing Hat Hnot Hparent.
  assert (Hin : j ∈ drop (Scheduler.flushIndex st) (Scheduler.queue st)).
  { apply list_elem_of_lookup. exists 0%nat. rewrite lookup_drop.
    by rewrite Nat.add_0_r. }
  destruct (queueJob_cases fields fuel j st Hlen Hfuel)
    as [[Hsame [Hwhy|[_ Hwhy]]]|(_ & _ & i & Hins & Hi)].
  - done.
  - exists st. split; [done|]. split; [done|]. intros Hrec.
    rewrite Hflushing, Hrec in Hwhy. simpl in Hwhy.
    replace (Scheduler.flushIndex st + 1)%nat with (S (Scheduler.flushIndex st)) in Hwhy
      by lia. done.
  - eexists. split; [exact Hins|].
    destruct (queueFlush_queue
                (Scheduler.set_queue (Scheduler.splice_insert (Scheduler.queue st) i j) st))
      as [Hq Hf]. simpl in Hq, Hf.
    split.
    + intros Hrec. exfalso.
      assert (Hcond : Scheduler.queueJob fields fuel j st = Scheduler.Returned st).
      { unfold Scheduler.queueJob. rewrite Hrec, andb_false_r.
        unfold Scheduler.includes. rewrite (bool_decide_eq_true_2 _ Hin).
        apply lookup_lt_Some in Hat.
        rewrite bool_decide_eq_false_2 by lia. done. }
      rewrite Hcond in Hins. injection Hins as Hst.
      apply (f_equal (fun s => length (Scheduler.queue s))) in Hst.
      rewrite Hq, length_splice_insert in Hst. lia.
    + intros _. rewrite Hq. split; [|apply length_splice_insert].
      apply lookup_lt_Some in Hat.
      assert (Hi' : (Scheduler.flushIndex st < i ≤ length (Scheduler.queue st))%nat).
      { destruct Hi as [[H1 H2]|[(H1 & H2 & ->)|(id & H1 & H2 & H3 & H4)]]; lia. }
      apply list_elem_of_lookup. exists (i - S (Scheduler.flushIndex st))%nat.
      rewrite lookup_drop.
      replace (S (Scheduler.flushIndex st) + (i - S (Scheduler.flushIndex st)))%nat
        with i by lia.
      rewrite lookup_splice_insert by lia.
      rewrite decide_False by lia. by rewrite decide_True.
Qed.

Lemma st_flushing_sorted :
  Scheduler.pending_sorted Scheduler.component_jobs Scheduler.st_flushing.
Proof.
  intros a b ja jb Ha Hab H1 H2. simpl in Ha.
  destruct a as [|[|[|[|a]]]]; try lia; destruct b as [|[|[|[|b]]]]; try lia;
    simpl in H1, H2; try done;
    injection H1 as <-; injection H2 as <-; vm_compute; congruence.
Qed.

Lemma findInsertionIndex_lower_bound_witness :
  ∃ i : nat,
    Scheduler.findInsertionIndex Scheduler.component_jobs 4 4 Scheduler.st_flushing
      = Scheduler.Returned (Z.of_nat i) ∧
    (1 < i ≤ 4)%nat.
Proof.
  destruct (findInsertionIndex_lower_bound Scheduler.component_jobs 4 4 Scheduler.st_flushing)
    as (i & Hi & Hlo & Hhi & _).
  - vm_compute. reflexivity.
  - simpl. lia.
  - exact st_flushing_sorted.
  - exists i. split; [exact Hi|]. split; [exact Hlo|]. apply Hhi. simpl. lia.
Defined.

Lemma queueJob_keeps_order_witness :
  ∃ st',
    Scheduler.queueJob Scheduler.component_jobs 4 4%nat Scheduler.st_flushing
      = Scheduler.Returned st' ∧
    Scheduler.pending_sorted Scheduler.component_jobs st' ∧
    4%nat ∈ drop 1 (Scheduler.queue st').
Proof.
  destruct (queueJob_keeps_order Scheduler.component_jobs 4 4%nat Scheduler.st_flushing)
    as (st' & H1 & H2 & H3 & H4 & H5 & H6).
  - vm_compute. reflexivity.
  - simpl. lia.
  - exact st_flushing_sorted.
  - simpl. apply NoDup_cons. split; [|apply NoDup_singleton].
    intros [=]%list_elem_of_singleton.
  - exists st'. split; [exact H1|]. split; [exact H3|]. apply H6; [simpl; lia|done].
Defined.

Lemma invalidateJob_undoes_queueJob_witness :
  ∃ st1,
    Scheduler.queueJob Scheduler.component_jobs 4 4%nat Scheduler.st_flushing
      = Scheduler.Returned st1 ∧
    Scheduler.queue (Scheduler.invalidateJob 4%nat st1) = [1; 3; 5; 7]%nat.
Proof.
  destruct (invalidateJob_undoes_queueJob Scheduler.component_jobs 4 4%nat
              Scheduler.st_flushing) as (st1 & H1 & H2 & H3 & _).
  - vm_compute. reflexivity.
  - simpl. lia.
  - simpl. rewrite !elem_of_cons. intros [H|[H|[H|[H|H%elem_of_nil]]]]; done.
  - done.
  - exists st1. split; [exact H1|]. apply H3. simpl. lia.
Defined.

Lemma queue_calls_schedule_one_flush_witness :
  ∃ st',
    Scheduler.queue_calls Scheduler.component_jobs 4
      [Scheduler.QueueJob 2%nat; Scheduler.QueueJob 1%nat;
       Scheduler.QueuePostFlushCb (Scheduler.Single 9%nat); Scheduler.InvalidateJob 2%nat]
      Scheduler.initial = Scheduler.Returned st' ∧
    Scheduler.scheduled st' = (if Scheduler.isFlushPending st' then 1 else 0)%nat.
Proof.
  destruct (queue_calls_schedule_one_flush Scheduler.component_jobs 4
              [Scheduler.QueueJob 2%nat; Scheduler.QueueJob 1%nat;
               Scheduler.QueuePostFlushCb (Scheduler.Single 9%nat);
               Scheduler.InvalidateJob 2%nat]
              Scheduler.initial) as (st' & H1 & _ & _ & H2 & _).
  - vm_compute. reflexivity.
  - simpl. lia.
  - reflexivity.
  - intros [H|[H|H]]; done.
  - exists st'. split; [exact H1|exact H2].
Defined.

Lemma queueJob_self_trigger_witness :
  ∃ st',
    Scheduler.queueJob Scheduler.component_jobs 4 3%nat Scheduler.st_flushing
      = Scheduler.Returned st' ∧
    3%nat ∈ drop 2 (Scheduler.queue st').
Proof.
  destruct (queueJob_self_trigger Scheduler.component_jobs 4 3%nat Scheduler.st_flushing)
    as (st' & H1 & _ & H2).
  - vm_compute. reflexivity.
  - simpl. lia.
  - reflexivity.
  - reflexivity.
  - simpl. rewrite !elem_of_cons. intros [H|[H|H%elem_of_nil]]; done.
  - done.
  - exists st'. split; [exact H1|]. by apply H2.
Defined.

(** ** Enumerating the keys *)

Lemma cells_lookup (st : state) (target : addr) (key : pkey) (d : did) :
  map_get (cells st target) key = Some d →
  targetMap st !! target = Some (cells st target).
Proof.
  unfold cells. destruct (targetMap st !! target) as [depsMap|]; [done|].
  simpl. unfold map_get. simpl. done.
Qed.

(** An effect that has enumerated the keys of a reactive object is told
    of new and of deleted keys: under a running effect with tracking on,
    the [ownKeys] trap returns the own keys of the raw object, leaves the
    heap as it is, and subscribes the effect to the iteration key, for an
    array to [length]; after that, [trigger] for an added key (on an array,
    an added index) has the effect among those it passes to
    [triggerEffects], and on an object that is not an array so has
    [trigger] for a deleted key. *)
Theorem ownKeys_reacts_to_new_keys (code : program) (h : handler) (target : addr)
    (o : obj) (e : eid) (st : state) :
  heap st !! target = Some o →
  ((∃ props, o = OPlain props) ∨ (∃ len props, o = OArray len props)) →
  activeEffect st = Some e →
  shouldTrack st = true →
  markers_sound e st →
  cells_allocated st →
  ∃ keys st1,
    ownKeys target st = Done keys st1 ∧
    heap st1 = heap st ∧
    (∀ k, k ∈ keys ↔ is_Some (own_props o !! k)) ∧
    subscribed st1 (cells st1 target)
      (if isArray st target then KStr "length" else KSym ITERATE_KEY) e ∧
    (∀ key newValue,
       (isArray st target = true → isIntegerKey key = true) →
       ∃ l, trigger code h target ADD (Some key) newValue st1
              = triggerEffects code h l (record (EvTrigger target ADD (Some key)) st1) ∧
            e ∈ l) ∧
    (∀ key newValue,
       isArray st target = false →
       ∃ l, trigger code h target DELETE (Some key) newValue st1
              = triggerEffects code h l (record (EvTrigger target DELETE (Some key)) st1) ∧
            e ∈ l).
Proof.
  intros Ho Hkind Ha Hs Hm Hc.
  set (k0 := if isArray st target then KStr "length" else KSym ITERATE_KEY).
  set (st1 := track target ITERATE k0 st).
  destruct (track_subscribes target ITERATE k0 e st Ha Hs Hm Hc) as (Hsub & _ & _ & _).
  fold st1 in Hsub.
  assert (Hheap : heap st1 = heap st) by apply heap_track.
  assert (Harr1 : isArray st1 target = isArray st target).
  { unfold isArray. by rewrite Hheap. }
  assert (Hmap1 : isMap st1 target = false).
  { unfold isMap. rewrite Hheap, Ho. by destruct Hkind as [[props ->]|(len & props & ->)]. }
  destruct Hsub as (d & Hd & He).
  pose proof (cells_lookup st1 target k0 d Hd) as Htm.
  exists (dom (own_props o)), st1.
  split; [| split; [done|split; [|split; [by exists d|split]]]].
  - unfold ownKeys, Reflect_ownKeys. fold k0. fold st1. by rewrite Ho.
  - intros k. apply elem_of_dom.
  - intros key newValue Hint.
    assert (Haff : ∃ ds, affected st1 target ADD (Some key) newValue (cells st1 target)
                         = Normal ds ∧ Some d ∈ ds).
    { unfold affected. rewrite bool_decide_eq_false_2 by done. rewrite Harr1, Hmap1.
      destruct (isArray st target) eqn:Harr.
      - specialize (Hint eq_refl). destruct key; try done. simpl.
        eexists. split; [reflexivity|]. unfold k0 in Hd. rewrite Hd.
        apply elem_of_cons. right. by apply list_elem_of_singleton.
      - rewrite andb_false_r. simpl. eexists. split; [reflexivity|].
        unfold k0 in Hd. rewrite Hd. apply elem_of_cons. right. apply elem_of_cons. by left. }
    destruct Haff as (ds & Haff & Hin).
    destruct (trigger_subscribers code h target ADD (Some key) newValue st1 _ ds Htm Haff)
      as (l & Hl & Hiff).
    exists l. split; [exact Hl|]. apply Hiff. by exists d.
  - intros key newValue Harr.
    assert (Haff : ∃ ds, affected st1 target DELETE (Some key) newValue (cells st1 target)
                         = Normal ds ∧ Some d ∈ ds).
    { unfold affected. rewrite bool_decide_eq_false_2 by done. rewrite Harr1, Hmap1, Harr.
      rewrite andb_false_r. simpl. eexists. split; [reflexivity|].
      unfold k0 in Hd. rewrite Harr in Hd. rewrite Hd.
      apply elem_of_cons. right. apply elem_of_cons. by left. }
    destruct Haff as (ds & Haff & Hin).
    destruct (trigger_subscribers code h target DELETE (Some key) newValue st1 _ ds Htm Haff)
      as (l & Hl & Hiff).
    exists l. split; [exact Hl|]. apply Hiff. by exists d.
Qed.

Lemma ownKeys_reacts_to_new_keys_witness :
  ∃ keys st1,
    ownKeys 0%nat (set_activeEffect (Some 0%nat) st_obj) = Done keys st1 ∧
    ∃ l, trigger code_const (sem code_const 0) 0%nat ADD (Some (KStr "b")) (VNum 2) st1
           = triggerEffects code_const (sem code_const 0) l
               (record (EvTrigger 0%nat ADD (Some (KStr "b"))) st1) ∧
         0%nat ∈ l.
Proof.
  destruct (ownKeys_reacts_to_new_keys code_const (sem code_const 0) 0%nat
              (OPlain {[KStr "a" := VNum 1]}) 0%nat (set_activeEffect (Some 0%nat) st_obj))
    as (keys & st1 & H1 & _ & _ & _ & H2 & _).
  - reflexivity.
  - left. by eexists.
  - reflexivity.
  - reflexivity.
  - intros _ d [H|H]; vm_compute in H; discriminate H.
  - intros t k d H. unfold cells in H. simpl in H. rewrite lookup_empty in H. done.
  - exists keys, st1. split; [exact H1|]. apply H2. intros H. vm_compute in H. discriminate H.
Defined.
